(** * TidyTree / patristic: the Branch tree model, its Newick codec and
      neighbor joining, embedded from [dist/tidytree.js].

    Branch objects live in a store and are named by references, because the
    source links them in both directions ([parent] and [children]) and mutates
    them in place.  Numbers are exact rationals, and sums, products and
    quotients of lengths and distances are exact; where a number is printed,
    in [numberToString], the product and the quotient are the runtime's, which
    rounds, and they are parameters like its conversions between numbers and
    text.  Strings are sequences of code units below 256. *)

From Stdlib Require Import QArith Qabs ZArith String Ascii Lia Sorted.
From stdpp Require Import base option list.

Set Warnings "-register-all".

Local Open Scope string_scope.
Local Open Scope list_scope.

(** ** The store *)

Abbreviation ref := nat (only parsing).

(** The fields of a Branch that the modelled methods read or write.  [_guid],
    [data] and the counter written by [excise] are never read by them. *)
Module Br.
Record t : Type := Mk {
  id : string;
  length : Q;
  parent : option ref;
  children : list ref;
  depth : Z;
  height : Z;
  value : Q
}.

Definition set_id (x : string) (b : t) : t :=
  Mk x (length b) (parent b) (children b) (depth b) (height b) (value b).
Definition set_length (x : Q) (b : t) : t :=
  Mk (id b) x (parent b) (children b) (depth b) (height b) (value b).
Definition set_parent (x : option ref) (b : t) : t :=
  Mk (id b) (length b) x (children b) (depth b) (height b) (value b).
Definition set_children (x : list ref) (b : t) : t :=
  Mk (id b) (length b) (parent b) x (depth b) (height b) (value b).
Definition set_depth (x : Z) (b : t) : t :=
  Mk (id b) (length b) (parent b) (children b) x (height b) (value b).
Definition set_height (x : Z) (b : t) : t :=
  Mk (id b) (length b) (parent b) (children b) (depth b) x (value b).
Definition set_value (x : Q) (b : t) : t :=
  Mk (id b) (length b) (parent b) (children b) (depth b) (height b) x.
End Br.

Abbreviation heap := (list Br.t).

(** ** Computations: a store, exceptions, and fuel for the recursive walks *)

Inductive exn : Type :=
| Error (msg : string)
| TypeError (msg : string).

Inductive outcome (A : Type) : Type :=
| Ok (a : A) (h : heap)
| Throw (e : exn) (h : heap)
| Stuck.
Arguments Ok {A} a h.
Arguments Throw {A} e h.
Arguments Stuck {A}.

Definition M (A : Type) : Type := heap → outcome A.

Definition ret {A} (a : A) : M A := fun h => Ok a h.
Definition bind {A B} (m : M A) (k : A → M B) : M B :=
  fun h => match m h with
           | Ok a h' => k a h'
           | Throw e h' => Throw e h'
           | Stuck => Stuck
           end.
Definition throw {A} (e : exn) : M A := fun h => Throw e h.
Definition stuck {A} : M A := fun _ => Stuck.

Notation "'let*' x ':=' m 'in' k" := (bind m (fun x => k))
  (at level 10, x name, m at level 100, k at level 200,
   format "'[v' 'let*'  x  ':='  m  'in'  '/' k ']'").
Notation "'do' m 'in' k" := (bind m (fun _ => k))
  (at level 10, m at level 100, k at level 200,
   format "'[v' 'do'  m  'in'  '/' k ']'").

(** Reading a Branch through a reference; a reference outside the store has
    no counterpart in the source. *)
Definition get (r : ref) : M Br.t :=
  fun h => match h !! r with Some b => Ok b h | None => Stuck end.
Definition modify (r : ref) (f : Br.t → Br.t) : M unit :=
  fun h => match h !! r with
           | Some b => Ok tt (<[r := f b]> h)
           | None => Stuck
           end.
Definition alloc (b : Br.t) : M ref :=
  fun h => Ok (List.length h) (h ++ [b]).

(** Dereferencing [x.parent] when the next step reads a property of it. *)
Definition deref (what : string) (o : option ref) : M ref :=
  match o with
  | Some r => ret r
  | None => throw (TypeError ("Cannot read properties of null (reading '" ++ what ++ "')"))
  end.

(** ** Array primitives on [children] *)

Fixpoint indexOf_from (x : ref) (l : list ref) (i : Z) : Z :=
  match l with
  | [] => (-1)%Z
  | y :: l' => if Nat.eqb y x then i else indexOf_from x l' (i + 1)%Z
  end.
Definition indexOf (l : list ref) (x : ref) : Z := indexOf_from x l 0%Z.

(** The start index of [splice], after the clamping JavaScript applies. *)
Definition splice_start (len : nat) (start : Z) : nat :=
  if (start <? 0)%Z then Z.to_nat (Z.max (Z.of_nat len + start) 0)
  else Nat.min (Z.to_nat start) len.

(** [l.splice(start, 1)] and [l.splice(start, 1, x)]. *)
Definition splice1 (l : list ref) (start : Z) : list ref :=
  let s := splice_start (List.length l) start in
  take s l ++ drop (S s) l.
Definition splice1_with (l : list ref) (start : Z) (x : ref) : list ref :=
  let s := splice_start (List.length l) start in
  take s l ++ x :: drop (S s) l.

(** ** Branch.prototype *)

(** The object literal handed to [new Branch(data)]: absent keys and falsy
    values take the same default there, so they share one representation. *)
Record data : Type := Data {
  d_id : string;
  d_length : Q;
  d_parent : option ref;
  d_children : list ref
}.
Definition no_data : data := Data "" 0 None [].

Definition threshold : Q := 5 # 10000.

Module Branch.

(** [new Branch(data)] *)
Definition new (d : data) : M ref :=
  alloc (Br.Mk (d_id d)
               (if Qeq_bool (d_length d) 0 then 0%Q else d_length d)
               (d_parent d) (d_children d) 0 0 1).

Definition isRoot (b : Br.t) : bool :=
  match Br.parent b with None => true | Some _ => false end.
Definition isLeaf (b : Br.t) : bool :=
  Nat.eqb (List.length (Br.children b)) 0.

Definition setParent (this : ref) (p : option ref) : M ref :=
  do modify this (Br.set_parent p) in ret this.
Definition setLength (this : ref) (x : Q) : M ref :=
  do modify this (Br.set_length x) in ret this.

Definition push (this : ref) (c : ref) : M unit :=
  modify this (fun b => Br.set_children (Br.children b ++ [c]) b).

(** [addChild(data)]: [inl c] is an existing Branch, [inr d] a data object. *)
Definition addChild (this : ref) (arg : ref + data) : M ref :=
  let* c := match arg with
            | inl c => do modify c (Br.set_parent (Some this)) in ret c
            | inr d => new (Data (d_id d) (d_length d) (Some this) (d_children d))
            end in
  do push this c in
  ret c.

Fixpoint forEach (f : ref → M unit) (l : list ref) : M unit :=
  match l with
  | [] => ret tt
  | x :: l' => do f x in forEach f l'
  end.

(** [addParent(data, siblings)] *)
Definition addParent (this : ref) (arg : ref + data) (siblings : list ref) : M ref :=
  let* c := match arg with
            | inl c => ret c
            | inr d => new d
            end in
  do forEach (fun sib => do setParent sib (Some c) in ret tt) siblings in
  do modify c (Br.set_children (this :: siblings)) in
  do modify this (Br.set_parent (Some c)) in
  ret this.

(** [this.children.forEach(callback)] on the live array: the length is read
    once, each index is looked up when its turn comes, and an index that has
    fallen off the end is skipped.  [a] carries the variables the callback
    closes over and assigns. *)
Fixpoint forEach_live {A} (this : ref) (callback : ref → A → M A)
         (n k : nat) (a : A) : M A :=
  match n with
  | O => ret a
  | S n' =>
      let* b := get this in
      let* a' := match Br.children b !! k with
                 | Some c => callback c a
                 | None => ret a
                 end in
      forEach_live this callback n' (S k) a'
  end.

Definition eachChild {A} (this : ref) (callback : ref → A → M A) (a : A) : M A :=
  let* b := get this in
  forEach_live this callback (List.length (Br.children b)) 0 a.

Fixpoint eachAfter {A} (fuel : nat) (callback : ref → A → M A)
         (this : ref) (a : A) : M A :=
  match fuel with
  | O => stuck
  | S fuel' =>
      let* a' := eachChild this (eachAfter fuel' callback) a in
      callback this a'
  end.

Fixpoint eachBefore {A} (fuel : nat) (callback : ref → A → M A)
         (this : ref) (a : A) : M A :=
  match fuel with
  | O => stuck
  | S fuel' =>
      let* a' := callback this a in
      eachChild this (eachBefore fuel' callback) a'
  end.

Fixpoint getRoot (fuel : nat) (branch : ref) : M ref :=
  match fuel with
  | O => stuck
  | S fuel' =>
      let* b := get branch in
      match Br.parent b with
      | None => ret branch
      | Some p => getRoot fuel' p
      end
  end.

(** [excise()] *)
Definition excise (this : ref) : M ref :=
  let* b := get this in
  if isRoot b && Nat.ltb 1 (List.length (Br.children b)) then
    throw (Error "Cannot excise a root Branch with multiple children.")
  else
    do eachChild this (fun child _ =>
         let* t := get this in
         do modify child (fun c => Br.set_length (Br.length c + Br.length t) c) in
         let* t := get this in
         do modify child (Br.set_parent (Br.parent t)) in
         let* t := get this in
         match Br.parent t with
         | None => ret tt
         | Some p => push p child
         end) tt in
    let* t := get this in
    let* p := deref "children" (Br.parent t) in
    let* pb := get p in
    do modify p (Br.set_children
                   (splice1 (Br.children pb) (indexOf (Br.children pb) this))) in
    let* t := get this in
    deref "representing" (Br.parent t).

(** [d.children.reduce((a, c) => a + c.value, 0)] *)
Fixpoint reduce_value (l : list ref) (a : Q) : M Q :=
  match l with
  | [] => ret a
  | c :: l' => let* cb := get c in reduce_value l' (a + Br.value cb)
  end.

(** [fixDistances()]; the accumulator of the first walk is [maxdepth]. *)
Definition fixDistances (fuel : nat) (this : ref) : M ref :=
  let* root := getRoot fuel this in
  do modify root (Br.set_depth 0) in
  let* maxdepth := eachBefore fuel (fun d maxdepth =>
    let* b := get d in
    match Br.parent b with
    | None => ret maxdepth
    | Some p =>
        let* pb := get p in
        do modify d (Br.set_depth (Br.depth pb + 1)) in
        let* b := get d in
        ret (if (maxdepth <? Br.depth b)%Z then Br.depth b else maxdepth)
    end) this 0%Z in
  do eachAfter fuel (fun d _ =>
    let* b := get d in
    do modify d (Br.set_height (maxdepth - Br.depth b)) in
    let* b := get d in
    let* s := reduce_value (Br.children b) 0 in
    modify d (Br.set_value (Br.value b + s))) this tt in
  ret this.

(** [consolidate()] *)
Definition consolidate (fuel : nat) (this : ref) : M ref :=
  do eachAfter fuel (fun branch _ =>
    let* b := get branch in
    match Br.parent b with
    | None => ret tt
    | Some p =>
        if Qle_bool threshold (Br.length b) then ret tt
        else
          let* pb := get p in
          do (if String.eqb (Br.id pb) ""
              then modify p (Br.set_id (Br.id b))
              else modify p (Br.set_id (Br.id pb ++ "+" ++ Br.id b))) in
          do excise branch in
          ret tt
    end) this tt in
  fixDistances fuel this.

(** [simplify()] *)
Definition simplify (fuel : nat) (this : ref) : M ref :=
  do eachAfter fuel (fun branch _ =>
    let* b := get branch in
    match Br.children b with
    | [child] =>
        let* cb := get child in
        do (if String.eqb (Br.id cb) ""
            then modify child (Br.set_id (Br.id b))
            else modify child (Br.set_id (Br.id b ++ "+" ++ Br.id cb))) in
        do excise branch in
        ret tt
    | _ => ret tt
    end) this tt in
  fixDistances fuel this.

(** [getDescendants(includeSelf)] *)
Fixpoint getDescendants (fuel : nat) (this : ref) (includeSelf : bool)
  : M (list ref) :=
  match fuel with
  | O => stuck
  | S fuel' =>
      let* b := get this in
      let descendants := if includeSelf then [this] else [] in
      if isLeaf b then ret descendants
      else
        eachChild this (fun child descendants =>
          let* ds := getDescendants fuel' child true in
          ret (descendants ++ ds)) descendants
  end.

(** [hasDescendant(descendant)] for a Branch argument *)
Definition hasDescendant (fuel : nat) (this descendant : ref) : M bool :=
  let* descendants := getDescendants fuel this false in
  ret (existsb (Nat.eqb descendant) descendants).

(** [getMRCA(cousin)]; [steps] bounds the turns of its [while] loop. *)
Fixpoint getMRCA_loop (steps fuel : nat) (mrca cousin : ref) : M ref :=
  match steps with
  | O => stuck
  | S steps' =>
      let* found := hasDescendant fuel mrca cousin in
      if found then ret mrca
      else
        let* b := get mrca in
        match Br.parent b with
        | None =>
            throw (Error "Branch and cousin do not appear to share a common ancestor!")
        | Some p => getMRCA_loop steps' fuel p cousin
        end
  end.
Definition getMRCA (fuel : nat) (this cousin : ref) : M ref :=
  getMRCA_loop fuel fuel this cousin.

(** [depthOf(descendant)] for a Branch argument; [current] runs up the
    parent links and is [None] once it has passed the root. *)
Fixpoint depthOf_loop (fuel : nat) (this : ref) (current : option ref)
         (distance : Q) : M Q :=
  match fuel with
  | O => stuck
  | S fuel' =>
      match current with
      | Some c =>
          if Nat.eqb c this then ret distance
          else
            let* b := get c in
            depthOf_loop fuel' this (Br.parent b) (distance + Br.length b)
      | None =>
          throw (TypeError "Cannot read properties of null (reading 'length')")
      end
  end.
Definition depthOf (fuel : nat) (this descendant : ref) : M Q :=
  depthOf_loop fuel this (Some descendant) 0.

(** [distanceBetween(descendantA, descendantB)] *)
Definition distanceBetween (fuel : nat) (this descendantA descendantB : ref)
  : M Q :=
  let* mrca := getMRCA fuel descendantA descendantB in
  let* da := depthOf fuel mrca descendantA in
  let* db := depthOf fuel mrca descendantB in
  ret (da + db)%Q.

(** [distanceTo(cousin)] *)
Definition distanceTo (fuel : nat) (this cousin : ref) : M Q :=
  let* mrca := getMRCA fuel this cousin in
  let* da := depthOf fuel mrca this in
  let* db := depthOf fuel mrca cousin in
  ret (da + db)%Q.

(** [invert()] *)
Definition invert (this : ref) : M ref :=
  let* b := get this in
  match Br.parent b with
  | Some oldParent =>
      let* pb := get oldParent in
      let temp := Br.length pb in
      do modify oldParent (Br.set_length (Br.length b)) in
      do modify this (Br.set_length temp) in
      let* ob := get oldParent in
      do modify this (Br.set_parent (Br.parent ob)) in
      do push this oldParent in
      do modify oldParent (Br.set_parent (Some this)) in
      let* ob := get oldParent in
      do modify oldParent (Br.set_children
           (splice1 (Br.children ob) (indexOf (Br.children ob) this))) in
      ret this
  | None => throw (Error "Cannot invert root node!")
  end.

(** [isConsistent()] *)
Fixpoint isConsistent (fuel : nat) (this : ref) : M bool :=
  match fuel with
  | O => stuck
  | S fuel' =>
      let* b := get this in
      let* up := match Br.parent b with
                 | None => ret true
                 | Some p =>
                     let* pb := get p in
                     ret (existsb (Nat.eqb this) (Br.children pb))
                 end in
      if negb up then ret false
      else if isLeaf b then ret true
      else
        let fix some_wrong (l : list ref) : M bool :=
          match l with
          | [] => ret false
          | c :: l' =>
              let* cb := get c in
              match Br.parent cb with
              | Some p => if Nat.eqb p this then some_wrong l' else ret true
              | None => ret true
              end
          end in
        let fix every (l : list ref) : M bool :=
          match l with
          | [] => ret true
          | c :: l' =>
              let* ok := isConsistent fuel' c in
              if ok then every l' else ret false
          end in
        let* wrong := some_wrong (Br.children b) in
        if wrong then ret false else every (Br.children b)
  end.

(** [isolate()] *)
Definition isolate (this : ref) : M ref :=
  let* b := get this in
  let* p := deref "children" (Br.parent b) in
  let* pb := get p in
  let index := indexOf (Br.children pb) this in
  do modify p (Br.set_children (splice1 (Br.children pb) index)) in
  do setParent this None in
  ret this.

(** [remove()] *)
Definition remove (fuel : nat) (this : ref) : M ref :=
  let* root := getRoot fuel this in
  do isolate this in
  ret root.

(** [replace(replacement)] *)
Definition replace (fuel : nat) (this replacement : ref) : M ref :=
  let* root := getRoot fuel this in
  let* b := get this in
  let* p := deref "children" (Br.parent b) in
  let* pb := get p in
  let index := indexOf (Br.children pb) this in
  do modify p (Br.set_children (splice1_with (Br.children pb) index replacement)) in
  ret root.

(** [reroot()] *)
Fixpoint reroot_collect (fuel : nat) (current : ref) (toInvert : list ref)
  : M (list ref) :=
  match fuel with
  | O => stuck
  | S fuel' =>
      let* b := get current in
      match Br.parent b with
      | None => ret toInvert
      | Some p => reroot_collect fuel' p (toInvert ++ [current])
      end
  end.
Definition reroot (fuel : nat) (this : ref) : M ref :=
  let* toInvert := reroot_collect fuel this [] in
  do forEach (fun c => do invert c in ret tt) (rev toInvert) in
  fixDistances fuel this.

(** [sum(value)]: [None] stands for a missing valuator. *)
Definition sum (fuel : nat) (this : ref) (value : option (ref → M Q)) : M ref :=
  let value := match value with
               | Some f => f
               | None => fun d => let* b := get d in ret (Br.value b)
               end in
  do eachAfter fuel (fun d _ =>
       let* v := value d in
       let* b := get d in
       let* s := reduce_value (Br.children b) 0 in
       modify d (Br.set_value (v + s))) this tt in
  ret this.

(** [count()] *)
Definition count (fuel : nat) (this : ref) : M ref :=
  sum fuel this (Some (fun _ => ret 1%Q)).

(** [fixParenthood(nonrecursive)] *)
Fixpoint fixParenthood (fuel : nat) (this : ref) (nonrecursive : bool) : M ref :=
  match fuel with
  | O => stuck
  | S fuel' =>
      do eachChild this (fun child _ =>
           let* cb := get child in
           do (match Br.parent cb with
               | None => modify child (Br.set_parent (Some this))
               | Some _ => ret tt
               end) in
           let* cb := get child in
           do (if bool_decide (Br.parent cb = Some this) then ret tt
               else modify child (Br.set_parent (Some this))) in
           let* cb := get child in
           if negb nonrecursive && Nat.ltb 0 (List.length (Br.children cb))
           then do fixParenthood fuel' child false in ret tt
           else ret tt) tt in
      ret this
  end.

(** [rotate(recursive)]: an array is never falsy, so the guard never
    returns early. *)
Definition rotate (this : ref) : M ref :=
  do modify this (fun b => Br.set_children (rev (Br.children b)) b) in
  ret this.

(** [getAncestors(includeSelf)] *)
Fixpoint getAncestors_loop (fuel : nat) (current : ref) (ancestors : list ref)
  : M (list ref) :=
  match fuel with
  | O => stuck
  | S fuel' =>
      let* b := get current in
      match Br.parent b with
      | Some p => getAncestors_loop fuel' p (ancestors ++ [p])
      | None => ret ancestors
      end
  end.
Definition getAncestors (fuel : nat) (this : ref) (includeSelf : bool)
  : M (list ref) :=
  getAncestors_loop fuel this (if includeSelf then [this] else []).

(** [getLeaves()] *)
Fixpoint getLeaves (fuel : nat) (this : ref) : M (list ref) :=
  match fuel with
  | O => stuck
  | S fuel' =>
      let* b := get this in
      if isLeaf b then ret [this]
      else
        eachChild this (fun child descendants =>
          let* ds := getLeaves fuel' child in
          ret (descendants ++ ds)) []
  end.

(** [each(callback)]: one turn of the outer [while] takes the Branches of
    [current] from first to last (the array is reversed, then popped) and
    collects their children in [next]. *)
Fixpoint each_level {A} (callback : ref → A → M A) (current next : list ref)
         (a : A) : M (list ref * A) :=
  match current with
  | [] => ret (next, a)
  | branch :: current' =>
      let* a' := callback branch a in
      let* next' := eachChild branch (fun child next => ret (next ++ [child]))
                              next in
      each_level callback current' next' a'
  end.
Fixpoint each_loop {A} (fuel : nat) (callback : ref → A → M A)
         (next : list ref) (a : A) : M A :=
  match next with
  | [] => ret a
  | _ :: _ =>
      match fuel with
      | O => stuck
      | S fuel' =>
          let* r := each_level callback next [] a in
          each_loop fuel' callback (fst r) (snd r)
      end
  end.
Definition each {A} (fuel : nat) (callback : ref → A → M A) (this : ref)
           (a : A) : M A :=
  each_loop fuel callback [this] a.

(** [links()]: pairs of [source] and [target]. *)
Definition links (fuel : nat) (this : ref) : M (list (ref * ref)) :=
  each fuel (fun d links =>
    let* b := get d in
    match Br.parent b with
    | None => ret links
    | Some p => ret (links ++ [(p, d)])
    end) this [].

(** [flip()] *)
Definition flip (fuel : nat) (this : ref) : M ref :=
  do each fuel (fun c _ => do rotate c in ret tt) this tt in
  ret this.

(** [hasChild(child)] and [isChildOf(parent)] for a Branch argument *)
Definition hasChild (this child : ref) : M bool :=
  let* b := get this in
  ret (existsb (Nat.eqb child) (Br.children b)).
Definition isChildOf (this parent : ref) : M bool :=
  let* b := get this in
  ret (bool_decide (Br.parent b = Some parent)).

(** [isDescendantOf(ancestor)] for a Branch argument: the comparison of
    [this.parent.id] with a Branch is never true. *)
Fixpoint isDescendantOf (fuel : nat) (this ancestor : ref) : M bool :=
  match fuel with
  | O => stuck
  | S fuel' =>
      let* b := get this in
      match Br.parent b with
      | None => ret false
      | Some p =>
          if Nat.eqb p ancestor then ret true
          else isDescendantOf fuel' p ancestor
      end
  end.

(** [getDescendant(id)]: [None] is [undefined]. *)
Fixpoint getDescendant (fuel : nat) (this : ref) (id : string)
  : M (option ref) :=
  match fuel with
  | O => stuck
  | S fuel' =>
      let* b := get this in
      if String.eqb (Br.id b) id then ret (Some this)
      else
        (fix loop (l : list ref) : M (option ref) :=
           match l with
           | [] => ret None
           | c :: l' =>
               let* descendant := getDescendant fuel' c id in
               match descendant with
               | Some d => ret (Some d)
               | None => loop l'
               end
           end) (Br.children b)
  end.

End Branch.

(** ** Plain objects: [toObject], [parseJSON], [clone], [copy] *)

(** The object [toObject] builds; [o_children] is [None] when the key is
    absent. *)
Inductive obj : Type :=
| Obj (o_id : string) (o_length : Q) (o_children : option (list obj)).

Fixpoint mapM {A B} (f : A → M B) (l : list A) : M (list B) :=
  match l with
  | [] => ret []
  | x :: l' => let* y := f x in let* ys := mapM f l' in ret (y :: ys)
  end.

Fixpoint toObject (fuel : nat) (this : ref) : M obj :=
  match fuel with
  | O => stuck
  | S fuel' =>
      let* b := get this in
      if Nat.ltb 0 (List.length (Br.children b)) then
        let* cs := mapM (toObject fuel') (Br.children b) in
        ret (Obj (Br.id b) (Br.length b) (Some cs))
      else ret (Obj (Br.id b) (Br.length b) None)
  end.

(** [parseJSON(json)] on an object; [fuel] is for the [fixDistances] calls. *)
Fixpoint parseJSON (fuel : nat) (json : obj) : M ref :=
  match json with
  | Obj i l cs =>
      let* root := Branch.new (Data i l None []) in
      do match cs with
         | Some children =>
             (fix each (l : list obj) : M unit :=
                match l with
                | [] => ret tt
                | child :: l' =>
                    let* c := parseJSON fuel child in
                    do Branch.addChild root (inl c) in
                    each l'
                end) children
         | None => ret tt
         end in
      Branch.fixDistances fuel root
  end.

(** [clone()] *)
Definition clone (fuel : nat) (this : ref) : M ref :=
  let* o := toObject fuel this in
  parseJSON fuel o.

(** [copy()]: [JSON.stringify] goes through [toJSON], that is [toObject], and
    [parseJSON] reads the text back into the same object. *)
Definition copy (fuel : nat) (this : ref) : M ref :=
  let* o := toObject fuel this in
  let* newThis := parseJSON fuel o in
  do modify newThis (Br.set_parent None) in
  Branch.fixDistances fuel newThis.

(** ** Newick text *)

(** [/\s/] on code units below 256. *)
Definition is_space (c : ascii) : bool :=
  let n := nat_of_ascii c in
  (Nat.leb 9 n && Nat.leb n 13) || Nat.eqb n 32 || Nat.eqb n 160.

(** The alternatives of the capture group [(;|\(|\)|,|:)]. *)
Definition is_delim (c : ascii) : bool :=
  match c with
  | ";"%char | "("%char | ")"%char | ","%char | ":"%char => true
  | _ => false
  end.

Fixpoint rstrip_rev (r : list ascii) : list ascii :=
  match r with
  | c :: r' => if is_space c then rstrip_rev r' else r
  | [] => []
  end.

(** [newick.split(/\s*(;|\(|\)|,|:)\s*/)].  The pattern matches at the first
    position from which only white space separates it from a delimiter, so
    the piece before a match is the text read so far without its trailing
    white space; the match then swallows the white space after the delimiter.
    [tok] is the piece being read, reversed; [skip] is set while that white
    space is being swallowed. *)
Fixpoint split_from (s : string) (tok : list ascii) (skip : bool) : list string :=
  match s with
  | EmptyString => [string_of_list_ascii (rev tok)]
  | String c s' =>
      if is_delim c then
        string_of_list_ascii (rev (rstrip_rev tok))
          :: String c EmptyString :: split_from s' [] true
      else if skip && is_space c then split_from s' [] true
      else split_from s' (c :: tok) false
  end.
Definition split_newick (newick : string) : list string :=
  split_from newick [] false.

(** [s.split(sep)[1]] for a separator string: the text between the first and
    the second occurrence of [sep], if [sep] occurs at all. *)
Definition split_second (sep s : string) : option string :=
  match index 0 sep s with
  | None => None
  | Some i =>
      let rest := substring (i + String.length sep)
                            (String.length s - (i + String.length sep)) s in
      match index 0 sep rest with
      | None => Some rest
      | Some j => Some (substring 0 j rest)
      end
  end.

Definition digit_of (c : ascii) : option Z :=
  let n := nat_of_ascii c in
  if Nat.leb 48 n && Nat.leb n 57 then Some (Z.of_nat (n - 48)) else None.

Fixpoint parse_digits (s : string) (acc : option Z) : option Z :=
  match s with
  | EmptyString => acc
  | String c s' =>
      match digit_of c with
      | Some d => parse_digits s' (Some (match acc with
                                         | Some a => 10 * a + d
                                         | None => d
                                         end)%Z)
      | None => acc
      end
  end.

(** [parseInt(x)] where [x] is a string of decimal digits or [undefined];
    [None] is NaN. *)
Definition parseInt (x : option string) : option Z :=
  match x with
  | Some s => parse_digits s None
  | None => None
  end.

Fixpoint zeros (n : nat) : string :=
  match n with
  | O => EmptyString
  | S n' => String "0"%char (zeros n')
  end.

(** [new Array(n).join("0")] *)
Definition array_join_zeros (n : Z) : string := zeros (Z.to_nat n - 1).

Section NewickCodec.

(** The runtime's conversions between numbers and text, and its arithmetic
    on doubles where the result is printed: [a * b], [a / b] and
    [Math.pow(a, n)], each rounded as the runtime rounds it. *)
Variable Number_toString : Q → string.
Variable parseFloat : string → Q.
Variable Number_times : Q → Q → Q.
Variable Number_over : Q → Q → Q.
Variable Math_pow : Q → Z → Q.

(** [numberToString(num)] *)
Definition numberToString (num : Q) : string :=
  let numStr := Number_toString num in
  if Qlt_le_dec (Qabs num) 1 then
    match parseInt (split_second "e-" (Number_toString num)) with
    | Some e =>
        if Z.eqb e 0 then numStr
        else
          let negative := if Qlt_le_dec num 0 then true else false in
          let num := if negative then (num * -1)%Q else num in
          let num := Number_times num (Math_pow 10 (e - 1)) in
          let numStr :=
            ("0." ++ array_join_zeros e
                  ++ substring 2 (String.length (Number_toString num) - 2)
                               (Number_toString num))%string in
          if negative then ("-" ++ numStr)%string else numStr
    | None => numStr
    end
  else
    match parseInt (split_second "+" (Number_toString num)) with
    | Some e =>
        if Z.ltb 20 e then
          let e := (e - 20)%Z in
          let num := Number_over num (Math_pow 10 e) in
          (Number_toString num ++ array_join_zeros (e + 1))%string
        else numStr
    | None => numStr
    end.

(** [toNewick(nonterminus)] *)
Fixpoint toNewick (fuel : nat) (this : ref) (nonterminus : bool) : M string :=
  match fuel with
  | O => stuck
  | S fuel' =>
      let* b := get this in
      let* out :=
        if Branch.isLeaf b then ret ""
        else
          let* cs := mapM (fun child => toNewick fuel' child true)
                          (Br.children b) in
          ret ("(" ++ String.concat "," cs ++ ")")%string in
      let out := (out ++ Br.id b)%string in
      let out := if Qeq_bool (Br.length b) 0 then out
                 else (out ++ ":" ++ numberToString (Br.length b))%string in
      let out := if nonterminus then out else (out ++ ";")%string in
      ret out
  end.

(** [parseNewick(newick)]: the loop over the tokens.  [x] is the token
    before the current one, [ancestors] has its top first, and [tree] is
    [None] once [ancestors.pop()] has come back empty: reading a property of
    it, or assigning to one, then throws. *)
Definition the_tree (what : string) (tree : option ref) : M ref :=
  match tree with
  | Some r => ret r
  | None =>
      throw (TypeError ("Cannot read properties of undefined (reading '"
                          ++ what ++ "')"))
  end.
Definition the_tree_to_set (what : string) (tree : option ref) : M ref :=
  match tree with
  | Some r => ret r
  | None =>
      throw (TypeError ("Cannot set properties of undefined (setting '"
                          ++ what ++ "')"))
  end.

Fixpoint parseNewick_loop (tokens : list string) (x : option string)
         (ancestors : list ref) (tree : option ref) : M (option ref) :=
  match tokens with
  | [] => ret tree
  | token :: rest =>
      if String.eqb token "(" then
        let* t := the_tree "addChild" tree in
        let* c := Branch.addChild t (inr no_data) in
        parseNewick_loop rest (Some token) (t :: ancestors) (Some c)
      else if String.eqb token "," then
        let* top := the_tree "addChild" (head ancestors) in
        let* c := Branch.addChild top (inr no_data) in
        parseNewick_loop rest (Some token) ancestors (Some c)
      else if String.eqb token ")" then
        parseNewick_loop rest (Some token) (tail ancestors) (head ancestors)
      else if String.eqb token ":" then
        parseNewick_loop rest (Some token) ancestors tree
      else
        do match x with
           | Some x =>
               if String.eqb x ")" || String.eqb x "(" || String.eqb x ","
               then
                 let* t := the_tree_to_set "id" tree in
                 modify t (Br.set_id token)
               else if String.eqb x ":" then
                 let* t := the_tree_to_set "length" tree in
                 modify t (Br.set_length (parseFloat token))
               else ret tt
           | None => ret tt
           end in
        parseNewick_loop rest (Some token) ancestors tree
  end.

Definition parseNewick (fuel : nat) (newick : string) : M ref :=
  let* tree := Branch.new no_data in
  let* tree := parseNewick_loop (split_newick newick) None [] (Some tree) in
  let* t := the_tree "fixDistances" tree in
  Branch.fixDistances fuel t.

End NewickCodec.

(** ** Neighbor joining *)

(** The record [that] of [parseMatrix].  The two [Set]s are lists in insertion
    order; [labelToNode] holds [None] where the array has a hole.  [PNewick]
    is never read. *)
Module That.
Record t : Type := Mk {
  N : nat;
  cN : nat;
  D : list (list Q);
  labels : list string;
  currIndexToLabel : list Z;
  rowChange : list Q;
  newRow : list Q;
  labelToNode : list (option ref);
  nextIndex : nat;
  I : list (list nat);
  S : list (list Q);
  removedIndices : list nat;
  indicesLeft : list nat;
  rowSumMax : Q;
  rowSums : list Q
}.
End That.

(** Reads of number arrays.  Every index the loops below use is in range when
    the matrix is square and the arrays have its size; the default stands for
    a read that the source never makes. *)
Definition at1 (a : list Q) (i : nat) : Q := nth i a 0%Q.
Definition at2 (a : list (list Q)) (i j : nat) : Q := at1 (nth i a []) j.
Definition set2 (a : list (list Q)) (i j : nat) (v : Q) : list (list Q) :=
  <[i := <[j := v]> (nth i a [])]> a.

Definition has (s : list nat) (i : nat) : bool := existsb (Nat.eqb i) s.

(** [Array.prototype.sort] with the comparator [(a, b) => key a - key b]:
    a stable sort on the keys. *)
Fixpoint insert_sorted (key : nat → Q) (x : nat) (l : list nat) : list nat :=
  match l with
  | [] => [x]
  | y :: l' =>
      if Qle_bool (key x) (key y) then x :: l
      else y :: insert_sorted key x l'
  end.
Definition sort_by (key : nat → Q) (l : list nat) : list nat :=
  foldr (insert_sorted key) [] l.

(** [sortWithIndices(toSort, skip)]: the sorted values and [sortIndices]. *)
Definition sortWithIndices (toSort : list Q) (skip : nat) : list Q * list nat :=
  let indexCopy :=
    filter (fun i => negb (Qeq_bool (at1 toSort i) (-1)) && negb (Nat.eqb i skip))
           (seq 0 (List.length toSort)) in
  let indexCopy := sort_by (at1 toSort) indexCopy in
  (map (at1 toSort) indexCopy, indexCopy).

(** [sumRows(a)] *)
Definition sumRows (a : list (list Q)) : list Q :=
  let n := List.length a in
  map (fun i => fold_left (fun sum j => (sum + at2 a i j)%Q) (seq 0 n) 0%Q)
      (seq 0 n).

(** The running minimum of [search]: [qMin] is [None] while it is
    [Infinity]; [minI] and [minJ] start at [-1]. *)
Record best : Type := Best { qMin : option Q; minI : Z; minJ : Z }.

Definition below (q : Q) (m : option Q) : bool :=
  match m with
  | None => true
  | Some x => if Qlt_le_dec q x then true else false
  end.
Definition above (q : Q) (m : option Q) : bool :=
  match m with
  | None => false
  | Some x => if Qlt_le_dec x q then true else false
  end.

Definition Q_of_nat (n : nat) : Q := inject_Z (Z.of_nat n).

Section Search.
Variable that : That.t.

Definition n2 : Q := (Q_of_nat (That.cN that) - 2)%Q.

Definition q_of (r c2 : nat) : Q :=
  (at2 (That.D that) r c2 * n2 - at1 (That.rowSums that) r
     - at1 (That.rowSums that) c2)%Q.

Definition consider (r c2 : nat) (b : best) : best :=
  if below (q_of r c2) (qMin b)
  then Best (Some (q_of r c2)) (Z.of_nat r) (Z.of_nat c2)
  else b.

(** The first loop: one candidate per row, its nearest neighbour. *)
Definition guess_row (b : best) (r : nat) : best :=
  if has (That.removedIndices that) r then b
  else match nth r (That.I that) [] !! 0%nat with
       | None => b
       | Some c2 =>
           if has (That.removedIndices that) c2 then b
           else consider r c2 b
       end.

(** The inner loop of the second pass, over the columns [c] of row [r];
    it stops at the [break]. *)
Fixpoint scan_row (r : nat) (cols : list nat) (vals : list Q) (b : best) : best :=
  match cols, vals with
  | c2 :: cols', v :: vals' =>
      if has (That.removedIndices that) c2 then scan_row r cols' vals' b
      else if above (v * n2 - at1 (That.rowSums that) r - That.rowSumMax that)%Q
                    (qMin b)
      then b
      else scan_row r cols' vals' (consider r c2 b)
  | _, _ => b
  end.

Definition scan (b : best) (r : nat) : best :=
  if has (That.removedIndices that) r then b
  else scan_row r (nth r (That.I that) []) (nth r (That.S that) []) b.

(** [search(t)] *)
Definition search : Z * Z :=
  let rows := seq 0 (That.N that) in
  let b := fold_left guess_row rows (Best None (-1) (-1)) in
  let b := fold_left scan rows b in
  (minI b, minJ b).
End Search.

(** [recalculateDistanceMatrix(t, joinedIndex1, joinedIndex2)] *)
Section Recalculate.
Variables (t : That.t) (joinedIndex1 joinedIndex2 : nat).

Definition removed1 : list nat := That.removedIndices t ++ [joinedIndex1].

(** The first loop: [newRow], [rowChange] and [sum], read off the old [D]. *)
Definition recalc_first (acc : list Q * list Q * Q) (i : nat)
  : list Q * list Q * Q :=
  let '(newRow, rowChange, sum) := acc in
  if has removed1 i then acc
  else
    let aux := (at2 (That.D t) joinedIndex1 i + at2 (That.D t) joinedIndex2 i)%Q in
    let aux2 := at2 (That.D t) joinedIndex1 joinedIndex2 in
    let x := (0.5 * (aux - aux2))%Q in
    (<[i := x]> newRow,
     <[i := (-0.5 * (aux + aux2))%Q]> rowChange,
     (sum + x)%Q).

(** The second loop: row and column [joinedIndex1] are struck out with
    [-1], row and column [joinedIndex2] take [newRow]. *)
Definition recalc_second (newRow rowChange : list Q)
           (acc : list (list Q) * list Q * Q) (i : nat)
  : list (list Q) * list Q * Q :=
  let '(D, rowSums, newMax) := acc in
  let D := set2 D joinedIndex1 i (-1) in
  let D := set2 D i joinedIndex1 (-1) in
  if has removed1 i then (D, rowSums, newMax)
  else
    let D := set2 D joinedIndex2 i (at1 newRow i) in
    let D := set2 D i joinedIndex2 (at1 newRow i) in
    let rowSums := <[i := (at1 rowSums i + at1 rowChange i)%Q]> rowSums in
    let newMax := if Qlt_le_dec newMax (at1 rowSums i)
                  then at1 rowSums i else newMax in
    (D, rowSums, newMax).

Definition recalculateDistanceMatrix : That.t :=
  let rows := seq 0 (List.length (That.D t)) in
  let '(newRow, rowChange, sum) :=
    fold_left recalc_first rows (That.newRow t, That.rowChange t, 0%Q) in
  let '(D, rowSums, newMax) :=
    fold_left (recalc_second newRow rowChange) rows
              (That.D t, That.rowSums t, 0%Q) in
  let rowSums := <[joinedIndex1 := 0%Q]> rowSums in
  let rowSums := <[joinedIndex2 := sum]> rowSums in
  let newMax := if Qlt_le_dec newMax sum then sum else newMax in
  That.Mk (That.N t) (That.cN t) D (That.labels t) (That.currIndexToLabel t)
          rowChange newRow (That.labelToNode t) (That.nextIndex t)
          (That.I t) (That.S t) removed1
          (filter (fun i => negb (Nat.eqb i joinedIndex1)) (That.indicesLeft t))
          newMax rowSums.
End Recalculate.

(** Reading and writing an array at an index that may be negative: a
    negative index is a property beside the elements, which nothing reads. *)
Definition label_at (labels : list string) (i : Z) : string :=
  if (i <? 0)%Z then "" else nth (Z.to_nat i) labels "".
Definition set_node (a : list (option ref)) (i : Z) (node : ref)
  : list (option ref) :=
  if (i <? 0)%Z then a else <[Z.to_nat i := Some node]> a.

(** [setUpNode(labelIndex, distance)]: a label below [N] gets a new leaf, a
    higher one names the Branch an earlier join left in [labelToNode]. *)
Definition setUpNode (that : That.t) (labelIndex : Z) (distance : Q)
  : M (ref * That.t) :=
  if (labelIndex <? Z.of_nat (That.N that))%Z then
    let* node := Branch.new (Data (label_at (That.labels that) labelIndex)
                                  distance None []) in
    ret (node,
         That.Mk (That.N that) (That.cN that) (That.D that) (That.labels that)
                 (That.currIndexToLabel that) (That.rowChange that)
                 (That.newRow that)
                 (set_node (That.labelToNode that) labelIndex node)
                 (That.nextIndex that) (That.I that) (That.S that)
                 (That.removedIndices that) (That.indicesLeft that)
                 (That.rowSumMax that) (That.rowSums that))
  else
    match nth (Z.to_nat labelIndex) (That.labelToNode that) None with
    | Some node =>
        do Branch.setLength node distance in
        ret (node, that)
    | None =>
        throw (TypeError "Cannot read properties of undefined (reading 'setLength')")
    end.

(** The two lengths of a join of rows [i] and [j]. *)
Definition join_d1 (that : That.t) (i j : nat) : Q :=
  (0.5 * at2 (That.D that) i j
   + (at1 (That.rowSums that) i - at1 (That.rowSums that) j)
     / (2 * Q_of_nat (That.cN that) - 4))%Q.
Definition join_d2 (that : That.t) (i j : nat) : Q :=
  (at2 (That.D that) i j - join_d1 that i j)%Q.

(** One turn of [while (that.cN > 2)]. *)
Definition join_step (that : That.t) : M That.t :=
  let '(minI, minJ) := search that in
  if (minI <? 0)%Z then
    throw (TypeError "Cannot read properties of undefined (reading '-1')")
  else
    let i := Z.to_nat minI in
    let j := Z.to_nat minJ in
    let d1 := join_d1 that i j in
    let d2 := join_d2 that i j in
    let l1 := nth i (That.currIndexToLabel that) 0%Z in
    let l2 := nth j (That.currIndexToLabel that) 0%Z in
    let* n1 := setUpNode that l1 d1 in
    let* n2 := setUpNode (snd n1) l2 d2 in
    let* node3 := Branch.new (Data "" 0 None [fst n1; fst n2]) in
    let that := recalculateDistanceMatrix (snd n2) i j in
    let sorted := sortWithIndices (nth j (That.D that) []) j in
    ret (That.Mk (That.N that) (That.cN that - 1) (That.D that)
                 (That.labels that)
                 (<[j := Z.of_nat (That.nextIndex that)]>
                    (<[i := (-1)%Z]> (That.currIndexToLabel that)))
                 (That.rowChange that) (That.newRow that)
                 (<[That.nextIndex that := Some node3]> (That.labelToNode that))
                 (S (That.nextIndex that))
                 (<[i := []]> (<[j := snd sorted]> (That.I that)))
                 (<[i := []]> (<[j := fst sorted]> (That.S that)))
                 (That.removedIndices that) (That.indicesLeft that)
                 (That.rowSumMax that) (That.rowSums that)).

Fixpoint join_loop (fuel : nat) (that : That.t) : M That.t :=
  if Nat.ltb 2 (That.cN that) then
    match fuel with
    | O => stuck
    | S fuel' => let* that := join_step that in join_loop fuel' that
    end
  else ret that.

(** The state [parseMatrix] sets up before its loop. *)
Definition parseMatrix_init (matrix : list (list Q)) (labels : list string) : That.t :=
  let N := List.length matrix in
  let sorted := map (fun i => sortWithIndices (nth i matrix []) i) (seq 0 N) in
  let rowSums := sumRows matrix in
  That.Mk N N matrix labels
          (map Z.of_nat (seq 0 N))
          (repeat 0%Q N) (repeat 0%Q N)
          (repeat None (2 * N))
          N
          (map snd sorted) (map fst sorted)
          [] (seq 0 N)
          (fold_left (fun m i => if Qlt_le_dec m (at1 rowSums i)
                                 then at1 rowSums i else m) (seq 0 N) 0%Q)
          rowSums.

(** The last join, of the first two indices left in [indicesLeft].  With
    fewer than two left (a matrix of fewer than two rows) the source reads
    properties of [undefined]: with none it throws at once, with one it first
    sets up that one node, with the distance NaN that [new Branch] replaces
    by 0. *)
Definition join_last (that : That.t) : M ref :=
  match That.indicesLeft that with
  | minI :: minJ :: _ =>
      let l1 := nth minI (That.currIndexToLabel that) 0%Z in
      let l2 := nth minJ (That.currIndexToLabel that) 0%Z in
      let d := (at2 (That.D that) minI minJ / 2)%Q in
      let* n1 := setUpNode that l1 d in
      let* n2 := setUpNode (snd n1) l2 d in
      Branch.new (Data "" 0 None [fst n1; fst n2])
  | [minI] =>
      let l1 := nth minI (That.currIndexToLabel that) 0%Z in
      do setUpNode that l1 0 in
      throw (TypeError "Cannot read properties of undefined (reading 'setLength')")
  | [] =>
      throw (TypeError "Cannot read properties of undefined (reading 'undefined')")
  end.

(** [parseMatrix(matrix, labels)] *)
Definition parseMatrix (fuel : nat) (matrix : list (list Q)) (labels : list string)
  : M ref :=
  let* that := join_loop fuel (parseMatrix_init matrix labels) in
  let* tree := join_last that in
  do Branch.fixParenthood fuel tree false in
  Branch.fixDistances fuel tree.

(** ** Sample trees *)

(** [(A:0.0001,B:0.0001);] *)
Definition two_short_leaves : heap :=
  [ Br.Mk "" 0 None [1; 2] 0 0 1;
    Br.Mk "A" (1 # 10000) (Some 0) [] 1 0 1;
    Br.Mk "B" (1 # 10000) (Some 0) [] 1 0 1 ].

(** [(A:1,(C:3,D:4):5);] *)
Definition uneven : heap :=
  [ Br.Mk "" 0 None [1; 2] 0 0 1;
    Br.Mk "A" 1 (Some 0) [] 0 0 1;
    Br.Mk "" 5 (Some 0) [3; 4] 0 0 1;
    Br.Mk "C" 3 (Some 2) [] 0 0 1;
    Br.Mk "D" 4 (Some 2) [] 0 0 1 ].

(** [(A:1)P;] next to a second root [Q]. *)
Definition two_roots : heap :=
  [ Br.Mk "P" 0 None [1] 0 0 1;
    Br.Mk "A" 1 (Some 0) [] 0 0 1;
    Br.Mk "Q" 0 None [] 0 0 1 ].


(** ** Trees in the store *)

(** The shape of a tree of Branches: the reference of each Branch and the
    shapes below it, in the order of [children]. *)
Inductive shape : Type :=
| Sh (root : ref) (kids : list shape).

Definition root_of (t : shape) : ref := match t with Sh r _ => r end.
Definition kids_of (t : shape) : list shape := match t with Sh _ ks => ks end.

Fixpoint refs (t : shape) : list ref :=
  match t with Sh r ks => r :: flat_map refs ks end.

Fixpoint postorder (t : shape) : list ref :=
  match t with Sh r ks => flat_map postorder ks ++ [r] end.

(** The number of levels of a shape; it bounds the fuel a walk needs. *)
Fixpoint levels (t : shape) : nat :=
  match t with Sh _ ks => S (foldr (fun k m => Nat.max (levels k) m) 0 ks) end.

(** [tree_at h p t]: the store holds a tree of shape [t] whose root has
    parent [p]; every Branch lists exactly its children and every child
    points back to the Branch that lists it. *)
Inductive tree_at (h : heap) : option ref → shape → Prop :=
| tree_at_node p r ks b :
    h !! r = Some b →
    Br.parent b = p →
    Br.children b = map root_of ks →
    Forall (tree_at h (Some r)) ks →
    tree_at h p (Sh r ks).

(** A valid tree: finite and acyclic by [tree_at], no Branch in two places. *)
Definition valid_tree (h : heap) (t : shape) : Prop :=
  tree_at h None t ∧ NoDup (refs t).

(** Visiting a list of Branches in order. *)
Fixpoint foldM {A} (callback : ref → A → M A) (l : list ref) (a : A) : M A :=
  match l with
  | [] => ret a
  | x :: l' => let* a' := callback x a in foldM callback l' a'
  end.

(** The links of a Branch, and stores that agree on them. *)
Definition links (b : Br.t) : option ref * list ref := (Br.parent b, Br.children b).
Definition same_links (h h' : heap) : Prop :=
  ∀ n, (links <$> h' !! n) = (links <$> h !! n).

Definition depth_of (h : heap) (n : ref) : Z :=
  match h !! n with Some b => Br.depth b | None => 0%Z end.

(** The greatest [depth] among the listed Branches, starting from [m]; and
    from 0, the value the variable [maxdepth] starts with. *)
Definition maxdepth_from (h : heap) (m : Z) (l : list ref) : Z :=
  fold_left (fun m n => Z.max m (depth_of h n)) l m.
Definition maxdepth (h : heap) (l : list ref) : Z := maxdepth_from h 0 l.

(** Every Branch of the shape has the depth of its level, the root [d]. *)
Inductive depths_from (h : heap) : Z → shape → Prop :=
| depths_node d r ks b :
    h !! r = Some b →
    Br.depth b = d →
    Forall (depths_from h (d + 1)%Z) ks →
    depths_from h d (Sh r ks).

(** A Branch whose children are all in the store. *)
Definition closed (h : heap) (n : ref) : Prop :=
  ∃ b, h !! n = Some b ∧ Forall (fun c => is_Some (h !! c)) (Br.children b).

(** The two callbacks of [fixDistances]. *)
Definition depth_callback (d : ref) (maxdepth : Z) : M Z :=
  let* b := get d in
  match Br.parent b with
  | None => ret maxdepth
  | Some p =>
      let* pb := get p in
      do modify d (Br.set_depth (Br.depth pb + 1)) in
      let* b := get d in
      ret (if (maxdepth <? Br.depth b)%Z then Br.depth b else maxdepth)
  end.

Definition height_callback (maxdepth : Z) (d : ref) (_ : unit) : M unit :=
  let* b := get d in
  do modify d (Br.set_height (maxdepth - Br.depth b)) in
  let* b := get d in
  let* s := Branch.reduce_value (Br.children b) 0 in
  modify d (Br.set_value (Br.value b + s)).

(** The callback [sum] hands to [eachAfter], for a valuator [value]. *)
Definition sum_callback (value : ref → M Q) (d : ref) (_ : unit) : M unit :=
  let* v := value d in
  let* b := get d in
  let* s := Branch.reduce_value (Br.children b) 0 in
  modify d (Br.set_value (v + s)).

(** The number of Branches of a shape. *)
Definition size (t : shape) : nat := List.length (refs t).

(** Every Branch of the shape has the size of its subtree as [value]. *)
Inductive sizes (h : heap) : shape → Prop :=
| sizes_node r ks b :
    h !! r = Some b →
    (Br.value b == Q_of_nat (size (Sh r ks)))%Q →
    Forall (sizes h) ks →
    sizes h (Sh r ks).

(** [subshape s t]: [s] is [t] or sits somewhere below it. *)
Inductive subshape (s : shape) : shape → Prop :=
| subshape_here : subshape s s
| subshape_below r ks k : k ∈ ks → subshape s k → subshape s (Sh r ks).

Definition uneven_shape : shape :=
  Sh 0 [Sh 1 []; Sh 2 [Sh 3 []; Sh 4 []]].

(** The callback of [simplify]. *)
Definition simplify_callback (branch : ref) (_ : unit) : M unit :=
  let* b := get branch in
  match Br.children b with
  | [child] =>
      let* cb := get child in
      do (if String.eqb (Br.id cb) ""
          then modify child (Br.set_id (Br.id b))
          else modify child (Br.set_id (Br.id b ++ "+" ++ Br.id cb))) in
      do Branch.excise branch in
      ret tt
  | _ => ret tt
  end.

(** What a walk of [simplify] below the Branch [P] may have done to the
    trees [ts] under it: [P] still heads a tree, with as many children as
    before, made of Branches that were below it already and no deeper than
    before, and nothing outside that tree has changed. *)
Definition rearranged (h : heap) (p : option ref) (P : ref) (ts : list shape)
           (h' : heap) (ts' : list shape) : Prop :=
  tree_at h' p (Sh P ts')
  ∧ List.length ts' = List.length ts
  ∧ flat_map refs ts' ⊆+ flat_map refs ts
  ∧ (∀ m, Forall (fun t => levels t ≤ m) ts → Forall (fun t => levels t ≤ m) ts')
  ∧ (∀ n, n ∉ refs (Sh P ts) → h' !! n = h !! n).

(** The callback of [consolidate]. *)
Definition consolidate_callback (branch : ref) (_ : unit) : M unit :=
  let* b := get branch in
  match Br.parent b with
  | None => ret tt
  | Some p =>
      if Qle_bool threshold (Br.length b) then ret tt
      else
        let* pb := get p in
        do (if String.eqb (Br.id pb) ""
            then modify p (Br.set_id (Br.id b))
            else modify p (Br.set_id (Br.id pb ++ "+" ++ Br.id b))) in
        do Branch.excise branch in
        ret tt
  end.

(** The walk of [simplify] below the [i]-th child of any Branch [P], with
    [fuel] enough for that child, ends and leaves a rearrangement. *)
Definition simplify_walk_ends (fuel : nat) : Prop :=
  ∀ h p P ts i k,
    tree_at h p (Sh P ts) → NoDup (refs (Sh P ts)) →
    ts !! i = Some k → levels k ≤ fuel →
    ∃ h' ts', Branch.eachAfter fuel simplify_callback (root_of k) tt h = Ok tt h'
              ∧ rearranged h p P ts h' ts'.

(** [((B:1,C:1)A:1)R;] *)
Definition one_child_root : heap :=
  [ Br.Mk "R" 0 None [1] 0 0 1;
    Br.Mk "A" 1 (Some 0) [2; 3] 0 0 1;
    Br.Mk "B" 1 (Some 1) [] 0 0 1;
    Br.Mk "C" 1 (Some 1) [] 0 0 1 ].
Definition one_child_root_shape : shape :=
  Sh 0 [Sh 1 [Sh 2 []; Sh 3 []]].

(** ** Neighbor joining: an example *)

(** The matrix of the 4-taxon example and its labels. *)
Definition four_taxa : list (list Q) :=
  [[0; 5; 9; 9]; [5; 0; 10; 10]; [9; 10; 0; 8]; [9; 10; 8; 0]]%Q.
Definition four_labels : list string := ["A"; "B"; "C"; "D"].

(** ** Newick: trees as text sees them *)

(** A tree with the fields Newick text carries. *)
Inductive ntree : Type :=
| NT (n_id : string) (n_length : Q) (n_kids : list ntree).

Fixpoint nlevels (t : ntree) : nat :=
  match t with NT _ _ ks => S (foldr (fun k m => Nat.max (nlevels k) m) 0 ks) end.

(** [holds same h p r t]: the Branch [r] of the store, with parent [p], heads
    a tree with the ids and the children of [t], and lengths that are [same]
    as those of [t]. *)
Inductive holds (same : Q → Q → Prop) (h : heap)
  : option ref → ref → ntree → Prop :=
| holds_node p r b ks :
    h !! r = Some b →
    Br.parent b = p →
    length (Br.children b) = length ks →
    (∀ i c k, Br.children b !! i = Some c → ks !! i = Some k →
              holds same h (Some r) c k) →
    ∀ l, same (Br.length b) l →
    holds same h p r (NT (Br.id b) l ks).

(** [built h p t nt]: the store holds, in the Branches of the shape [t], a
    tree with the ids and children of [nt] and lengths equal as numbers to
    those of [nt]. *)
Inductive built (h : heap) : option ref → shape → ntree → Prop :=
| built_node p r ks b nks l :
    h !! r = Some b →
    Br.parent b = p →
    Br.children b = map root_of ks →
    Forall2 (built h (Some r)) ks nks →
    (Br.length b == l)%Q →
    built h p (Sh r ks) (NT (Br.id b) l nks).

(** A string without delimiter, and without white space at either end: the
    pieces the [split] of [parseNewick] gives back as they were. *)
Fixpoint no_delim (s : string) : bool :=
  match s with
  | EmptyString => true
  | String c s' => negb (is_delim c) && no_delim s'
  end.
Definition starts_clean (s : string) : bool :=
  match s with
  | String c _ => negb (is_space c)
  | EmptyString => true
  end.
Definition ends_clean (s : string) : bool :=
  match rev (list_ascii_of_string s) with
  | c :: _ => negb (is_space c)
  | [] => true
  end.
Definition plain (s : string) : bool :=
  no_delim s && starts_clean s && ends_clean s.

(** The pieces after the children of a node: its id, then a colon and the
    length unless that is zero. *)
Definition tail_tokens (nts : Q → string) (i : string) (l : Q) : list string :=
  if Qeq_bool l 0 then [i] else [i; ":"; nts l].

(** The tokens of the text of a tree, without the closing semicolon. *)
Fixpoint tokens_of (nts : Q → string) (t : ntree) : list string :=
  match t with
  | NT i l [] => tail_tokens nts i l
  | NT i l (k :: ks) =>
      "" :: "(" :: tokens_of nts k
         ++ flat_map (fun k' => "," :: tokens_of nts k') ks
         ++ ")" :: tail_tokens nts i l
  end.

(** A text without delimiter and without white space anywhere, as the
    runtime prints a number: digits, a sign, a point, an exponent, or one of
    [Infinity] and [NaN]. *)
Fixpoint unspaced (s : string) : bool :=
  match s with
  | EmptyString => true
  | String c s' => negb (is_delim c) && negb (is_space c) && unspaced s'
  end.

(** Ids that come back from the text: every one of them plain. *)
Fixpoint ids_plain (t : ntree) : bool :=
  match t with
  | NT i _ ks => plain i && forallb ids_plain ks
  end.

(** The tree as the text gives it back: a length of zero is not written and
    is zero again; any other length [l] is written as [nts l] and read as
    [pf] reads that text. *)
Fixpoint read_back (nts : Q → string) (pf : string → Q) (t : ntree) : ntree :=
  match t with
  | NT i l ks =>
      NT i (if Qeq_bool l 0 then 0%Q else pf (nts l))
         (map (read_back nts pf) ks)
  end.

(** The id of a root without children is not read back. *)
Definition root_ok (t : ntree) : bool :=
  match t with
  | NT i _ [] => String.eqb i ""
  | NT _ _ (_ :: _) => true
  end.

(** Stand-ins for the runtime's conversions, on whole numbers, to run the
    codec on examples; with them go the exact product, quotient and power,
    which the examples never reach. *)
Fixpoint whole_digits (fuel n : nat) (acc : string) : string :=
  match fuel with
  | O => acc
  | S fuel' =>
      let acc' := String (ascii_of_nat (48 + n mod 10)) acc in
      if Nat.ltb n 10 then acc' else whole_digits fuel' (n / 10) acc'
  end.
Definition whole_toString (q : Q) : string :=
  let n := Z.to_nat (Qnum q / Z.pos (Qden q)) in whole_digits (S n) n "".
Definition whole_parseFloat (s : string) : Q :=
  match parse_digits s None with
  | Some z => inject_Z z
  | None => 0
  end.

(** [(A:1,B:2);] and, alone, the leaf [A]. *)
Definition two_leaves : heap :=
  [ Br.Mk "" 0 None [1; 2] 0 0 1;
    Br.Mk "A" 1 (Some 0) [] 0 0 1;
    Br.Mk "B" 2 (Some 0) [] 0 0 1 ].
Definition two_leaves_tree : ntree :=
  NT "" 0 [NT "A" 1 []; NT "B" 2 []].
Definition lone_leaf : heap := [ Br.Mk "A" 0 None [] 0 0 1 ].

(** The text [toNewick] writes for a tree, as a function of the tree. *)
Fixpoint show (nts : Q → string) (t : ntree) (nonterminus : bool) : string :=
  match t with
  | NT i l ks =>
      let out := match ks with
                 | [] => ""
                 | _ => "(" ++ String.concat "," (map (fun k => show nts k true) ks)
                            ++ ")"
                 end%string in
      let out := (out ++ i)%string in
      let out := if Qeq_bool l 0 then out else (out ++ ":" ++ nts l)%string in
      if nonterminus then out else (out ++ ";")%string
  end.

(** The fields [fixDistances] never writes, and stores that agree on them. *)
Definition core (b : Br.t) : string * Q * option ref * list ref :=
  (Br.id b, Br.length b, Br.parent b, Br.children b).
Definition same_core (h h' : heap) : Prop :=
  ∀ n, (core <$> h' !! n) = (core <$> h !! n).

(** The Branch [new Branch({parent: p})] makes. *)
Definition fresh (p : option ref) : Br.t := Br.Mk "" 0 p [] 0 0 1.

(** The first piece of the text of a tree: its id if it has no children. *)
Definition first_piece (t : ntree) : string :=
  match t with
  | NT i _ [] => i
  | NT _ _ (_ :: _) => ""
  end.

(** The token before a piece makes it an id: an opening parenthesis or a
    comma; at the start of the text the piece is dropped, which only the
    empty piece survives. *)
Definition id_slot (x : option string) (piece : string) : Prop :=
  x = Some "(" ∨ x = Some "," ∨ x = Some ")" ∨ (x = None ∧ piece = "").

(** A root over the one leaf [B,C]. *)
Definition comma_id : heap :=
  [ Br.Mk "" 0 None [1] 0 0 1;
    Br.Mk "B,C" 0 (Some 0) [] 0 0 1 ].

(** ** Further views of a shape *)

(** The leaves of a shape, from left to right. *)
Fixpoint leaves (t : shape) : list ref :=
  match t with
  | Sh r [] => [r]
  | Sh r ks => flat_map leaves ks
  end.

(** The Branches of a list of shapes level by level; [fuel] bounds the
    number of levels. *)
Fixpoint level_order (fuel : nat) (ts : list shape) : list ref :=
  match fuel with
  | O => []
  | S fuel' =>
      match ts with
      | [] => []
      | _ :: _ => map root_of ts ++ level_order fuel' (flat_map kids_of ts)
      end
  end.

(** The callback that only records the Branches it is handed. *)
Definition record_visit (d : ref) (seen : list ref) : M (list ref) :=
  ret (seen ++ [d]).

(** The length of a Branch of the store, and the sum of the lengths of a
    list of Branches, added one by one to [q]. *)
Definition length_of (h : heap) (n : ref) : Q :=
  match h !! n with Some b => Br.length b | None => 0%Q end.
Definition lengths_along (h : heap) (l : list ref) (q : Q) : Q :=
  fold_left (fun a n => (a + length_of h n)%Q) l q.

(** The two array tests of [isConsistent]: [children.some(c => c.parent !==
    this)] and [children.every(c => c.isConsistent())]. *)
Definition some_wrong (this : ref) : list ref → M bool :=
  fix some_wrong (l : list ref) : M bool :=
    match l with
    | [] => ret false
    | c :: l' =>
        let* cb := get c in
        match Br.parent cb with
        | Some p => if Nat.eqb p this then some_wrong l' else ret true
        | None => ret true
        end
    end.
Definition every (f : ref → M bool) : list ref → M bool :=
  fix every (l : list ref) : M bool :=
    match l with
    | [] => ret true
    | c :: l' => let* ok := f c in if ok then every l' else ret false
    end.

(** [lists_tree h t]: the [children] arrays of the store spell out the shape
    [t], whatever the [parent] fields say. *)
Inductive lists_tree (h : heap) : shape → Prop :=
| lists_tree_node r ks b :
    h !! r = Some b →
    Br.children b = map root_of ks →
    Forall (lists_tree h) ks →
    lists_tree h (Sh r ks).

(** Stores that differ in [parent] fields only. *)
Definition same_but_parents (h h' : heap) : Prop :=
  ∀ n, (Br.set_parent None <$> h' !! n) = (Br.set_parent None <$> h !! n).

(** The callback of [fixParenthood]. *)
Definition fixParenthood_callback (fuel : nat) (this : ref) (nonrecursive : bool)
           (child : ref) (_ : unit) : M unit :=
  let* cb := get child in
  do (match Br.parent cb with
      | None => modify child (Br.set_parent (Some this))
      | Some _ => ret tt
      end) in
  let* cb := get child in
  do (if bool_decide (Br.parent cb = Some this) then ret tt
      else modify child (Br.set_parent (Some this))) in
  let* cb := get child in
  if negb nonrecursive && Nat.ltb 0 (List.length (Br.children cb))
  then do Branch.fixParenthood fuel child false in ret tt
  else ret tt.

(** [(A:1,(C:3,D:4):5);] with the parent of [C] lost and that of [D] wrong. *)
Definition uneven_unlinked : heap :=
  [ Br.Mk "" 0 None [1; 2] 0 0 1;
    Br.Mk "A" 1 (Some 0) [] 0 0 1;
    Br.Mk "" 5 (Some 0) [3; 4] 0 0 1;
    Br.Mk "C" 3 None [] 0 0 1;
    Br.Mk "D" 4 (Some 1) [] 0 0 1 ].

(** [(A:1,B:1)P;] and a Branch [Q] that names [P] as its parent without
    being listed by it. *)
Definition unlisted_child : heap :=
  [ Br.Mk "P" 0 None [1; 2] 0 0 1;
    Br.Mk "A" 1 (Some 0) [] 0 0 1;
    Br.Mk "B" 1 (Some 0) [] 0 0 1;
    Br.Mk "Q" 1 (Some 0) [] 0 0 1 ].

(** ** Neighbor joining: orders and candidates *)

(** The order [sortWithIndices] sorts the indices by. *)
Definition by_key (key : nat → Q) (a b : nat) : Prop := (key a <= key b)%Q.

(** What [search] may hold as its best pair: nothing yet, or a row and a
    column of that row's [sortIndices], neither of them removed. *)
Definition live_pair (that : That.t) (b : best) : Prop :=
  (minI b = (-1)%Z ∧ minJ b = (-1)%Z)
  ∨ ∃ r c, minI b = Z.of_nat r ∧ minJ b = Z.of_nat c
           ∧ r < That.N that
           ∧ c ∈ nth r (That.I that) []
           ∧ has (That.removedIndices that) r = false
           ∧ has (That.removedIndices that) c = false.

(** A matrix of [n] rows of [n] entries. *)
Definition square (n : nat) (D : list (list Q)) : Prop :=
  List.length D = n ∧ Forall (fun row => List.length row = n) D.

(** The distance from the joined pair to the row [i], as the first loop of
    [recalculateDistanceMatrix] computes it from the matrix it is given. *)
Definition joined_distance (t : That.t) (j1 j2 i : nat) : Q :=
  (0.5 * (at2 (That.D t) j1 i + at2 (That.D t) j2 i - at2 (That.D t) j1 j2))%Q.

(** The entry at row [a] and column [b] once the second loop has dealt with
    the indices below [k]. *)
Definition joined_cell (t : That.t) (j1 j2 k a b : nat) : Q :=
  if (Nat.eqb a j1 && Nat.ltb b k) || (Nat.eqb b j1 && Nat.ltb a k)
  then (-1)%Q
  else if Nat.eqb a j2 && Nat.ltb b k && negb (has (removed1 t j1) b)
  then joined_distance t j1 j2 b
  else if Nat.eqb b j2 && Nat.ltb a k && negb (has (removed1 t j1) a)
  then joined_distance t j1 j2 a
  else at2 (That.D t) a b.

(** The record [that] once [setUpNode] has stored a new leaf for a label. *)
Definition with_node (that : That.t) (labelIndex : Z) (node : ref) : That.t :=
  That.Mk (That.N that) (That.cN that) (That.D that) (That.labels that)
          (That.currIndexToLabel that) (That.rowChange that)
          (That.newRow that)
          (set_node (That.labelToNode that) labelIndex node)
          (That.nextIndex that) (That.I that) (That.S that)
          (That.removedIndices that) (That.indicesLeft that)
          (That.rowSumMax that) (That.rowSums that).

(** The leaf [setUpNode] makes for a label of the matrix. *)
Definition leaf_for (that : That.t) (labelIndex : Z) (distance : Q) : Br.t :=
  Br.Mk (label_at (That.labels that) labelIndex)
        (if Qeq_bool distance 0 then 0%Q else distance) None [] 0 0 1.

(** ** Newick: the tokens of a text *)

(** A list of tokens as the [split] of [parseNewick] makes them: pieces
    without delimiter, with one delimiter between two pieces. *)
Inductive pieces : list string → Prop :=
| pieces_last p : no_delim p = true → pieces [p]
| pieces_more p d rest :
    no_delim p = true → is_delim d = true → pieces rest →
    pieces (p :: String d "" :: rest).

(** The number of delimiters in a text. *)
Fixpoint count_delim (s : string) : nat :=
  match s with
  | EmptyString => 0
  | String c s' => (if is_delim c then 1 else 0) + count_delim s'
  end.

(** Characters read into a piece: none of them a delimiter. *)
Definition clean (tok : list ascii) : bool :=
  forallb (fun c => negb (is_delim c)) tok.

(** ** Depths that follow the parents *)

(** Within the Branches [l], a Branch without parent has depth 0 and any
    other is one deeper than its parent. *)
Definition depths_follow_parents (h : heap) (l : list ref) : Prop :=
  ∀ n b, n ∈ l → h !! n = Some b →
    match Br.parent b with
    | None => Br.depth b = 0%Z
    | Some p => ∃ pb, h !! p = Some pb ∧ Br.depth b = (Br.depth pb + 1)%Z
    end.

(** ** Plain objects of a tree *)

(** The object [toObject] makes of a tree with the ids, lengths and children
    of [t]: the key [children] is there when there are children. *)
Fixpoint obj_of (t : ntree) : obj :=
  match t with
  | NT i l ks =>
      Obj i l (match ks with
               | [] => None
               | _ :: _ => Some (map obj_of ks)
               end)
  end.

(** The [forEach] of [parseJSON]: each child object is parsed and added. *)
Definition attach_all (fuel : nat) (root : ref) : list obj → M unit :=
  fix each (l : list obj) : M unit :=
    match l with
    | [] => ret tt
    | child :: l' =>
        let* c := parseJSON fuel child in
        do Branch.addChild root (inl c) in
        each l'
    end.

(** ** Excising a Branch *)

(** A child of an excised Branch [t]: it takes the length of [t] on top of
    its own and the parent of [t] as its parent. *)
Definition moved_up (t : Br.t) (c : Br.t) : Br.t :=
  Br.set_parent (Br.parent t) (Br.set_length (Br.length c + Br.length t) c).

(** The store while [excise] walks the children [cs] of the Branch [b],
    whose parent is [P], when the first [j] children are done. *)
Definition excising (h : heap) (P b : ref) (pb bb : Br.t) (cs : list ref)
           (j : nat) (hj : heap) : Prop :=
  hj !! b = Some bb
  ∧ hj !! P = Some (Br.set_children (Br.children pb ++ take j cs) pb)
  ∧ (∀ g gb, g ∈ take j cs → h !! g = Some gb →
             hj !! g = Some (moved_up bb gb))
  ∧ (∀ n, n ≠ P → n ∉ take j cs → hj !! n = h !! n).

(** ** Rerooting *)

(** The Branches met on the way down a shape, a child index at a time: the
    child of the root first, the Branch arrived at last. *)
Fixpoint along (t : shape) (path : list nat) : option (list ref) :=
  match path with
  | [] => Some []
  | i :: path' =>
      match kids_of t !! i with
      | Some k => cons (root_of k) <$> along k path'
      | None => None
      end
  end.

(** The shape once the Branches along [path] have been inverted from the
    top: each in turn becomes the root, with its old parent as its last
    child. *)
Fixpoint rerooted (t : shape) (path : list nat) : shape :=
  match path with
  | [] => t
  | i :: path' =>
      match kids_of t !! i with
      | Some k =>
          rerooted (Sh (root_of k)
                       (kids_of k ++ [Sh (root_of t) (delete i (kids_of t))]))
                   path'
      | None => t
      end
  end.

(** ** Statements proved by induction, and tactics *)

(** The first walk of [fixDistances] over a shape below the Branch [p]. *)
Definition depth_pass_at (t : shape) : Prop :=
  ∀ h m p pb,
    tree_at h (Some p) t → NoDup (refs t) → p ∉ refs t → h !! p = Some pb →
    ∃ h', foldM depth_callback (refs t) m h
          = Ok (maxdepth_from h' m (refs t)) h'
          ∧ (∀ n, n ∉ refs t → h' !! n = h !! n)
          ∧ depths_from h' (Br.depth pb + 1) t.

(** The walk of [count] over a shape. *)
Definition count_pass_at (t : shape) : Prop :=
  ∀ h p,
    tree_at h p t → NoDup (refs t) →
    ∃ h', foldM (sum_callback (fun _ => ret 1%Q)) (postorder t) tt h = Ok tt h'
          ∧ (∀ n, n ∉ refs t → h' !! n = h !! n)
          ∧ sizes h' t.

(** A callback that keeps the relation [R] between the store it is given
    and the store it leaves. *)
Definition keeps (R : heap → heap → Prop) {A : Type} (g : ref → A → M A)
  : Prop :=
  ∀ c a h a' h', g c a h = Ok a' h' → R h h'.

(** The text of a tree before a delimiter splits into the tokens of the
    tree. *)
Definition splits_well (nts : Q → string) (t : ntree) : Prop :=
  ids_plain t = true →
  ∀ d rest skip,
    is_delim d = true →
    split_from (show nts t true ++ String d rest) [] skip
    = tokens_of nts t ++ String d "" :: split_from rest [] true.

(** Reading the tokens of a tree into the Branch [c], new and empty: the
    tree is built at [c] out of new Branches, with the lengths as they are
    read back, and the rest of the store is as it was. *)
Definition parses (nts : Q → string) (parseFloat : string → Q) (t : ntree)
  : Prop :=
  ids_plain t = true →
  ∀ h anc c p x rest,
    h !! c = Some (fresh p) → id_slot x (first_piece t) →
    ∃ h' ks x',
      parseNewick_loop parseFloat (tokens_of nts t ++ rest) x anc (Some c) h
      = parseNewick_loop parseFloat rest (Some x') anc (Some c) h'
      ∧ plain x' = true
      ∧ built h' p (Sh c ks) (read_back nts parseFloat t)
      ∧ List.length h ≤ List.length h'
      ∧ (∀ n, n < List.length h → n ≠ c → h' !! n = h !! n)
      ∧ (∀ n, n ∈ flat_map refs ks → List.length h ≤ n < List.length h')
      ∧ NoDup (flat_map refs ks).

(** The walk of [fixParenthood] below the root of a shape whose Branches
    list their children: the Branches below end up in a tree. *)
Definition fixParenthood_repairs (fuel : nat) : Prop :=
  ∀ t h,
    lists_tree h t → NoDup (refs t) → levels t ≤ fuel →
    ∃ h', Branch.fixParenthood fuel (root_of t) false h = Ok (root_of t) h'
          ∧ same_but_parents h h'
          ∧ (∀ n, n ∉ flat_map refs (kids_of t) → h' !! n = h !! n)
          ∧ Forall (tree_at h' (Some (root_of t))) (kids_of t).

(** What [parseJSON] makes of the object of a tree: new Branches, after
    those of the store, that hold the tree. *)
Definition parsed (nt : ntree) : Prop :=
  ∀ fuel h0,
    nlevels nt ≤ fuel →
    ∃ h' ks,
      parseJSON fuel (obj_of nt) h0 = Ok (List.length h0) h'
      ∧ built h' None (Sh (List.length h0) ks) nt
      ∧ List.length h0 < List.length h'
      ∧ (∀ n, n < List.length h0 → h' !! n = h0 !! n)
      ∧ (∀ n, n ∈ flat_map refs ks → List.length h0 < n < List.length h')
      ∧ NoDup (flat_map refs ks).

(** Splitting a conjunction of facts about one run, and settling each by
    evaluation. *)
Ltac conjuncts := repeat match goal with |- _ ∧ _ => split end.
Ltac by_running := conjuncts; (vm_compute; reflexivity).

(** Case analysis on comparisons of indices. *)
Ltac split_cases :=
  repeat match goal with
         | |- context [Nat.eqb ?x ?y] =>
             destruct (Nat.eqb_spec x y); subst; simpl
         | |- context [Nat.ltb ?x ?y] =>
             destruct (Nat.ltb_spec x y); simpl
         end.

Ltac pin_index :=
  repeat match goal with
         | H1 : ?b < S ?k, H2 : ?k ≤ ?b |- _ =>
             assert (b = k) by lia; clear H1 H2; subst b
         end.

(** ** Neighbor joining: the turns of the loop *)

(** The record [that] and the store at the head of the loop of
    [parseMatrix]: as [parseMatrix] sets them up, and after each turn. *)
Inductive joins (matrix : list (list Q)) (labels : list string) (h0 : heap)
  : That.t → heap → Prop :=
| joins_start :
    joins matrix labels h0 (parseMatrix_init matrix labels) h0
| joins_turn that h that' h' :
    joins matrix labels h0 that h →
    2 < That.cN that →
    join_step that h = Ok that' h' →
    joins matrix labels h0 that' h'.

(** The Branch [n] that stands for the label [l] in a join made from the
    record [that] and the store [h], with [h'] the store after it: for a
    label of the matrix a new leaf that carries the name of the label; for
    the label of an earlier join the Branch that join has left in
    [labelToNode]. *)
Definition node_of_label (that : That.t) (h h' : heap) (l : Z) (n : ref)
  : Prop :=
  if (l <? Z.of_nat (That.N that))%Z
  then List.length h ≤ n
       ∧ (Br.id <$> h' !! n) = Some (label_at (That.labels that) l)
       ∧ (Br.children <$> h' !! n) = Some []
  else nth (Z.to_nat l) (That.labelToNode that) None = Some n
       ∧ n < List.length h.

(** The record a turn of the loop leaves, from the record [that] after the
    two calls of [setUpNode], the pair joined and the new Branch. *)
Definition joined (that : That.t) (i j : nat) (node3 : ref) : That.t :=
  let that := recalculateDistanceMatrix that i j in
  let sorted := sortWithIndices (nth j (That.D that) []) j in
  That.Mk (That.N that) (That.cN that - 1) (That.D that)
          (That.labels that)
          (<[j := Z.of_nat (That.nextIndex that)]>
             (<[i := (-1)%Z]> (That.currIndexToLabel that)))
          (That.rowChange that) (That.newRow that)
          (<[That.nextIndex that := Some node3]> (That.labelToNode that))
          (S (That.nextIndex that))
          (<[i := []]> (<[j := snd sorted]> (That.I that)))
          (<[i := []]> (<[j := fst sorted]> (That.S that)))
          (That.removedIndices that) (That.indicesLeft that)
          (That.rowSumMax that) (That.rowSums that).

(** A store that has grown and kept the [children] of the Branches it
    had. *)
Definition keeps_children (h h1 : heap) : Prop :=
  List.length h ≤ List.length h1
  ∧ ∀ m, m < List.length h →
         (Br.children <$> h1 !! m) = (Br.children <$> h !! m).

(** The Branches of the earlier joins: [forest] has, for the labels from [N]
    on, the shape under the Branch of the label, which the [children] of the
    store spell out. *)
Definition grown (that : That.t) (h : heap) (forest : list shape) : Prop :=
  ∀ k t,
    forest !! k = Some t →
    nth (That.N that + k) (That.labelToNode that) None = Some (root_of t)
    ∧ lists_tree h t
    ∧ NoDup (refs t)
    ∧ (∀ m, m ∈ refs t → m < List.length h)
    ∧ levels t + That.cN that ≤ S (That.N that).

(** Two records that differ at most in the nodes of the labels of the
    matrix. *)
Definition same_but_nodes (that that1 : That.t) : Prop :=
  That.N that1 = That.N that
  ∧ That.cN that1 = That.cN that
  ∧ That.D that1 = That.D that
  ∧ That.labels that1 = That.labels that
  ∧ That.currIndexToLabel that1 = That.currIndexToLabel that
  ∧ That.newRow that1 = That.newRow that
  ∧ That.nextIndex that1 = That.nextIndex that
  ∧ That.I that1 = That.I that
  ∧ That.removedIndices that1 = That.removedIndices that
  ∧ That.indicesLeft that1 = That.indicesLeft that
  ∧ That.rowSums that1 = That.rowSums that
  ∧ List.length (That.labelToNode that1) = List.length (That.labelToNode that)
  ∧ ∀ k, That.N that ≤ k →
         nth k (That.labelToNode that1) None
         = nth k (That.labelToNode that) None.

(** What every turn of the loop keeps true of [that] and of the store, for
    a matrix of [N] rows. *)
Record joining (N : nat) (that : That.t) (h : heap) (forest : list shape)
  : Prop := Joining {
  j_N : That.N that = N;
  j_square : square N (That.D that);
  j_newRow : List.length (That.newRow that) = N;
  j_labels : List.length (That.currIndexToLabel that) = N;
  j_next : That.nextIndex that + That.cN that = 2 * N;
  j_nodes : List.length (That.labelToNode that) = 2 * N;
  j_forest_len : N + List.length forest = That.nextIndex that;
  j_below : ∀ k l,
    That.currIndexToLabel that !! k = Some l →
    (l < Z.of_nat (That.nextIndex that))%Z;
  j_inj : ∀ k1 k2 l,
    That.currIndexToLabel that !! k1 = Some l →
    That.currIndexToLabel that !! k2 = Some l →
    (0 ≤ l)%Z → k1 = k2;
  j_grown : grown that h forest;
  j_apart : ∀ k1 k2 l1 l2 t1 t2,
    k1 ≠ k2 →
    That.currIndexToLabel that !! k1 = Some (Z.of_nat (N + l1)) →
    That.currIndexToLabel that !! k2 = Some (Z.of_nat (N + l2)) →
    forest !! l1 = Some t1 → forest !! l2 = Some t2 →
    ∀ m, m ∈ refs t1 → m ∉ refs t2;
  j_I : ∀ r c, c ∈ nth r (That.I that) [] → c ≠ r ∧ c < N;
  j_left_nodup : NoDup (That.indicesLeft that);
  j_left_len : List.length (That.indicesLeft that) = That.cN that;
  j_left : ∀ k,
    k ∈ That.indicesLeft that
    ↔ k < N ∧ has (That.removedIndices that) k = false
}.

(** A matrix of five taxa, on which the third join takes up the Branches of
    the first two. *)
Definition five_taxa : list (list Q) :=
  [[0; 5; 9; 9; 8]; [5; 0; 10; 10; 9]; [9; 10; 0; 8; 7]; [9; 10; 8; 0; 3];
   [8; 9; 7; 3; 0]]%Q.
Definition five_labels : list string := ["a"; "b"; "c"; "d"; "e"].
(** * Properties *)

(** ** Running computations *)


Lemma bind_Ok {A B} (m : M A) (k : A → M B) h a h' :
  m h = Ok a h' → bind m k h = k a h'.
Proof. unfold bind. by intros ->. Qed.

Lemma bind_Throw {A B} (m : M A) (k : A → M B) h e h' :
  m h = Throw e h' → bind m k h = Throw e h'.
Proof. unfold bind. by intros ->. Qed.

Lemma get_Ok h r b : h !! r = Some b → get r h = Ok b h.
Proof. unfold get. by intros ->. Qed.

Lemma modify_Ok h r f b :
  h !! r = Some b → modify r f h = Ok tt (<[r := f b]> h).
Proof. unfold modify. by intros ->. Qed.

Lemma bind_get {B} h r b (k : Br.t → M B) :
  h !! r = Some b → bind (get r) k h = k b h.
Proof. intros H. by rewrite (bind_Ok _ _ _ _ _ (get_Ok _ _ _ H)). Qed.

Lemma bind_modify {B} h r f b (k : unit → M B) :
  h !! r = Some b → bind (modify r f) k h = k tt (<[r := f b]> h).
Proof. intros H. by rewrite (bind_Ok _ _ _ _ _ (modify_Ok _ _ _ _ H)). Qed.

Lemma bind_ret {A B} (a : A) (k : A → M B) h : bind (ret a) k h = k a h.
Proof. reflexivity. Qed.

Lemma bind_assoc {A B C} (m : M A) (k : A → M B) (k' : B → M C) h :
  bind (bind m k) k' h = bind m (fun a => bind (k a) k') h.
Proof. unfold bind. by destruct (m h). Qed.

Lemma lookup_insert_same (h : heap) n b b' :
  h !! n = Some b → <[n := b']> h !! n = Some b'.
Proof. intros H. apply list_lookup_insert_eq. by eapply lookup_lt_Some. Qed.

(** ** Shapes and stores *)

Lemma elem_of_flat_map {A B} (f : A → list B) (l : list A) (x : B) :
  x ∈ flat_map f l ↔ ∃ y, y ∈ l ∧ x ∈ f y.
Proof.
  split.
  - intros H. apply list_elem_of_In, in_flat_map in H as (y & Hy & Hx).
    exists y. split; by apply list_elem_of_In.
  - intros (y & Hy & Hx). apply list_elem_of_In, in_flat_map.
    exists y. split; by apply list_elem_of_In.
Qed.

Lemma shape_ind' (P : shape → Prop) :
  (∀ r ks, Forall P ks → P (Sh r ks)) → ∀ t, P t.
Proof.
  intros H. fix IH 1. intros [r ks]. apply H.
  induction ks as [|k ks IHks]; constructor; [apply IH | apply IHks].
Qed.

Lemma levels_pos t : 1 ≤ levels t.
Proof. destruct t; simpl; lia. Qed.

Lemma levels_kid r ks k : k ∈ ks → levels k < levels (Sh r ks).
Proof.
  simpl. induction 1 as [k ks | k k' ks _ IH]; simpl; lia.
Qed.

Lemma same_links_refl h : same_links h h.
Proof. by intros n. Qed.

Lemma same_links_trans h1 h2 h3 :
  same_links h1 h2 → same_links h2 h3 → same_links h1 h3.
Proof. intros H12 H23 n. by rewrite H23, H12. Qed.

Lemma same_links_lookup h h' n b :
  same_links h h' → h !! n = Some b →
  ∃ b', h' !! n = Some b' ∧ Br.parent b' = Br.parent b
        ∧ Br.children b' = Br.children b.
Proof.
  intros Hs Hn. specialize (Hs n). rewrite Hn in Hs. simpl in Hs.
  destruct (h' !! n) as [b'|]; [| done].
  exists b'. unfold links in Hs. simpl in Hs. by simplify_eq.
Qed.

Lemma same_links_insert h n b f :
  h !! n = Some b → links (f b) = links b → same_links h (<[n := f b]> h).
Proof.
  intros Hn Hf m. destruct (decide (n = m)) as [<-|Hne].
  - rewrite list_lookup_insert_eq by (by eapply lookup_lt_Some).
    rewrite Hn. simpl. by rewrite Hf.
  - by rewrite list_lookup_insert_ne.
Qed.

Lemma tree_at_same_links h h' p t :
  same_links h h' → tree_at h p t → tree_at h' p t.
Proof.
  intros Hs. revert p. induction t as [r ks IH] using shape_ind'.
  intros p Ht. inversion Ht as [? ? ? b Hb Hp Hc Hks]; subst.
  destruct (same_links_lookup _ _ _ _ Hs Hb) as (b' & Hb' & Hp' & Hc').
  apply tree_at_node with b'; [done | done | congruence |].
  rewrite Forall_forall in IH, Hks |- *. intros k Hk. apply IH; auto.
Qed.

Lemma tree_at_root h p t :
  tree_at h p t →
  ∃ b, h !! root_of t = Some b ∧ Br.parent b = p
       ∧ Br.children b = map root_of (kids_of t).
Proof. inversion 1; subst. simpl. eauto. Qed.

(** ** Walks that leave the links alone visit a fixed list *)

Lemma foldM_app {A} (cb : ref → A → M A) l1 l2 a h :
  foldM cb (l1 ++ l2) a h = bind (foldM cb l1 a) (foldM cb l2) h.
Proof.
  revert a h. induction l1 as [|x l1 IH]; intros a h; simpl; [reflexivity |].
  unfold bind. destruct (cb x a h) as [a' h'| |]; [| done | done].
  apply IH.
Qed.

Section StaticWalk.
Context {A : Type} (cb : ref → A → M A).
Hypothesis cb_links : ∀ n a h a' h', cb n a h = Ok a' h' → same_links h h'.

Lemma foldM_links l a h a' h' :
  foldM cb l a h = Ok a' h' → same_links h h'.
Proof.
  revert a h. induction l as [|x l IH]; intros a h; simpl.
  - intros [= -> ->]. apply same_links_refl.
  - unfold bind. destruct (cb x a h) as [a1 h1| |] eqn:E; [| done | done].
    intros H. eapply same_links_trans; [by eapply cb_links | by eapply IH].
Qed.

(** The loop of [eachChild] when the walk below each child is already
    known to visit the list [visit] of that child. *)
Lemma forEach_live_static (g : ref → A → M A) (visit : shape → list ref)
      r ks p :
  (∀ k q a h, k ∈ ks → tree_at h q k →
              g (root_of k) a h = foldM cb (visit k) a h) →
  ∀ n i a h,
    tree_at h p (Sh r ks) → n + i = List.length ks →
    Branch.forEach_live r g n i a h
    = foldM cb (flat_map visit (drop i ks)) a h.
Proof.
  intros Hg. induction n as [|n IH]; intros i a h Ht Hlen; simpl.
  - rewrite drop_ge by lia. done.
  - inversion Ht as [? ? ? b Hb Hp Hc Hks]; subst.
    rewrite (bind_Ok _ _ _ _ _ (get_Ok _ _ _ Hb)).
    destruct (lookup_lt_is_Some_2 ks i) as [k Hk]; [lia |].
    rewrite Hc, list_lookup_fmap, Hk. simpl.
    rewrite (drop_S _ _ _ Hk). simpl. rewrite foldM_app.
    assert (Hin : k ∈ ks) by (by eapply list_elem_of_lookup_2).
    assert (Htk : tree_at h (Some r) k)
      by (rewrite Forall_forall in Hks; auto).
    unfold bind at 1 2. rewrite (Hg k (Some r) a h Hin Htk).
    destruct (foldM cb (visit k) a h) as [a1 h1| |] eqn:E; [| done | done].
    apply IH; [| lia].
    eapply tree_at_same_links; [| exact Ht]. by eapply foldM_links.
Qed.

Lemma eachBefore_foldM fuel : ∀ t p a h,
  tree_at h p t → levels t ≤ fuel →
  Branch.eachBefore fuel cb (root_of t) a h = foldM cb (refs t) a h.
Proof.
  induction fuel as [|fuel IH]; intros t p a h Ht Hfuel.
  { pose proof (levels_pos t). lia. }
  destruct t as [r ks]. simpl.
  unfold bind at 1 2. destruct (cb r a h) as [a1 h1| |] eqn:E; [| done | done].
  assert (Ht1 : tree_at h1 p (Sh r ks))
    by (eapply tree_at_same_links; [by eapply cb_links | done]).
  unfold Branch.eachChild.
  inversion Ht1 as [? ? ? b Hb Hp Hc Hks]; subst.
  rewrite (bind_Ok _ _ _ _ _ (get_Ok _ _ _ Hb)).
  rewrite Hc, length_map.
  rewrite (forEach_live_static _ refs r ks (Br.parent b)); [done | | done | lia].
  intros k q a' h' Hk Htk. eapply IH; [done |].
  pose proof (levels_kid r ks k Hk). lia.
Qed.

Lemma eachAfter_foldM fuel : ∀ t p a h,
  tree_at h p t → levels t ≤ fuel →
  Branch.eachAfter fuel cb (root_of t) a h = foldM cb (postorder t) a h.
Proof.
  induction fuel as [|fuel IH]; intros t p a h Ht Hfuel.
  { pose proof (levels_pos t). lia. }
  destruct t as [r ks]. simpl. rewrite foldM_app.
  unfold Branch.eachChild.
  inversion Ht as [? ? ? b Hb Hp Hc Hks]; subst.
  unfold bind at 1. rewrite (bind_Ok _ _ _ _ _ (get_Ok _ _ _ Hb)).
  rewrite Hc, length_map.
  rewrite (forEach_live_static _ postorder r ks (Br.parent b)); [| | done | lia].
  - unfold bind. simpl. rewrite drop_0.
    destruct (foldM cb (flat_map postorder ks) a h) as [a1 h1| |]; [| done | done].
    unfold bind, ret. by destruct (cb r a1 h1).
  - intros k q a' h' Hk Htk. eapply IH; [done |].
    pose proof (levels_kid r ks k Hk). lia.
Qed.
End StaticWalk.

(** ** fixDistances on a valid tree *)

Lemma fixDistances_unfold fuel this :
  Branch.fixDistances fuel this
  = (let* root := Branch.getRoot fuel this in
     do modify root (Br.set_depth 0) in
     let* maxdepth := Branch.eachBefore fuel depth_callback this 0%Z in
     do Branch.eachAfter fuel (height_callback maxdepth) this tt in
     ret this).
Proof. reflexivity. Qed.

Lemma depth_callback_links n a h a' h' :
  depth_callback n a h = Ok a' h' → same_links h h'.
Proof.
  unfold depth_callback.
  destruct (h !! n) as [b|] eqn:Hn; [| by unfold bind, get; rewrite Hn].
  rewrite (bind_get _ _ _ _ Hn).
  destruct (Br.parent b) as [p|]; [| intros [= _ <-]; apply same_links_refl].
  destruct (h !! p) as [pb|] eqn:Hp; [| by unfold bind, get; rewrite Hp].
  rewrite (bind_get _ _ _ _ Hp), (bind_modify _ _ _ _ _ Hn).
  rewrite (bind_get _ _ _ _ (lookup_insert_same _ _ _ _ Hn)).
  intros [= _ <-].
  by apply (same_links_insert h n b (Br.set_depth (Br.depth pb + 1))).
Qed.

Lemma reduce_value_Ok l : ∀ a h,
  Forall (fun c => is_Some (h !! c)) l →
  ∃ s, Branch.reduce_value l a h = Ok s h.
Proof.
  induction l as [|c l IH]; intros a h Hl; simpl; [by eexists |].
  inversion Hl as [|? ? [cb Hc] Hl']; subst.
  rewrite (bind_Ok _ _ _ _ _ (get_Ok _ _ _ Hc)). by apply IH.
Qed.

Lemma reduce_value_heap l : ∀ a h s h',
  Branch.reduce_value l a h = Ok s h' → h' = h.
Proof.
  induction l as [|c l IH]; intros a h s h'; simpl.
  - by intros [= _ <-].
  - unfold bind, get. destruct (h !! c); [| done]. apply IH.
Qed.

Lemma height_callback_links m n a h a' h' :
  height_callback m n a h = Ok a' h' → same_links h h'.
Proof.
  unfold height_callback.
  destruct (h !! n) as [b|] eqn:Hn; [| by unfold bind, get; rewrite Hn].
  rewrite (bind_get _ _ _ _ Hn), (bind_modify _ _ _ _ _ Hn).
  rewrite (bind_get _ _ _ _ (lookup_insert_same _ _ _ _ Hn)).
  unfold bind at 1.
  destruct (Branch.reduce_value _ _ _) as [s h1| |] eqn:Hr; [| done | done].
  apply reduce_value_heap in Hr as ->.
  rewrite (modify_Ok _ _ _ _ (lookup_insert_same _ _ _ _ Hn)).
  intros [= _ <-]. rewrite list_insert_insert_eq.
  by apply (same_links_insert h n b
              (fun b => Br.set_value _ (Br.set_height _ b))).
Qed.

Lemma max_if (m d : Z) : (if (m <? d)%Z then d else m) = Z.max m d.
Proof. destruct (Z.ltb_spec m d); lia. Qed.

Lemma maxdepth_from_frame h h' m l :
  (∀ n, n ∈ l → h' !! n = h !! n) →
  maxdepth_from h' m l = maxdepth_from h m l.
Proof.
  unfold maxdepth_from. revert m.
  induction l as [|x l IH]; intros m Hl; simpl; [done |].
  unfold depth_of at 2 4. rewrite (Hl x) by left.
  apply IH. intros n Hn. apply Hl. by right.
Qed.

Lemma maxdepth_from_app h m l1 l2 :
  maxdepth_from h m (l1 ++ l2) = maxdepth_from h (maxdepth_from h m l1) l2.
Proof. unfold maxdepth_from. apply fold_left_app. Qed.

Lemma tree_at_frame h h' p t :
  (∀ n, n ∈ refs t → h' !! n = h !! n) → tree_at h p t → tree_at h' p t.
Proof.
  revert p. induction t as [r ks IH] using shape_ind'. intros p Hf Ht.
  inversion Ht as [? ? ? b Hb Hp Hc Hks]; subst.
  apply tree_at_node with b; [| done | done |].
  - rewrite Hf; [done | simpl; left].
  - rewrite Forall_forall in IH, Hks |- *. intros k Hk.
    apply IH; [done | | by apply Hks].
    intros n Hn. apply Hf. simpl. right.
    apply elem_of_flat_map. by exists k.
Qed.

Lemma depths_from_frame h h' d t :
  (∀ n, n ∈ refs t → h' !! n = h !! n) → depths_from h d t → depths_from h' d t.
Proof.
  revert d. induction t as [r ks IH] using shape_ind'. intros d Hf Ht.
  inversion Ht as [? ? ? b Hb Hd Hks]; subst.
  apply depths_node with b; [| done |].
  - rewrite Hf; [done | simpl; left].
  - rewrite Forall_forall in IH, Hks |- *. intros k Hk.
    apply IH; [done | | by apply Hks].
    intros n Hn. apply Hf. simpl. right.
    apply elem_of_flat_map. by exists k.
Qed.


Lemma depth_pass_kids r ks :
  Forall depth_pass_at ks →
  ∀ h m rb,
    Forall (tree_at h (Some r)) ks → NoDup (flat_map refs ks) →
    r ∉ flat_map refs ks → h !! r = Some rb →
    ∃ h', foldM depth_callback (flat_map refs ks) m h
          = Ok (maxdepth_from h' m (flat_map refs ks)) h'
          ∧ (∀ n, n ∉ flat_map refs ks → h' !! n = h !! n)
          ∧ Forall (depths_from h' (Br.depth rb + 1)) ks.
Proof.
  induction 1 as [|k ks Hk _ IH]; intros h m rb Hks Hnd Hr Hrb; simpl.
  { exists h. by repeat split. }
  simpl in Hnd, Hr. apply NoDup_app in Hnd as (Hnd1 & Hdisj & Hnd2).
  apply not_elem_of_app in Hr as [Hr1 Hr2].
  inversion Hks as [|? ? Htk Hks']; subst.
  destruct (Hk h m r rb Htk Hnd1 Hr1 Hrb) as (h1 & Hrun1 & Hf1 & Hd1).
  assert (Hks1 : Forall (tree_at h1 (Some r)) ks).
  { rewrite Forall_forall in Hks' |- *. intros k' Hk'.
    eapply tree_at_frame; [| by apply Hks'].
    intros n Hn. apply Hf1. intros Hn1. apply (Hdisj n Hn1).
    apply elem_of_flat_map. by exists k'. }
  destruct (IH h1 (maxdepth_from h1 m (refs k)) rb Hks1 Hnd2 Hr2)
    as (h2 & Hrun2 & Hf2 & Hd2); [by rewrite Hf1 |].
  exists h2. split; [| split].
  - rewrite foldM_app, (bind_Ok _ _ _ _ _ Hrun1), Hrun2. f_equal.
    rewrite maxdepth_from_app. f_equal. symmetry.
    apply maxdepth_from_frame. intros n Hn. apply Hf2. by apply Hdisj.
  - intros n Hn. apply not_elem_of_app in Hn as [Hn1 Hn2].
    by rewrite Hf2, Hf1.
  - constructor; [| done]. eapply depths_from_frame; [| exact Hd1].
    intros n Hn. apply Hf2. by apply Hdisj.
Qed.

Lemma depth_pass t : depth_pass_at t.
Proof.
  induction t as [r ks IH] using shape_ind'. intros h m p pb Ht Hnd Hp Hpb.
  inversion Ht as [? ? ? b Hb Hpar Hc Hks]; subst.
  simpl in Hnd, Hp. apply NoDup_cons in Hnd as [Hr Hnd].
  apply not_elem_of_cons in Hp as [Hpr Hp].
  set (b1 := Br.set_depth (Br.depth pb + 1) b).
  set (h1 := <[r := b1]> h).
  assert (Hb1 : h1 !! r = Some b1) by (by eapply lookup_insert_same).
  assert (Hstep : depth_callback r m h = Ok (Z.max m (Br.depth b1)) h1).
  { unfold depth_callback. rewrite (bind_get _ _ _ _ Hb), Hpar.
    rewrite (bind_get _ _ _ _ Hpb), (bind_modify _ _ _ _ _ Hb).
    fold b1 h1. rewrite (bind_get _ _ _ _ Hb1). unfold ret. by rewrite max_if. }
  assert (Hks1 : Forall (tree_at h1 (Some r)) ks).
  { rewrite Forall_forall in Hks |- *. intros k Hk.
    eapply tree_at_frame; [| by apply Hks].
    intros n Hn. unfold h1. rewrite list_lookup_insert_ne; [done |].
    intros <-. apply Hr, elem_of_flat_map. by exists k. }
  destruct (depth_pass_kids r ks IH h1 (Z.max m (Br.depth b1)) b1 Hks1 Hnd Hr Hb1)
    as (h2 & Hrun & Hf & Hd).
  exists h2. split; [| split].
  - simpl. rewrite (bind_Ok _ _ _ _ _ Hstep), Hrun. f_equal.
    assert (Hdr : depth_of h2 r = Br.depth b1)
      by (unfold depth_of; by rewrite (Hf r Hr), Hb1).
    unfold maxdepth_from. simpl. by rewrite Hdr.
  - intros n Hn. apply not_elem_of_cons in Hn as [Hnr Hn].
    rewrite (Hf n Hn). unfold h1. by rewrite list_lookup_insert_ne.
  - apply depths_node with b1; [by rewrite (Hf r Hr) | done | done].
Qed.

(** The second walk sets [height] from the [depth] already there. *)
Lemma closed_same_links h h' n : same_links h h' → closed h n → closed h' n.
Proof.
  intros Hs (b & Hb & Hcs).
  destruct (same_links_lookup _ _ _ _ Hs Hb) as (b' & Hb' & _ & Hc').
  exists b'. split; [done |]. rewrite Hc'.
  eapply Forall_impl; [exact Hcs |]. intros c [cb Hc].
  destruct (same_links_lookup _ _ _ _ Hs Hc) as (cb' & Hcb' & _). by eexists.
Qed.

Lemma height_pass m l : ∀ h,
  Forall (closed h) l →
  ∃ h', foldM (height_callback m) l tt h = Ok tt h'
        ∧ same_links h h'
        ∧ (∀ n, depth_of h' n = depth_of h n)
        ∧ (∀ n, n ∉ l → h' !! n = h !! n)
        ∧ (∀ n b, n ∈ l → h' !! n = Some b →
                  Br.height b = (m - Br.depth b)%Z).
Proof.
  induction l as [|x l IH]; intros h Hl.
  { exists h. split; [done |]. split; [apply same_links_refl |].
    split; [done |]. split; [done |]. intros n b Hn. inversion Hn. }
  inversion Hl as [|? ? (b & Hb & Hcs) Hl']; subst.
  set (b1 := Br.set_height (m - Br.depth b) b).
  destruct (reduce_value_Ok (Br.children b1) 0 (<[x := b1]> h)) as [s Hs].
  { eapply Forall_impl; [exact Hcs |]. intros c [cb Hc].
    apply lookup_lt_is_Some. rewrite length_insert.
    by eapply lookup_lt_Some. }
  set (b2 := Br.set_value (Br.value b1 + s) b1).
  set (h1 := <[x := b2]> h).
  assert (Hstep : height_callback m x tt h = Ok tt h1).
  { unfold height_callback. rewrite (bind_get _ _ _ _ Hb).
    rewrite (bind_modify _ _ _ _ _ Hb). fold b1.
    rewrite (bind_get _ _ _ _ (lookup_insert_same _ _ _ _ Hb)).
    rewrite (bind_Ok _ _ _ _ _ Hs).
    rewrite (modify_Ok _ _ _ _ (lookup_insert_same _ _ _ _ Hb)).
    by rewrite list_insert_insert_eq. }
  assert (Hb2 : h1 !! x = Some b2) by (by eapply lookup_insert_same).
  assert (Hlinks : same_links h h1)
    by (by apply (same_links_insert h x b
                    (fun b => Br.set_value _ (Br.set_height _ b)))).
  destruct (IH h1) as (h2 & Hrun & Hl2 & Hd2 & Hf2 & Hh2).
  { eapply Forall_impl; [exact Hl' |]. intros n.
    by apply closed_same_links. }
  exists h2. split; [| split; [| split; [| split]]].
  - simpl. by rewrite (bind_Ok _ _ _ _ _ Hstep).
  - by eapply same_links_trans.
  - intros n. rewrite Hd2. unfold depth_of, h1.
    destruct (decide (x = n)) as [<-|Hne].
    + by rewrite (lookup_insert_same _ _ _ _ Hb), Hb.
    + by rewrite list_lookup_insert_ne.
  - intros n Hn. apply not_elem_of_cons in Hn as [Hnx Hn].
    rewrite (Hf2 n Hn). unfold h1. by rewrite list_lookup_insert_ne.
  - intros n bn Hn Hbn. destruct (decide (n ∈ l)) as [Hin|Hnin].
    { by apply (Hh2 n). }
    apply elem_of_cons in Hn as [-> | Hn]; [| done].
    rewrite (Hf2 x Hnin), Hb2 in Hbn. by injection Hbn as <-.
Qed.

Lemma postorder_refs t n : n ∈ postorder t ↔ n ∈ refs t.
Proof.
  induction t as [r ks IH] using shape_ind'. simpl.
  rewrite Forall_forall in IH. split.
  - intros H. apply elem_of_app in H as [H | H].
    + apply elem_of_flat_map in H as (k & Hk & Hn).
      apply elem_of_cons. right. apply elem_of_flat_map.
      exists k. split; [done |]. by apply IH.
    + apply elem_of_cons in H as [-> | H]; [left | inversion H].
  - intros H. apply elem_of_cons in H as [-> | H]; apply elem_of_app.
    + right. left.
    + left. apply elem_of_flat_map in H as (k & Hk & Hn).
      apply elem_of_flat_map. exists k. split; [done |]. by apply IH.
Qed.

Lemma tree_at_closed h p t n : tree_at h p t → n ∈ refs t → closed h n.
Proof.
  revert p. induction t as [r ks IH] using shape_ind'. intros p Ht Hn.
  inversion Ht as [? ? ? b Hb Hp Hc Hks]; subst.
  rewrite Forall_forall in IH, Hks.
  simpl in Hn. apply elem_of_cons in Hn as [-> | Hn].
  - exists b. split; [done |]. rewrite Hc. apply Forall_forall.
    intros c Hcin. apply list_elem_of_fmap in Hcin as (k & -> & Hk).
    destruct (tree_at_root _ _ _ (Hks k Hk)) as (kb & Hkb & _). by eexists.
  - apply elem_of_flat_map in Hn as (k & Hk & Hn).
    apply (IH k Hk (Some r)); [by apply Hks | done].
Qed.

Lemma maxdepth_from_ext h h' m l :
  (∀ n, depth_of h' n = depth_of h n) →
  maxdepth_from h' m l = maxdepth_from h m l.
Proof.
  intros He. unfold maxdepth_from. revert m.
  induction l as [|x l IH]; intros m; simpl; [done |]. by rewrite He, IH.
Qed.

Lemma depths_from_ext h h' d t :
  same_links h h' → (∀ n, depth_of h' n = depth_of h n) →
  depths_from h d t → depths_from h' d t.
Proof.
  intros Hs He. revert d. induction t as [r ks IH] using shape_ind'.
  intros d Ht. inversion Ht as [? ? ? b Hb Hd Hks]; subst.
  destruct (same_links_lookup _ _ _ _ Hs Hb) as (b' & Hb' & _).
  apply depths_node with b'; [done | |].
  - specialize (He r). unfold depth_of in He. by rewrite Hb, Hb' in He.
  - rewrite Forall_forall in IH, Hks |- *. intros k Hk. apply IH; auto.
Qed.

(** In a tree whose depths follow its levels, a Branch other than the root
    is one deeper than the Branch its [parent] names. *)
Lemma depths_from_parent h p0 d t n b :
  tree_at h p0 t → depths_from h d t → n ∈ refs t → h !! n = Some b →
  (n = root_of t ∧ Br.parent b = p0 ∧ Br.depth b = d)
  ∨ (∃ p pb, Br.parent b = Some p ∧ h !! p = Some pb
             ∧ Br.depth b = (Br.depth pb + 1)%Z).
Proof.
  revert p0 d. induction t as [r ks IH] using shape_ind'.
  intros p0 d Ht Hd Hn Hb.
  inversion Ht as [? ? ? rb Hrb Hp Hc Hks]; subst.
  inversion Hd as [? ? ? rb' Hrb' Hdr Hdks]; subst.
  rewrite Hrb in Hrb'. injection Hrb' as <-.
  rewrite Forall_forall in IH, Hks, Hdks.
  simpl in Hn. apply elem_of_cons in Hn as [-> | Hn].
  - left. rewrite Hrb in Hb. injection Hb as <-. done.
  - right. apply elem_of_flat_map in Hn as (k & Hk & Hn).
    destruct (IH k Hk (Some r) (Br.depth rb + 1)%Z (Hks k Hk) (Hdks k Hk) Hn Hb)
      as [(-> & Hpar & Hdep) | Hdeep]; [| done].
    by exists r, rb.
Qed.

(** What the two walks of [fixDistances()] leave behind on a valid tree. *)
Lemma fixDistances_walks (fuel : nat) (h : heap) (t : shape) :
  valid_tree h t →
  levels t ≤ fuel →
  ∃ h', Branch.fixDistances fuel (root_of t) h = Ok (root_of t) h'
        ∧ tree_at h' None t
        ∧ (∀ n b, n ∈ refs t → h' !! n = Some b →
            match Br.parent b with
            | None => Br.depth b = 0%Z
            | Some p => ∃ pb, h' !! p = Some pb
                              ∧ Br.depth b = (Br.depth pb + 1)%Z
            end
            ∧ Br.height b = (maxdepth h' (refs t) - Br.depth b)%Z)
        ∧ ∀ n, n ∉ refs t → h' !! n = h !! n.
Proof.
  intros [Ht Hnd] Hfuel. destruct t as [r ks].
  inversion Ht as [? ? ? b Hb Hp Hc Hks]; subst.
  simpl in Hnd. apply NoDup_cons in Hnd as [Hr Hnd].
  set (b0 := Br.set_depth 0 b). set (h0 := <[r := b0]> h).
  assert (Hb0 : h0 !! r = Some b0) by (by eapply lookup_insert_same).
  assert (Hl0 : same_links h h0) by (by apply (same_links_insert h r b)).
  assert (Ht0 : tree_at h0 None (Sh r ks)) by (by eapply tree_at_same_links).
  inversion Ht0 as [? ? ? ? _ _ _ Hks0]; subst.
  destruct fuel as [|fuel]; [simpl in Hfuel; lia |].
  (* the first walk *)
  destruct (depth_pass_kids r ks) with (h := h0) (m := 0%Z) (rb := b0)
    as (h1 & Hrun1 & Hf1 & Hd1); [| done | done | done | done |].
  { apply Forall_forall. intros k _. apply depth_pass. }
  assert (Hb1 : h1 !! r = Some b0) by (by rewrite (Hf1 r Hr)).
  assert (Hwalk1 : Branch.eachBefore (S fuel) depth_callback r 0%Z h0
                   = Ok (maxdepth_from h1 0 (flat_map refs ks)) h1).
  { pose proof (eachBefore_foldM depth_callback depth_callback_links (S fuel)
                  (Sh r ks) None 0%Z h0 Ht0 Hfuel) as Hw.
    change (root_of (Sh r ks)) with r in Hw. rewrite Hw.
    assert (Hstep : depth_callback r 0%Z h0 = Ok 0%Z h0).
    { unfold depth_callback. rewrite (bind_get _ _ _ _ Hb0).
      unfold b0. simpl. by rewrite Hp. }
    simpl. by rewrite (bind_Ok _ _ _ _ _ Hstep). }
  assert (Hl1 : same_links h0 h1)
    by (eapply (foldM_links depth_callback depth_callback_links); exact Hrun1).
  assert (Ht1 : tree_at h1 None (Sh r ks)) by (by eapply tree_at_same_links).
  assert (Hdep1 : depths_from h1 0 (Sh r ks)) by (by apply depths_node with b0).
  (* the second walk *)
  set (m := maxdepth_from h1 0 (flat_map refs ks)) in *.
  destruct (height_pass m (postorder (Sh r ks)) h1)
    as (h2 & Hrun2 & Hl2 & He2 & Hf2 & Hh2).
  { apply Forall_forall. intros n Hn. eapply tree_at_closed; [exact Ht1 |].
    by apply postorder_refs. }
  assert (Ht2 : tree_at h2 None (Sh r ks)) by (by eapply tree_at_same_links).
  exists h2. split; [| split; [done |]]; [| split].
  - rewrite fixDistances_unfold.
    assert (Hroot : Branch.getRoot (S fuel) r h = Ok r h).
    { simpl. by rewrite (bind_get _ _ _ _ Hb), Hp. }
    rewrite (bind_Ok _ _ _ _ _ Hroot), (bind_modify _ _ _ _ _ Hb).
    fold b0 h0. rewrite (bind_Ok _ _ _ _ _ Hwalk1).
    pose proof (eachAfter_foldM (height_callback m) (height_callback_links m)
                  (S fuel) (Sh r ks) None tt h1 Ht1 Hfuel) as Hw.
    change (root_of (Sh r ks)) with r in Hw.
    by rewrite (bind_Ok _ _ _ _ _ (eq_trans Hw Hrun2)).
  - intros n bn Hn Hbn. split.
    + destruct (depths_from_parent h2 None 0 (Sh r ks) n bn)
        as [(_ & -> & Hd) | (p & pb & -> & Hpb & Hd)]; eauto.
      by eapply depths_from_ext.
    + rewrite (Hh2 n bn); [| by apply postorder_refs | done]. f_equal.
      unfold maxdepth. rewrite (maxdepth_from_ext h1 h2) by done.
      assert (Hdr : depth_of h1 r = 0%Z) by (unfold depth_of; by rewrite Hb1).
      unfold m, maxdepth_from. simpl. by rewrite Hdr.
  - intros n Hn. simpl in Hn. apply not_elem_of_cons in Hn as [Hnr Hn].
    rewrite Hf2 by (rewrite postorder_refs; simpl; rewrite elem_of_cons;
                    by intros [? | ?]).
    rewrite Hf1 by done. unfold h0. by rewrite list_lookup_insert_ne.
Qed.

Lemma fixDistances_on_valid_tree (fuel : nat) (h : heap) (t : shape) :
  valid_tree h t →
  levels t ≤ fuel →
  ∃ h', Branch.fixDistances fuel (root_of t) h = Ok (root_of t) h'
        ∧ tree_at h' None t
        ∧ ∀ n b, n ∈ refs t → h' !! n = Some b →
            match Br.parent b with
            | None => Br.depth b = 0%Z
            | Some p => ∃ pb, h' !! p = Some pb
                              ∧ Br.depth b = (Br.depth pb + 1)%Z
            end
            ∧ Br.height b = (maxdepth h' (refs t) - Br.depth b)%Z.
Proof.
  intros Hv Hfuel.
  destruct (fixDistances_walks fuel h t Hv Hfuel) as (h' & H1 & H2 & H3 & _).
  by exists h'.
Qed.

(** C7, as the code has it: after [fixDistances()] on the root of a valid
    tree, the root has depth 0, every other Branch is one deeper than its
    parent, and the height of every Branch is the greatest depth in the whole
    tree minus its own depth. *)
Theorem fixDistances_depth_and_height (fuel : nat) (h : heap) (t : shape) :
  valid_tree h t →
  levels t ≤ fuel →
  ∃ h', Branch.fixDistances fuel (root_of t) h = Ok (root_of t) h'
        ∧ tree_at h' None t
        ∧ ∀ n b, n ∈ refs t → h' !! n = Some b →
            match Br.parent b with
            | None => Br.depth b = 0%Z
            | Some p => ∃ pb, h' !! p = Some pb
                              ∧ Br.depth b = (Br.depth pb + 1)%Z
            end
            ∧ Br.height b = (maxdepth h' (refs t) - Br.depth b)%Z.
Proof. apply fixDistances_on_valid_tree. Qed.

Lemma uneven_valid : valid_tree uneven uneven_shape.
Proof.
  split.
  - repeat (econstructor; try reflexivity).
  - apply (bool_decide_unpack _). vm_compute. exact I.
Defined.

Lemma fixDistances_depth_and_height_witness :
  valid_tree uneven uneven_shape ∧ levels uneven_shape ≤ 5
  ∧ ∃ h', Branch.fixDistances 5 0 uneven = Ok 0 h'
          ∧ tree_at h' None uneven_shape
          ∧ ∀ n b, n ∈ refs uneven_shape → h' !! n = Some b →
              match Br.parent b with
              | None => Br.depth b = 0%Z
              | Some p => ∃ pb, h' !! p = Some pb
                                ∧ Br.depth b = (Br.depth pb + 1)%Z
              end
              ∧ Br.height b = (maxdepth h' (refs uneven_shape) - Br.depth b)%Z.
Proof.
  split; [exact uneven_valid |]. split; [simpl; lia |].
  apply (fixDistances_depth_and_height 5 uneven uneven_shape).
  - exact uneven_valid.
  - simpl. lia.
Defined.

(** C7 as stated fails: it gives every leaf height 0, and in
    [(A:1,(C:3,D:4):5);] the leaf [A] comes out with height 1. *)
Lemma fixDistances_leaf_height_counterexample :
  ¬ (∀ fuel h t,
       valid_tree h t → levels t ≤ fuel →
       ∃ h', Branch.fixDistances fuel (root_of t) h = Ok (root_of t) h'
             ∧ ∀ n b, n ∈ refs t → h' !! n = Some b →
                      Br.children b = [] → Br.height b = 0%Z).
Proof.
  intros H.
  destruct (H 5 uneven uneven_shape uneven_valid) as (h' & Hrun & Hleaf).
  { simpl. lia. }
  vm_compute in Hrun. injection Hrun as <-.
  specialize (Hleaf 1 (Br.Mk "A" 1 (Some 0) [] 1 1 1)).
  assert (Hcontra : (1 = 0)%Z); [| done].
  apply Hleaf; [| reflexivity | reflexivity].
  simpl. right. left.
Qed.

(** ** The value field *)

Lemma sum_unfold fuel this f :
  Branch.sum fuel this (Some f)
  = (do Branch.eachAfter fuel (sum_callback f) this tt in ret this).
Proof. reflexivity. Qed.

Lemma Q_of_nat_add a b : (Q_of_nat (a + b) == Q_of_nat a + Q_of_nat b)%Q.
Proof. unfold Q_of_nat. by rewrite Nat2Z.inj_add, inject_Z_plus. Qed.

Lemma count_callback_links n a h a' h' :
  sum_callback (fun _ => ret 1%Q) n a h = Ok a' h' → same_links h h'.
Proof.
  unfold sum_callback. rewrite bind_ret.
  destruct (h !! n) as [b|] eqn:Hn; [| by unfold bind, get; rewrite Hn].
  rewrite (bind_get _ _ _ _ Hn). unfold bind at 1.
  destruct (Branch.reduce_value _ _ _) as [s h1| |] eqn:Hr; [| done | done].
  apply reduce_value_heap in Hr as ->.
  rewrite (modify_Ok _ _ _ _ Hn). intros [= _ <-].
  by apply (same_links_insert h n b (Br.set_value _)).
Qed.

Lemma sizes_frame h h' t :
  (∀ n, n ∈ refs t → h' !! n = h !! n) → sizes h t → sizes h' t.
Proof.
  induction t as [r ks IH] using shape_ind'. intros Hf Ht.
  inversion Ht as [? ? b Hb Hv Hks]; subst.
  apply sizes_node with b; [| done |].
  - rewrite Hf; [done | simpl; left].
  - rewrite Forall_forall in IH, Hks |- *. intros k Hk.
    apply IH; [done | | by apply Hks].
    intros n Hn. apply Hf. simpl. right.
    apply elem_of_flat_map. by exists k.
Qed.

Lemma reduce_value_sizes h ks : ∀ a,
  Forall (sizes h) ks →
  ∃ s, Branch.reduce_value (map root_of ks) a h = Ok s h
       ∧ (s == a + Q_of_nat (List.length (flat_map refs ks)))%Q.
Proof.
  induction ks as [|k ks IH]; intros a Hks; simpl.
  { exists a. split; [done |]. unfold Q_of_nat. simpl. ring. }
  inversion Hks as [|? ? Hk Hks']; subst.
  inversion Hk as [r ks' b Hb Hv _]; subst. simpl root_of.
  rewrite (bind_get _ _ _ _ Hb).
  destruct (IH (a + Br.value b)%Q Hks') as (s & Hrun & Hs).
  exists s. split; [done |]. rewrite Hs, Hv.
  rewrite length_app, Q_of_nat_add. unfold size. ring.
Qed.


Lemma count_pass_kids r ks :
  Forall count_pass_at ks →
  ∀ h,
    Forall (tree_at h (Some r)) ks → NoDup (flat_map refs ks) →
    ∃ h', foldM (sum_callback (fun _ => ret 1%Q)) (flat_map postorder ks) tt h
          = Ok tt h'
          ∧ (∀ n, n ∉ flat_map refs ks → h' !! n = h !! n)
          ∧ Forall (sizes h') ks.
Proof.
  induction 1 as [|k ks Hk _ IH]; intros h Hks Hnd; simpl.
  { exists h. by repeat split. }
  simpl in Hnd. apply NoDup_app in Hnd as (Hnd1 & Hdisj & Hnd2).
  inversion Hks as [|? ? Htk Hks']; subst.
  destruct (Hk h (Some r) Htk Hnd1) as (h1 & Hrun1 & Hf1 & Hs1).
  assert (Hks1 : Forall (tree_at h1 (Some r)) ks).
  { rewrite Forall_forall in Hks' |- *. intros k' Hk'.
    eapply tree_at_frame; [| by apply Hks'].
    intros n Hn. apply Hf1. intros Hn1. apply (Hdisj n Hn1).
    apply elem_of_flat_map. by exists k'. }
  destruct (IH h1 Hks1 Hnd2) as (h2 & Hrun2 & Hf2 & Hs2).
  exists h2. split; [| split].
  - by rewrite foldM_app, (bind_Ok _ _ _ _ _ Hrun1).
  - intros n Hn. apply not_elem_of_app in Hn as [Hn1 Hn2].
    by rewrite Hf2, Hf1.
  - constructor; [| done]. eapply sizes_frame; [| exact Hs1].
    intros n Hn. apply Hf2. by apply Hdisj.
Qed.

Lemma count_pass t : count_pass_at t.
Proof.
  induction t as [r ks IH] using shape_ind'. intros h p Ht Hnd.
  inversion Ht as [? ? ? b Hb Hpar Hc Hks]; subst.
  simpl in Hnd. apply NoDup_cons in Hnd as [Hr Hnd].
  destruct (count_pass_kids r ks IH h Hks Hnd) as (h1 & Hrun & Hf & Hs).
  assert (Hb1 : h1 !! r = Some b) by (by rewrite (Hf r Hr)).
  destruct (reduce_value_sizes h1 ks 0%Q Hs) as (s & Hred & Hsum).
  set (b2 := Br.set_value (1 + s) b).
  assert (Hstep : sum_callback (fun _ => ret 1%Q) r tt h1
                  = Ok tt (<[r := b2]> h1)).
  { unfold sum_callback. rewrite bind_ret.
    rewrite (bind_get _ _ _ _ Hb1), Hc, (bind_Ok _ _ _ _ _ Hred).
    by rewrite (modify_Ok _ _ _ _ Hb1). }
  exists (<[r := b2]> h1). split; [| split].
  - simpl. rewrite foldM_app, (bind_Ok _ _ _ _ _ Hrun). simpl.
    by rewrite (bind_Ok _ _ _ _ _ Hstep).
  - intros n Hn. apply not_elem_of_cons in Hn as [Hnr Hn].
    rewrite list_lookup_insert_ne by done. by apply Hf.
  - apply sizes_node with b2; [by eapply lookup_insert_same | |].
    + unfold b2, size. simpl. rewrite Hsum.
      change (S (List.length (flat_map refs ks)))
        with (1 + List.length (flat_map refs ks)).
      rewrite Q_of_nat_add. unfold Q_of_nat at 2. simpl. ring.
    + rewrite Forall_forall in Hs |- *. intros k Hk.
      eapply sizes_frame; [| by apply Hs].
      intros n Hn. rewrite list_lookup_insert_ne; [done |].
      intros <-. apply Hr, elem_of_flat_map. by exists k.
Qed.

Lemma sizes_subshape h t s b :
  sizes h t → subshape s t → h !! root_of s = Some b →
  (Br.value b == Q_of_nat (size s))%Q.
Proof.
  intros Ht Hsub. revert Ht.
  induction Hsub as [|r ks k Hk Hsub IH]; intros Ht Hb.
  - destruct s as [r ks]. inversion Ht as [? ? b' Hb' Hv _]; subst.
    simpl in Hb. rewrite Hb' in Hb. by injection Hb as <-.
  - inversion Ht as [? ? b' Hb' Hv Hks]; subst.
    rewrite Forall_forall in Hks. by apply IH; [apply Hks |].
Qed.

(** C8, as the code has it: [count()] recomputes [value] in full.  Whatever
    the Branches of a valid tree held before, after [count()] the value of
    each Branch is the number of Branches in its subtree. *)
Theorem count_recomputes_value (fuel : nat) (h : heap) (t : shape) :
  valid_tree h t →
  levels t ≤ fuel →
  ∃ h', Branch.count fuel (root_of t) h = Ok (root_of t) h'
        ∧ tree_at h' None t
        ∧ ∀ s b, subshape s t → h' !! root_of s = Some b →
                 (Br.value b == Q_of_nat (size s))%Q.
Proof.
  intros [Ht Hnd] Hfuel.
  destruct (count_pass t h None Ht Hnd) as (h1 & Hrun & _ & Hs).
  exists h1. split; [| split].
  - unfold Branch.count. rewrite sum_unfold.
    pose proof (eachAfter_foldM _ count_callback_links fuel t None tt h Ht Hfuel)
      as Hw.
    by rewrite (bind_Ok _ _ _ _ _ (eq_trans Hw Hrun)).
  - eapply tree_at_same_links; [| exact Ht].
    eapply (foldM_links _ count_callback_links). exact Hrun.
  - intros s b Hsub Hb. by eapply sizes_subshape.
Qed.

Lemma count_recomputes_value_witness :
  valid_tree uneven uneven_shape ∧ levels uneven_shape ≤ 5
  ∧ ∃ h', Branch.count 5 0 uneven = Ok 0 h'
          ∧ tree_at h' None uneven_shape
          ∧ ∀ s b, subshape s uneven_shape → h' !! root_of s = Some b →
                   (Br.value b == Q_of_nat (size s))%Q.
Proof.
  split; [exact uneven_valid |]. split; [simpl; lia |].
  apply (count_recomputes_value 5 uneven uneven_shape).
  - exact uneven_valid.
  - simpl. lia.
Defined.

(** C8 as stated fails: a second [fixDistances()] changes the value the
    first one left at the root (5 becomes 11), and [sum()] without a valuator
    gives different values on two stores that differ only in [value]. *)
Lemma value_not_recomputed_counterexample :
  (∃ h1 h2 b1 b2,
     Branch.fixDistances 5 0 uneven = Ok 0 h1
     ∧ Branch.fixDistances 5 0 h1 = Ok 0 h2
     ∧ h1 !! 0 = Some b1 ∧ h2 !! 0 = Some b2
     ∧ (Br.value b1 == 5)%Q ∧ (Br.value b2 == 11)%Q)
  ∧ (∃ h1 h2 b1 b2,
       Branch.sum 5 0 None two_roots = Ok 0 h1
       ∧ Branch.sum 5 0 None (<[1 := Br.Mk "A" 1 (Some 0) [] 0 0 7]> two_roots)
         = Ok 0 h2
       ∧ h1 !! 0 = Some b1 ∧ h2 !! 0 = Some b2
       ∧ (Br.value b1 == 2)%Q ∧ (Br.value b2 == 8)%Q).
Proof.
  split; eexists _, _, _, _; by_running.
Qed.

(** ** simplify *)

Lemma simplify_unfold fuel this :
  Branch.simplify fuel this
  = (do Branch.eachAfter fuel simplify_callback this tt in
     Branch.fixDistances fuel this).
Proof. reflexivity. Qed.

Lemma indexOf_from_app l : ∀ l' x k i,
  NoDup l → l !! k = Some x →
  indexOf_from x (l ++ l') i = (i + Z.of_nat k)%Z.
Proof.
  induction l as [|y l IH]; intros l' x k i Hnd Hk; [done |].
  apply NoDup_cons in Hnd as [Hy Hnd]. simpl.
  destruct k as [|k]; simpl in Hk.
  - injection Hk as ->. rewrite Nat.eqb_refl. lia.
  - destruct (Nat.eqb_spec y x) as [-> | _].
    + exfalso. apply Hy. by eapply list_elem_of_lookup_2.
    + rewrite (IH l' x k (i + 1)%Z Hnd Hk). lia.
Qed.

Lemma indexOf_app l l' x k :
  NoDup l → l !! k = Some x → indexOf (l ++ l') x = Z.of_nat k.
Proof. intros. unfold indexOf. by erewrite indexOf_from_app. Qed.

Lemma splice1_delete (l : list ref) k :
  k < List.length l → splice1 l (Z.of_nat k) = delete k l.
Proof.
  intros Hk. unfold splice1, splice_start.
  destruct (Z.ltb_spec (Z.of_nat k) 0); [lia |].
  rewrite Nat2Z.id, Nat.min_l by lia. by rewrite delete_take_drop.
Qed.

Lemma levels_le r ks m :
  levels (Sh r ks) ≤ S m ↔ Forall (fun t => levels t ≤ m) ks.
Proof.
  simpl. induction ks as [|k ks IH]; simpl.
  - split; [constructor | lia].
  - rewrite Forall_cons. split.
    + intros H. split; [lia |]. apply IH. lia.
    + intros [H1 H2]. apply IH in H2. lia.
Qed.

Lemma flat_map_refs_middle (ts : list shape) i t :
  ts !! i = Some t →
  flat_map refs ts
  = flat_map refs (take i ts) ++ refs t ++ flat_map refs (drop (S i) ts).
Proof.
  intros Hi. rewrite <- (take_drop_middle ts i t Hi) at 1.
  by rewrite flat_map_app.
Qed.

Lemma flat_map_refs_insert (ts : list shape) i t' :
  i < List.length ts →
  flat_map refs (<[i := t']> ts)
  = flat_map refs (take i ts) ++ refs t' ++ flat_map refs (drop (S i) ts).
Proof.
  intros Hi. rewrite insert_take_drop by done. by rewrite flat_map_app.
Qed.

Lemma flat_map_refs_delete (ts : list shape) i :
  flat_map refs (delete i ts)
  = flat_map refs (take i ts) ++ flat_map refs (drop (S i) ts).
Proof. by rewrite delete_take_drop, flat_map_app. Qed.

(** Two trees under one Branch share no reference. *)
Lemma refs_disjoint (ts : list shape) i j t1 t2 n :
  NoDup (flat_map refs ts) → ts !! i = Some t1 → ts !! j = Some t2 →
  i ≠ j → n ∈ refs t1 → n ∉ refs t2.
Proof.
  revert i j. induction ts as [|t ts IH]; intros i j Hnd Hi Hj Hne H1 H2.
  { done. }
  simpl in Hnd. apply NoDup_app in Hnd as (_ & Hdisj & Hnd).
  destruct i as [|i], j as [|j]; simpl in Hi, Hj; simplify_eq.
  - apply (Hdisj n H1). apply elem_of_flat_map. exists t2.
    split; [by eapply list_elem_of_lookup_2 | done].
  - apply (Hdisj n H2). apply elem_of_flat_map. exists t1.
    split; [by eapply list_elem_of_lookup_2 | done].
  - eapply (IH i j); eauto.
Qed.

Lemma submseteq_NoDup (l k : list ref) : l ⊆+ k → NoDup k → NoDup l.
Proof.
  intros Hs Hk. apply submseteq_Permutation in Hs as [k' Hp].
  rewrite Hp in Hk. by apply NoDup_app in Hk as [? _].
Qed.

Lemma rearranged_refl h p P ts :
  tree_at h p (Sh P ts) → rearranged h p P ts h ts.
Proof. intros Ht. by repeat split. Qed.

Lemma rearranged_refs_subset h p P ts h' ts' n :
  rearranged h p P ts h' ts' → n ∈ refs (Sh P ts') → n ∈ refs (Sh P ts).
Proof.
  intros (_ & _ & Hsub & _) Hn. simpl in *.
  apply elem_of_cons in Hn as [-> | Hn]; [left | right].
  by eapply elem_of_submseteq.
Qed.

Lemma rearranged_NoDup h p P ts h' ts' :
  rearranged h p P ts h' ts' → NoDup (refs (Sh P ts)) → NoDup (refs (Sh P ts')).
Proof.
  intros (_ & _ & Hsub & _) Hnd. simpl in *.
  eapply submseteq_NoDup; [| exact Hnd]. by apply submseteq_skip.
Qed.

Lemma rearranged_trans h p P ts h1 ts1 h2 ts2 :
  rearranged h p P ts h1 ts1 → rearranged h1 p P ts1 h2 ts2 →
  rearranged h p P ts h2 ts2.
Proof.
  intros H1 H2.
  pose proof (fun n => rearranged_refs_subset _ _ _ _ _ _ n H1) as Hsub.
  destruct H1 as (Ht1 & Hl1 & Hs1 & Hm1 & Hf1).
  destruct H2 as (Ht2 & Hl2 & Hs2 & Hm2 & Hf2).
  split; [done |]. split; [congruence |]. split; [by etrans |].
  split; [auto |]. intros n Hn. rewrite Hf2, Hf1; [done | done |].
  intros Hn'. by apply Hn, Hsub.
Qed.

Lemma refs_of_kid (ts : list shape) i t n :
  ts !! i = Some t → n ∈ refs t → n ∈ flat_map refs ts.
Proof.
  intros Hi Hn. apply elem_of_flat_map. exists t.
  split; [by eapply list_elem_of_lookup_2 | done].
Qed.

(** A rearrangement below one child of [P] is one below [P]. *)
Lemma rearranged_lift h p P ts i b ks h1 ks1 :
  tree_at h p (Sh P ts) → NoDup (refs (Sh P ts)) →
  ts !! i = Some (Sh b ks) →
  rearranged h (Some P) b ks h1 ks1 →
  rearranged h p P ts h1 (<[i := Sh b ks1]> ts).
Proof.
  intros Ht Hnd Hi (Ht1 & Hl1 & Hs1 & Hm1 & Hf1).
  inversion Ht as [? ? ? pb Hpb Hp Hc Hks]; subst.
  simpl in Hnd. apply NoDup_cons in Hnd as [HP Hnd].
  assert (Hlt : i < List.length ts) by (by eapply lookup_lt_Some).
  assert (HPb : P ∉ refs (Sh b ks)).
  { intros HPin. apply HP. by eapply refs_of_kid. }
  split; [| split; [| split; [| split]]].
  - apply tree_at_node with pb; [by rewrite (Hf1 P HPb) | done | |].
    + rewrite Hc, list_fmap_insert. simpl. symmetry. apply list_insert_id.
      by rewrite list_lookup_fmap, Hi.
    + apply Forall_lookup. intros j t Hj.
      apply list_lookup_insert_Some in Hj as [(-> & <- & _) | (Hne & Hj)].
      { done. }
      rewrite Forall_lookup in Hks.
      eapply tree_at_frame; [| by eapply Hks].
      intros n Hn. apply Hf1. by eapply (refs_disjoint ts j i).
  - by rewrite length_insert.
  - rewrite flat_map_refs_insert by done.
    rewrite (flat_map_refs_middle ts i (Sh b ks) Hi).
    apply submseteq_skips_l, submseteq_skips_r. simpl.
    by apply submseteq_skip.
  - intros m Hm. apply Forall_insert; [done |].
    rewrite Forall_lookup in Hm. specialize (Hm i _ Hi).
    destruct m as [|m]; [pose proof (levels_pos (Sh b ks)); lia |].
    apply (proj2 (levels_le b ks1 m)), Hm1, (proj1 (levels_le b ks m)), Hm.
  - intros n Hn. apply Hf1. intros Hnb. apply Hn. simpl. right.
    by eapply refs_of_kid.
Qed.

Lemma NoDup_roots (ts : list shape) :
  NoDup (flat_map refs ts) → NoDup (map root_of ts).
Proof.
  induction ts as [|[r ks] ts IH]; simpl; [constructor |].
  intros Hnd. apply NoDup_cons in Hnd as [Hr Hnd].
  apply NoDup_app in Hnd as (_ & _ & Hnd). apply NoDup_cons. split; [| auto].
  intros Hin. apply Hr, elem_of_app. right.
  apply list_elem_of_fmap in Hin as ([r' ks'] & -> & Hin).
  apply elem_of_flat_map. exists (Sh r' ks'). split; [done | simpl; left].
Qed.

Lemma elem_of_delete_lookup {A} (l : list A) i x :
  x ∈ delete i l → ∃ j, j ≠ i ∧ l !! j = Some x.
Proof.
  intros Hx. apply list_elem_of_lookup in Hx as [j Hj].
  destruct (decide (j < i)) as [Hlt | Hge].
  - rewrite list_lookup_delete_lt in Hj by done. exists j. split; [lia | done].
  - rewrite list_lookup_delete_ge in Hj by lia. exists (S j). split; [lia | done].
Qed.

Lemma map_root_delete (ts : list shape) i :
  map root_of (delete i ts) = delete i (map root_of ts).
Proof.
  rewrite !delete_take_drop, map_app.
  change (map root_of) with (fmap (M := list) root_of).
  by rewrite fmap_take, fmap_drop.
Qed.

(** [excise()] on the Branch [b], the [i]-th child of [P], when [b] has the
    one child [g]: [g] moves to the end of the children of [P] and [b] is
    gone from them. *)
Lemma excise_only_child h p P ts i b g :
  tree_at h p (Sh P ts) → NoDup (refs (Sh P ts)) →
  ts !! i = Some (Sh b [g]) →
  ∃ h', Branch.excise b h = Ok P h'
        ∧ rearranged h p P ts h' (delete i ts ++ [g]).
Proof.
  intros Ht Hnd Hi. destruct g as [c gks].
  inversion Ht as [? ? ? pb Hpb Hp Hc Hks]; subst.
  simpl in Hnd. apply NoDup_cons in Hnd as [HP Hnd].
  assert (Hlt : i < List.length ts) by (by eapply lookup_lt_Some).
  pose proof (proj1 (Forall_lookup _ _) Hks i _ Hi) as Htb.
  inversion Htb as [? ? ? bb Hbb Hbp Hbc Hbks]; subst.
  inversion Hbks as [|? ? Htc _]; subst.
  inversion Htc as [? ? ? cc Hcc Hcp Hccs Hgks]; subst.
  assert (Hbin : b ∈ flat_map refs ts) by (eapply refs_of_kid; [done | left]).
  assert (Hcin : c ∈ flat_map refs ts).
  { eapply refs_of_kid; [done |]. simpl. right. left. }
  assert (HPb : P ≠ b) by (by intros ->).
  assert (HPc : P ≠ c) by (by intros ->).
  pose proof (flat_map_refs_middle ts i _ Hi) as Hmid.
  assert (Hndb : NoDup (refs (Sh b [Sh c gks]))).
  { rewrite Hmid in Hnd. apply NoDup_app in Hnd as (_ & _ & Hnd).
    by apply NoDup_app in Hnd as (Hnd & _). }
  simpl in Hndb. rewrite app_nil_r in Hndb.
  apply NoDup_cons in Hndb as [Hbc' Hndb].
  apply NoDup_cons in Hndb as [Hcg Hndg].
  assert (Hbc'' : b ≠ c) by (intros ->; apply Hbc'; left).
  (* the walk over the one child *)
  set (c1 := Br.set_length (Br.length cc + Br.length bb) cc).
  set (c2 := Br.set_parent (Some P) c1).
  set (pb1 := Br.set_children (Br.children pb ++ [c]) pb).
  set (ha := <[c := c1]> h). set (hb := <[c := c2]> ha).
  set (hc := <[P := pb1]> hb).
  assert (Hbb_a : ha !! b = Some bb)
    by (unfold ha; by rewrite list_lookup_insert_ne).
  assert (Hbb_b : hb !! b = Some bb)
    by (unfold hb; by rewrite list_lookup_insert_ne).
  assert (Hbb_c : hc !! b = Some bb)
    by (unfold hc; by rewrite list_lookup_insert_ne).
  assert (Hc_a : ha !! c = Some c1) by (by eapply lookup_insert_same).
  assert (Hc_b : hb !! c = Some c2) by (by eapply lookup_insert_same).
  assert (HP_b : hb !! P = Some pb).
  { unfold hb, ha. by rewrite !list_lookup_insert_ne. }
  assert (HP_c : hc !! P = Some pb1) by (by eapply lookup_insert_same).
  set (pb2 := Br.set_children (delete i (map root_of ts) ++ [c]) pb1).
  set (h' := <[P := pb2]> hc).
  exists h'. split.
  - unfold Branch.excise. rewrite (bind_get _ _ _ _ Hbb).
    unfold Branch.isRoot. rewrite Hbp. simpl.
    match goal with
    | |- bind (Branch.eachChild b ?f tt) _ _ = _ =>
        assert (Hcb : f c tt h = Ok tt hc);
        [| assert (Hloop : Branch.eachChild b f tt h = Ok tt hc)]
    end.
    { cbv beta.
      rewrite (bind_get _ _ _ _ Hbb), (bind_modify _ _ _ _ _ Hcc).
      fold c1 ha. rewrite (bind_get _ _ _ _ Hbb_a).
      rewrite (bind_modify _ _ _ _ _ Hc_a), Hbp. fold c2 hb.
      rewrite (bind_get _ _ _ _ Hbb_b), Hbp.
      unfold Branch.push. by rewrite (modify_Ok _ _ _ _ HP_b). }
    { unfold Branch.eachChild. rewrite (bind_get _ _ _ _ Hbb), Hbc. simpl.
      rewrite (bind_get _ _ _ _ Hbb), Hbc. simpl.
      by rewrite (bind_Ok _ _ _ _ _ Hcb). }
    rewrite (bind_Ok _ _ _ _ _ Hloop).
    rewrite (bind_get _ _ _ _ Hbb_c), Hbp. simpl. rewrite bind_ret.
    rewrite (bind_get _ _ _ _ HP_c), (bind_modify _ _ _ _ _ HP_c).
    assert (Hsplice :
      splice1 (Br.children pb1) (indexOf (Br.children pb1) b)
      = delete i (map root_of ts) ++ [c]).
    { unfold pb1. simpl. rewrite Hc.
      rewrite (indexOf_app (map root_of ts) [c] b i).
      - rewrite splice1_delete by (rewrite length_app, length_map; lia).
        rewrite !delete_take_drop, take_app_le, drop_app_le
          by (rewrite length_map; lia).
        by rewrite <- app_assoc.
      - by apply NoDup_roots.
      - change (map root_of ts) with (root_of <$> ts).
        by rewrite list_lookup_fmap, Hi. }
    rewrite Hsplice. fold pb2 h'.
    assert (Hbb' : h' !! b = Some bb)
      by (unfold h'; by rewrite list_lookup_insert_ne).
    by rewrite (bind_get _ _ _ _ Hbb'), Hbp.
  - assert (Hout : ∀ n, n ≠ P → n ≠ c → h' !! n = h !! n).
    { intros n HnP Hnc. unfold h', hc, hb, ha.
      by rewrite !list_lookup_insert_ne. }
    assert (HP' : h' !! P = Some pb2) by (by eapply lookup_insert_same).
    assert (Hc' : h' !! c = Some c2).
    { unfold h', hc. by rewrite !list_lookup_insert_ne. }
    split; [| split; [| split; [| split]]].
    + apply tree_at_node with pb2; [done | done | |].
      * simpl. by rewrite map_app, map_root_delete.
      * apply Forall_app. split.
        -- apply Forall_forall. intros t Hin.
           apply elem_of_delete_lookup in Hin as (j & Hji & Hj).
           eapply tree_at_frame;
             [| by eapply (proj1 (Forall_lookup _ _) Hks j)].
           intros n Hn. apply Hout.
           ++ intros ->. by eapply HP, refs_of_kid.
           ++ intros ->. eapply (refs_disjoint ts j i); eauto.
              simpl. right. left.
        -- constructor; [| constructor].
           apply tree_at_node with c2; [done | done | done |].
           apply Forall_forall. intros k Hk.
           rewrite Forall_forall in Hgks.
           eapply tree_at_frame; [| by apply Hgks].
           intros n Hn. apply Hout.
           ++ intros ->. apply HP. eapply refs_of_kid; [done |].
              simpl. right. right. rewrite app_nil_r.
              apply elem_of_flat_map. by exists k.
           ++ intros ->. apply Hcg, elem_of_flat_map. by exists k.
    + rewrite length_app, length_delete by (by eexists). simpl. lia.
    + rewrite flat_map_app, flat_map_refs_delete, Hmid. simpl.
      rewrite !app_nil_r, <- app_assoc. apply submseteq_skips_l.
      rewrite (Permutation_app_comm (flat_map refs (drop (S i) ts))).
      by apply submseteq_cons.
    + intros m Hm. apply Forall_app. split.
      * apply Forall_forall. intros t Hin.
        apply elem_of_delete_lookup in Hin as (j & _ & Hj).
        by eapply (proj1 (Forall_lookup _ _) Hm j).
      * constructor; [| constructor].
        pose proof (proj1 (Forall_lookup _ _) Hm i _ Hi) as Hmb.
        assert (Hin : Sh c gks ∈ [Sh c gks]) by left.
        pose proof (levels_kid b [Sh c gks] (Sh c gks) Hin).
        cbv beta in Hmb. lia.
    + intros n Hn. simpl in Hn. apply not_elem_of_cons in Hn as [HnP Hn].
      apply Hout; [done |]. by intros ->.
Qed.

Lemma rearranged_modify h p P ts c cc f :
  tree_at h p (Sh P ts) → h !! c = Some cc → c ∈ refs (Sh P ts) →
  links (f cc) = links cc →
  rearranged h p P ts (<[c := f cc]> h) ts.
Proof.
  intros Ht Hc Hin Hf. split; [| split; [| split; [| split]]]; try done.
  - eapply tree_at_same_links; [| exact Ht]. by apply same_links_insert.
  - intros n Hn. rewrite list_lookup_insert_ne; [done |]. by intros ->.
Qed.

Lemma NoDup_kid (ts : list shape) P i t :
  NoDup (refs (Sh P ts)) → ts !! i = Some t → NoDup (refs t).
Proof.
  simpl. intros Hnd Hi. apply NoDup_cons in Hnd as [_ Hnd].
  rewrite (flat_map_refs_middle ts i t Hi) in Hnd.
  apply NoDup_app in Hnd as (_ & _ & Hnd). by apply NoDup_app in Hnd as [? _].
Qed.

(** The callback of [simplify] on a Branch that has a parent. *)
Lemma simplify_callback_below h p P ts i b ks :
  tree_at h p (Sh P ts) → NoDup (refs (Sh P ts)) →
  ts !! i = Some (Sh b ks) →
  ∃ h' ts', simplify_callback b tt h = Ok tt h' ∧ rearranged h p P ts h' ts'.
Proof.
  intros Ht Hnd Hi.
  inversion Ht as [? ? ? pb Hpb Hp Hc Hks]; subst.
  pose proof (proj1 (Forall_lookup _ _) Hks i _ Hi) as Htb.
  inversion Htb as [? ? ? bb Hbb Hbp Hbc Hbks]; subst.
  unfold simplify_callback. rewrite (bind_get _ _ _ _ Hbb), Hbc.
  destruct ks as [|[c gks] [|g2 ks]]; simpl;
    [exists h, ts; split; [done | by apply rearranged_refl] | |
     exists h, ts; split; [done | by apply rearranged_refl]].
  inversion Hbks as [|? ? Htc _]; subst.
  inversion Htc as [? ? ? cc Hcc Hcp Hccs Hgks]; subst.
  set (f := fun x : Br.t =>
              if String.eqb (Br.id cc) ""
              then Br.set_id (Br.id bb) x
              else Br.set_id (Br.id bb ++ "+" ++ Br.id cc) x).
  assert (Hcin : c ∈ refs (Sh P ts)).
  { simpl. right. eapply refs_of_kid; [done |]. simpl. right. left. }
  assert (Hre : rearranged h (Br.parent pb) P ts (<[c := f cc]> h) ts).
  { apply rearranged_modify; [done | done | done |].
    unfold f. by destruct (String.eqb (Br.id cc) ""). }
  destruct (excise_only_child (<[c := f cc]> h) (Br.parent pb) P ts i b
              (Sh c gks)) as (h' & Hex & Hre'); [apply Hre | done | done |].
  exists h', (delete i ts ++ [Sh c gks]). split.
  - rewrite (bind_get _ _ _ _ Hcc).
    assert (Hmod : (if String.eqb (Br.id cc) ""
                    then modify c (Br.set_id (Br.id bb))
                    else modify c (Br.set_id (Br.id bb ++ "+" ++ Br.id cc))) h
                   = Ok tt (<[c := f cc]> h)).
    { unfold f. destruct (String.eqb (Br.id cc) "");
        by rewrite (modify_Ok _ _ _ _ Hcc). }
    by rewrite (bind_Ok _ _ _ _ _ Hmod), (bind_Ok _ _ _ _ _ Hex).
  - by eapply rearranged_trans.
Qed.

(** The loop of [eachChild] inside the walk of [simplify]. *)
Lemma simplify_loop fuel :
  simplify_walk_ends fuel →
  ∀ n i h p b ks,
    tree_at h p (Sh b ks) → NoDup (refs (Sh b ks)) →
    Forall (fun t => levels t ≤ fuel) ks →
    ∃ h' ks',
      Branch.forEach_live b (Branch.eachAfter fuel simplify_callback) n i tt h
      = Ok tt h'
      ∧ rearranged h p b ks h' ks'.
Proof.
  intros Hwalk. induction n as [|n IH]; intros i h p b ks Ht Hnd Hlev.
  { exists h, ks. split; [done | by apply rearranged_refl]. }
  inversion Ht as [? ? ? bb Hbb Hbp Hbc Hbks]; subst.
  simpl. rewrite (bind_get _ _ _ _ Hbb), Hbc.
  change (map root_of ks) with (root_of <$> ks). rewrite list_lookup_fmap.
  destruct (ks !! i) as [k|] eqn:Hk; simpl.
  - destruct (Hwalk h (Br.parent bb) b ks i k Ht Hnd Hk)
      as (h1 & ks1 & Hrun1 & Hre1).
    { by eapply (proj1 (Forall_lookup _ _) Hlev). }
    destruct (IH (S i) h1 (Br.parent bb) b ks1) as (h2 & ks2 & Hrun2 & Hre2).
    + apply Hre1.
    + by eapply rearranged_NoDup.
    + by apply Hre1.
    + exists h2, ks2. split; [| by eapply rearranged_trans].
      by rewrite (bind_Ok _ _ _ _ _ Hrun1).
  - rewrite bind_ret. by apply IH.
Qed.

Lemma simplify_walk fuel : simplify_walk_ends fuel.
Proof.
  induction fuel as [|fuel IH]; intros h p P ts i k Ht Hnd Hi Hlev.
  { pose proof (levels_pos k). lia. }
  destruct k as [b ks].
  inversion Ht as [? ? ? pb Hpb Hp Hc Hks]; subst.
  pose proof (proj1 (Forall_lookup _ _) Hks i _ Hi) as Htb.
  inversion Htb as [? ? ? bb Hbb Hbp Hbc Hbks]; subst.
  destruct (simplify_loop fuel IH (List.length ks) 0 h (Some P) b ks)
    as (h1 & ks1 & Hrun1 & Hre1); [done | by eapply NoDup_kid | |].
  { by apply (proj1 (levels_le b ks fuel)). }
  pose proof (rearranged_lift _ _ _ _ _ _ _ _ _ Ht Hnd Hi Hre1) as Hre1'.
  destruct (simplify_callback_below h1 (Br.parent pb) P
              (<[i := Sh b ks1]> ts) i b ks1) as (h2 & ts2 & Hrun2 & Hre2).
  - apply Hre1'.
  - by eapply rearranged_NoDup.
  - apply list_lookup_insert_eq. by eapply lookup_lt_Some.
  - exists h2, ts2. split; [| by eapply rearranged_trans].
    simpl. unfold Branch.eachChild.
    rewrite bind_assoc, (bind_get _ _ _ _ Hbb), Hbc, length_map.
    by rewrite (bind_Ok _ _ _ _ _ Hrun1).
Qed.

Lemma consolidate_unfold fuel this :
  Branch.consolidate fuel this
  = (do Branch.eachAfter fuel consolidate_callback this tt in
     Branch.fixDistances fuel this).
Proof. reflexivity. Qed.

(** C10: on a valid tree whose root has exactly one child, [simplify()]
    throws the TypeError of reading [children] off a null parent; on a
    valid tree whose root has no child or at least two, it returns.  The
    callback of [consolidate] leaves a root as it is. *)
Theorem simplify_fails_on_root_with_one_child
        (fuel : nat) (h : heap) (r : ref) (ks : list shape) :
  valid_tree h (Sh r ks) →
  levels (Sh r ks) ≤ fuel →
  (List.length ks = 1 →
   ∃ h', Branch.simplify fuel r h
         = Throw (TypeError "Cannot read properties of null (reading 'children')")
                 h')
  ∧ (List.length ks ≠ 1 → ∃ h', Branch.simplify fuel r h = Ok r h')
  ∧ consolidate_callback r tt h = Ok tt h.
Proof.
  intros [Ht Hnd] Hfuel.
  destruct fuel as [|fuel]; [simpl in Hfuel; lia |].
  inversion Ht as [? ? ? rb Hrb Hrp Hrc Hrks]; subst.
  destruct (simplify_loop fuel (simplify_walk fuel) (List.length ks) 0 h None r ks)
    as (h1 & ks1 & Hrun1 & Hre1); [done | done | |].
  { by apply (proj1 (levels_le r ks fuel)). }
  assert (Hkids : Branch.eachChild r (Branch.eachAfter fuel simplify_callback) tt h
                  = Ok tt h1).
  { unfold Branch.eachChild. by rewrite (bind_get _ _ _ _ Hrb), Hrc, length_map. }
  pose proof (rearranged_NoDup _ _ _ _ _ _ Hre1 Hnd) as Hnd1.
  destruct Hre1 as (Ht1 & Hlen1 & _ & Hlev1 & _).
  inversion Ht1 as [? ? ? rb1 Hrb1 Hrp1 Hrc1 Hrks1]; subst.
  split; [| split].
  - intros Hone. rewrite Hone in Hlen1.
    destruct ks1 as [|[c gks] [|? ?]]; simpl in Hlen1; try lia.
    inversion Hrks1 as [|? ? Htc _]; subst.
    inversion Htc as [? ? ? cc Hcc Hcp Hccs Hgks]; subst.
    simpl in Hnd1. apply NoDup_cons in Hnd1 as [Hrc' _].
    assert (Hne : c ≠ r) by (intros ->; apply Hrc'; left).
    set (f := fun x : Br.t =>
                if String.eqb (Br.id cc) ""
                then Br.set_id (Br.id rb1) x
                else Br.set_id (Br.id rb1 ++ "+" ++ Br.id cc) x).
    set (h2 := <[c := f cc]> h1).
    set (c3 := Br.set_length (Br.length (f cc) + Br.length rb1) (f cc)).
    set (h3 := <[c := c3]> h2).
    set (h4 := <[c := Br.set_parent None c3]> h3).
    assert (Hc2 : h2 !! c = Some (f cc)) by (by eapply lookup_insert_same).
    assert (Hc3 : h3 !! c = Some c3) by (by eapply lookup_insert_same).
    assert (Hr2 : h2 !! r = Some rb1)
      by (unfold h2; by rewrite list_lookup_insert_ne).
    assert (Hr3 : h3 !! r = Some rb1)
      by (unfold h3; by rewrite list_lookup_insert_ne).
    assert (Hr4 : h4 !! r = Some rb1)
      by (unfold h4; by rewrite list_lookup_insert_ne).
    assert (Hmod : (if String.eqb (Br.id cc) ""
                    then modify c (Br.set_id (Br.id rb1))
                    else modify c (Br.set_id (Br.id rb1 ++ "+" ++ Br.id cc))) h1
                   = Ok tt h2).
    { unfold h2, f. destruct (String.eqb (Br.id cc) "");
        by rewrite (modify_Ok _ _ _ _ Hcc). }
    assert (Hex : Branch.excise r h2
                  = Throw (TypeError
                             "Cannot read properties of null (reading 'children')")
                          h4).
    { unfold Branch.excise. rewrite (bind_get _ _ _ _ Hr2).
      unfold Branch.isRoot. rewrite Hrp1, Hrc1. simpl.
      match goal with
      | |- bind (Branch.eachChild r ?g tt) _ _ = _ =>
          assert (Hcb : g c tt h2 = Ok tt h4);
          [| assert (Hloop : Branch.eachChild r g tt h2 = Ok tt h4)]
      end.
      { cbv beta.
        rewrite (bind_get _ _ _ _ Hr2), (bind_modify _ _ _ _ _ Hc2).
        fold c3 h3. rewrite (bind_get _ _ _ _ Hr3).
        rewrite (bind_modify _ _ _ _ _ Hc3), Hrp1. fold h4.
        by rewrite (bind_get _ _ _ _ Hr4), Hrp1. }
      { unfold Branch.eachChild. rewrite (bind_get _ _ _ _ Hr2), Hrc1. simpl.
        rewrite (bind_get _ _ _ _ Hr2), Hrc1. simpl.
        by rewrite (bind_Ok _ _ _ _ _ Hcb). }
      rewrite (bind_Ok _ _ _ _ _ Hloop).
      by rewrite (bind_get _ _ _ _ Hr4), Hrp1. }
    assert (Hcb : simplify_callback r tt h1
                  = Throw (TypeError
                             "Cannot read properties of null (reading 'children')")
                          h4).
    { unfold simplify_callback. rewrite (bind_get _ _ _ _ Hrb1), Hrc1. simpl.
      rewrite (bind_get _ _ _ _ Hcc), (bind_Ok _ _ _ _ _ Hmod).
      by rewrite (bind_Throw _ _ _ _ _ Hex). }
    exists h4. rewrite simplify_unfold. apply bind_Throw. simpl.
    by rewrite (bind_Ok _ _ _ _ _ Hkids).
  - intros Hmany. rewrite <- Hlen1 in Hmany.
    destruct (fixDistances_on_valid_tree (S fuel) h1 (Sh r ks1))
      as (h2 & Hfix & _).
    { by split. }
    { apply levels_le, Hlev1. by apply (proj1 (levels_le r ks fuel)). }
    exists h2. rewrite simplify_unfold.
    assert (Hcb : simplify_callback r tt h1 = Ok tt h1).
    { unfold simplify_callback. rewrite (bind_get _ _ _ _ Hrb1), Hrc1.
      by destruct ks1 as [|? [|? ?]]. }
    assert (Hwalk : Branch.eachAfter (S fuel) simplify_callback r tt h = Ok tt h1).
    { simpl. by rewrite (bind_Ok _ _ _ _ _ Hkids). }
    by rewrite (bind_Ok _ _ _ _ _ Hwalk).
  - unfold consolidate_callback. by rewrite (bind_get _ _ _ _ Hrb), Hrp.
Qed.

Lemma one_child_root_valid : valid_tree one_child_root one_child_root_shape.
Proof.
  split.
  - repeat (econstructor; try reflexivity).
  - apply (bool_decide_unpack _). vm_compute. exact I.
Defined.

Lemma simplify_fails_on_root_with_one_child_witness :
  valid_tree one_child_root one_child_root_shape
  ∧ levels one_child_root_shape ≤ 5
  ∧ (List.length [Sh 1 [Sh 2 []; Sh 3 []]] = 1 →
     ∃ h', Branch.simplify 5 0 one_child_root
           = Throw (TypeError "Cannot read properties of null (reading 'children')")
                   h')
  ∧ (List.length [Sh 1 [Sh 2 []; Sh 3 []]] ≠ 1 →
     ∃ h', Branch.simplify 5 0 one_child_root = Ok 0 h')
  ∧ consolidate_callback 0 tt one_child_root = Ok tt one_child_root.
Proof.
  split; [exact one_child_root_valid |]. split; [simpl; lia |].
  apply (simplify_fails_on_root_with_one_child 5 one_child_root 0
           [Sh 1 [Sh 2 []; Sh 3 []]]).
  - exact one_child_root_valid.
  - simpl. lia.
Defined.

(** ** clone and copy *)

(** C9: [clone()] of the root of [(A:1,(C:3,D:4):5);] returns a new Branch
    whose children are new Branches too, not the children of the original;
    the original is left as it was.  [copy()] also builds new Branches, and
    its result has no parent. *)
Theorem clone_builds_new_children :
  (∃ h' b, clone 5 0 uneven = Ok 5 h'
           ∧ h' !! 5 = Some b
           ∧ Br.children b = [6; 7]
           ∧ (Br.children <$> uneven !! 0) = Some [1; 2]
           ∧ take 5 h' = uneven)
  ∧ (∃ h' b, copy 5 2 uneven = Ok 5 h'
             ∧ h' !! 5 = Some b
             ∧ Br.parent b = None
             ∧ Br.children b = [6; 7]
             ∧ take 5 h' = uneven).
Proof.
  split; eexists _, _; by_running.
Qed.

(** ** Neighbor joining *)

Lemma new_Ok d h :
  Branch.new d h
  = Ok (List.length h)
       (h ++ [Br.Mk (d_id d)
                    (if Qeq_bool (d_length d) 0 then 0%Q else d_length d)
                    (d_parent d) (d_children d) 0 0 1]).
Proof. reflexivity. Qed.

Lemma or_zero_eq (d : Q) : ((if Qeq_bool d 0 then 0 else d) == d)%Q.
Proof.
  destruct (Qeq_bool d 0) eqn:E; [| reflexivity].
  symmetry. by apply Qeq_bool_iff.
Qed.

Lemma recalculate_cN t a b :
  That.cN (recalculateDistanceMatrix t a b) = That.cN t.
Proof.
  unfold recalculateDistanceMatrix.
  destruct (fold_left (recalc_first t a b) _ _) as [[newRow rowChange] sum].
  destruct (fold_left _ _ _) as [[D rowSums] newMax]. reflexivity.
Qed.

(** ** Newick text: splitting what toNewick writes *)

Lemma ntree_ind' (P : ntree → Prop) :
  (∀ i l ks, Forall P ks → P (NT i l ks)) → ∀ t, P t.
Proof.
  intros H. fix IH 1. intros [i l ks]. apply H.
  induction ks as [|k ks IHks]; constructor; [apply IH | apply IHks].
Qed.

Lemma append_assoc (a b c : string) : ((a ++ b) ++ c = a ++ (b ++ c))%string.
Proof. induction a as [|x a IH]; simpl; [done | by rewrite IH]. Qed.

Lemma append_nil_r (a : string) : (a ++ "" = a)%string.
Proof. induction a as [|x a IH]; simpl; [done | by rewrite IH]. Qed.

(** Reading on to the next delimiter. *)
Lemma split_from_run q : ∀ d rest tok,
  no_delim q = true → is_delim d = true →
  split_from (q ++ String d rest) tok false
  = string_of_list_ascii
      (rev (rstrip_rev (rev (list_ascii_of_string q) ++ tok)))
    :: String d "" :: split_from rest [] true.
Proof.
  induction q as [|c q IH]; intros d rest tok Hq Hd; simpl.
  - by rewrite Hd.
  - simpl in Hq. apply andb_true_iff in Hq as [Hc Hq].
    apply negb_true_iff in Hc. rewrite Hc.
    rewrite (IH d rest (c :: tok) Hq Hd). by rewrite <- app_assoc.
Qed.

(** A plain piece before a delimiter comes back as it is. *)
Lemma split_from_piece p d rest skip :
  plain p = true → is_delim d = true →
  split_from (p ++ String d rest) [] skip
  = p :: String d "" :: split_from rest [] true.
Proof.
  unfold plain. intros Hp Hd.
  apply andb_true_iff in Hp as [Hp Hend].
  apply andb_true_iff in Hp as [Hnd Hstart].
  destruct p as [|c p]; simpl.
  - by rewrite Hd.
  - simpl in Hnd, Hstart. apply andb_true_iff in Hnd as [Hc Hnd].
    apply negb_true_iff in Hc, Hstart. rewrite Hc, Hstart, andb_false_r.
    rewrite (split_from_run p d rest [c] Hnd Hd). f_equal.
    unfold ends_clean in Hend. simpl in Hend.
    destruct (rev (list_ascii_of_string p) ++ [c]) as [|x r] eqn:E.
    { by destruct (rev (list_ascii_of_string p)). }
    simpl. apply negb_true_iff in Hend. rewrite Hend.
    rewrite <- E, rev_app_distr, rev_involutive. simpl.
    by rewrite string_of_list_ascii_of_string.
Qed.

Lemma plain_not_delim_token p :
  plain p = true →
  String.eqb p "(" = false ∧ String.eqb p "," = false
  ∧ String.eqb p ")" = false ∧ String.eqb p ":" = false.
Proof.
  unfold plain. intros Hp.
  apply andb_true_iff in Hp as [Hp _]. apply andb_true_iff in Hp as [Hnd _].
  repeat split; apply String.eqb_neq; intros ->; discriminate.
Qed.

Section NewickText.
Variable nts : Q → string.
Hypothesis nts_plain : ∀ l, plain (nts l) = true.

Lemma split_tail i l d rest skip :
  plain i = true →
  is_delim d = true →
  split_from ((i ++ (if Qeq_bool l 0 then "" else ":" ++ nts l))
                ++ String d rest) [] skip
  = tail_tokens nts i l ++ String d "" :: split_from rest [] true.
Proof.
  intros Hi Hd. unfold tail_tokens. rewrite append_assoc.
  destruct (Qeq_bool l 0); simpl in *.
  - by apply split_from_piece.
  - rewrite (split_from_piece i ":"%char _ skip Hi eq_refl). do 2 f_equal.
    by apply split_from_piece.
Qed.

Lemma show_nonterminus i l ks :
  show nts (NT i l ks) true
  = ((match ks with
      | [] => ""
      | _ => "(" ++ String.concat "," (map (fun k => show nts k true) ks) ++ ")"
      end)
     ++ (i ++ (if Qeq_bool l 0 then "" else ":" ++ nts l)))%string.
Proof.
  simpl. destruct (Qeq_bool l 0).
  - by rewrite append_nil_r.
  - by rewrite append_assoc.
Qed.

Lemma split_kids ks :
  Forall (splits_well nts) ks → forallb ids_plain ks = true →
  ∀ k, splits_well nts k → ids_plain k = true →
  ∀ d rest skip,
    is_delim d = true →
    split_from (String.concat "," (map (fun k => show nts k true) (k :: ks))
                  ++ String d rest) [] skip
    = tokens_of nts k ++ flat_map (fun k' => "," :: tokens_of nts k') ks
        ++ String d "" :: split_from rest [] true.
Proof.
  induction 1 as [|k2 ks Hk2 _ IH]; intros Hok k Hk Hokk d rest skip Hd.
  - simpl. by apply Hk.
  - simpl in Hok. apply andb_true_iff in Hok as [Hok2 Hok].
    change (String.concat "," (map (fun k => show nts k true) (k :: k2 :: ks)))
      with (show nts k true ++ "," ++
              String.concat "," (map (fun k => show nts k true) (k2 :: ks)))%string.
    rewrite !append_assoc. simpl append.
    rewrite (Hk Hokk ","%char _ skip eq_refl). f_equal. simpl. f_equal.
    rewrite <- app_assoc. by apply IH.
Qed.

Lemma split_show t : splits_well nts t.
Proof.
  induction t as [i l ks IH] using ntree_ind'.
  intros Hok d rest skip Hd. simpl in Hok.
  apply andb_true_iff in Hok as [Hi Hks].
  rewrite show_nonterminus.
  destruct ks as [|k ks].
  - simpl append. simpl tokens_of. by apply split_tail.
  - inversion IH as [|? ? Hk IHks]; subst.
    simpl in Hks. apply andb_true_iff in Hks as [Hokk Hks].
    rewrite !append_assoc. simpl append. simpl split_from.
    simpl tokens_of. do 2 f_equal.
    rewrite (split_kids ks IHks Hks k Hk Hokk ")"%char _ true eq_refl).
    pose proof (split_tail i l d rest true Hi Hd) as Htail.
    rewrite append_assoc in Htail. simpl append in Htail. rewrite Htail.
    simpl. by rewrite <- !app_assoc.
Qed.

(** The tokens of the whole text. *)
Lemma split_newick_show t :
  ids_plain t = true →
  split_newick (show nts t false) = tokens_of nts t ++ [";"; ""].
Proof.
  intros Hok. unfold split_newick.
  assert (Hshow : show nts t false = (show nts t true ++ ";")%string)
    by (by destruct t).
  rewrite Hshow.
  by rewrite (split_show t Hok ";"%char "" false eq_refl).
Qed.

End NewickText.

(** ** Walks keep what their callbacks keep *)

Section Keeps.
Context (R : heap → heap → Prop).
Hypothesis R_refl : ∀ h, R h h.
Hypothesis R_trans : ∀ h1 h2 h3, R h1 h2 → R h2 h3 → R h1 h3.
Context {A : Type}.


Lemma forEach_live_keeps this (g : ref → A → M A) :
  keeps R g → ∀ n k, keeps R (fun _ a => Branch.forEach_live this g n k a).
Proof.
  intros Hg. induction n as [|n IH]; intros k _ a h a' h'; simpl.
  - intros [= _ <-]. apply R_refl.
  - unfold bind, get. destruct (h !! this) as [b|]; [| done].
    destruct (Br.children b !! k) as [c|].
    + destruct (g c a h) as [a1 h1| |] eqn:E; [| done | done].
      intros H. eapply R_trans; [by eapply Hg |]. by eapply (IH (S k) 0).
    + unfold ret. intros H. by eapply (IH (S k) 0).
Qed.

Lemma eachChild_keeps (g : ref → A → M A) : keeps R g → keeps R (fun this => Branch.eachChild this g).
Proof.
  intros Hg this a h a' h'. unfold Branch.eachChild, bind, get.
  destruct (h !! this) as [b|]; [| done].
  by apply (forEach_live_keeps this g Hg _ 0 0).
Qed.

Lemma eachAfter_keeps (g : ref → A → M A) fuel : keeps R g → keeps R (Branch.eachAfter fuel g).
Proof.
  intros Hg. induction fuel as [|fuel IH]; intros this a h a' h'; [done |].
  simpl. unfold bind at 1.
  destruct (Branch.eachChild _ _ _ _) as [a1 h1| |] eqn:E; [| done | done].
  intros H. eapply R_trans; [by eapply (eachChild_keeps _ IH) | by eapply Hg].
Qed.

Lemma eachBefore_keeps (g : ref → A → M A) fuel : keeps R g → keeps R (Branch.eachBefore fuel g).
Proof.
  intros Hg. induction fuel as [|fuel IH]; intros this a h a' h'; [done |].
  simpl. unfold bind at 1.
  destruct (g this a h) as [a1 h1| |] eqn:E; [| done | done].
  intros H. eapply R_trans; [by eapply Hg | by eapply (eachChild_keeps _ IH)].
Qed.
End Keeps.

Lemma same_core_refl h : same_core h h.
Proof. by intros n. Qed.

Lemma same_core_trans h1 h2 h3 :
  same_core h1 h2 → same_core h2 h3 → same_core h1 h3.
Proof. intros H12 H23 n. by rewrite H23, H12. Qed.

Lemma same_core_insert (h : heap) n b b' :
  h !! n = Some b → core b' = core b → same_core h (<[n := b']> h).
Proof.
  intros Hn Hf m. destruct (decide (n = m)) as [<-|Hne].
  - rewrite (lookup_insert_same _ _ _ _ Hn), Hn. simpl. by rewrite Hf.
  - by rewrite list_lookup_insert_ne.
Qed.

Lemma same_core_lookup h h' n b :
  same_core h h' → h !! n = Some b →
  ∃ b', h' !! n = Some b' ∧ core b' = core b.
Proof.
  intros Hs Hn. specialize (Hs n). rewrite Hn in Hs. simpl in Hs.
  destruct (h' !! n) as [b'|]; [| done]. exists b'.
  split; [done |]. unfold core in *. simpl in Hs. congruence.
Qed.

Lemma getRoot_heap fuel : ∀ r h r' h',
  Branch.getRoot fuel r h = Ok r' h' → h' = h.
Proof.
  induction fuel as [|fuel IH]; intros r h r' h'; [done |]. simpl.
  unfold bind, get. destruct (h !! r) as [b|]; [| done].
  destruct (Br.parent b) as [p|]; [apply IH | by intros [= _ <-]].
Qed.

Lemma depth_callback_core : keeps same_core depth_callback.
Proof.
  intros n a h a' h'. unfold depth_callback.
  destruct (h !! n) as [b|] eqn:Hn; [| by unfold bind, get; rewrite Hn].
  rewrite (bind_get _ _ _ _ Hn).
  destruct (Br.parent b) as [p|]; [| intros [= _ <-]; apply same_core_refl].
  destruct (h !! p) as [pb|] eqn:Hp; [| by unfold bind, get; rewrite Hp].
  rewrite (bind_get _ _ _ _ Hp), (bind_modify _ _ _ _ _ Hn).
  rewrite (bind_get _ _ _ _ (lookup_insert_same _ _ _ _ Hn)).
  intros [= _ <-]. by eapply same_core_insert.
Qed.

Lemma height_callback_core m : keeps same_core (height_callback m).
Proof.
  intros n a h a' h'. unfold height_callback.
  destruct (h !! n) as [b|] eqn:Hn; [| by unfold bind, get; rewrite Hn].
  rewrite (bind_get _ _ _ _ Hn), (bind_modify _ _ _ _ _ Hn).
  rewrite (bind_get _ _ _ _ (lookup_insert_same _ _ _ _ Hn)).
  unfold bind at 1.
  destruct (Branch.reduce_value _ _ _) as [s h1| |] eqn:Hr; [| done | done].
  apply reduce_value_heap in Hr as ->.
  rewrite (modify_Ok _ _ _ _ (lookup_insert_same _ _ _ _ Hn)).
  intros [= _ <-]. rewrite list_insert_insert_eq.
  by eapply same_core_insert.
Qed.

(** [fixDistances()] writes no id, length, parent or children, whatever it
    is called on. *)
Lemma fixDistances_core fuel this h r h' :
  Branch.fixDistances fuel this h = Ok r h' → same_core h h' ∧ r = this.
Proof.
  rewrite fixDistances_unfold. unfold bind at 1.
  destruct (Branch.getRoot fuel this h) as [root h0| |] eqn:Hroot; [| done | done].
  apply getRoot_heap in Hroot as ->.
  destruct (h !! root) as [rb|] eqn:Hrb; [| by unfold bind, modify; rewrite Hrb].
  rewrite (bind_modify _ _ _ _ _ Hrb). unfold bind at 1.
  destruct (Branch.eachBefore _ _ _ _ _) as [m h1| |] eqn:H1; [| done | done].
  unfold bind at 1.
  destruct (Branch.eachAfter _ _ _ _ _) as [u h2| |] eqn:H2; [| done | done].
  intros [= <- <-]. split; [| done].
  apply (same_core_trans _ (<[root := Br.set_depth 0 rb]> h));
    [by eapply same_core_insert |].
  eapply same_core_trans.
  - eapply (eachBefore_keeps same_core same_core_refl same_core_trans);
      [apply depth_callback_core | exact H1].
  - eapply (eachAfter_keeps same_core same_core_refl same_core_trans);
      [apply height_callback_core | exact H2].
Qed.

(** ** Newick text: trees in the store *)

Lemma Forall2_impl_in {A B} (P Q : A → B → Prop) l k :
  Forall2 P l k → (∀ x y, x ∈ l → P x y → Q x y) → Forall2 Q l k.
Proof.
  induction 1 as [|x y l k Hxy _ IH]; intros HPQ; constructor.
  - apply HPQ; [left | done].
  - apply IH. intros x' y' Hin. apply HPQ. by right.
Qed.

Lemma built_intro h p r ks b nks l i :
  h !! r = Some b → Br.parent b = p → Br.children b = map root_of ks →
  Forall2 (built h (Some r)) ks nks → (Br.length b == l)%Q → Br.id b = i →
  built h p (Sh r ks) (NT i l nks).
Proof. intros ? ? ? ? ? <-. by econstructor. Qed.

Lemma holds_intro same h p r b ks l i :
  h !! r = Some b → Br.parent b = p →
  List.length (Br.children b) = List.length ks →
  (∀ j c k, Br.children b !! j = Some c → ks !! j = Some k →
            holds same h (Some r) c k) →
  same (Br.length b) l → Br.id b = i →
  holds same h p r (NT i l ks).
Proof. intros ? ? ? ? ? <-. by econstructor. Qed.

Lemma built_tree_at h p t nt : built h p t nt → tree_at h p t.
Proof.
  revert p nt. induction t as [r ks IH] using shape_ind'. intros p nt Hb.
  inversion Hb as [? ? ? b nks l Hr Hp Hc Hks Hl]; subst.
  apply tree_at_node with b; [done | done | done |].
  rewrite Forall_forall in IH. apply Forall_forall. intros k Hk.
  apply list_elem_of_lookup in Hk as [j Hj].
  destruct (Forall2_lookup_l _ _ _ _ _ Hks Hj) as (nk & _ & Hbk).
  eapply IH; [by eapply list_elem_of_lookup_2 | exact Hbk].
Qed.

Lemma built_levels h p t nt : built h p t nt → levels t = nlevels nt.
Proof.
  revert p nt. induction t as [r ks IH] using shape_ind'. intros p nt Hb.
  inversion Hb as [? ? ? b nks l Hr Hp Hc Hks Hl]; subst. simpl. f_equal.
  clear Hb Hc. induction Hks as [|k nk ks nks Hk Hks IHks]; [done |].
  inversion IH as [|? ? IHk IH']; subst. simpl.
  by rewrite (IHk _ _ Hk), (IHks IH').
Qed.

Lemma built_frame h h' p t nt :
  (∀ n, n ∈ refs t → h' !! n = h !! n) → built h p t nt → built h' p t nt.
Proof.
  revert p nt. induction t as [r ks IH] using shape_ind'. intros p nt Hf Hb.
  inversion Hb as [? ? ? b nks l Hr Hp Hc Hks Hl]; subst.
  apply built_node; [rewrite Hf; [done | left] | done | done | | done].
  rewrite Forall_forall in IH.
  eapply Forall2_impl_in; [exact Hks |]. intros k nk Hk Hbk.
  apply IH; [done | | done]. intros n Hn. apply Hf. simpl. right.
  apply elem_of_flat_map. by exists k.
Qed.

Lemma built_same_core h h' p t nt :
  same_core h h' → built h p t nt → built h' p t nt.
Proof.
  intros Hs. revert p nt. induction t as [r ks IH] using shape_ind'.
  intros p nt Hb.
  inversion Hb as [? ? ? b nks l Hr Hp Hc Hks Hl]; subst.
  destruct (same_core_lookup _ _ _ _ Hs Hr) as (b' & Hr' & Hcore).
  unfold core in Hcore. injection Hcore as Hid Hlen Hpar Hch.
  apply built_intro with b'; [done | done | congruence | | by rewrite Hlen | done].
  rewrite Forall_forall in IH.
  eapply Forall2_impl_in; [exact Hks |]. intros k nk Hk Hbk. by apply IH.
Qed.

Lemma built_holds h p t nt : built h p t nt → holds Qeq h p (root_of t) nt.
Proof.
  revert p nt. induction t as [r ks IH] using shape_ind'. intros p nt Hb.
  inversion Hb as [? ? ? b nks l Hr Hp Hc Hks Hl]; subst. simpl.
  apply holds_node; [done | done | | | done].
  - rewrite Hc, length_map. by eapply Forall2_length.
  - intros j c nk Hj Hnk. rewrite Hc in Hj.
    change (map root_of ks) with (root_of <$> ks) in Hj.
    rewrite list_lookup_fmap in Hj.
    destruct (ks !! j) as [k|] eqn:Hk; [| done]. injection Hj as <-.
    destruct (Forall2_lookup_l _ _ _ _ _ Hks Hk) as (nk' & Hnk' & Hbk).
    rewrite Hnk in Hnk'. injection Hnk' as <-.
    rewrite Forall_forall in IH.
    eapply IH; [by eapply list_elem_of_lookup_2 | done].
Qed.

Lemma mapM_same {A B C} (f : A → M B) (g : C → B) h : ∀ cs ks,
  List.length cs = List.length ks →
  (∀ j c k, cs !! j = Some c → ks !! j = Some k → f c h = Ok (g k) h) →
  mapM f cs h = Ok (map g ks) h.
Proof.
  induction cs as [|c cs IH]; intros [|k ks] Hlen Hf; simpl in *; try done.
  rewrite (bind_Ok _ _ _ _ _ (Hf 0 c k eq_refl eq_refl)).
  rewrite (bind_Ok _ _ _ (map g ks) h); [done |].
  apply IH; [lia |]. intros j c' k' Hc Hk. by apply (Hf (S j)).
Qed.

Lemma nlevels_kid i l (ks : list ntree) j k :
  ks !! j = Some k → nlevels k < nlevels (NT i l ks).
Proof.
  simpl. revert j. induction ks as [|k' ks IH]; intros [|j] Hj; simpl in *;
    try done.
  - injection Hj as ->. lia.
  - specialize (IH j Hj). lia.
Qed.

Lemma addChild_fresh h c cb :
  h !! c = Some cb →
  Branch.addChild c (inr no_data) h
  = Ok (List.length h)
       (<[c := Br.set_children (Br.children cb ++ [List.length h]) cb]>
          (h ++ [fresh (Some c)])).
Proof.
  intros Hc. unfold Branch.addChild.
  assert (Hnew : Branch.new (Data (d_id no_data) (d_length no_data) (Some c)
                                  (d_children no_data)) h
                 = Ok (List.length h) (h ++ [fresh (Some c)])) by reflexivity.
  rewrite (bind_Ok _ _ _ _ _ Hnew). unfold Branch.push.
  assert (Hc' : (h ++ [fresh (Some c)]) !! c = Some cb).
  { rewrite lookup_app_l; [done | by eapply lookup_lt_Some]. }
  by rewrite (bind_modify _ _ _ _ _ Hc').
Qed.

(** [toNewick] writes the text of the tree the store holds. *)
Lemma toNewick_show Number_toString Number_times Number_over Math_pow fuel :
  ∀ nt h p r nonterminus,
  holds eq h p r nt → nlevels nt ≤ fuel →
  toNewick Number_toString Number_times Number_over Math_pow fuel r
           nonterminus h
  = Ok (show (numberToString Number_toString Number_times Number_over Math_pow)
             nt nonterminus) h.
Proof.
  set (nts := numberToString Number_toString Number_times Number_over Math_pow).
  induction fuel as [|fuel IH]; intros nt h p r nonterminus Hh Hfuel.
  { destruct nt. simpl in Hfuel. lia. }
  inversion Hh as [? ? b ks Hb Hp Hlen Hkids l Hl]; subst.
  simpl toNewick. rewrite (bind_get _ _ _ _ Hb). unfold Branch.isLeaf.
  destruct ks as [|k ks].
  - simpl in Hlen. rewrite Hlen. simpl. rewrite bind_ret. unfold ret.
    by destruct nonterminus, (Qeq_bool (Br.length b) 0).
  - simpl in Hlen. rewrite Hlen. simpl Nat.eqb. cbv iota.
    rewrite bind_assoc.
    rewrite (bind_Ok _ _ _ _ _
               (mapM_same _ (fun k => show nts k true) h (Br.children b)
                          (k :: ks) Hlen
                          (fun j c k' Hc Hk =>
                             IH k' h (Some r) c true (Hkids j c k' Hc Hk)
                                ltac:(pose proof (nlevels_kid (Br.id b)
                                        (Br.length b) (k :: ks) j k' Hk);
                                      lia)))).
    rewrite bind_ret. unfold ret. simpl.
    by destruct nonterminus, (Qeq_bool (Br.length b) 0).
Qed.

Section NewickParse.
Variable nts : Q → string.
Variable parseFloat : string → Q.
Hypothesis nts_plain : ∀ l, plain (nts l) = true.

Local Abbreviation loop := (parseNewick_loop parseFloat).

(** Single tokens. *)
Lemma loop_piece_id tok rest x anc c h b :
  plain tok = true → id_slot x tok → h !! c = Some b →
  (x = None → Br.id b = "") →
  loop (tok :: rest) x anc (Some c) h
  = loop rest (Some tok) anc (Some c) (<[c := Br.set_id tok b]> h).
Proof.
  intros Hp Hx Hc Hnone.
  destruct (plain_not_delim_token tok Hp) as (H1 & H2 & H3 & H4).
  simpl. rewrite H1, H2, H3, H4.
  destruct Hx as [-> | [-> | [-> | [-> ->]]]]; simpl.
  - by rewrite bind_assoc, bind_ret, (bind_modify _ _ _ _ _ Hc).
  - by rewrite bind_assoc, bind_ret, (bind_modify _ _ _ _ _ Hc).
  - by rewrite bind_assoc, bind_ret, (bind_modify _ _ _ _ _ Hc).
  - rewrite bind_ret. f_equal. symmetry. apply list_insert_id.
    rewrite Hc. f_equal. specialize (Hnone eq_refl).
    destruct b; simpl in *. by subst.
Qed.

Lemma loop_piece_length tok rest anc c h b :
  plain tok = true → h !! c = Some b →
  loop (tok :: rest) (Some ":") anc (Some c) h
  = loop rest (Some tok) anc (Some c)
         (<[c := Br.set_length (parseFloat tok) b]> h).
Proof.
  intros Hp Hc.
  destruct (plain_not_delim_token tok Hp) as (H1 & H2 & H3 & H4).
  simpl. rewrite H1, H2, H3, H4.
  by rewrite bind_assoc, bind_ret, (bind_modify _ _ _ _ _ Hc).
Qed.

Lemma loop_colon rest x anc tree h :
  loop (":" :: rest) x anc tree h = loop rest (Some ":") anc tree h.
Proof. reflexivity. Qed.

Lemma loop_open rest x anc c h cb :
  h !! c = Some cb →
  loop ("(" :: rest) x anc (Some c) h
  = loop rest (Some "(") (c :: anc) (Some (List.length h))
         (<[c := Br.set_children (Br.children cb ++ [List.length h]) cb]>
            (h ++ [fresh (Some c)])).
Proof.
  intros Hc. simpl. rewrite bind_ret.
  by rewrite (bind_Ok _ _ _ _ _ (addChild_fresh h c cb Hc)).
Qed.

Lemma loop_comma rest x anc c tree h cb :
  h !! c = Some cb →
  loop ("," :: rest) x (c :: anc) tree h
  = loop rest (Some ",") (c :: anc) (Some (List.length h))
         (<[c := Br.set_children (Br.children cb ++ [List.length h]) cb]>
            (h ++ [fresh (Some c)])).
Proof.
  intros Hc. simpl. rewrite bind_ret.
  by rewrite (bind_Ok _ _ _ _ _ (addChild_fresh h c cb Hc)).
Qed.

Lemma loop_close rest x c anc tree h :
  loop (")" :: rest) x (c :: anc) tree h = loop rest (Some ")") anc (Some c) h.
Proof. reflexivity. Qed.

Lemma loop_end x anc tree h :
  plain x = true → loop [";"; ""] (Some x) anc tree h = Ok tree h.
Proof.
  intros Hp. destruct (plain_not_delim_token x Hp) as (H1 & H2 & H3 & H4).
  simpl. by rewrite H1, H2, H3, H4.
Qed.

(** The id, and the length if one is written, after the children. *)
Lemma loop_tail i l rest x anc c h b :
  plain i = true →
  id_slot x i → h !! c = Some b → (x = None → Br.id b = "") →
  (Br.length b == 0)%Q →
  ∃ b' x',
    loop (tail_tokens nts i l ++ rest) x anc (Some c) h
    = loop rest (Some x') anc (Some c) (<[c := b']> h)
    ∧ plain x' = true
    ∧ Br.id b' = i
    ∧ (Br.length b' == if Qeq_bool l 0 then 0 else parseFloat (nts l))%Q
    ∧ Br.parent b' = Br.parent b ∧ Br.children b' = Br.children b.
Proof.
  intros Hi Hx Hc Hnone Hzero. unfold tail_tokens.
  destruct (Qeq_bool l 0) eqn:Hz.
  - exists (Br.set_id i b), i. split; [by apply loop_piece_id |].
    split; [done |]. split; [done |]. split; [| done]. exact Hzero.
  - exists (Br.set_length (parseFloat (nts l)) (Br.set_id i b)), (nts l).
    split; [| split; [done | split; [done | split; [| done]]]].
    + simpl app. rewrite (loop_piece_id i _ x anc c h b Hi Hx Hc Hnone).
      rewrite loop_colon.
      rewrite (loop_piece_length (nts l) rest anc c _ (Br.set_id i b)
                 (nts_plain l) (lookup_insert_same _ _ _ _ Hc)).
      by rewrite list_insert_insert_eq.
    + reflexivity.
Qed.

Lemma parse_kids ks :
  Forall (parses nts parseFloat) ks → forallb ids_plain ks = true →
  ∀ k, parses nts parseFloat k → ids_plain k = true →
  ∀ h anc c c1 cb cs0 x rest,
    h !! c = Some cb → Br.children cb = cs0 ++ [c1] →
    h !! c1 = Some (fresh (Some c)) → c ≠ c1 →
    x = Some "(" ∨ x = Some "," →
    ∃ h' kss cb',
      loop (tokens_of nts k
              ++ flat_map (fun k' => "," :: tokens_of nts k') ks
              ++ ")" :: rest) x (c :: anc) (Some c1) h
      = loop rest (Some ")") anc (Some c) h'
      ∧ h' !! c = Some cb'
      ∧ Br.children cb' = cs0 ++ map root_of kss
      ∧ Br.id cb' = Br.id cb ∧ Br.length cb' = Br.length cb
      ∧ Br.parent cb' = Br.parent cb
      ∧ Forall2 (built h' (Some c)) kss
                (map (read_back nts parseFloat) (k :: ks))
      ∧ List.length h ≤ List.length h'
      ∧ (∀ n, n < List.length h → n ≠ c → n ≠ c1 → h' !! n = h !! n)
      ∧ (∀ n, n ∈ flat_map refs kss →
              n = c1 ∨ List.length h ≤ n < List.length h')
      ∧ NoDup (flat_map refs kss).
Proof.
  induction 1 as [|k2 ks Hk2 _ IH];
    intros Hoks k Hk Hokk h anc c c1 cb cs0 x rest Hc Hcs Hc1 Hne Hx.
  - simpl flat_map. simpl app.
    destruct (Hk Hokk h (c :: anc) c1 (Some c) x (")" :: rest) Hc1)
      as (h1 & ks1 & x' & Hrun & _ & Hb & Hlen & Hframe & Hrange & Hnd).
    { destruct Hx as [-> | ->]; [by left | by right; left]. }
    assert (Hclt : c < List.length h) by (by eapply lookup_lt_Some).
    assert (Hc1lt : c1 < List.length h) by (by eapply lookup_lt_Some).
    exists h1, [Sh c1 ks1], cb.
    split; [by rewrite Hrun, loop_close |].
    split; [by rewrite (Hframe c Hclt Hne) |].
    split; [done |]. split; [done |]. split; [done |]. split; [done |].
    split; [by repeat constructor |]. split; [done |].
    split; [intros n Hn _ Hn1; by apply Hframe |].
    split.
    + intros n Hn. simpl in Hn. rewrite app_nil_r in Hn.
      apply elem_of_cons in Hn as [-> | Hn]; [by left | right; by apply Hrange].
    + simpl. rewrite app_nil_r. apply NoDup_cons. split; [| done].
      intros Hin. apply Hrange in Hin. lia.
  - simpl in Hoks. apply andb_true_iff in Hoks as [Hok2 Hoks].
    simpl flat_map. rewrite <- app_comm_cons, <- app_assoc.
    destruct (Hk Hokk h (c :: anc) c1 (Some c) x
                ("," :: tokens_of nts k2
                     ++ flat_map (fun k' => "," :: tokens_of nts k') ks
                     ++ ")" :: rest) Hc1)
      as (h1 & ks1 & x' & Hrun & _ & Hb & Hlen & Hframe & Hrange & Hnd).
    { destruct Hx as [-> | ->]; [by left | by right; left]. }
    assert (Hclt : c < List.length h) by (by eapply lookup_lt_Some).
    assert (Hc1lt : c1 < List.length h) by (by eapply lookup_lt_Some).
    assert (Hc_1 : h1 !! c = Some cb) by (by rewrite (Hframe c Hclt Hne)).
    set (c2 := List.length h1).
    set (cb2 := Br.set_children (Br.children cb ++ [c2]) cb).
    set (h2 := <[c := cb2]> (h1 ++ [fresh (Some c)])).
    assert (Hext : (h1 ++ [fresh (Some c)]) !! c = Some cb).
    { rewrite lookup_app_l; [done | lia]. }
    assert (Hc_2 : h2 !! c = Some cb2) by (by eapply lookup_insert_same).
    assert (Hc2 : h2 !! c2 = Some (fresh (Some c))).
    { unfold h2. rewrite list_lookup_insert_ne by (unfold c2; lia).
      by apply list_lookup_middle. }
    assert (Hlen2 : List.length h2 = S (List.length h1)).
    { unfold h2. rewrite length_insert, length_app. simpl. lia. }
    destruct (IH Hoks k2 Hk2 Hok2 h2 anc c c2 cb2 (cs0 ++ [c1]) (Some ",") rest)
      as (h' & kss & cb' & Hrun' & Hc' & Hcs' & Hid' & Hlen' & Hpar' & Hbs'
          & Hlenh' & Hframe' & Hrange' & Hnd');
      [done | by (unfold cb2; simpl; rewrite Hcs) | done
       | unfold c2; lia | by right |].
    assert (Hold : ∀ n, n < List.length h1 → n ≠ c → h' !! n = h1 !! n).
    { intros n Hn Hnc. rewrite Hframe' by (unfold c2; lia).
      unfold h2. rewrite list_lookup_insert_ne by done.
      by rewrite lookup_app_l. }
    exists h', (Sh c1 ks1 :: kss), cb'.
    split; [by rewrite Hrun, (loop_comma _ _ _ _ _ _ _ Hc_1) |].
    split; [done |].
    split; [by (rewrite Hcs'; simpl; rewrite <- app_assoc) |].
    split; [done |]. split; [done |]. split; [done |].
    split; [| split; [lia | split; [| split]]].
    + constructor; [| done]. eapply built_frame; [| exact Hb].
      intros n Hn. simpl in Hn. apply Hold.
      * apply elem_of_cons in Hn as [-> | Hn]; [lia |].
        apply Hrange in Hn. lia.
      * apply elem_of_cons in Hn as [-> | Hn]; [done |].
        apply Hrange in Hn. lia.
    + intros n Hn Hnc Hn1. rewrite Hold by (done || lia). by apply Hframe.
    + intros n Hn. simpl in Hn.
      apply elem_of_cons in Hn as [-> | Hn]; [by left | right].
      apply elem_of_app in Hn as [Hn | Hn].
      * apply Hrange in Hn. lia.
      * apply Hrange' in Hn as [-> | Hn]; unfold c2 in *; lia.
    + simpl. apply NoDup_cons. split.
      * intros Hin. apply elem_of_app in Hin as [Hin | Hin].
        -- apply Hrange in Hin. lia.
        -- apply Hrange' in Hin as [Heq | Hin]; unfold c2 in *; lia.
      * apply NoDup_app. split; [done |]. split; [| done].
        intros n Hn1 Hn2. apply Hrange in Hn1.
        apply Hrange' in Hn2 as [Heq | Hn2]; unfold c2 in *; lia.
Qed.

Lemma parse_tree t : parses nts parseFloat t.
Proof.
  induction t as [i l ks IH] using ntree_ind'.
  intros Hok h anc c p x rest Hc Hx. simpl in Hok.
  apply andb_true_iff in Hok as [Hi Hks].
  assert (Hclt : c < List.length h) by (by eapply lookup_lt_Some).
  destruct ks as [|k ks].
  - simpl tokens_of. simpl in Hx.
    destruct (loop_tail i l rest x anc c h (fresh p) Hi Hx Hc)
      as (b' & x' & Hrun & Hx' & Hid & Hlen & Hpar & Hch);
      [done | reflexivity |].
    exists (<[c := b']> h), [], x'.
    split; [done |]. split; [done |].
    split; [by apply built_intro with b';
              [eapply lookup_insert_same | | | constructor | |] |].
    split; [by rewrite length_insert |].
    split; [intros n _ Hn; by rewrite list_lookup_insert_ne |].
    split; [intros n Hn; inversion Hn | constructor].
  - inversion IH as [|? ? Hk IHks]; subst.
    simpl in Hks. apply andb_true_iff in Hks as [Hokk Hks].
    simpl tokens_of. simpl in Hx. simpl app. rewrite <- !app_assoc.
    (* the empty piece and the opening parenthesis *)
    rewrite (loop_piece_id "" _ x anc c h (fresh p) eq_refl Hx Hc
               (fun _ => eq_refl)).
    change (Br.set_id "" (fresh p)) with (fresh p).
    rewrite (list_insert_id h c (fresh p) Hc).
    rewrite (loop_open _ _ _ _ _ _ Hc).
    set (c1 := List.length h).
    set (cb1 := Br.set_children (Br.children (fresh p) ++ [c1]) (fresh p)).
    set (h1 := <[c := cb1]> (h ++ [fresh (Some c)])).
    assert (Hc_1 : h1 !! c = Some cb1).
    { eapply lookup_insert_same. by apply lookup_app_l_Some. }
    assert (Hc1 : h1 !! c1 = Some (fresh (Some c))).
    { unfold h1. rewrite list_lookup_insert_ne by (unfold c1; lia).
      by apply list_lookup_middle. }
    assert (Hlen1 : List.length h1 = S (List.length h)).
    { unfold h1. rewrite length_insert, length_app. simpl. lia. }
    (* the children *)
    destruct (parse_kids ks IHks Hks k Hk Hokk h1 anc c c1 cb1 [] (Some "(")
                (tail_tokens nts i l ++ rest))
      as (h2 & kss & cb2 & Hrun2 & Hc2 & Hcs2 & Hid2 & Hlen2 & Hpar2 & Hbs2
          & Hlenh2 & Hframe2 & Hrange2 & Hnd2);
      [done | done | done | unfold c1; lia | by left |].
    rewrite <- app_comm_cons. rewrite Hrun2.
    (* the id and the length *)
    destruct (loop_tail i l rest (Some ")") anc c h2 cb2 Hi)
      as (b' & x' & Hrun3 & Hx' & Hid & Hlen & Hpar & Hch);
      [by right; right; left | done | done | by rewrite Hlen2 |].
    rewrite Hrun3.
    assert (Hrange : ∀ n, n ∈ flat_map refs kss →
                          List.length h ≤ n < List.length h2).
    { intros n Hn. apply Hrange2 in Hn as [-> | Hn]; unfold c1 in *; lia. }
    exists (<[c := b']> h2), kss, x'.
    split; [done |]. split; [done |].
    split; [| split; [| split; [| split]]].
    + apply built_intro with b';
        [by eapply lookup_insert_same | by rewrite Hpar, Hpar2
        | by rewrite Hch, Hcs2 | | done | done].
      eapply Forall2_impl_in; [exact Hbs2 |]. intros ks' nk Hin Hb.
      eapply built_frame; [| exact Hb]. intros n Hn.
      rewrite list_lookup_insert_ne; [done |]. intros <-.
      assert (Hcin : c ∈ flat_map refs kss)
        by (apply elem_of_flat_map; by exists ks').
      apply Hrange in Hcin. lia.
    + rewrite length_insert. lia.
    + intros n Hn Hnc. rewrite list_lookup_insert_ne by done.
      rewrite Hframe2 by (done || unfold c1; lia).
      unfold h1. rewrite list_lookup_insert_ne by done.
      by rewrite lookup_app_l.
    + intros n Hn. rewrite length_insert. by apply Hrange.
    + done.
Qed.

End NewickParse.

(** ** What numberToString prints *)

Lemma unspaced_append a b :
  unspaced (a ++ b) = unspaced a && unspaced b.
Proof.
  induction a as [|c a IH]; simpl; [done |].
  rewrite IH. by rewrite andb_assoc.
Qed.

Lemma unspaced_substring s : ∀ n m,
  unspaced s = true → unspaced (substring n m s) = true.
Proof.
  induction s as [|c s IH]; intros n m Hs.
  - by destruct n, m.
  - simpl in Hs. apply andb_true_iff in Hs as [Hc Hs].
    destruct n as [|n]; [destruct m as [|m] |]; simpl; [done | | by apply IH].
    rewrite Hc. by apply IH.
Qed.

Lemma unspaced_zeros n : unspaced (zeros n) = true.
Proof. induction n as [|n IH]; [done | exact IH]. Qed.

Lemma unspaced_chars s c :
  unspaced s = true → In c (list_ascii_of_string s) →
  is_delim c = false ∧ is_space c = false.
Proof.
  induction s as [|x s IH]; simpl; [done |]. intros Hs [-> | Hin].
  - apply andb_true_iff in Hs as [Hc _].
    apply andb_true_iff in Hc as [Hd Hw].
    split; by apply negb_true_iff.
  - apply andb_true_iff in Hs as [_ Hs]. by apply IH.
Qed.

Lemma unspaced_plain s : unspaced s = true → plain s = true.
Proof.
  intros Hs. unfold plain.
  apply andb_true_iff. split; [apply andb_true_iff; split |].
  - induction s as [|c s IH]; simpl; [done |]. simpl in Hs.
    apply andb_true_iff in Hs as [Hc Hs].
    apply andb_true_iff in Hc as [Hd _]. rewrite Hd. by apply IH.
  - destruct s as [|c s]; simpl; [done |]. simpl in Hs.
    apply andb_true_iff in Hs as [Hc _].
    by apply andb_true_iff in Hc as [_ Hw].
  - unfold ends_clean.
    destruct (rev (list_ascii_of_string s)) as [|c r] eqn:E; [done |].
    apply negb_true_iff. apply (unspaced_chars s c Hs).
    apply in_rev. rewrite E. by left.
Qed.

(** When the runtime prints numbers without delimiter and without white
    space, so does [numberToString]: it joins substrings of what the runtime
    prints with zeros, a point and a sign. *)
Lemma numberToString_unspaced
      Number_toString Number_times Number_over Math_pow :
  (∀ q, unspaced (Number_toString q) = true) →
  ∀ num,
    unspaced (numberToString Number_toString Number_times Number_over Math_pow
                             num) = true.
Proof.
  intros Hprint num. unfold numberToString.
  destruct (Qlt_le_dec (Qabs num) 1).
  - destruct (parseInt _) as [e|]; [| apply Hprint].
    destruct (Z.eqb e 0); [apply Hprint |].
    destruct (Qlt_le_dec num 0); simpl; unfold array_join_zeros;
      by rewrite unspaced_append, unspaced_zeros, unspaced_substring.
  - destruct (parseInt _) as [e|]; [| apply Hprint].
    destruct (Z.ltb 20 e); [| apply Hprint].
    unfold array_join_zeros.
    by rewrite unspaced_append, Hprint, unspaced_zeros.
Qed.

Lemma nlevels_read_back nts pf t : nlevels (read_back nts pf t) = nlevels t.
Proof.
  induction t as [i l ks IH] using ntree_ind'. simpl. f_equal.
  induction IH as [|k ks Hk _ IHks]; simpl; [done |]. by rewrite Hk, IHks.
Qed.


Lemma two_leaves_holds : holds eq two_leaves None 0 two_leaves_tree.
Proof.
  eapply holds_intro; try reflexivity.
  intros [|[|j]] c k Hc Hk; simpl in Hc, Hk; simplify_eq;
    (eapply holds_intro; try reflexivity; intros j' c' k' Hc'; by destruct j').
Defined.

Lemma digit_unspaced k :
  k < 10 →
  negb (is_delim (ascii_of_nat (48 + k)))
  && negb (is_space (ascii_of_nat (48 + k))) = true.
Proof. intros Hk. do 10 (destruct k as [|k]; [reflexivity |]). lia. Qed.

Lemma whole_digits_unspaced fuel : ∀ n acc,
  unspaced acc = true → unspaced (whole_digits fuel n acc) = true.
Proof.
  induction fuel as [|fuel IH]; intros n acc Hacc; [done |]. simpl.
  assert (Hc : unspaced (String (ascii_of_nat (48 + n mod 10)) acc) = true).
  { cbn [unspaced]. rewrite digit_unspaced; [done |].
    apply Nat.mod_upper_bound. lia. }
  destruct (Nat.ltb n 10); [done | by apply IH].
Qed.

Lemma whole_toString_unspaced q : unspaced (whole_toString q) = true.
Proof. by apply whole_digits_unspaced. Qed.



(** ** Excising a root *)

(** C5: [excise()] on a root with more than one child throws its Error, and
    the store at the throw is the store it was called on. *)
Theorem excise_root_with_children_throws (h : heap) (this : ref) (b : Br.t) :
  h !! this = Some b →
  Br.parent b = None →
  1 < List.length (Br.children b) →
  Branch.excise this h
  = Throw (Error "Cannot excise a root Branch with multiple children.") h.
Proof.
  intros Hb Hroot Hlen. unfold Branch.excise.
  rewrite (bind_Ok _ _ _ _ _ (get_Ok _ _ _ Hb)).
  unfold Branch.isRoot. rewrite Hroot. simpl.
  destruct (Nat.ltb_spec 1 (List.length (Br.children b))); [done | lia].
Qed.

Lemma excise_root_with_children_throws_witness :
  Branch.excise 0 two_short_leaves
  = Throw (Error "Cannot excise a root Branch with multiple children.")
          two_short_leaves.
Proof.
  apply (excise_root_with_children_throws two_short_leaves 0
           (Br.Mk "" 0 None [1; 2] 0 0 1)).
  - reflexivity.
  - reflexivity.
  - simpl. lia.
Defined.

(** ** Links after a mutation *)

(** C2: [addChild] with a Branch that already has a parent, and [addParent]
    on a Branch that has one, leave the moved Branch in the [children] of its
    former parent, and [isConsistent] on that parent answers [false]. *)
Theorem addChild_addParent_leave_stale_entry :
  (∃ h', Branch.addChild 2 (inl 1) two_roots = Ok 1 h'
         ∧ (Br.parent <$> h' !! 1) = Some (Some 2)
         ∧ (Br.children <$> h' !! 0) = Some [1]
         ∧ Branch.isConsistent 5 0 h' = Ok false h')
  ∧ (∃ h', Branch.addParent 1 (inl 2) [] two_roots = Ok 1 h'
           ∧ (Br.parent <$> h' !! 1) = Some (Some 2)
           ∧ (Br.children <$> h' !! 0) = Some [1]
           ∧ Branch.isConsistent 5 0 h' = Ok false h').
Proof. split; eexists; by_running. Qed.

(** ** Distances between Branches *)

(** C3: in [(A:1,(C:3,D:4):5);] the distance from [A] to itself is 2, not 0;
    from [C] to its parent it is 13 and from that parent to [C] it is 3; on
    the root [distanceBetween(root, root)] throws. *)
Theorem distanceBetween_self_and_ancestor :
  Branch.distanceBetween 5 0 1 1 uneven = Ok 2%Q uneven
  ∧ (∃ x y, Branch.distanceBetween 5 0 3 2 uneven = Ok x uneven
            ∧ Branch.distanceBetween 5 0 2 3 uneven = Ok y uneven
            ∧ (x == 13)%Q ∧ (y == 3)%Q)
  ∧ Branch.distanceBetween 5 0 0 0 uneven
    = Throw (Error "Branch and cousin do not appear to share a common ancestor!")
            uneven.
Proof.
  split; [vm_compute; reflexivity |].
  split; [| vm_compute; reflexivity].
  eexists _, _. split; [vm_compute; reflexivity |].
  split; [vm_compute; reflexivity |]. split; reflexivity.
Qed.

(** ** consolidate *)

(** C6: on [(A:0.0001,B:0.0001);] [consolidate()] excises [A] and returns
    with [B] still a child of the root, its length 0.0001 as before. *)
Theorem consolidate_skips_adjacent_sibling :
  ∃ h' root b,
    Branch.consolidate 5 0 two_short_leaves = Ok 0 h'
    ∧ h' !! 0 = Some root ∧ Br.children root = [2]
    ∧ h' !! 2 = Some b ∧ Br.parent b = Some 0
    ∧ Br.id b = "B" ∧ (Br.length b == 1 # 10000)%Q
    ∧ Qle_bool threshold (Br.length b) = false.
Proof. eexists _, _, _. by_running. Qed.

(** * Further properties of the Branch methods *)

(** ** Array positions *)

Lemma indexOf_lookup (l : list ref) x k :
  NoDup l → l !! k = Some x → indexOf l x = Z.of_nat k.
Proof.
  intros Hnd Hk. rewrite <- (app_nil_r l). by apply indexOf_app.
Qed.

Lemma indexOf_from_absent (l : list ref) x : ∀ i,
  x ∉ l → indexOf_from x l i = (-1)%Z.
Proof.
  induction l as [|y l IH]; intros i Hx; [done |].
  apply not_elem_of_cons in Hx as [Hxy Hx]. simpl.
  destruct (Nat.eqb_spec y x) as [-> | _]; [done |]. by apply IH.
Qed.

Lemma splice1_last (l : list ref) : splice1 l (-1) = removelast l.
Proof.
  unfold splice1, splice_start. simpl.
  induction l as [|x l IH] using rev_ind; [done |].
  rewrite removelast_last, length_app. simpl.
  replace (Z.to_nat (Z.max (Z.of_nat (List.length l + 1) + -1) 0))
    with (List.length l) by lia.
  rewrite take_app_length.
  replace (S (List.length l)) with (List.length (l ++ [x]))
    by (rewrite length_app; simpl; lia).
  by rewrite drop_all, app_nil_r.
Qed.

(** ** Operations that need a parent *)

(** [isolate()], [remove()] and [replace()] on a root read a property of the
    null parent and throw a TypeError; [invert()] on a root throws its own
    Error.  The store is as it was. *)
Theorem root_has_no_parent_to_edit
        (fuel : nat) (h : heap) (this other : ref) (b : Br.t) :
  h !! this = Some b →
  Br.parent b = None →
  Branch.isolate this h
  = Throw (TypeError "Cannot read properties of null (reading 'children')") h
  ∧ Branch.remove (S fuel) this h
    = Throw (TypeError "Cannot read properties of null (reading 'children')") h
  ∧ Branch.replace (S fuel) this other h
    = Throw (TypeError "Cannot read properties of null (reading 'children')") h
  ∧ Branch.invert this h = Throw (Error "Cannot invert root node!") h.
Proof.
  intros Hb Hp.
  assert (Hroot : Branch.getRoot (S fuel) this h = Ok this h).
  { simpl. by rewrite (bind_get _ _ _ _ Hb), Hp. }
  assert (Hiso : Branch.isolate this h
    = Throw (TypeError "Cannot read properties of null (reading 'children')") h).
  { unfold Branch.isolate. by rewrite (bind_get _ _ _ _ Hb), Hp. }
  split; [done |]. split; [| split].
  - unfold Branch.remove. rewrite (bind_Ok _ _ _ _ _ Hroot).
    by rewrite (bind_Throw _ _ _ _ _ Hiso).
  - unfold Branch.replace. rewrite (bind_Ok _ _ _ _ _ Hroot).
    by rewrite (bind_get _ _ _ _ Hb), Hp.
  - unfold Branch.invert. by rewrite (bind_get _ _ _ _ Hb), Hp.
Qed.

Lemma root_has_no_parent_to_edit_witness :
  Branch.isolate 0 uneven
  = Throw (TypeError "Cannot read properties of null (reading 'children')")
          uneven
  ∧ Branch.remove 1 0 uneven
    = Throw (TypeError "Cannot read properties of null (reading 'children')")
            uneven
  ∧ Branch.replace 1 0 4 uneven
    = Throw (TypeError "Cannot read properties of null (reading 'children')")
            uneven
  ∧ Branch.invert 0 uneven = Throw (Error "Cannot invert root node!") uneven.
Proof.
  apply (root_has_no_parent_to_edit 0 uneven 0 4 (Br.Mk "" 0 None [1; 2] 0 0 1)).
  - reflexivity.
  - reflexivity.
Defined.

Lemma isolate_at (h : heap) (this p k : nat) (b pb : Br.t) :
  h !! this = Some b →
  Br.parent b = Some p →
  h !! p = Some pb →
  p ≠ this →
  NoDup (Br.children pb) →
  Br.children pb !! k = Some this →
  Branch.isolate this h
  = Ok this (<[this := Br.set_parent None b]>
               (<[p := Br.set_children (delete k (Br.children pb)) pb]> h)).
Proof.
  intros Hb Hp Hpb Hne Hnd Hk. unfold Branch.isolate.
  rewrite (bind_get _ _ _ _ Hb), Hp. simpl. rewrite bind_ret.
  rewrite (bind_get _ _ _ _ Hpb), (bind_modify _ _ _ _ _ Hpb).
  rewrite (indexOf_lookup _ _ _ Hnd Hk).
  rewrite splice1_delete by (by eapply lookup_lt_Some).
  unfold Branch.setParent. rewrite bind_assoc.
  rewrite (bind_modify _ _ _ b); [done |].
  by rewrite list_lookup_insert_ne.
Qed.

(** [isolate()] on a Branch listed once by its parent: the parent loses that
    entry, the Branch loses its parent, and nothing else is written. *)
Theorem isolate_detaches (h : heap) (this p k : nat) (b pb : Br.t) :
  h !! this = Some b →
  Br.parent b = Some p →
  h !! p = Some pb →
  p ≠ this →
  NoDup (Br.children pb) →
  Br.children pb !! k = Some this →
  Branch.isolate this h
  = Ok this (<[this := Br.set_parent None b]>
               (<[p := Br.set_children (delete k (Br.children pb)) pb]> h)).
Proof. apply isolate_at. Qed.

Lemma isolate_detaches_witness :
  Branch.isolate 2 uneven
  = Ok 2 (<[2 := Br.set_parent None (Br.Mk "" 5 (Some 0) [3; 4] 0 0 1)]>
            (<[0 := Br.set_children (delete 1 [1; 2])
                      (Br.Mk "" 0 None [1; 2] 0 0 1)]> uneven)).
Proof.
  apply (isolate_detaches uneven 2 0 1 (Br.Mk "" 5 (Some 0) [3; 4] 0 0 1)
           (Br.Mk "" 0 None [1; 2] 0 0 1)).
  - reflexivity.
  - reflexivity.
  - reflexivity.
  - lia.
  - apply (bool_decide_unpack _). vm_compute. exact I.
  - reflexivity.
Defined.

(** [isolate()] on a Branch its parent does not list: [indexOf] answers -1
    and [splice(-1, 1)] takes the last child of the parent away. *)
Theorem isolate_unlisted_drops_last_sibling
        (h : heap) (this p : nat) (b pb : Br.t) :
  h !! this = Some b →
  Br.parent b = Some p →
  h !! p = Some pb →
  p ≠ this →
  this ∉ Br.children pb →
  Branch.isolate this h
  = Ok this (<[this := Br.set_parent None b]>
               (<[p := Br.set_children (removelast (Br.children pb)) pb]> h)).
Proof.
  intros Hb Hp Hpb Hne Hout. unfold Branch.isolate.
  rewrite (bind_get _ _ _ _ Hb), Hp. simpl. rewrite bind_ret.
  rewrite (bind_get _ _ _ _ Hpb), (bind_modify _ _ _ _ _ Hpb).
  unfold indexOf. rewrite (indexOf_from_absent _ _ _ Hout), splice1_last.
  unfold Branch.setParent. rewrite bind_assoc.
  rewrite (bind_modify _ _ _ b); [done |].
  by rewrite list_lookup_insert_ne.
Qed.

Lemma isolate_unlisted_drops_last_sibling_witness :
  Branch.isolate 3 unlisted_child
  = Ok 3 (<[3 := Br.set_parent None (Br.Mk "Q" 1 (Some 0) [] 0 0 1)]>
            (<[0 := Br.set_children (removelast [1; 2])
                      (Br.Mk "P" 0 None [1; 2] 0 0 1)]> unlisted_child)).
Proof.
  apply (isolate_unlisted_drops_last_sibling unlisted_child 3 0
           (Br.Mk "Q" 1 (Some 0) [] 0 0 1) (Br.Mk "P" 0 None [1; 2] 0 0 1)).
  - reflexivity.
  - reflexivity.
  - reflexivity.
  - lia.
  - apply (bool_decide_unpack _). vm_compute. exact I.
Defined.

Lemma invert_at (h : heap) (this p k : nat) (b pb : Br.t) :
  h !! this = Some b →
  Br.parent b = Some p →
  h !! p = Some pb →
  p ≠ this →
  NoDup (Br.children pb) →
  Br.children pb !! k = Some this →
  ∃ h', Branch.invert this h = Ok this h'
        ∧ h' !! this
          = Some (Br.Mk (Br.id b) (Br.length pb) (Br.parent pb)
                        (Br.children b ++ [p])
                        (Br.depth b) (Br.height b) (Br.value b))
        ∧ h' !! p
          = Some (Br.Mk (Br.id pb) (Br.length b) (Some this)
                        (delete k (Br.children pb))
                        (Br.depth pb) (Br.height pb) (Br.value pb))
        ∧ ∀ n, n ≠ this → n ≠ p → h' !! n = h !! n.
Proof.
  intros Hb Hp Hpb Hne Hnd Hk.
  set (pb1 := Br.set_length (Br.length b) pb). set (h1 := <[p := pb1]> h).
  set (b1 := Br.set_length (Br.length pb) b). set (h2 := <[this := b1]> h1).
  set (b2 := Br.set_parent (Br.parent pb1) b1). set (h3 := <[this := b2]> h2).
  set (b3 := Br.set_children (Br.children b2 ++ [p]) b2).
  set (h4 := <[this := b3]> h3).
  set (pb2 := Br.set_parent (Some this) pb1). set (h5 := <[p := pb2]> h4).
  set (pb3 := Br.set_children (delete k (Br.children pb)) pb2).
  set (h6 := <[p := pb3]> h5).
  assert (H1p : h1 !! p = Some pb1) by (by eapply lookup_insert_same).
  assert (H1t : h1 !! this = Some b)
    by (unfold h1; by rewrite list_lookup_insert_ne).
  assert (H2t : h2 !! this = Some b1) by (by eapply lookup_insert_same).
  assert (H2p : h2 !! p = Some pb1)
    by (unfold h2; by rewrite list_lookup_insert_ne).
  assert (H3t : h3 !! this = Some b2) by (by eapply lookup_insert_same).
  assert (H4t : h4 !! this = Some b3) by (by eapply lookup_insert_same).
  assert (H4p : h4 !! p = Some pb1).
  { unfold h4, h3. by rewrite !list_lookup_insert_ne. }
  assert (H5p : h5 !! p = Some pb2) by (by eapply lookup_insert_same).
  assert (H6p : h6 !! p = Some pb3) by (by eapply lookup_insert_same).
  assert (H6t : h6 !! this = Some b3).
  { unfold h6, h5. by rewrite !list_lookup_insert_ne. }
  exists h6. split; [| split; [done | split; [done |]]].
  - unfold Branch.invert.
    rewrite (bind_get _ _ _ _ Hb), Hp, (bind_get _ _ _ _ Hpb). cbv zeta.
    rewrite (bind_modify _ _ _ _ _ Hpb). fold pb1 h1.
    rewrite (bind_modify _ _ _ _ _ H1t). fold b1 h2.
    rewrite (bind_get _ _ _ _ H2p), (bind_modify _ _ _ _ _ H2t). fold b2 h3.
    unfold Branch.push. rewrite (bind_modify _ _ _ _ _ H3t). fold b3 h4.
    rewrite (bind_modify _ _ _ _ _ H4p). fold pb2 h5.
    rewrite (bind_get _ _ _ _ H5p), (bind_modify _ _ _ _ _ H5p).
    change (Br.children pb2) with (Br.children pb).
    rewrite (indexOf_lookup _ _ _ Hnd Hk).
    by rewrite splice1_delete by (by eapply lookup_lt_Some).
  - intros n Hn1 Hn2. unfold h6, h5, h4, h3, h2, h1.
    by rewrite !list_lookup_insert_ne.
Qed.

(** [invert()] on a Branch listed once by its parent: the two swap their
    lengths, the Branch takes the parent of its old parent and lists the old
    parent last, the old parent points to the Branch and no longer lists it.
    No other Branch is written, so the Branch above the old parent still
    lists the old parent, and not the Branch that now sits below it. *)
Theorem invert_swaps_with_parent (h : heap) (this p k : nat) (b pb : Br.t) :
  h !! this = Some b →
  Br.parent b = Some p →
  h !! p = Some pb →
  p ≠ this →
  NoDup (Br.children pb) →
  Br.children pb !! k = Some this →
  ∃ h', Branch.invert this h = Ok this h'
        ∧ h' !! this
          = Some (Br.Mk (Br.id b) (Br.length pb) (Br.parent pb)
                        (Br.children b ++ [p])
                        (Br.depth b) (Br.height b) (Br.value b))
        ∧ h' !! p
          = Some (Br.Mk (Br.id pb) (Br.length b) (Some this)
                        (delete k (Br.children pb))
                        (Br.depth pb) (Br.height pb) (Br.value pb))
        ∧ ∀ n, n ≠ this → n ≠ p → h' !! n = h !! n.
Proof. apply invert_at. Qed.

Lemma invert_swaps_with_parent_witness :
  ∃ h', Branch.invert 3 uneven = Ok 3 h'
        ∧ h' !! 3 = Some (Br.Mk "C" 5 (Some 0) [2] 0 0 1)
        ∧ h' !! 2 = Some (Br.Mk "" 3 (Some 3) (delete 0 [3; 4]) 0 0 1)
        ∧ ∀ n, n ≠ 3 → n ≠ 2 → h' !! n = uneven !! n.
Proof.
  apply (invert_swaps_with_parent uneven 3 2 0 (Br.Mk "C" 3 (Some 2) [] 0 0 1)
           (Br.Mk "" 5 (Some 0) [3; 4] 0 0 1)).
  - reflexivity.
  - reflexivity.
  - reflexivity.
  - lia.
  - apply (bool_decide_unpack _). vm_compute. exact I.
  - reflexivity.
Defined.

(** ** Climbing to the root *)

(** From a Branch of a tree, the walk up the parents reaches the root of the
    tree after fewer steps than the tree has levels. *)
Lemma getRoot_climbs (t : shape) : ∀ h p n,
  tree_at h p t → n ∈ refs t →
  ∃ d, d < levels t
       ∧ ∀ fuel, d ≤ fuel →
           Branch.getRoot fuel n h = Branch.getRoot (fuel - d) (root_of t) h.
Proof.
  induction t as [r ks IH] using shape_ind'. intros h p n Ht Hn.
  inversion Ht as [? ? ? b Hb Hp Hc Hks]; subst.
  simpl in Hn. apply elem_of_cons in Hn as [-> | Hn].
  - exists 0. split; [pose proof (levels_pos (Sh r ks)); lia |].
    intros fuel _. by rewrite Nat.sub_0_r.
  - apply elem_of_flat_map in Hn as (k & Hk & Hn).
    rewrite Forall_forall in IH, Hks.
    destruct (IH k Hk h (Some r) n (Hks k Hk) Hn) as (d & Hd & Hrun).
    pose proof (levels_kid r ks k Hk) as Hlk.
    exists (S d). split; [lia |]. intros fuel Hfuel.
    rewrite Hrun by lia.
    destruct (tree_at_root _ _ _ (Hks k Hk)) as (kb & Hkb & Hkp & _).
    replace (fuel - d) with (S (fuel - S d)) by lia. simpl.
    by rewrite (bind_get _ _ _ _ Hkb), Hkp.
Qed.

Lemma getRoot_in_tree
        (fuel : nat) (h : heap) (t : shape) (n : ref) :
  tree_at h None t →
  n ∈ refs t →
  levels t ≤ fuel →
  Branch.getRoot fuel n h = Ok (root_of t) h.
Proof.
  intros Ht Hn Hfuel.
  destruct (getRoot_climbs t h None n Ht Hn) as (d & Hd & Hrun).
  rewrite Hrun by lia.
  destruct (tree_at_root _ _ _ Ht) as (b & Hb & Hp & _).
  replace (fuel - d) with (S (fuel - S d)) by lia. simpl.
  by rewrite (bind_get _ _ _ _ Hb), Hp.
Qed.

(** [getRoot()] from any Branch of a tree returns the root of the tree and
    writes nothing. *)
Theorem getRoot_returns_the_root
        (fuel : nat) (h : heap) (t : shape) (n : ref) :
  tree_at h None t →
  n ∈ refs t →
  levels t ≤ fuel →
  Branch.getRoot fuel n h = Ok (root_of t) h.
Proof. apply getRoot_in_tree. Qed.

Lemma uneven_tree : tree_at uneven None uneven_shape.
Proof. repeat (econstructor; try reflexivity). Defined.

Lemma getRoot_returns_the_root_witness :
  Branch.getRoot 5 4 uneven = Ok (root_of uneven_shape) uneven.
Proof.
  apply (getRoot_returns_the_root 5 uneven uneven_shape 4).
  - exact uneven_tree.
  - apply (bool_decide_unpack _). vm_compute. exact I.
  - simpl. lia.
Defined.

(** A Branch of a tree that is not its root has a parent in the tree, which
    lists it once. *)
Lemma tree_parent_of (t : shape) : ∀ h q n,
  tree_at h q t → NoDup (refs t) → n ∈ refs t → n ≠ root_of t →
  ∃ b p pb k, h !! n = Some b ∧ Br.parent b = Some p ∧ h !! p = Some pb
              ∧ Br.children pb !! k = Some n ∧ NoDup (Br.children pb)
              ∧ p ≠ n ∧ p ∈ refs t.
Proof.
  induction t as [r ks IH] using shape_ind'. intros h q n Ht Hnd Hn Hne.
  inversion Ht as [? ? ? rb Hrb Hp Hc Hks]; subst.
  simpl in Hn, Hne. apply elem_of_cons in Hn as [-> | Hn]; [done |].
  pose proof Hnd as Hnd'. simpl in Hnd'.
  apply NoDup_cons in Hnd' as [Hr Hndk].
  apply elem_of_flat_map in Hn as (k & Hk & Hn).
  apply list_elem_of_lookup in Hk as [i Hi].
  rewrite Forall_forall in IH, Hks.
  assert (Hkin : k ∈ ks) by (by eapply list_elem_of_lookup_2).
  destruct (decide (n = root_of k)) as [-> | Hnk].
  - destruct (tree_at_root _ _ _ (Hks k Hkin)) as (kb & Hkb & Hkp & _).
    exists kb, r, rb, i. split; [done |]. split; [done |]. split; [done |].
    split; [| split; [| split]].
    + rewrite Hc. change (map root_of ks) with (root_of <$> ks).
      by rewrite list_lookup_fmap, Hi.
    + rewrite Hc. by apply NoDup_roots.
    + intros ->. apply Hr. by eapply refs_of_kid.
    + simpl. left.
  - destruct (IH k Hkin h (Some r) n (Hks k Hkin)) as
      (b & p & pb & j & Hb & Hbp & Hpb & Hj & Hndp & Hpn & Hpin);
      [by eapply NoDup_kid | done | done |].
    exists b, p, pb, j. repeat (split; [done |]).
    simpl. right. by eapply refs_of_kid.
Qed.

Lemma splice1_with_insert (l : list ref) k x :
  k < List.length l → splice1_with l (Z.of_nat k) x = <[k := x]> l.
Proof.
  intros Hk. unfold splice1_with, splice_start.
  destruct (Z.ltb_spec (Z.of_nat k) 0) as [Hneg | _]; [lia |].
  rewrite Nat2Z.id, Nat.min_l by lia. by rewrite insert_take_drop.
Qed.

(** [remove()] on a Branch of a valid tree other than the root returns the
    root; the parent of the Branch no longer lists it and the Branch has no
    parent. *)
Theorem remove_returns_the_root
        (fuel : nat) (h : heap) (t : shape) (this : ref) :
  valid_tree h t →
  this ∈ refs t →
  this ≠ root_of t →
  levels t ≤ fuel →
  ∃ b p pb k,
    h !! this = Some b ∧ Br.parent b = Some p ∧ h !! p = Some pb
    ∧ Br.children pb !! k = Some this
    ∧ Branch.remove fuel this h
      = Ok (root_of t)
           (<[this := Br.set_parent None b]>
              (<[p := Br.set_children (delete k (Br.children pb)) pb]> h)).
Proof.
  intros [Ht Hnd] Hin Hne Hfuel.
  destruct (tree_parent_of t h None this Ht Hnd Hin Hne)
    as (b & p & pb & k & Hb & Hbp & Hpb & Hk & Hndp & Hpn & _).
  exists b, p, pb, k. repeat (split; [done |]).
  unfold Branch.remove.
  rewrite (bind_Ok _ _ _ _ _ (getRoot_in_tree _ _ _ _ Ht Hin Hfuel)).
  by rewrite (bind_Ok _ _ _ _ _
                (isolate_at h this p k b pb Hb Hbp Hpb Hpn Hndp Hk)).
Qed.

Lemma remove_returns_the_root_witness :
  ∃ b p pb k,
    uneven !! 3 = Some b ∧ Br.parent b = Some p ∧ uneven !! p = Some pb
    ∧ Br.children pb !! k = Some 3
    ∧ Branch.remove 5 3 uneven
      = Ok (root_of uneven_shape)
           (<[3 := Br.set_parent None b]>
              (<[p := Br.set_children (delete k (Br.children pb)) pb]> uneven)).
Proof.
  apply (remove_returns_the_root 5 uneven uneven_shape 3).
  - exact uneven_valid.
  - apply (bool_decide_unpack _). vm_compute. exact I.
  - simpl. lia.
  - simpl. lia.
Defined.

(** [replace(replacement)] on a Branch of a valid tree other than the root
    returns the root and puts [replacement] where the parent listed the
    Branch.  Only the parent is written: the Branch keeps its parent, and
    [replacement] is given none. *)
Theorem replace_rewrites_only_the_parent
        (fuel : nat) (h : heap) (t : shape) (this replacement : ref) :
  valid_tree h t →
  this ∈ refs t →
  this ≠ root_of t →
  levels t ≤ fuel →
  ∃ b p pb k,
    h !! this = Some b ∧ Br.parent b = Some p ∧ h !! p = Some pb
    ∧ Br.children pb !! k = Some this
    ∧ Branch.replace fuel this replacement h
      = Ok (root_of t)
           (<[p := Br.set_children (<[k := replacement]> (Br.children pb)) pb]>
              h).
Proof.
  intros [Ht Hnd] Hin Hne Hfuel.
  destruct (tree_parent_of t h None this Ht Hnd Hin Hne)
    as (b & p & pb & k & Hb & Hbp & Hpb & Hk & Hndp & Hpn & _).
  exists b, p, pb, k. repeat (split; [done |]).
  unfold Branch.replace.
  rewrite (bind_Ok _ _ _ _ _ (getRoot_in_tree _ _ _ _ Ht Hin Hfuel)).
  rewrite (bind_get _ _ _ _ Hb), Hbp. simpl. rewrite bind_ret.
  rewrite (bind_get _ _ _ _ Hpb), (bind_modify _ _ _ _ _ Hpb).
  rewrite (indexOf_lookup _ _ _ Hndp Hk).
  by rewrite splice1_with_insert by (by eapply lookup_lt_Some).
Qed.

Lemma replace_rewrites_only_the_parent_witness :
  ∃ b p pb k,
    uneven !! 3 = Some b ∧ Br.parent b = Some p ∧ uneven !! p = Some pb
    ∧ Br.children pb !! k = Some 3
    ∧ Branch.replace 5 3 1 uneven
      = Ok (root_of uneven_shape)
           (<[p := Br.set_children (<[k := 1]> (Br.children pb)) pb]> uneven).
Proof.
  apply (replace_rewrites_only_the_parent 5 uneven uneven_shape 3 1).
  - exact uneven_valid.
  - apply (bool_decide_unpack _). vm_compute. exact I.
  - simpl. lia.
  - simpl. lia.
Defined.

(** ** rotate *)

(** [rotate()] reverses the children of a Branch, and a second [rotate()]
    gives back the store of before. *)
Theorem rotate_twice_is_identity (h : heap) (this : ref) (b : Br.t) :
  h !! this = Some b →
  ∃ h1, Branch.rotate this h = Ok this h1
        ∧ (Br.children <$> h1 !! this) = Some (rev (Br.children b))
        ∧ Branch.rotate this h1 = Ok this h.
Proof.
  intros Hb.
  set (b1 := Br.set_children (rev (Br.children b)) b).
  assert (H1 : <[this := b1]> h !! this = Some b1)
    by (by eapply lookup_insert_same).
  exists (<[this := b1]> h). split; [| split].
  - unfold Branch.rotate. by rewrite (bind_modify _ _ _ _ _ Hb).
  - by rewrite H1.
  - unfold Branch.rotate. rewrite (bind_modify _ _ _ _ _ H1).
    rewrite list_insert_insert_eq. unfold b1. simpl. rewrite rev_involutive.
    destruct b. simpl. by rewrite list_insert_id.
Qed.

Lemma rotate_twice_is_identity_witness :
  ∃ h1, Branch.rotate 2 uneven = Ok 2 h1
        ∧ (Br.children <$> h1 !! 2) = Some (rev [3; 4])
        ∧ Branch.rotate 2 h1 = Ok 2 uneven.
Proof.
  apply (rotate_twice_is_identity uneven 2 (Br.Mk "" 5 (Some 0) [3; 4] 0 0 1)).
  reflexivity.
Defined.

(** ** Ancestors and depth *)

Lemma depthOf_loop_step fuel this cur q h :
  Branch.depthOf_loop (S fuel) this (Some cur) q h
  = if Nat.eqb cur this then Ok q h
    else bind (get cur) (fun b =>
           Branch.depthOf_loop fuel this (Br.parent b) (q + Br.length b)%Q) h.
Proof. simpl. by destruct (Nat.eqb cur this). Qed.

(** The walk of [getAncestors] from [cur], and what [depthOf] does along
    the Branches it collects. *)
Lemma ancestors_and_depth (h : heap) (fuel : nat) : ∀ cur acc l h',
  Branch.getAncestors_loop fuel cur acc h = Ok l h' →
  h' = h
  ∧ ∃ ups, l = acc ++ ups
           ∧ ∀ this q,
               (∀ i, (cur :: ups) !! i = Some this →
                     this ∉ take i (cur :: ups) →
                     Branch.depthOf_loop fuel this (Some cur) q h
                     = Ok (lengths_along h (take i (cur :: ups)) q) h)
               ∧ (this ∉ cur :: ups →
                  Branch.depthOf_loop (S fuel) this (Some cur) q h
                  = Throw (TypeError
                      "Cannot read properties of null (reading 'length')") h).
Proof.
  induction fuel as [|fuel IH]; intros cur acc l h' Hrun; [done |].
  simpl in Hrun. unfold bind, get in Hrun.
  destruct (h !! cur) as [b|] eqn:Hb; [| done].
  destruct (Br.parent b) as [p|] eqn:Hp.
  - destruct (IH p (acc ++ [p]) l h' Hrun) as (-> & ups & -> & Hups).
    split; [done |]. exists (p :: ups). split; [by rewrite <- app_assoc |].
    intros this q. split.
    + intros [|i] Hi Hout.
      * injection Hi as ->. simpl. by rewrite Nat.eqb_refl.
      * simpl in Hi, Hout. apply not_elem_of_cons in Hout as [Hne Hout].
        rewrite depthOf_loop_step.
        destruct (Nat.eqb_spec cur this) as [-> | _]; [done |].
        rewrite (bind_get _ _ _ _ Hb), Hp.
        rewrite (proj1 (Hups this (q + Br.length b)%Q) i Hi Hout).
        unfold lengths_along. simpl. do 3 f_equal. unfold length_of. by rewrite Hb.
    + intros Hout. apply not_elem_of_cons in Hout as [Hne Hout].
      rewrite depthOf_loop_step.
      destruct (Nat.eqb_spec cur this) as [-> | _]; [done |].
      rewrite (bind_get _ _ _ _ Hb), Hp.
      by apply (proj2 (Hups this (q + Br.length b)%Q)).
  - injection Hrun as <- <-. split; [done |]. exists []. split;
      [by rewrite app_nil_r |].
    intros this q. split.
    + intros [|i] Hi Hout; [| done].
      injection Hi as ->. simpl. by rewrite Nat.eqb_refl.
    + intros Hout. apply not_elem_of_cons in Hout as [Hne _].
      rewrite depthOf_loop_step.
      destruct (Nat.eqb_spec cur this) as [-> | _]; [done |].
      by rewrite (bind_get _ _ _ _ Hb), Hp.
Qed.

(** [depthOf(descendant)] on a Branch found among [descendant] and its
    ancestors: the sum of the lengths of the Branches before it in that
    list, added from [descendant] upwards. *)
Theorem depthOf_sums_the_lengths_below
        (fuel : nat) (h : heap) (this n : ref) (l : list ref) (i : nat) :
  Branch.getAncestors fuel n true h = Ok l h →
  l !! i = Some this →
  this ∉ take i l →
  Branch.depthOf fuel this n h = Ok (lengths_along h (take i l) 0) h.
Proof.
  intros Hrun Hi Hout. unfold Branch.getAncestors in Hrun.
  destruct (ancestors_and_depth h fuel n [n] l h Hrun) as (_ & ups & -> & Hups).
  by apply (proj1 (Hups this 0%Q)).
Qed.

Lemma depthOf_sums_the_lengths_below_witness :
  Branch.depthOf 5 0 3 uneven = Ok (lengths_along uneven (take 2 [3; 2; 0]) 0) uneven.
Proof.
  apply (depthOf_sums_the_lengths_below 5 uneven 0 3 [3; 2; 0] 2).
  - reflexivity.
  - reflexivity.
  - apply (bool_decide_unpack _). vm_compute. exact I.
Defined.

(** [depthOf(descendant)] on a Branch that is neither [descendant] nor one
    of its ancestors runs past the root and throws a TypeError, where the
    documentation announces an error of its own. *)
Theorem depthOf_of_a_stranger_throws
        (fuel : nat) (h : heap) (this n : ref) (l : list ref) :
  Branch.getAncestors fuel n true h = Ok l h →
  this ∉ l →
  Branch.depthOf (S fuel) this n h
  = Throw (TypeError "Cannot read properties of null (reading 'length')") h.
Proof.
  intros Hrun Hout. unfold Branch.getAncestors in Hrun.
  destruct (ancestors_and_depth h fuel n [n] l h Hrun) as (_ & ups & -> & Hups).
  by apply (proj2 (Hups this 0%Q)).
Qed.

Lemma depthOf_of_a_stranger_throws_witness :
  Branch.depthOf 6 1 3 uneven
  = Throw (TypeError "Cannot read properties of null (reading 'length')") uneven.
Proof.
  apply (depthOf_of_a_stranger_throws 5 uneven 1 3 [3; 2; 0]).
  - reflexivity.
  - apply (bool_decide_unpack _). vm_compute. exact I.
Defined.

(** ** The order of the walks *)

Lemma foldM_record l : ∀ seen h, foldM record_visit l seen h = Ok (seen ++ l) h.
Proof.
  induction l as [|x l IH]; intros seen h; simpl.
  - by rewrite app_nil_r.
  - unfold record_visit at 1. rewrite bind_ret, IH. by rewrite <- app_assoc.
Qed.

Lemma record_visit_links n a h a' h' :
  record_visit n a h = Ok a' h' → same_links h h'.
Proof. intros [= _ <-]. apply same_links_refl. Qed.

(** Collecting the children of a Branch, as [each] does. *)
Lemma forEach_live_push h r b : ∀ n i next,
  h !! r = Some b → n + i = List.length (Br.children b) →
  Branch.forEach_live r (fun child next => ret (next ++ [child])) n i next h
  = Ok (next ++ drop i (Br.children b)) h.
Proof.
  induction n as [|n IH]; intros i next Hb Hlen; simpl.
  - rewrite drop_ge by lia. by rewrite app_nil_r.
  - rewrite (bind_get _ _ _ _ Hb).
    destruct (Br.children b !! i) as [c|] eqn:Hc.
    + rewrite bind_ret, IH by (done || lia).
      by rewrite (drop_S _ _ _ Hc), <- app_assoc.
    + apply lookup_ge_None in Hc. lia.
Qed.

Lemma eachChild_push h r b next :
  h !! r = Some b →
  Branch.eachChild r (fun child next => ret (next ++ [child])) next h
  = Ok (next ++ Br.children b) h.
Proof.
  intros Hb. unfold Branch.eachChild. rewrite (bind_get _ _ _ _ Hb).
  by rewrite (forEach_live_push h r b _ 0 next Hb) by lia.
Qed.

Lemma map_root_kids (ts : list shape) :
  map root_of (flat_map kids_of ts)
  = flat_map (fun t => map root_of (kids_of t)) ts.
Proof.
  induction ts as [|t ts IH]; [done |]. simpl. by rewrite map_app, IH.
Qed.

Section LevelWalk.
Context {A : Type} (cb : ref → A → M A).
Hypothesis cb_links : ∀ n a h a' h', cb n a h = Ok a' h' → same_links h h'.

Lemma each_level_static (ts : list shape) : ∀ next a h,
  Forall (fun t => ∃ q, tree_at h q t) ts →
  Branch.each_level cb (map root_of ts) next a h
  = bind (foldM cb (map root_of ts) a)
         (fun a' => ret (next ++ map root_of (flat_map kids_of ts), a')) h.
Proof.
  induction ts as [|t ts IH]; intros next a h Hts; simpl.
  - by rewrite bind_ret, app_nil_r.
  - inversion Hts as [|? ? [q Ht] Hrest]; subst.
    rewrite bind_assoc. unfold bind at 1 3.
    destruct (cb (root_of t) a h) as [a' h1| |] eqn:Hcb; [| done | done].
    pose proof (cb_links _ _ _ _ _ Hcb) as Hl.
    destruct (tree_at_root _ _ _ (tree_at_same_links _ _ _ _ Hl Ht))
      as (b & Hb & _ & Hc).
    rewrite (bind_Ok _ _ _ _ _ (eachChild_push h1 _ b next Hb)).
    rewrite IH.
    + by rewrite Hc, map_app, app_assoc.
    + eapply Forall_impl; [exact Hrest |]. intros k [q' Hk]. exists q'.
      by eapply tree_at_same_links.
Qed.

Lemma each_loop_static (fuel : nat) : ∀ ts a h,
  Forall (fun t => ∃ q, tree_at h q t) ts →
  Forall (fun t => levels t ≤ fuel) ts →
  Branch.each_loop fuel cb (map root_of ts) a h
  = foldM cb (level_order fuel ts) a h.
Proof.
  induction fuel as [|fuel IH]; intros ts a h Hts Hlv.
  - destruct ts as [|t ts]; [done |].
    inversion Hlv as [|? ? Ht _]; subst. pose proof (levels_pos t). lia.
  - destruct ts as [|t ts]; [done |].
    change (Branch.each_loop (S fuel) cb (map root_of (t :: ts)) a h)
      with (bind (Branch.each_level cb (map root_of (t :: ts)) [] a)
                 (fun r => Branch.each_loop fuel cb (fst r) (snd r)) h).
    unfold bind at 1. rewrite each_level_static by done.
    change (level_order (S fuel) (t :: ts))
      with (map root_of (t :: ts) ++ level_order fuel (flat_map kids_of (t :: ts))).
    rewrite foldM_app. unfold bind, ret.
    destruct (foldM cb (map root_of (t :: ts)) a h) as [a' h1| |] eqn:Hrun;
      [| done | done].
    cbn [fst snd app].
    pose proof (foldM_links cb cb_links _ _ _ _ _ Hrun) as Hl.
    apply IH.
    + apply Forall_forall. intros k Hk.
      apply elem_of_flat_map in Hk as (s & Hs & Hk).
      rewrite Forall_forall in Hts. destruct (Hts s Hs) as [q Ht].
      destruct s as [r ks]. inversion Ht as [? ? ? b _ _ _ Hks]; subst.
      rewrite Forall_forall in Hks. exists (Some r).
      eapply tree_at_same_links; [exact Hl |]. by apply Hks.
    + apply Forall_forall. intros k Hk.
      apply elem_of_flat_map in Hk as (s & Hs & Hk).
      rewrite Forall_forall in Hlv. pose proof (Hlv s Hs) as Hls.
      destruct s as [r ks]. pose proof (levels_kid r ks k Hk). lia.
Qed.

End LevelWalk.

(** A callback that leaves [parent] and [children] as they are is handed
    the Branches of a tree in a fixed order: [eachBefore] a Branch before
    those below it, [eachAfter] after them, [each] level by level, and
    brothers from first to last in all three. *)
Theorem walks_visit_in_order {A : Type}
        (callback : ref → A → M A) (fuel : nat) (h : heap) (p : option ref)
        (t : shape) (a : A) :
  (∀ n a h a' h', callback n a h = Ok a' h' → same_links h h') →
  tree_at h p t →
  levels t ≤ fuel →
  Branch.eachBefore fuel callback (root_of t) a h = foldM callback (refs t) a h
  ∧ Branch.eachAfter fuel callback (root_of t) a h
    = foldM callback (postorder t) a h
  ∧ Branch.each fuel callback (root_of t) a h
    = foldM callback (level_order fuel [t]) a h.
Proof.
  intros Hcb Ht Hfuel. split; [| split].
  - by eapply eachBefore_foldM.
  - by eapply eachAfter_foldM.
  - unfold Branch.each.
    change [root_of t] with (map root_of [t]).
    apply each_loop_static; [done | |].
    + constructor; [by exists p | constructor].
    + constructor; [done | constructor].
Qed.

Lemma walks_visit_in_order_witness :
  Branch.eachBefore 5 record_visit (root_of uneven_shape) [] uneven
  = foldM record_visit (refs uneven_shape) [] uneven
  ∧ Branch.eachAfter 5 record_visit (root_of uneven_shape) [] uneven
    = foldM record_visit (postorder uneven_shape) [] uneven
  ∧ Branch.each 5 record_visit (root_of uneven_shape) [] uneven
    = foldM record_visit (level_order 5 [uneven_shape]) [] uneven.
Proof.
  apply (walks_visit_in_order record_visit 5 uneven None uneven_shape []).
  - exact record_visit_links.
  - exact uneven_tree.
  - simpl. lia.
Defined.

(** ** Descendants and leaves *)

Lemma getDescendants_walk (fuel : nat) : ∀ t p h,
  tree_at h p t → levels t ≤ fuel →
  Branch.getDescendants fuel (root_of t) true h = Ok (refs t) h
  ∧ Branch.getDescendants fuel (root_of t) false h
    = Ok (flat_map refs (kids_of t)) h.
Proof.
  induction fuel as [|fuel IH]; intros [r ks] p h Ht Hfuel.
  { pose proof (levels_pos (Sh r ks)). lia. }
  inversion Ht as [? ? ? b Hb Hp Hc Hks]; subst.
  set (g := fun (child : nat) (descendants : list nat) =>
              let* ds := Branch.getDescendants fuel child true in
              ret (descendants ++ ds)).
  assert (Hg : ∀ k q a h0, k ∈ ks → tree_at h0 q k →
                 g (root_of k) a h0 = foldM record_visit (refs k) a h0).
  { intros k q a h0 Hk Htk. pose proof (levels_kid r ks k Hk) as Hlv.
    destruct (IH k q h0 Htk) as [Hself _]; [lia |].
    unfold g. by rewrite (bind_Ok _ _ _ _ _ Hself), foldM_record. }
  assert (Hgo : ∀ start,
    (if Branch.isLeaf b then ret start
     else Branch.eachChild r g start) h
    = Ok (start ++ flat_map refs ks) h).
  { intros start. unfold Branch.isLeaf. rewrite Hc, length_map.
    destruct ks as [|k ks']; [simpl; by rewrite app_nil_r |].
    cbn [List.length Nat.eqb].
    unfold Branch.eachChild. rewrite (bind_get _ _ _ _ Hb), Hc, length_map.
    rewrite (forEach_live_static record_visit record_visit_links g refs r
               (k :: ks') (Br.parent b) Hg _ 0 start h Ht) by lia.
    by rewrite foldM_record. }
  split.
  - simpl. rewrite (bind_get _ _ _ _ Hb). apply (Hgo [r]).
  - simpl. rewrite (bind_get _ _ _ _ Hb). apply (Hgo []).
Qed.

(** [getDescendants(true)] on the root of a tree lists the Branches of the
    tree, a Branch before those below it and brothers in their order;
    without [includeSelf] the root is left out. *)
Theorem getDescendants_lists_the_tree
        (fuel : nat) (h : heap) (p : option ref) (t : shape) :
  tree_at h p t →
  levels t ≤ fuel →
  Branch.getDescendants fuel (root_of t) true h = Ok (refs t) h
  ∧ Branch.getDescendants fuel (root_of t) false h
    = Ok (flat_map refs (kids_of t)) h.
Proof. apply getDescendants_walk. Qed.

Lemma getDescendants_lists_the_tree_witness :
  Branch.getDescendants 5 (root_of uneven_shape) true uneven
  = Ok (refs uneven_shape) uneven
  ∧ Branch.getDescendants 5 (root_of uneven_shape) false uneven
    = Ok (flat_map refs (kids_of uneven_shape)) uneven.
Proof.
  apply (getDescendants_lists_the_tree 5 uneven None uneven_shape).
  - exact uneven_tree.
  - simpl. lia.
Defined.

Lemma existsb_eqb_elem (d : nat) (l : list nat) :
  existsb (Nat.eqb d) l = bool_decide (d ∈ l).
Proof.
  induction l as [|x l IH]; [done |]. simpl. rewrite IH.
  destruct (Nat.eqb_spec d x) as [-> | Hne].
  - symmetry. apply bool_decide_eq_true. left.
  - simpl. apply bool_decide_ext. rewrite elem_of_cons.
    split; [by right | by intros [? | ?]].
Qed.

Lemma hasDescendant_at
        (fuel : nat) (h : heap) (p : option ref) (t : shape) (d : ref) :
  tree_at h p t →
  NoDup (refs t) →
  levels t ≤ fuel →
  Branch.hasDescendant fuel (root_of t) d h
  = Ok (bool_decide (d ∈ flat_map refs (kids_of t))) h
  ∧ Branch.hasDescendant fuel (root_of t) (root_of t) h = Ok false h.
Proof.
  intros Ht Hnd Hfuel.
  destruct (getDescendants_walk fuel t p h Ht Hfuel) as [_ Hrun].
  assert (Hany : ∀ x, Branch.hasDescendant fuel (root_of t) x h
                      = Ok (bool_decide (x ∈ flat_map refs (kids_of t))) h).
  { intros x. unfold Branch.hasDescendant.
    by rewrite (bind_Ok _ _ _ _ _ Hrun), existsb_eqb_elem. }
  split; [apply Hany |]. rewrite Hany. f_equal.
  apply bool_decide_eq_false. destruct t as [r ks]. simpl in *.
  by apply NoDup_cons in Hnd as [Hr _].
Qed.

(** [hasDescendant(d)] on the root of a tree answers whether [d] is a
    Branch of the tree other than the root: a Branch is no descendant of
    itself. *)
Theorem hasDescendant_is_strict
        (fuel : nat) (h : heap) (p : option ref) (t : shape) (d : ref) :
  tree_at h p t →
  NoDup (refs t) →
  levels t ≤ fuel →
  Branch.hasDescendant fuel (root_of t) d h
  = Ok (bool_decide (d ∈ flat_map refs (kids_of t))) h
  ∧ Branch.hasDescendant fuel (root_of t) (root_of t) h = Ok false h.
Proof. apply hasDescendant_at. Qed.

Lemma uneven_NoDup : NoDup (refs uneven_shape).
Proof. apply (bool_decide_unpack _). vm_compute. exact I. Defined.

Lemma hasDescendant_is_strict_witness :
  Branch.hasDescendant 5 (root_of uneven_shape) 3 uneven
  = Ok (bool_decide (3 ∈ flat_map refs (kids_of uneven_shape))) uneven
  ∧ Branch.hasDescendant 5 (root_of uneven_shape) (root_of uneven_shape) uneven
    = Ok false uneven.
Proof.
  apply (hasDescendant_is_strict 5 uneven None uneven_shape 3).
  - exact uneven_tree.
  - exact uneven_NoDup.
  - simpl. lia.
Defined.

(** For a Branch [k] with a parent [r] in a tree, [getMRCA] of [k] and [k]
    itself is [r], since [k] is no descendant of itself; so the distance
    from [k] to itself is counted up to [r] and back, twice the length of
    [k]. *)
Theorem distanceTo_itself_is_twice_the_length
        (fuel : nat) (h : heap) (p : option ref) (r : ref) (ks : list shape)
        (k : shape) (b : Br.t) :
  tree_at h p (Sh r ks) →
  NoDup (refs (Sh r ks)) →
  k ∈ ks →
  levels (Sh r ks) ≤ fuel →
  h !! root_of k = Some b →
  Branch.getMRCA fuel (root_of k) (root_of k) h = Ok r h
  ∧ Branch.distanceTo fuel (root_of k) (root_of k) h
    = Ok (0 + Br.length b + (0 + Br.length b))%Q h.
Proof.
  intros Ht Hnd Hk Hfuel Hb.
  inversion Ht as [? ? ? rb Hrb Hp Hc Hks]; subst.
  rewrite Forall_forall in Hks. pose proof (Hks k Hk) as Htk.
  apply list_elem_of_lookup in Hk as [i Hi].
  assert (Hkin : k ∈ ks) by (by eapply list_elem_of_lookup_2).
  pose proof (levels_kid r ks k Hkin) as Hlk.
  pose proof (levels_pos k) as Hpos.
  assert (Hndk : NoDup (refs k)) by (by eapply NoDup_kid).
  assert (Hin : root_of k ∈ flat_map refs ks).
  { eapply refs_of_kid; [done |]. destruct k. left. }
  assert (Hne : root_of k ≠ r).
  { intros Heq. simpl in Hnd. apply NoDup_cons in Hnd as [Hr _].
    apply Hr. by rewrite <- Heq. }
  destruct (tree_at_root _ _ _ Htk) as (kb & Hkb & Hkp & _).
  assert (kb = b) by congruence. subst kb.
  destruct (hasDescendant_at fuel h (Some r) k (root_of k) Htk Hndk)
    as [_ Hself]; [lia |].
  destruct (hasDescendant_at fuel h (Br.parent rb) (Sh r ks) (root_of k) Ht Hnd
              Hfuel) as [Hup _].
  simpl in Hup. rewrite bool_decide_eq_true_2 in Hup by done.
  assert (Hmrca : Branch.getMRCA fuel (root_of k) (root_of k) h = Ok r h).
  { unfold Branch.getMRCA.
    destruct fuel as [|[|f]]; [lia | lia |].
    change (Branch.getMRCA_loop (S (S f)) (S (S f)) (root_of k) (root_of k) h)
      with (bind (Branch.hasDescendant (S (S f)) (root_of k) (root_of k))
              (fun found =>
                 if found then ret (root_of k)
                 else
                   let* b := get (root_of k) in
                   match Br.parent b with
                   | None => throw (Error
                       "Branch and cousin do not appear to share a common ancestor!")
                   | Some p => Branch.getMRCA_loop (S f) (S (S f)) p (root_of k)
                   end) h).
    rewrite (bind_Ok _ _ _ _ _ Hself), (bind_get _ _ _ _ Hb), Hkp.
    simpl. by rewrite (bind_Ok _ _ _ _ _ Hup). }
  split; [done |].
  assert (Hdepth : Branch.depthOf fuel r (root_of k) h
                   = Ok (0 + Br.length b)%Q h).
  { unfold Branch.depthOf. destruct fuel as [|[|f]]; [lia | lia |].
    rewrite depthOf_loop_step.
    destruct (Nat.eqb_spec (root_of k) r) as [? | _]; [done |].
    rewrite (bind_get _ _ _ _ Hb), Hkp, depthOf_loop_step.
    by rewrite Nat.eqb_refl. }
  unfold Branch.distanceTo.
  rewrite (bind_Ok _ _ _ _ _ Hmrca), (bind_Ok _ _ _ _ _ Hdepth).
  by rewrite (bind_Ok _ _ _ _ _ Hdepth).
Qed.

Lemma distanceTo_itself_is_twice_the_length_witness :
  Branch.getMRCA 5 (root_of (Sh 1 [])) (root_of (Sh 1 [])) uneven = Ok 0 uneven
  ∧ Branch.distanceTo 5 (root_of (Sh 1 [])) (root_of (Sh 1 [])) uneven
    = Ok (0 + 1 + (0 + 1))%Q uneven.
Proof.
  apply (distanceTo_itself_is_twice_the_length 5 uneven None 0
           [Sh 1 []; Sh 2 [Sh 3 []; Sh 4 []]] (Sh 1 [])
           (Br.Mk "A" 1 (Some 0) [] 0 0 1)).
  - exact uneven_tree.
  - exact uneven_NoDup.
  - left.
  - simpl. lia.
  - reflexivity.
Defined.

Lemma getLeaves_walk (fuel : nat) : ∀ t p h,
  tree_at h p t → levels t ≤ fuel →
  Branch.getLeaves fuel (root_of t) h = Ok (leaves t) h.
Proof.
  induction fuel as [|fuel IH]; intros [r ks] p h Ht Hfuel.
  { pose proof (levels_pos (Sh r ks)). lia. }
  inversion Ht as [? ? ? b Hb Hp Hc Hks]; subst.
  set (g := fun (child : nat) (descendants : list nat) =>
              let* ds := Branch.getLeaves fuel child in
              ret (descendants ++ ds)).
  assert (Hg : ∀ k q a h0, k ∈ ks → tree_at h0 q k →
                 g (root_of k) a h0 = foldM record_visit (leaves k) a h0).
  { intros k q a h0 Hk Htk. pose proof (levels_kid r ks k Hk) as Hlv.
    unfold g. rewrite (bind_Ok _ _ _ _ _ (IH k q h0 Htk ltac:(lia))).
    by rewrite foldM_record. }
  change (Branch.getLeaves (S fuel) (root_of (Sh r ks)) h)
    with (bind (get r) (fun b => if Branch.isLeaf b then ret [r]
                                 else Branch.eachChild r g []) h).
  rewrite (bind_get _ _ _ _ Hb). unfold Branch.isLeaf.
  rewrite Hc, length_map.
  destruct ks as [|k ks']; [done |].
  cbn [List.length Nat.eqb].
  unfold Branch.eachChild. rewrite (bind_get _ _ _ _ Hb), Hc, length_map.
  rewrite (forEach_live_static record_visit record_visit_links g leaves r
             (k :: ks') (Br.parent b) Hg _ 0 [] h Ht) by lia.
  by rewrite foldM_record.
Qed.

(** [getLeaves()] on the root of a tree lists the Branches without children,
    from left to right; a Branch without children is its own only leaf. *)
Theorem getLeaves_lists_the_leaves
        (fuel : nat) (h : heap) (p : option ref) (t : shape) :
  tree_at h p t →
  levels t ≤ fuel →
  Branch.getLeaves fuel (root_of t) h = Ok (leaves t) h
  ∧ (kids_of t = [] → leaves t = [root_of t]).
Proof.
  intros Ht Hfuel. split; [by eapply getLeaves_walk |].
  destruct t as [r ks]. simpl. by intros ->.
Qed.

Lemma getLeaves_lists_the_leaves_witness :
  Branch.getLeaves 5 (root_of uneven_shape) uneven
  = Ok (leaves uneven_shape) uneven
  ∧ (kids_of uneven_shape = [] → leaves uneven_shape = [root_of uneven_shape]).
Proof.
  apply (getLeaves_lists_the_leaves 5 uneven None uneven_shape).
  - exact uneven_tree.
  - simpl. lia.
Defined.

(** ** Links that agree *)

Lemma isConsistent_unfold fuel this :
  Branch.isConsistent (S fuel) this
  = (let* b := get this in
     let* up := match Br.parent b with
                | None => ret true
                | Some p =>
                    let* pb := get p in
                    ret (existsb (Nat.eqb this) (Br.children pb))
                end in
     if negb up then ret false
     else if Branch.isLeaf b then ret true
     else
       let* wrong := some_wrong this (Br.children b) in
       if wrong then ret false
       else every (Branch.isConsistent fuel) (Br.children b)).
Proof. reflexivity. Qed.

Lemma some_wrong_none h this l :
  Forall (fun c => ∃ cb, h !! c = Some cb ∧ Br.parent cb = Some this) l →
  some_wrong this l h = Ok false h.
Proof.
  induction 1 as [|c l (cb & Hcb & Hp) _ IH]; [done |].
  change (some_wrong this (c :: l) h)
    with (bind (get c) (fun cb =>
            match Br.parent cb with
            | Some p => if Nat.eqb p this then some_wrong this l else ret true
            | None => ret true
            end) h).
  by rewrite (bind_get _ _ _ _ Hcb), Hp, Nat.eqb_refl.
Qed.

Lemma every_all h f l :
  Forall (fun c => f c h = Ok true h) l → every f l h = Ok true h.
Proof.
  induction 1 as [|c l Hc _ IH]; [done |].
  change (every f (c :: l) h)
    with (bind (f c) (fun ok => if ok then every f l else ret false) h).
  by rewrite (bind_Ok _ _ _ _ _ Hc).
Qed.

Lemma isConsistent_tree (fuel : nat) : ∀ t p h,
  tree_at h p t →
  match p with
  | None => True
  | Some q => ∃ qb, h !! q = Some qb ∧ root_of t ∈ Br.children qb
  end →
  levels t ≤ fuel →
  Branch.isConsistent fuel (root_of t) h = Ok true h.
Proof.
  induction fuel as [|fuel IH]; intros [r ks] p h Ht Hup Hfuel.
  { pose proof (levels_pos (Sh r ks)). lia. }
  inversion Ht as [? ? ? b Hb Hp Hc Hks]; subst.
  simpl root_of in *. rewrite isConsistent_unfold, (bind_get _ _ _ _ Hb).
  assert (Hupv : (match Br.parent b with
                  | None => ret true
                  | Some p =>
                      let* pb := get p in
                      ret (existsb (Nat.eqb r) (Br.children pb))
                  end) h = Ok true h).
  { destruct (Br.parent b) as [q|]; [| done].
    destruct Hup as (qb & Hqb & Hin). rewrite (bind_get _ _ _ _ Hqb).
    by rewrite existsb_eqb_elem, bool_decide_eq_true_2. }
  rewrite (bind_Ok _ _ _ _ _ Hupv). cbn [negb].
  unfold Branch.isLeaf. rewrite Hc, length_map.
  destruct ks as [|k ks']; [done |]. cbn [List.length Nat.eqb].
  rewrite Forall_forall in Hks.
  rewrite (bind_Ok _ _ _ false h).
  - apply every_all, Forall_forall. intros c Hc'.
    change (map root_of (k :: ks')) with (root_of <$> (k :: ks')) in Hc'.
    apply list_elem_of_fmap in Hc' as (s & -> & Hs).
    pose proof (levels_kid r (k :: ks') s Hs).
    apply (IH s (Some r) h (Hks s Hs)); [| lia].
    exists b. split; [done |]. rewrite Hc.
    change (map root_of (k :: ks')) with (root_of <$> (k :: ks')).
    apply list_elem_of_fmap. by exists s.
  - apply some_wrong_none, Forall_forall. intros c Hc'.
    change (map root_of (k :: ks')) with (root_of <$> (k :: ks')) in Hc'.
    apply list_elem_of_fmap in Hc' as (s & -> & Hs).
    destruct (tree_at_root _ _ _ (Hks s Hs)) as (sb & Hsb & Hsp & _).
    by exists sb.
Qed.

(** [isConsistent()] on the root of a tree whose Branches list exactly their
    children, each child pointing back, answers true and writes nothing. *)
Theorem isConsistent_on_a_tree (fuel : nat) (h : heap) (t : shape) :
  tree_at h None t →
  levels t ≤ fuel →
  Branch.isConsistent fuel (root_of t) h = Ok true h.
Proof. intros Ht Hfuel. by apply (isConsistent_tree fuel t None h). Qed.

Lemma isConsistent_on_a_tree_witness :
  Branch.isConsistent 5 (root_of uneven_shape) uneven = Ok true uneven.
Proof.
  apply (isConsistent_on_a_tree 5 uneven uneven_shape).
  - exact uneven_tree.
  - simpl. lia.
Defined.

(** ** Repairing the parents *)

Lemma fixParenthood_unfold fuel this nonrecursive :
  Branch.fixParenthood (S fuel) this nonrecursive
  = (do Branch.eachChild this (fixParenthood_callback fuel this nonrecursive) tt in
     ret this).
Proof. reflexivity. Qed.

Lemma set_parent_same (b : Br.t) p : Br.parent b = p → Br.set_parent p b = b.
Proof. intros <-. by destruct b. Qed.

Lemma fixParenthood_callback_sets h fuel this nonrecursive c cb :
  h !! c = Some cb →
  fixParenthood_callback fuel this nonrecursive c tt h
  = (if negb nonrecursive && Nat.ltb 0 (List.length (Br.children cb))
     then do Branch.fixParenthood fuel c false in ret tt
     else ret tt) (<[c := Br.set_parent (Some this) cb]> h).
Proof.
  intros Hcb. unfold fixParenthood_callback. rewrite (bind_get _ _ _ _ Hcb).
  set (cb' := Br.set_parent (Some this) cb).
  assert (Hcb' : <[c := cb']> h !! c = Some cb')
    by (by eapply lookup_insert_same).
  destruct (Br.parent cb) as [q|] eqn:Hq.
  - rewrite bind_ret, (bind_get _ _ _ _ Hcb).
    case_bool_decide as Hdec.
    + rewrite bind_ret, (bind_get _ _ _ _ Hcb).
      assert (Hsame : cb' = cb) by (by apply set_parent_same).
      by rewrite Hsame, list_insert_id.
    + rewrite (bind_modify _ _ _ _ _ Hcb). fold cb'.
      by rewrite (bind_get _ _ _ _ Hcb').
  - rewrite (bind_modify _ _ _ _ _ Hcb). fold cb'.
    rewrite (bind_get _ _ _ _ Hcb').
    rewrite bool_decide_eq_true_2 by done.
    by rewrite bind_ret, (bind_get _ _ _ _ Hcb').
Qed.

Lemma same_but_parents_refl h : same_but_parents h h.
Proof. by intros n. Qed.

Lemma same_but_parents_trans h1 h2 h3 :
  same_but_parents h1 h2 → same_but_parents h2 h3 → same_but_parents h1 h3.
Proof. intros H12 H23 n. by rewrite H23, H12. Qed.

Lemma same_but_parents_insert h c cb p :
  h !! c = Some cb → same_but_parents h (<[c := Br.set_parent p cb]> h).
Proof.
  intros Hcb n. destruct (decide (n = c)) as [-> | Hne].
  - by rewrite (lookup_insert_same _ _ _ _ Hcb), Hcb.
  - by rewrite list_lookup_insert_ne.
Qed.

Lemma same_but_parents_lookup h h' n b :
  same_but_parents h h' → h !! n = Some b →
  ∃ b', h' !! n = Some b' ∧ Br.children b' = Br.children b.
Proof.
  intros Hs Hb. specialize (Hs n). rewrite Hb in Hs.
  destruct (h' !! n) as [b'|]; [| done].
  exists b'. split; [done |]. simpl in Hs.
  injection Hs as _ _ Hc _ _ _. exact Hc.
Qed.

Lemma lists_tree_same_but_parents h h' t :
  same_but_parents h h' → lists_tree h t → lists_tree h' t.
Proof.
  intros Hs. induction t as [r ks IH] using shape_ind'. intros Ht.
  inversion Ht as [? ? b Hb Hc Hks]; subst.
  destruct (same_but_parents_lookup _ _ _ _ Hs Hb) as (b' & Hb' & Hc').
  apply lists_tree_node with b'; [done | congruence |].
  rewrite Forall_forall in IH, Hks. apply Forall_forall. intros k Hk.
  by apply IH, Hks.
Qed.


Lemma fixParenthood_loop fuel h r ks b :
  fixParenthood_repairs fuel →
  h !! r = Some b → Br.children b = map root_of ks →
  Forall (lists_tree h) ks → NoDup (refs (Sh r ks)) →
  Forall (fun k => levels k ≤ fuel) ks →
  ∀ n i hi,
    n + i = List.length ks →
    same_but_parents h hi →
    (∀ m, m ∉ flat_map refs (take i ks) → hi !! m = h !! m) →
    Forall (tree_at hi (Some r)) (take i ks) →
    ∃ h', Branch.forEach_live r (fixParenthood_callback fuel r false) n i tt hi
          = Ok tt h'
          ∧ same_but_parents h h'
          ∧ (∀ m, m ∉ flat_map refs ks → h' !! m = h !! m)
          ∧ Forall (tree_at h' (Some r)) ks.
Proof.
  intros IH Hb Hc Hks Hnd Hlv.
  pose proof Hnd as Hnd'. simpl in Hnd'.
  apply NoDup_cons in Hnd' as [Hr Hndk].
  induction n as [|n IHn]; intros i hi Hlen Hsame Hout Hdone.
  - assert (i = List.length ks) as -> by lia. rewrite firstn_all in Hout, Hdone.
    exists hi. by simpl.
  - assert (Hi : i < List.length ks) by lia.
    destruct (lookup_lt_is_Some_2 ks i Hi) as [k Hk].
    assert (Hkin : k ∈ ks) by (by eapply list_elem_of_lookup_2).
    assert (Hrt : hi !! r = Some b).
    { rewrite Hout; [done |]. intros Hin. apply Hr.
      apply elem_of_flat_map in Hin as (s & Hs & Hin).
      apply elem_of_flat_map. exists s. split; [| done].
      apply elem_of_take in Hs as (j & Hj & _).
      by eapply list_elem_of_lookup_2. }
    assert (Hbefore : ∀ m, m ∈ refs k → m ∉ flat_map refs (take i ks)).
    { intros m Hm Hin. apply elem_of_flat_map in Hin as (s & Hs & Hin).
      apply elem_of_take in Hs as (j & Hj & Hjlt).
      eapply (refs_disjoint ks j i); eauto. lia. }
    destruct k as [c cks]. rewrite Forall_forall in Hks.
    pose proof (Hks _ Hkin) as Htk.
    inversion Htk as [? ? cb Hcb Hcc Hcks]; subst.
    assert (Hci : hi !! c = Some cb).
    { rewrite Hout; [done |]. apply Hbefore. left. }
    assert (Hndc : NoDup (refs (Sh c cks))) by (by eapply NoDup_kid).
    pose proof Hndc as Hndc'. simpl in Hndc'.
    apply NoDup_cons in Hndc' as [Hcout _].
    set (cb' := Br.set_parent (Some r) cb).
    set (hi1 := <[c := cb']> hi).
    assert (Hs1 : same_but_parents h hi1).
    { eapply same_but_parents_trans; [exact Hsame |].
      by apply same_but_parents_insert. }
    assert (Hc1 : hi1 !! c = Some cb') by (by eapply lookup_insert_same).
    assert (Hstep : ∃ hi2,
      fixParenthood_callback fuel r false c tt hi = Ok tt hi2
      ∧ same_but_parents h hi2
      ∧ (∀ m, m ∉ refs (Sh c cks) → hi2 !! m = hi !! m)
      ∧ tree_at hi2 (Some r) (Sh c cks)).
    { rewrite (fixParenthood_callback_sets _ _ _ _ _ _ Hci). fold cb' hi1.
      rewrite Hcc, length_map. cbn [negb andb].
      destruct cks as [|g gs].
      - exists hi1. split; [done |]. split; [done |]. split.
        + intros m Hm. simpl in Hm. apply not_elem_of_cons in Hm as [Hm _].
          unfold hi1. by rewrite list_lookup_insert_ne.
        + apply tree_at_node with cb'; [done | done | done | constructor].
      - cbn [List.length Nat.ltb Nat.leb].
        rewrite Forall_forall in Hlv.
        destruct (IH (Sh c (g :: gs)) hi1) as (hi2 & Hrun & Hs2 & Hout2 & Hts);
          [by eapply lists_tree_same_but_parents | done | by apply Hlv |].
        simpl in Hrun, Hout2, Hts.
        exists hi2. rewrite (bind_Ok _ _ _ _ _ Hrun).
        split; [done |]. split; [by eapply same_but_parents_trans |]. split.
        + intros m Hm. simpl in Hm. apply not_elem_of_cons in Hm as [Hmc Hm].
          rewrite Hout2 by done. unfold hi1. by rewrite list_lookup_insert_ne.
        + apply tree_at_node with cb'; [| done | done | done].
          by rewrite Hout2. }
    destruct Hstep as (hi2 & Hrun & Hs2 & Hout2 & Ht2).
    destruct (IHn (S i) hi2) as (h' & Hrest & Hs' & Hout' & Hts'); [lia | done | |
      | ].
    + intros m Hm. rewrite (take_S_r _ _ _ Hk), flat_map_app in Hm.
      apply not_elem_of_app in Hm as [Hm1 Hm2]. simpl in Hm2.
      rewrite app_nil_r in Hm2. rewrite Hout2 by done. by apply Hout.
    + rewrite (take_S_r _ _ _ Hk). apply Forall_app. split.
      * apply Forall_forall. intros s Hs.
        rewrite Forall_forall in Hdone.
        eapply tree_at_frame; [| by apply Hdone].
        intros m Hm. apply Hout2. intros Hmk.
        apply (Hbefore m Hmk). apply elem_of_flat_map. by exists s.
      * by constructor.
    + exists h'. split; [| done].
      simpl. rewrite (bind_get _ _ _ _ Hrt), Hc.
      change (map root_of ks) with (root_of <$> ks).
      rewrite list_lookup_fmap, Hk. simpl.
      by rewrite (bind_Ok _ _ _ _ _ Hrun).
Qed.

Lemma fixParenthood_walk fuel : fixParenthood_repairs fuel.
Proof.
  induction fuel as [|fuel IH]; intros [r ks] h Ht Hnd Hfuel.
  { pose proof (levels_pos (Sh r ks)). lia. }
  inversion Ht as [? ? b Hb Hc Hks]; subst.
  destruct (fixParenthood_loop fuel h r ks b IH Hb Hc Hks Hnd)
    with (n := List.length ks) (i := 0) (hi := h)
    as (h' & Hrun & Hs & Hout & Hts).
  - by apply (levels_le r).
  - lia.
  - apply same_but_parents_refl.
  - done.
  - constructor.
  - exists h'. split; [| done].
    rewrite fixParenthood_unfold. unfold Branch.eachChild.
    rewrite bind_assoc, (bind_get _ _ _ _ Hb), Hc, length_map.
    by rewrite (bind_Ok _ _ _ _ _ Hrun).
Qed.

(** [fixParenthood()] on the root of a shape that the [children] arrays
    spell out, each Branch in one place: whatever the [parent] fields were,
    every Branch below the root ends up pointing to the Branch that lists
    it.  Only [parent] fields are written, and that of the root is not. *)
Theorem fixParenthood_repairs_the_parents
        (fuel : nat) (h : heap) (t : shape) (b : Br.t) :
  lists_tree h t →
  NoDup (refs t) →
  levels t ≤ fuel →
  h !! root_of t = Some b →
  ∃ h', Branch.fixParenthood fuel (root_of t) false h = Ok (root_of t) h'
        ∧ same_but_parents h h'
        ∧ h' !! root_of t = Some b
        ∧ tree_at h' (Br.parent b) t.
Proof.
  intros Ht Hnd Hfuel Hb.
  destruct (fixParenthood_walk fuel t h Ht Hnd Hfuel)
    as (h' & Hrun & Hs & Hout & Hts).
  destruct t as [r ks]. simpl in *.
  apply NoDup_cons in Hnd as [Hr _].
  assert (Hb' : h' !! r = Some b) by (by rewrite Hout).
  exists h'. repeat (split; [done |]).
  inversion Ht as [? ? b0 Hb0 Hc _]; subst.
  assert (b0 = b) by congruence. subst b0.
  by apply tree_at_node with b.
Qed.

Lemma fixParenthood_repairs_the_parents_witness :
  ∃ h', Branch.fixParenthood 5 (root_of uneven_shape) false uneven_unlinked
        = Ok (root_of uneven_shape) h'
        ∧ same_but_parents uneven_unlinked h'
        ∧ h' !! root_of uneven_shape = Some (Br.Mk "" 0 None [1; 2] 0 0 1)
        ∧ tree_at h' (Br.parent (Br.Mk "" 0 None [1; 2] 0 0 1)) uneven_shape.
Proof.
  apply (fixParenthood_repairs_the_parents 5 uneven_unlinked uneven_shape
           (Br.Mk "" 0 None [1; 2] 0 0 1)).
  - repeat (econstructor; try reflexivity).
  - exact uneven_NoDup.
  - simpl. lia.
  - reflexivity.
Defined.

(** * Neighbor joining *)

(** ** sortWithIndices *)

Lemma insert_sorted_perm key x l : insert_sorted key x l ≡ₚ x :: l.
Proof.
  induction l as [|y l IH]; [done |]. simpl.
  destruct (Qle_bool (key x) (key y)); [done |].
  rewrite IH. apply Permutation_swap.
Qed.

Lemma sort_by_perm key l : sort_by key l ≡ₚ l.
Proof.
  induction l as [|x l IH]; [done |].
  unfold sort_by in *. simpl. by rewrite insert_sorted_perm, IH.
Qed.

Lemma insert_sorted_HdRel key a x l :
  HdRel (by_key key) a l → by_key key a x →
  HdRel (by_key key) a (insert_sorted key x l).
Proof.
  intros Hl Hx. destruct l as [|y l]; simpl; [by constructor |].
  destruct (Qle_bool (key x) (key y)); constructor; [done |].
  by inversion Hl.
Qed.

Lemma insert_sorted_sorted key x l :
  Sorted (by_key key) l → Sorted (by_key key) (insert_sorted key x l).
Proof.
  induction 1 as [|y l Hs IH Hhd]; simpl.
  - by repeat constructor.
  - destruct (Qle_bool (key x) (key y)) eqn:Hle.
    + constructor; [by constructor |]. constructor.
      by apply Qle_bool_iff.
    + constructor; [done |]. apply insert_sorted_HdRel; [done |].
      unfold by_key. apply Qlt_le_weak, Qnot_le_lt. intros Hxy.
      apply Qle_bool_iff in Hxy. congruence.
Qed.

Lemma sort_by_sorted key l : Sorted (by_key key) (sort_by key l).
Proof.
  induction l as [|x l IH]; [constructor |].
  unfold sort_by in *. simpl. by apply insert_sorted_sorted.
Qed.

Lemma Sorted_by_key_map key l :
  Sorted (by_key key) l → Sorted Qle (map key l).
Proof.
  induction 1 as [|x l Hs IH Hhd]; simpl; [constructor |].
  constructor; [done |]. destruct Hhd; simpl; by constructor.
Qed.

(** [sortWithIndices(toSort, skip)]: [sortIndices] holds, once each, the
    indices of [toSort] other than [skip] whose entry is not -1; the values
    returned are the entries at these indices, in ascending order. *)
Theorem sortWithIndices_sorts_the_live_entries (toSort : list Q) (skip : nat) :
  Sorted Qle (fst (sortWithIndices toSort skip))
  ∧ fst (sortWithIndices toSort skip)
    = map (at1 toSort) (snd (sortWithIndices toSort skip))
  ∧ NoDup (snd (sortWithIndices toSort skip))
  ∧ ∀ i, i ∈ snd (sortWithIndices toSort skip)
         ↔ i < List.length toSort ∧ i ≠ skip ∧ ¬ (at1 toSort i == -1)%Q.
Proof.
  unfold sortWithIndices. cbn [fst snd].
  split; [apply Sorted_by_key_map, sort_by_sorted |].
  split; [done |]. split.
  - rewrite sort_by_perm. apply NoDup_filter, NoDup_seq.
  - intros i. rewrite sort_by_perm, list_elem_of_filter, elem_of_seq.
    rewrite andb_True, !negb_True, Is_true_true, Qeq_bool_iff.
    destruct (Nat.eqb_spec i skip) as [-> | Hne]; simpl.
    + split; [by intros [[_ []] _] | by intros (_ & ? & _)].
    + split; [intros [[? _] ?] | intros (? & _ & ?)]; repeat split;
        (lia || done).
Qed.

(** ** search *)

Lemma fold_left_invariant {A B} (P : A → Prop) (f : A → B → A) (l : list B) :
  ∀ a, (∀ a x, x ∈ l → P a → P (f a x)) → P a → P (fold_left f l a).
Proof.
  induction l as [|x l IH]; intros a Hstep Ha; [done |]. simpl.
  apply IH.
  - intros a' y Hy. apply Hstep. by right.
  - apply Hstep; [left | done].
Qed.

Lemma consider_live that r c b :
  r < That.N that → c ∈ nth r (That.I that) [] →
  has (That.removedIndices that) r = false →
  has (That.removedIndices that) c = false →
  live_pair that b → live_pair that (consider that r c b).
Proof.
  intros Hr Hc Hnr Hnc Hb. unfold consider.
  destruct (below _ _); [| done]. right. by exists r, c.
Qed.

Lemma guess_row_live that b r :
  r < That.N that → live_pair that b → live_pair that (guess_row that b r).
Proof.
  intros Hr Hb. unfold guess_row.
  destruct (has (That.removedIndices that) r) eqn:Hnr; [done |].
  destruct (nth r (That.I that) [] !! 0) as [c|] eqn:Hc; [| done].
  destruct (has (That.removedIndices that) c) eqn:Hnc; [done |].
  apply consider_live; try done. by eapply list_elem_of_lookup_2.
Qed.

Lemma scan_row_live that r : ∀ cols vals b,
  r < That.N that → has (That.removedIndices that) r = false →
  (∀ c, c ∈ cols → c ∈ nth r (That.I that) []) →
  live_pair that b → live_pair that (scan_row that r cols vals b).
Proof.
  induction cols as [|c cols IH]; intros vals b Hr Hnr Hsub Hb; [done |].
  destruct vals as [|v vals]; [done |]. simpl.
  assert (Hsub' : ∀ c', c' ∈ cols → c' ∈ nth r (That.I that) []).
  { intros c' Hc'. apply Hsub. by right. }
  destruct (has (That.removedIndices that) c) eqn:Hnc; [by apply IH |].
  destruct (above _ _); [done |].
  apply IH; try done. apply consider_live; try done. apply Hsub. left.
Qed.

Lemma scan_live that b r :
  r < That.N that → live_pair that b → live_pair that (scan that b r).
Proof.
  intros Hr Hb. unfold scan.
  destruct (has (That.removedIndices that) r) eqn:Hnr; [done |].
  by apply scan_row_live.
Qed.

Lemma search_picks (that : That.t) :
  (∀ r, r ∉ nth r (That.I that) []) →
  search that = ((-1)%Z, (-1)%Z)
  ∨ ∃ r c, search that = (Z.of_nat r, Z.of_nat c)
           ∧ r < That.N that ∧ r ≠ c
           ∧ c ∈ nth r (That.I that) []
           ∧ has (That.removedIndices that) r = false
           ∧ has (That.removedIndices that) c = false.
Proof.
  intros Hself. unfold search.
  set (rows := seq 0 (That.N that)).
  assert (Hrows : ∀ x, x ∈ rows → x < That.N that).
  { intros x Hx. apply elem_of_seq in Hx. lia. }
  assert (Hlive : live_pair that
            (fold_left (scan that) rows
               (fold_left (guess_row that) rows (Best None (-1) (-1))))).
  { apply fold_left_invariant.
    - intros b x Hx. by apply scan_live, Hrows.
    - apply fold_left_invariant.
      + intros b x Hx. by apply guess_row_live, Hrows.
      + by left. }
  destruct Hlive as [[-> ->] | (r & c & -> & -> & Hr & Hc & Hnr & Hnc)].
  - by left.
  - right. exists r, c. repeat (split; [done |]). split; [| done].
    intros ->. by apply (Hself c).
Qed.

(** [search(t)] answers with [-1, -1] or with a row [r] below [N] and a
    column [c] taken from the [sortIndices] of that row, neither of them a
    removed index; when no row lists itself in its [sortIndices], as
    [sortWithIndices(D[i], i)] sees to, [r] and [c] differ. *)
Theorem search_returns_a_live_pair (that : That.t) :
  (∀ r, r ∉ nth r (That.I that) []) →
  search that = ((-1)%Z, (-1)%Z)
  ∨ ∃ r c, search that = (Z.of_nat r, Z.of_nat c)
           ∧ r < That.N that ∧ r ≠ c
           ∧ c ∈ nth r (That.I that) []
           ∧ has (That.removedIndices that) r = false
           ∧ has (That.removedIndices that) c = false.
Proof. apply search_picks. Qed.

Lemma search_returns_a_live_pair_witness :
  search (parseMatrix_init four_taxa four_labels) = ((-1)%Z, (-1)%Z)
  ∨ ∃ r c, search (parseMatrix_init four_taxa four_labels)
           = (Z.of_nat r, Z.of_nat c)
           ∧ r < That.N (parseMatrix_init four_taxa four_labels) ∧ r ≠ c
           ∧ c ∈ nth r (That.I (parseMatrix_init four_taxa four_labels)) []
           ∧ has (That.removedIndices (parseMatrix_init four_taxa four_labels)) r
             = false
           ∧ has (That.removedIndices (parseMatrix_init four_taxa four_labels)) c
             = false.
Proof.
  apply (search_returns_a_live_pair (parseMatrix_init four_taxa four_labels)).
  intros [|[|[|[|r]]]];
    try (apply (bool_decide_unpack _); vm_compute; exact I).
  replace (nth (S (S (S (S r))))
             (That.I (parseMatrix_init four_taxa four_labels)) [])
    with (@nil nat); [apply not_elem_of_nil |].
  vm_compute. by destruct r.
Defined.

(** ** recalculateDistanceMatrix *)

Lemma at1_insert (l : list Q) i j x :
  i < List.length l →
  at1 (<[i := x]> l) j = if Nat.eqb i j then x else at1 l j.
Proof.
  intros Hi. unfold at1. rewrite !nth_lookup.
  destruct (Nat.eqb_spec i j) as [<- | Hne].
  - by rewrite list_lookup_insert_eq.
  - by rewrite list_lookup_insert_ne.
Qed.

Lemma square_row n D i : square n D → i < n → List.length (nth i D []) = n.
Proof.
  intros [Hlen Hrows] Hi. rewrite nth_lookup.
  destruct (D !! i) as [row|] eqn:Hrow.
  - by eapply (proj1 (Forall_lookup _ _) Hrows).
  - apply lookup_ge_None in Hrow. lia.
Qed.

Lemma at2_set2 n D i j v a b :
  square n D → i < n → j < n →
  at2 (set2 D i j v) a b = if Nat.eqb i a && Nat.eqb j b then v else at2 D a b.
Proof.
  intros Hsq Hi Hj. pose proof (square_row n D i Hsq Hi) as Hrow.
  destruct Hsq as [Hlen _]. unfold at2, set2. rewrite (nth_lookup _ a).
  destruct (Nat.eqb_spec i a) as [<- | Hne]; simpl.
  - rewrite list_lookup_insert_eq by lia. simpl.
    by rewrite at1_insert by lia.
  - by rewrite list_lookup_insert_ne, <- nth_lookup.
Qed.

Lemma square_set2 n D i j v : square n D → i < n → square n (set2 D i j v).
Proof.
  intros Hsq Hi. pose proof (square_row n D i Hsq Hi) as Hrow.
  destruct Hsq as [Hlen Hrows]. unfold set2. split.
  - by rewrite length_insert.
  - apply Forall_insert; [done |]. by rewrite length_insert.
Qed.

Lemma has_removed1_self t j1 : has (removed1 t j1) j1 = true.
Proof.
  unfold has, removed1. rewrite existsb_app. simpl.
  by rewrite Nat.eqb_refl, orb_true_r.
Qed.

(** The first loop: the new row holds the joined distance at every index
    that is not removed. *)
Lemma recalc_first_row t j1 j2 n (k : nat) :
  k ≤ n → List.length (That.newRow t) = n →
  ∃ nr rc s,
    fold_left (recalc_first t j1 j2) (seq 0 k)
              (That.newRow t, That.rowChange t, 0%Q) = (nr, rc, s)
    ∧ List.length nr = n
    ∧ ∀ i, i < k → has (removed1 t j1) i = false →
           at1 nr i = joined_distance t j1 j2 i.
Proof.
  intros Hk Hlen. induction k as [|k IH].
  - exists (That.newRow t), (That.rowChange t), 0%Q.
    split; [done |]. split; [done |]. intros i Hi. lia.
  - destruct IH as (nr & rc & s & Hrun & Hnr & Hrow); [lia |].
    rewrite seq_S, fold_left_app, Hrun. simpl.
    destruct (has (removed1 t j1) k) eqn:Hrem.
    + exists nr, rc, s. split; [done |]. split; [done |].
      intros i Hi Hni. apply Hrow; [| done].
      destruct (decide (i = k)) as [-> | ?]; [congruence | lia].
    + eexists _, _, _. split; [reflexivity |].
      split; [by rewrite length_insert |].
      intros i Hi Hni. rewrite at1_insert by lia.
      destruct (Nat.eqb_spec k i) as [<- | Hne].
      * unfold joined_distance. f_equal.
      * apply Hrow; [lia | done].
Qed.


(** The second loop, up to the index [k]. *)
Lemma recalc_second_cells t j1 j2 n nr rc (k : nat) :
  square n (That.D t) → j1 < n → j2 < n → j1 ≠ j2 → k ≤ n →
  (∀ i, i < n → has (removed1 t j1) i = false →
        at1 nr i = joined_distance t j1 j2 i) →
  ∃ D rs nm,
    fold_left (recalc_second t j1 j2 nr rc) (seq 0 k)
              (That.D t, That.rowSums t, 0%Q) = (D, rs, nm)
    ∧ square n D
    ∧ ∀ a b, a < n → b < n → at2 D a b = joined_cell t j1 j2 k a b.
Proof.
  intros Hsq Hj1 Hj2 Hne Hk Hnr. induction k as [|k IH].
  - exists (That.D t), (That.rowSums t), 0%Q.
    split; [done |]. split; [done |]. intros a b _ _.
    unfold joined_cell. by rewrite !andb_false_r.
  - destruct IH as (D & rs & nm & Hrun & HsqD & Hcells); [lia |].
    rewrite seq_S, fold_left_app, Hrun. simpl.
    assert (Hs1 : square n (set2 D j1 k (-1))) by (by apply square_set2).
    assert (Hs2 : square n (set2 (set2 D j1 k (-1)) k j1 (-1)))
      by (apply square_set2; [done | lia]).
    pose proof (has_removed1_self t j1) as Hself.
    destruct (has (removed1 t j1) k) eqn:Hrem.
    + eexists _, _, _. split; [reflexivity |]. split; [done |].
      intros a b Ha Hb.
      rewrite (at2_set2 n), (at2_set2 n) by (done || lia).
      rewrite Hcells by done. unfold joined_cell.
      split_cases; pin_index; rewrite ?Hself, ?Hrem; simpl; split_cases;
        done || lia || congruence.
    + assert (Hs3 : square n (set2 (set2 (set2 D j1 k (-1)) k j1 (-1)) j2 k
                                   (at1 nr k))) by (by apply square_set2).
      eexists _, _, _. split; [reflexivity |].
      split; [apply square_set2; [done | lia] |].
      intros a b Ha Hb.
      rewrite (at2_set2 n), (at2_set2 n), (at2_set2 n), (at2_set2 n)
        by (done || lia).
      rewrite Hcells by done. rewrite (Hnr k) by (lia || done).
      unfold joined_cell.
      split_cases; pin_index; rewrite ?Hself, ?Hrem; simpl; split_cases;
        done || lia || congruence.
Qed.

(** [recalculateDistanceMatrix(t, i, j)] on a square matrix, for two
    different indices: row and column [i] are struck out with -1; row and
    column [j] take, at every index that is not removed, half of
    [D[i][k] + D[j][k] - D[i][j]] as read from the matrix of before; the
    entries off these rows and columns stay; [i] joins the removed indices
    and [cN] is not touched. *)
Theorem recalculate_joins_two_rows (t : That.t) (j1 j2 n : nat) :
  square n (That.D t) →
  List.length (That.newRow t) = n →
  j1 < n → j2 < n → j1 ≠ j2 →
  (∀ i, i < n →
        at2 (That.D (recalculateDistanceMatrix t j1 j2)) j1 i = (-1)%Q
        ∧ at2 (That.D (recalculateDistanceMatrix t j1 j2)) i j1 = (-1)%Q)
  ∧ (∀ i, i < n → has (That.removedIndices t ++ [j1]) i = false →
          at2 (That.D (recalculateDistanceMatrix t j1 j2)) j2 i
          = joined_distance t j1 j2 i
          ∧ at2 (That.D (recalculateDistanceMatrix t j1 j2)) i j2
            = joined_distance t j1 j2 i)
  ∧ (∀ a b, a < n → b < n → a ≠ j1 → b ≠ j1 → a ≠ j2 → b ≠ j2 →
            at2 (That.D (recalculateDistanceMatrix t j1 j2)) a b
            = at2 (That.D t) a b)
  ∧ That.removedIndices (recalculateDistanceMatrix t j1 j2)
    = That.removedIndices t ++ [j1]
  ∧ That.cN (recalculateDistanceMatrix t j1 j2) = That.cN t.
Proof.
  intros Hsq Hlen Hj1 Hj2 Hne.
  assert (HlenD : List.length (That.D t) = n) by (by destruct Hsq).
  destruct (recalc_first_row t j1 j2 n n) as (nr & rc & s & Hrun1 & _ & Hnr);
    [lia | done |].
  destruct (recalc_second_cells t j1 j2 n nr rc n)
    as (D & rs & nm & Hrun2 & _ & Hcells); try done.
  pose proof (has_removed1_self t j1) as Hself.
  unfold recalculateDistanceMatrix. rewrite HlenD, Hrun1, Hrun2. cbn [That.D
    That.removedIndices That.cN].
  split; [| split; [| split; [| done]]].
  - intros i Hi. rewrite !Hcells by done. unfold joined_cell.
    split; split_cases; done || lia.
  - intros i Hi Hrem. fold (removed1 t j1) in Hrem.
    rewrite !Hcells by done. unfold joined_cell.
    assert (i ≠ j1) by (intros ->; congruence).
    split; split_cases; try lia; try congruence;
      rewrite ?Hrem; simpl; split_cases; done || lia || congruence.
  - intros a b Ha Hb Ha1 Hb1 Ha2 Hb2. rewrite Hcells by done.
    unfold joined_cell. split_cases; done || lia.
Qed.

Lemma recalculate_joins_two_rows_witness :
  (∀ i, i < 4 →
        at2 (That.D (recalculateDistanceMatrix
                       (parseMatrix_init four_taxa four_labels) 0 1)) 0 i
        = (-1)%Q
        ∧ at2 (That.D (recalculateDistanceMatrix
                         (parseMatrix_init four_taxa four_labels) 0 1)) i 0
          = (-1)%Q)
  ∧ (∀ i, i < 4 →
          has (That.removedIndices (parseMatrix_init four_taxa four_labels)
                 ++ [0]) i = false →
          at2 (That.D (recalculateDistanceMatrix
                         (parseMatrix_init four_taxa four_labels) 0 1)) 1 i
          = joined_distance (parseMatrix_init four_taxa four_labels) 0 1 i
          ∧ at2 (That.D (recalculateDistanceMatrix
                           (parseMatrix_init four_taxa four_labels) 0 1)) i 1
            = joined_distance (parseMatrix_init four_taxa four_labels) 0 1 i)
  ∧ (∀ a b, a < 4 → b < 4 → a ≠ 0 → b ≠ 0 → a ≠ 1 → b ≠ 1 →
            at2 (That.D (recalculateDistanceMatrix
                           (parseMatrix_init four_taxa four_labels) 0 1)) a b
            = at2 (That.D (parseMatrix_init four_taxa four_labels)) a b)
  ∧ That.removedIndices (recalculateDistanceMatrix
                           (parseMatrix_init four_taxa four_labels) 0 1)
    = That.removedIndices (parseMatrix_init four_taxa four_labels) ++ [0]
  ∧ That.cN (recalculateDistanceMatrix
               (parseMatrix_init four_taxa four_labels) 0 1)
    = That.cN (parseMatrix_init four_taxa four_labels).
Proof.
  apply (recalculate_joins_two_rows (parseMatrix_init four_taxa four_labels)
           0 1 4).
  - split; [reflexivity |]. repeat constructor.
  - reflexivity.
  - lia.
  - lia.
  - lia.
Defined.

(** ** parseMatrix on the smallest matrices *)

(** [parseMatrix] needs two taxa: on an empty matrix it throws a TypeError
    at once, and on a matrix of one row it throws one after it has made the
    node of the only taxon. *)
Theorem parseMatrix_needs_two_taxa
        (fuel : nat) (x : Q) (labels : list string) (h : heap) :
  parseMatrix fuel [] labels h
  = Throw (TypeError "Cannot read properties of undefined (reading 'undefined')")
          h
  ∧ parseMatrix fuel [[x]] labels h
    = Throw (TypeError
               "Cannot read properties of undefined (reading 'setLength')")
            (h ++ [Br.Mk (label_at labels 0) 0 None [] 0 0 1]).
Proof.
  split.
  - unfold parseMatrix.
    assert (Hloop : join_loop fuel (parseMatrix_init [] labels) h
                    = Ok (parseMatrix_init [] labels) h)
      by (by destruct fuel).
    by rewrite (bind_Ok _ _ _ _ _ Hloop).
  - unfold parseMatrix.
    assert (Hloop : join_loop fuel (parseMatrix_init [[x]] labels) h
                    = Ok (parseMatrix_init [[x]] labels) h)
      by (by destruct fuel).
    by rewrite (bind_Ok _ _ _ _ _ Hloop).
Qed.

Lemma setUpNode_leaf that l d h :
  (l < Z.of_nat (That.N that))%Z →
  setUpNode that l d h
  = Ok (List.length h, with_node that l (List.length h))
       (h ++ [leaf_for that l d]).
Proof.
  intros Hl. unfold setUpNode.
  destruct (Z.ltb_spec l (Z.of_nat (That.N that))); [done | lia].
Qed.

(** The last join when both indices left still carry labels of the matrix:
    two new leaves and a new root over them. *)
Lemma join_last_two_leaves that h i j rest :
  That.indicesLeft that = i :: j :: rest →
  (nth i (That.currIndexToLabel that) 0 < Z.of_nat (That.N that))%Z →
  (nth j (That.currIndexToLabel that) 0 < Z.of_nat (That.N that))%Z →
  join_last that h
  = Ok (2 + List.length h)
       (((h ++ [leaf_for that (nth i (That.currIndexToLabel that) 0%Z)
                         (at2 (That.D that) i j / 2)])
           ++ [leaf_for that (nth j (That.currIndexToLabel that) 0%Z)
                        (at2 (That.D that) i j / 2)])
          ++ [Br.Mk "" 0 None [List.length h; 1 + List.length h] 0 0 1]).
Proof.
  intros Hleft Hi Hj. unfold join_last. rewrite Hleft.
  rewrite (bind_Ok _ _ _ _ _ (setUpNode_leaf that _ _ h Hi)). cbn [fst snd].
  rewrite (bind_Ok _ _ _ _ _
             (setUpNode_leaf (with_node that _ _) _ _ _ Hj)).
  cbn [fst snd]. rewrite new_Ok. cbn [d_id d_length d_parent d_children].
  rewrite !length_app. cbn [List.length].
  replace (List.length h + 1 + 1) with (2 + List.length h) by lia.
  by replace (List.length h + 1) with (1 + List.length h) by lia.
Qed.

(** [parseMatrix] on two taxa joins them under a new root at once, each at
    half of [D[0][1]]; the diagonal and [D[1][0]] are never read. *)
Theorem parseMatrix_of_two_taxa
        (fuel : nat) (a d d' b : Q) (la lb : string) (h : heap) :
  2 ≤ fuel →
  ∃ h',
    parseMatrix fuel [[a; d]; [d'; b]] [la; lb] h = Ok (List.length h + 2) h'
    ∧ built h' None
            (Sh (List.length h + 2)
                [Sh (List.length h) []; Sh (List.length h + 1) []])
            (NT "" 0 [NT la (d / 2) []; NT lb (d / 2) []]).
Proof.
  intros Hfuel.
  replace (List.length h + 2) with (2 + List.length h) by lia.
  replace (List.length h + 1) with (1 + List.length h) by lia.
  set (that := parseMatrix_init [[a; d]; [d'; b]] [la; lb]).
  set (x := if Qeq_bool (d / 2) 0 then 0%Q else (d / 2)%Q).
  set (n1 := List.length h). set (n2 := 1 + List.length h).
  set (root := 2 + List.length h).
  set (b1 := Br.Mk la x None [] 0 0 1). set (b2 := Br.Mk lb x None [] 0 0 1).
  set (b3 := Br.Mk "" 0 None [n1; n2] 0 0 1).
  set (h3 := ((h ++ [b1]) ++ [b2]) ++ [b3]).
  set (t := Sh root [Sh n1 []; Sh n2 []]).
  assert (Hloop : join_loop fuel that h = Ok that h) by (by destruct fuel).
  assert (Hlast : join_last that h = Ok root h3).
  { by rewrite (join_last_two_leaves that h 0 1 []). }
  assert (H1 : h3 !! n1 = Some b1).
  { unfold h3. rewrite !lookup_app_l
      by (rewrite ?length_app; simpl; unfold n1; lia).
    by apply list_lookup_middle. }
  assert (H2 : h3 !! n2 = Some b2).
  { unfold h3. rewrite lookup_app_l
      by (rewrite ?length_app; simpl; unfold n2; lia).
    apply list_lookup_middle. rewrite length_app. simpl. unfold n2. lia. }
  assert (H3 : h3 !! root = Some b3).
  { unfold h3. apply list_lookup_middle. rewrite !length_app. simpl.
    unfold root. lia. }
  assert (Hnd : NoDup (refs t)).
  { simpl. unfold root, n1, n2. repeat constructor;
      rewrite ?elem_of_cons, ?elem_of_nil; lia. }
  assert (Hlt : lists_tree h3 t).
  { apply lists_tree_node with b3; [done | done |].
    repeat constructor.
    - by apply lists_tree_node with b1.
    - by apply lists_tree_node with b2. }
  destruct (fixParenthood_walk fuel t h3 Hlt Hnd Hfuel)
    as (h4 & Hfix & Hsame & Hout & Hkids).
  simpl in Hfix, Hout, Hkids.
  assert (H3' : h4 !! root = Some b3).
  { rewrite Hout; [done |]. unfold root, n1, n2.
    rewrite !elem_of_cons, elem_of_nil. lia. }
  assert (Ht4 : tree_at h4 None t) by (by apply tree_at_node with b3).
  destruct (fixDistances_on_valid_tree fuel h4 t) as (h5 & Hdist & _);
    [done | done |].
  destruct (fixDistances_core _ _ _ _ _ Hdist) as [Hcore _].
  exists h5. split.
  - unfold parseMatrix. fold that.
    rewrite (bind_Ok _ _ _ _ _ Hloop), (bind_Ok _ _ _ _ _ Hlast).
    by rewrite (bind_Ok _ _ _ _ _ Hfix).
  - apply (built_same_core h4); [done |].
    assert (Hleaf : ∀ n bn l, h3 !! n = Some bn → Br.children bn = [] →
                      tree_at h4 (Some root) (Sh n []) →
                      (Br.length bn == l)%Q →
                      built h4 (Some root) (Sh n []) (NT (Br.id bn) l [])).
    { intros n bn l Hn Hc Htn Hl.
      inversion Htn as [? ? ? bn' Hn' Hp' Hc' _]; subst.
      pose proof (Hsame n) as Heq. rewrite Hn, Hn' in Heq. simpl in Heq.
      injection Heq as Hid Hlen _ _ _ _.
      apply built_intro with bn'; try done. by rewrite Hlen. }
    inversion Hkids as [|? ? Hk1 Hk']; subst.
    inversion Hk' as [|? ? Hk2 _]; subst.
    apply built_intro with b3; try done.
    repeat constructor.
    + apply (Hleaf n1 b1 (d / 2)%Q); try done. apply or_zero_eq.
    + apply (Hleaf n2 b2 (d / 2)%Q); try done. apply or_zero_eq.
Qed.

Lemma parseMatrix_of_two_taxa_witness :
  ∃ h',
    parseMatrix 2 [[0; 6]; [6; 0]]%Q ["A"; "B"] [] = Ok (List.length (@nil Br.t) + 2) h'
    ∧ built h' None
            (Sh (List.length (@nil Br.t) + 2)
                [Sh (List.length (@nil Br.t)) [];
                 Sh (List.length (@nil Br.t) + 1) []])
            (NT "" 0 [NT "A" (6 / 2) []; NT "B" (6 / 2) []]).
Proof.
  apply (parseMatrix_of_two_taxa 2 0 6 6 0 "A" "B" []). lia.
Defined.

(** * Newick text *)

(** ** The tokens *)

Lemma no_delim_of_list l :
  clean l = true → no_delim (string_of_list_ascii l) = true.
Proof.
  induction l as [|c l IH]; [done |]. simpl. intros Hl.
  apply andb_true_iff in Hl as [Hc Hl]. by rewrite Hc, IH.
Qed.

Lemma clean_rev tok : clean tok = true → clean (rev tok) = true.
Proof.
  unfold clean. rewrite !forallb_forall. intros Hl c Hc.
  apply Hl. by apply in_rev.
Qed.

Lemma clean_rstrip tok : clean tok = true → clean (rstrip_rev tok) = true.
Proof.
  induction tok as [|c tok IH]; [done |]. intros Hl. simpl.
  destruct (is_space c); [| done].
  simpl in Hl. apply andb_true_iff in Hl as [_ Hl]. by apply IH.
Qed.

Lemma split_from_pieces s : ∀ tok skip,
  clean tok = true →
  pieces (split_from s tok skip)
  ∧ List.length (split_from s tok skip) = 2 * count_delim s + 1.
Proof.
  induction s as [|c s IH]; intros tok skip Htok; simpl.
  - split; [| done]. by apply pieces_last, no_delim_of_list, clean_rev.
  - destruct (is_delim c) eqn:Hc.
    + destruct (IH [] true) as [Hp Hlen]; [done |]. split.
      * apply pieces_more; [| done | done].
        by apply no_delim_of_list, clean_rev, clean_rstrip.
      * simpl. rewrite Hlen. lia.
    + destruct (skip && is_space c).
      * by apply IH.
      * apply IH. simpl. by rewrite Hc.
Qed.

(** The tokens [parseNewick] splits a text into: pieces free of delimiters,
    one delimiter between two pieces, a piece first and last; there are as
    many delimiter tokens as the text has delimiters. *)
Theorem split_newick_alternates (newick : string) :
  pieces (split_newick newick)
  ∧ List.length (split_newick newick) = 2 * count_delim newick + 1.
Proof. by apply split_from_pieces. Qed.

(** ** Texts the parser cannot place *)

Lemma no_delim_not_token p :
  no_delim p = true →
  String.eqb p "(" = false ∧ String.eqb p "," = false
  ∧ String.eqb p ")" = false ∧ String.eqb p ":" = false.
Proof.
  intros Hnd. repeat split; apply String.eqb_neq; intros ->; discriminate.
Qed.

Lemma split_from_whole s : ∀ tok skip,
  no_delim s = true →
  ∃ p, split_from s tok skip = [p] ∧ (clean tok = true → no_delim p = true).
Proof.
  induction s as [|c s IH]; intros tok skip Hs; simpl.
  - eexists. split; [done |]. intros Htok.
    by apply no_delim_of_list, clean_rev.
  - simpl in Hs. apply andb_true_iff in Hs as [Hc Hs].
    apply negb_true_iff in Hc. rewrite Hc.
    destruct (skip && is_space c).
    + destruct (IH [] true Hs) as (p & -> & Hp). exists p. split; [done |].
      intros _. by apply Hp.
    + destruct (IH (c :: tok) false Hs) as (p & -> & Hp). exists p.
      split; [done |]. intros Htok. apply Hp. simpl. by rewrite Hc.
Qed.

Lemma fixDistances_fresh_root fuel h0 :
  Branch.fixDistances (S fuel) (List.length h0) (h0 ++ [fresh None])
  = Ok (List.length h0) (h0 ++ [Br.Mk "" 0 None [] 0 0 (1 + 0)]).
Proof.
  assert (Hc : (h0 ++ [fresh None]) !! List.length h0 = Some (fresh None))
    by (by apply list_lookup_middle).
  assert (Hid : <[List.length h0 := fresh None]> (h0 ++ [fresh None])
                = h0 ++ [fresh None]) by (by apply list_insert_id).
  rewrite fixDistances_unfold.
  assert (Hroot : Branch.getRoot (S fuel) (List.length h0) (h0 ++ [fresh None])
                  = Ok (List.length h0) (h0 ++ [fresh None])).
  { simpl. by rewrite (bind_get _ _ _ _ Hc). }
  rewrite (bind_Ok _ _ _ _ _ Hroot), (bind_modify _ _ _ _ _ Hc).
  change (Br.set_depth 0 (fresh None)) with (fresh None). rewrite Hid.
  assert (Hkids : ∀ A (g : nat → A → M A) a,
            Branch.eachChild (List.length h0) g a (h0 ++ [fresh None])
            = Ok a (h0 ++ [fresh None])).
  { intros A g a. unfold Branch.eachChild. by rewrite (bind_get _ _ _ _ Hc). }
  assert (Hbefore : Branch.eachBefore (S fuel) depth_callback (List.length h0)
                      0%Z (h0 ++ [fresh None]) = Ok 0%Z (h0 ++ [fresh None])).
  { assert (Hcb : depth_callback (List.length h0) 0%Z (h0 ++ [fresh None])
                  = Ok 0%Z (h0 ++ [fresh None])).
    { unfold depth_callback. by rewrite (bind_get _ _ _ _ Hc). }
    simpl. rewrite (bind_Ok _ _ _ _ _ Hcb). apply Hkids. }
  rewrite (bind_Ok _ _ _ _ _ Hbefore).
  assert (Hafter : Branch.eachAfter (S fuel) (height_callback 0)
                     (List.length h0) tt (h0 ++ [fresh None])
                   = Ok tt (h0 ++ [Br.Mk "" 0 None [] 0 0 (1 + 0)])).
  { simpl. rewrite (bind_Ok _ _ _ _ _ (Hkids _ _ _)).
    unfold height_callback. rewrite (bind_get _ _ _ _ Hc).
    rewrite (bind_modify _ _ _ _ _ Hc).
    change (Br.set_height (0 - Br.depth (fresh None)) (fresh None))
      with (fresh None).
    rewrite Hid, (bind_get _ _ _ _ Hc). simpl Br.children.
    simpl Branch.reduce_value. rewrite bind_ret.
    rewrite (modify_Ok _ _ _ _ Hc). f_equal.
    rewrite insert_app_r_alt by lia. by rewrite Nat.sub_diag. }
  by rewrite (bind_Ok _ _ _ _ _ Hafter).
Qed.

(** [parseNewick] on a text without any delimiter never assigns the text:
    the tree is one Branch with the empty id, whatever the text was. *)
Theorem parseNewick_without_delimiter
        (parseFloat : string → Q) (fuel : nat) (newick : string) (h0 : heap) :
  no_delim newick = true →
  parseNewick parseFloat (S fuel) newick h0
  = Ok (List.length h0) (h0 ++ [Br.Mk "" 0 None [] 0 0 (1 + 0)]).
Proof.
  intros Hs. unfold parseNewick, split_newick.
  destruct (split_from_whole newick [] false Hs) as (p & -> & Hp).
  destruct (no_delim_not_token p (Hp eq_refl)) as (H1 & H2 & H3 & H4).
  rewrite (bind_Ok _ _ _ _ _ (new_Ok no_data h0)).
  change (Br.Mk (d_id no_data)
            (if Qeq_bool (d_length no_data) 0 then 0%Q else d_length no_data)
            (d_parent no_data) (d_children no_data) 0 0 1)
    with (fresh None).
  assert (Hloop : parseNewick_loop parseFloat [p] None []
                    (Some (List.length h0)) (h0 ++ [fresh None])
                  = Ok (Some (List.length h0)) (h0 ++ [fresh None])).
  { simpl. by rewrite H1, H2, H3, H4. }
  rewrite (bind_Ok _ _ _ _ _ Hloop). simpl the_tree. rewrite bind_ret.
  apply fixDistances_fresh_root.
Qed.

Lemma parseNewick_without_delimiter_witness :
  parseNewick whole_parseFloat 1 "Homo sapiens" []
  = Ok (List.length (@nil Br.t)) ([] ++ [Br.Mk "" 0 None [] 0 0 (1 + 0)]).
Proof.
  apply (parseNewick_without_delimiter whole_parseFloat 0 "Homo sapiens" []).
  reflexivity.
Defined.

(** [parseNewick] on a text whose first delimiter is a closing parenthesis
    or a comma has no Branch to go back or to add to, and throws a
    TypeError; only the root has been made by then. *)
Theorem parseNewick_unopened_throws
        (parseFloat : string → Q) (fuel : nat) (p rest : string) (h0 : heap) :
  no_delim p = true →
  (∃ msg, parseNewick parseFloat fuel (p ++ String ")" rest) h0
          = Throw (TypeError msg) (h0 ++ [fresh None]))
  ∧ (∃ msg, parseNewick parseFloat fuel (p ++ String "," rest) h0
            = Throw (TypeError msg) (h0 ++ [fresh None])).
Proof.
  intros Hp.
  assert (Hstart : ∀ d, is_delim d = true →
            ∃ p' q more,
              split_newick (p ++ String d rest) = p' :: String d "" :: q :: more
              ∧ no_delim p' = true ∧ no_delim q = true).
  { intros d Hd. unfold split_newick. rewrite (split_from_run p d rest [] Hp Hd).
    destruct (split_from_pieces rest [] true eq_refl) as [Hq _].
    eexists. inversion Hq as [q Hq' Heq | q d' more Hq' _ _ Heq].
    - exists q, []. split; [done |]. split; [| done].
      apply no_delim_of_list, clean_rev, clean_rstrip.
      rewrite app_nil_r. apply clean_rev. clear -Hp.
      induction p as [|c p IH]; [done |]. simpl in *.
      apply andb_true_iff in Hp as [Hc Hp]. by rewrite Hc, IH.
    - eexists q, _. split; [done |]. split; [| done].
      apply no_delim_of_list, clean_rev, clean_rstrip.
      rewrite app_nil_r. apply clean_rev. clear -Hp.
      induction p as [|c p IH]; [done |]. simpl in *.
      apply andb_true_iff in Hp as [Hc Hp]. by rewrite Hc, IH. }
  split.
  - destruct (Hstart ")"%char eq_refl) as (p' & q & more & Htok & Hp' & Hq).
    destruct (no_delim_not_token p' Hp') as (H1 & H2 & H3 & H4).
    destruct (no_delim_not_token q Hq) as (G1 & G2 & G3 & G4).
    eexists. unfold parseNewick. rewrite Htok.
    rewrite (bind_Ok _ _ _ _ _ (new_Ok no_data h0)).
    simpl. rewrite H1, H2, H3, H4, G1, G2, G3, G4. reflexivity.
  - destruct (Hstart ","%char eq_refl) as (p' & q & more & Htok & Hp' & Hq).
    destruct (no_delim_not_token p' Hp') as (H1 & H2 & H3 & H4).
    eexists. unfold parseNewick. rewrite Htok.
    rewrite (bind_Ok _ _ _ _ _ (new_Ok no_data h0)).
    simpl. rewrite H1, H2, H3, H4. reflexivity.
Qed.

Lemma parseNewick_unopened_throws_witness :
  (∃ msg, parseNewick whole_parseFloat 5 ("A" ++ String ")" "B;") []
          = Throw (TypeError msg) ([] ++ [fresh None]))
  ∧ (∃ msg, parseNewick whole_parseFloat 5 ("A" ++ String "," "B;") []
            = Throw (TypeError msg) ([] ++ [fresh None])).
Proof.
  apply (parseNewick_unopened_throws whole_parseFloat 5 "A" "B;" []).
  reflexivity.
Defined.

(** ** Numbers in the text *)

(** [numberToString] hands on what the runtime prints when that holds no
    exponent: neither [e-] for a number below 1 nor [+] for one above. *)
Theorem numberToString_without_exponent
        (Number_toString : Q → string) (Number_times Number_over : Q → Q → Q)
        (Math_pow : Q → Z → Q) (num : Q) :
  split_second "e-" (Number_toString num) = None →
  split_second "+" (Number_toString num) = None →
  numberToString Number_toString Number_times Number_over Math_pow num
  = Number_toString num.
Proof.
  intros He Hp. unfold numberToString.
  destruct (Qlt_le_dec (Qabs num) 1); [by rewrite He | by rewrite Hp].
Qed.

Lemma numberToString_without_exponent_witness :
  numberToString whole_toString Qmult Qdiv Qpower 12 = whole_toString 12.
Proof.
  apply (numberToString_without_exponent whole_toString Qmult Qdiv Qpower 12).
  - reflexivity.
  - reflexivity.
Defined.

(** * fixDistances, run again *)

Lemma maxdepth_from_local h h' l : ∀ m,
  (∀ n, n ∈ l → depth_of h' n = depth_of h n) →
  maxdepth_from h' m l = maxdepth_from h m l.
Proof.
  unfold maxdepth_from.
  induction l as [|x l IH]; intros m Hl; [done |]. simpl.
  rewrite (Hl x) by left. apply IH. intros n Hn. apply Hl. by right.
Qed.

(** Depths that follow the parents are the same in any two stores that hold
    the same tree, once they agree at its root. *)
Lemma depths_agree (l : list ref) h1 h2 (t : shape) : ∀ p,
  depths_follow_parents h1 l → depths_follow_parents h2 l →
  tree_at h1 p t → tree_at h2 p t →
  (∀ n, n ∈ refs t → n ∈ l) →
  depth_of h1 (root_of t) = depth_of h2 (root_of t) →
  ∀ n, n ∈ refs t → depth_of h1 n = depth_of h2 n.
Proof.
  induction t as [r ks IH] using shape_ind'.
  intros p H1 H2 Ht1 Ht2 Hsub Hroot n Hn.
  simpl in Hn. apply elem_of_cons in Hn as [-> | Hn]; [done |].
  apply elem_of_flat_map in Hn as (k & Hk & Hn).
  inversion Ht1 as [? ? ? b1 Hb1 _ _ Hks1]; subst.
  inversion Ht2 as [? ? ? b2 Hb2 _ _ Hks2]; subst.
  rewrite Forall_forall in IH, Hks1, Hks2.
  assert (Hsubk : ∀ m, m ∈ refs k → m ∈ l).
  { intros m Hm. apply Hsub. simpl. right.
    apply elem_of_flat_map. by exists k. }
  apply (IH k Hk (Some r)); try done; [by apply Hks1 | by apply Hks2 |].
  destruct (tree_at_root _ _ _ (Hks1 k Hk)) as (c1 & Hc1 & Hp1 & _).
  destruct (tree_at_root _ _ _ (Hks2 k Hk)) as (c2 & Hc2 & Hp2 & _).
  assert (Hin : root_of k ∈ l) by (apply Hsubk; destruct k; left).
  pose proof (H1 _ _ Hin Hc1) as Hd1. rewrite Hp1 in Hd1.
  pose proof (H2 _ _ Hin Hc2) as Hd2. rewrite Hp2 in Hd2.
  destruct Hd1 as (pb1 & Hpb1 & Hd1). destruct Hd2 as (pb2 & Hpb2 & Hd2).
  unfold depth_of in *. simpl in Hroot.
  rewrite Hc1, Hc2, Hd1, Hd2. rewrite Hb1 in Hpb1. rewrite Hb2 in Hpb2.
  rewrite Hb1, Hb2 in Hroot. injection Hpb1 as <-. injection Hpb2 as <-.
  by rewrite Hroot.
Qed.

(** [fixDistances()] on a valid tree never writes an id, a length or a
    link, and a second run finds the same depth and the same height on
    every Branch as the first run left. *)
Theorem fixDistances_again_keeps_depth_and_height
        (fuel : nat) (h : heap) (t : shape) :
  valid_tree h t →
  levels t ≤ fuel →
  ∃ h1 h2,
    Branch.fixDistances fuel (root_of t) h = Ok (root_of t) h1
    ∧ Branch.fixDistances fuel (root_of t) h1 = Ok (root_of t) h2
    ∧ same_core h h1
    ∧ ∀ n b1 b2, n ∈ refs t → h1 !! n = Some b1 → h2 !! n = Some b2 →
        Br.depth b2 = Br.depth b1 ∧ Br.height b2 = Br.height b1
        ∧ core b2 = core b1.
Proof.
  intros Hv Hfuel. pose proof Hv as [_ Hnd].
  destruct (fixDistances_on_valid_tree fuel h t Hv Hfuel)
    as (h1 & Hrun1 & Ht1 & Hp1).
  destruct (fixDistances_on_valid_tree fuel h1 t (conj Ht1 Hnd) Hfuel)
    as (h2 & Hrun2 & Ht2 & Hp2).
  destruct (fixDistances_core _ _ _ _ _ Hrun1) as [Hcore1 _].
  destruct (fixDistances_core _ _ _ _ _ Hrun2) as [Hcore2 _].
  exists h1, h2. repeat (split; [done |]).
  assert (Hf1 : depths_follow_parents h1 (refs t)).
  { intros n b Hn Hb. by apply (Hp1 n b Hn Hb). }
  assert (Hf2 : depths_follow_parents h2 (refs t)).
  { intros n b Hn Hb. by apply (Hp2 n b Hn Hb). }
  assert (Hdepth : ∀ n, n ∈ refs t → depth_of h1 n = depth_of h2 n).
  { apply (depths_agree (refs t) h1 h2 t None); try done.
    destruct (tree_at_root _ _ _ Ht1) as (r1 & Hr1 & Hrp1 & _).
    destruct (tree_at_root _ _ _ Ht2) as (r2 & Hr2 & Hrp2 & _).
    assert (Hin : root_of t ∈ refs t) by (destruct t; left).
    pose proof (Hf1 _ _ Hin Hr1) as Hd1. rewrite Hrp1 in Hd1.
    pose proof (Hf2 _ _ Hin Hr2) as Hd2. rewrite Hrp2 in Hd2.
    unfold depth_of. by rewrite Hr1, Hr2, Hd1, Hd2. }
  intros n b1 b2 Hn Hb1 Hb2.
  pose proof (Hdepth n Hn) as Hd. unfold depth_of in Hd.
  rewrite Hb1, Hb2 in Hd.
  split; [done |]. split.
  - rewrite (proj2 (Hp1 n b1 Hn Hb1)), (proj2 (Hp2 n b2 Hn Hb2)), Hd.
    f_equal. unfold maxdepth. apply maxdepth_from_local.
    intros m Hm. symmetry. by apply Hdepth.
  - pose proof (Hcore2 n) as Hc. rewrite Hb1, Hb2 in Hc. by apply (inj Some).
Qed.

Lemma fixDistances_again_keeps_depth_and_height_witness :
  ∃ h1 h2,
    Branch.fixDistances 5 (root_of uneven_shape) uneven
    = Ok (root_of uneven_shape) h1
    ∧ Branch.fixDistances 5 (root_of uneven_shape) h1
      = Ok (root_of uneven_shape) h2
    ∧ same_core uneven h1
    ∧ ∀ n b1 b2, n ∈ refs uneven_shape → h1 !! n = Some b1 →
        h2 !! n = Some b2 →
        Br.depth b2 = Br.depth b1 ∧ Br.height b2 = Br.height b1
        ∧ core b2 = core b1.
Proof.
  apply (fixDistances_again_keeps_depth_and_height 5 uneven uneven_shape).
  - exact uneven_valid.
  - simpl. lia.
Defined.

(** * Plain objects: toObject, parseJSON, clone and copy *)

Lemma toObject_unfold fuel this :
  toObject (S fuel) this
  = (let* b := get this in
     if Nat.ltb 0 (List.length (Br.children b)) then
       let* cs := mapM (toObject fuel) (Br.children b) in
       ret (Obj (Br.id b) (Br.length b) (Some cs))
     else ret (Obj (Br.id b) (Br.length b) None)).
Proof. reflexivity. Qed.

Lemma toObject_holds fuel : ∀ nt h p r,
  holds eq h p r nt → nlevels nt ≤ fuel →
  toObject fuel r h = Ok (obj_of nt) h.
Proof.
  induction fuel as [|fuel IH]; intros nt h p r Hh Hfuel.
  { destruct nt. simpl in Hfuel. lia. }
  inversion Hh as [? ? b ks Hb Hp Hlen Hkids l Hl]; subst.
  rewrite toObject_unfold, (bind_get _ _ _ _ Hb), Hlen.
  destruct ks as [|k ks]; [done |].
  cbn [List.length Nat.ltb Nat.leb].
  rewrite (bind_Ok _ _ _ _ _
             (mapM_same _ obj_of h (Br.children b) (k :: ks) Hlen
                (fun j c k' Hc Hk =>
                   IH k' h (Some r) c (Hkids j c k' Hc Hk)
                      ltac:(pose proof (nlevels_kid (Br.id b) (Br.length b)
                                          (k :: ks) j k' Hk); lia)))).
  done.
Qed.

Lemma parseJSON_unfold fuel i l cs :
  parseJSON fuel (Obj i l cs)
  = (let* root := Branch.new (Data i l None []) in
     do match cs with
        | Some children => attach_all fuel root children
        | None => ret tt
        end in
     Branch.fixDistances fuel root).
Proof. reflexivity. Qed.

Lemma attach_all_cons fuel root child l :
  attach_all fuel root (child :: l)
  = (let* c := parseJSON fuel child in
     do Branch.addChild root (inl c) in
     attach_all fuel root l).
Proof. reflexivity. Qed.

Lemma same_core_length h h' : same_core h h' → List.length h' = List.length h.
Proof.
  intros Hs. apply Nat.le_antisymm.
  - apply lookup_ge_None. pose proof (Hs (List.length h)) as Hn.
    rewrite (proj2 (lookup_ge_None h (List.length h))) in Hn by lia.
    by destruct (h' !! List.length h).
  - apply lookup_ge_None. pose proof (Hs (List.length h')) as Hn.
    rewrite (proj2 (lookup_ge_None h' (List.length h'))) in Hn by lia.
    by destruct (h !! List.length h').
Qed.


Lemma attach_kids fuel c0 (ks : list ntree) :
  Forall parsed ks → Forall (fun k => nlevels k ≤ fuel) ks →
  ∀ h cb,
    h !! c0 = Some cb →
    ∃ h' kss cb',
      attach_all fuel c0 (map obj_of ks) h = Ok tt h'
      ∧ h' !! c0 = Some cb'
      ∧ Br.children cb' = Br.children cb ++ map root_of kss
      ∧ Br.id cb' = Br.id cb ∧ Br.length cb' = Br.length cb
      ∧ Br.parent cb' = Br.parent cb
      ∧ Forall2 (built h' (Some c0)) kss ks
      ∧ List.length h ≤ List.length h'
      ∧ (∀ n, n < List.length h → n ≠ c0 → h' !! n = h !! n)
      ∧ (∀ n, n ∈ flat_map refs kss → List.length h ≤ n < List.length h')
      ∧ NoDup (flat_map refs kss).
Proof.
  induction 1 as [|k ks Hk _ IH]; intros Hlv h cb Hcb.
  - exists h, [], cb. simpl. rewrite app_nil_r.
    do 6 (split; [done |]). split; [constructor |]. split; [done |].
    split; [done |]. split; [by intros n Hn%elem_of_nil | constructor].
  - inversion Hlv as [|? ? Hlk Hlks]; subst.
    assert (Hc0 : c0 < List.length h) by (by eapply lookup_lt_Some).
    destruct (Hk fuel h Hlk)
      as (h1 & kks & Hrun & Hb & Hlen1 & Hframe1 & Hrange1 & Hnd1).
    set (c := List.length h) in *.
    inversion Hb as [? ? ? rb nks l Hrb Hrp Hrc Hrks Hrl]; subst.
    assert (Hcb1 : h1 !! c0 = Some cb) by (by rewrite Hframe1).
    set (rb' := Br.set_parent (Some c0) rb).
    set (h1a := <[c := rb']> h1).
    set (cb2 := Br.set_children (Br.children cb ++ [c]) cb).
    set (h2 := <[c0 := cb2]> h1a).
    assert (Hne : c0 ≠ c) by (unfold c; lia).
    assert (Hcb1a : h1a !! c0 = Some cb)
      by (unfold h1a; by rewrite list_lookup_insert_ne).
    assert (Hadd : Branch.addChild c0 (inl c) h1 = Ok c h2).
    { unfold Branch.addChild. rewrite bind_assoc.
      rewrite (bind_modify _ _ _ _ _ Hrb). fold rb' h1a.
      rewrite bind_ret. unfold Branch.push.
      by rewrite (bind_modify _ _ _ _ _ Hcb1a). }
    assert (Hcb2 : h2 !! c0 = Some cb2) by (by eapply lookup_insert_same).
    assert (Hlen2 : List.length h2 = List.length h1).
    { unfold h2, h1a. by rewrite !length_insert. }
    assert (Hkid : built h2 (Some c0) (Sh c kks) (NT (Br.id rb) l nks)).
    { apply built_intro with rb'; try done.
      - unfold h2. rewrite list_lookup_insert_ne by done.
        by eapply lookup_insert_same.
      - eapply Forall2_impl_in; [exact Hrks |]. intros s ns Hs Hbs.
        eapply built_frame; [| exact Hbs]. intros n Hn.
        assert (Hin : n ∈ flat_map refs kks).
        { apply elem_of_flat_map. by exists s. }
        apply Hrange1 in Hin. unfold h2, h1a.
        rewrite !list_lookup_insert_ne; [done | lia | lia]. }
    destruct (IH Hlks h2 cb2 Hcb2)
      as (h' & kss & cb' & Hrun' & Hcb' & Hcs' & Hid' & Hl' & Hp' & Hbs'
          & Hlen' & Hframe' & Hrange' & Hnd').
    exists h', (Sh c kks :: kss), cb'.
    split.
    { change (map obj_of (NT (Br.id rb) l nks :: ks))
        with (obj_of (NT (Br.id rb) l nks) :: map obj_of ks).
      rewrite attach_all_cons, (bind_Ok _ _ _ _ _ Hrun).
      by rewrite (bind_Ok _ _ _ _ _ Hadd). }
    split; [done |].
    split; [by (rewrite Hcs'; unfold cb2; simpl; rewrite <- app_assoc) |].
    split; [done |]. split; [done |]. split; [done |].
    split; [| split; [lia | split; [| split]]].
    + constructor; [| done]. eapply built_frame; [| exact Hkid].
      intros n Hn. simpl in Hn. apply Hframe'.
      * apply elem_of_cons in Hn as [-> | Hn]; [lia |].
        apply Hrange1 in Hn. lia.
      * apply elem_of_cons in Hn as [-> | Hn]; [done |].
        apply Hrange1 in Hn. lia.
    + intros n Hn Hn0. rewrite Hframe' by (done || lia).
      unfold h2, h1a. rewrite !list_lookup_insert_ne by (done || lia).
      by apply Hframe1.
    + intros n Hn. simpl in Hn.
      apply elem_of_cons in Hn as [-> | Hn]; [lia |].
      apply elem_of_app in Hn as [Hn | Hn].
      * apply Hrange1 in Hn. lia.
      * apply Hrange' in Hn. lia.
    + simpl. apply NoDup_cons. split.
      * intros Hin. apply elem_of_app in Hin as [Hin | Hin].
        -- apply Hrange1 in Hin. lia.
        -- apply Hrange' in Hin. lia.
      * apply NoDup_app. split; [done |]. split; [| done].
        intros n Hn1 Hn2. apply Hrange1 in Hn1. apply Hrange' in Hn2. lia.
Qed.

Lemma parseJSON_builds nt : parsed nt.
Proof.
  induction nt as [i l ks IH] using ntree_ind'. intros fuel h0 Hfuel.
  set (c0 := List.length h0).
  set (b0 := Br.Mk i (if Qeq_bool l 0 then 0%Q else l) None [] 0 0 1).
  set (h1 := h0 ++ [b0]).
  assert (Hb0 : h1 !! c0 = Some b0) by (by apply list_lookup_middle).
  assert (Hlen1 : List.length h1 = S c0).
  { unfold h1, c0. rewrite length_app. simpl. lia. }
  assert (Hlv : Forall (fun k => nlevels k ≤ fuel) ks).
  { apply Forall_lookup. intros j k Hj.
    pose proof (nlevels_kid i l ks j k Hj). lia. }
  destruct (attach_kids fuel c0 ks IH Hlv h1 b0 Hb0)
    as (h2 & kss & cb & Hrun & Hcb & Hcs & Hid & Hl & Hp & Hbs & Hlen2
        & Hframe2 & Hrange2 & Hnd2).
  simpl in Hcs, Hid, Hl, Hp.
  assert (Hbuilt : built h2 None (Sh c0 kss) (NT i l ks)).
  { apply built_intro with cb; try done. rewrite Hl. apply or_zero_eq. }
  assert (Hvalid : valid_tree h2 (Sh c0 kss)).
  { split; [by eapply built_tree_at |]. simpl. apply NoDup_cons.
    split; [| done]. intros Hin. apply Hrange2 in Hin. lia. }
  destruct (fixDistances_walks fuel h2 (Sh c0 kss) Hvalid)
    as (h3 & Hfix & _ & _ & Hframe3).
  { by rewrite (built_levels _ _ _ _ Hbuilt). }
  destruct (fixDistances_core _ _ _ _ _ Hfix) as [Hcore _].
  pose proof (same_core_length _ _ Hcore) as Hlen3.
  exists h3, kss. split.
  - change (obj_of (NT i l ks))
      with (Obj i l (match ks with
                     | [] => None
                     | _ :: _ => Some (map obj_of ks)
                     end)).
    rewrite parseJSON_unfold, (bind_Ok _ _ _ _ _ (new_Ok _ h0)).
    cbn [d_id d_length d_parent d_children]. fold b0 h1 c0.
    rewrite (bind_Ok _ _ _ tt h2); [done |].
    by destruct ks.
  - split; [by eapply built_same_core |]. split; [lia |]. split; [| split].
    + intros n Hn. rewrite Hframe3.
      * rewrite Hframe2 by (fold c0 in Hn; lia).
        unfold h1. by rewrite lookup_app_l.
      * simpl. intros [-> | Hin]%elem_of_cons; [fold c0 in Hn; lia |].
        apply Hrange2 in Hin. fold c0 in Hn. lia.
    + intros n Hn. apply Hrange2 in Hn. fold c0. lia.
    + done.
Qed.

(** [clone()] and [copy()] both copy in depth: on the root of a tree they
    return a new Branch, after those of the store, that heads a tree with
    the same children in the same order, the same ids and the same lengths,
    and has no parent; the Branches of before are as they were. *)
Theorem clone_and_copy_rebuild_the_tree
        (fuel : nat) (h : heap) (p : option ref) (r : ref) (nt : ntree) :
  holds eq h p r nt →
  nlevels nt ≤ fuel →
  (∃ h', clone fuel r h = Ok (List.length h) h'
         ∧ holds Qeq h' None (List.length h) nt
         ∧ ∀ n, n < List.length h → h' !! n = h !! n)
  ∧ (∃ h', copy fuel r h = Ok (List.length h) h'
           ∧ holds Qeq h' None (List.length h) nt
           ∧ ∀ n, n < List.length h → h' !! n = h !! n).
Proof.
  intros Hh Hfuel.
  pose proof (toObject_holds fuel nt h p r Hh Hfuel) as Hobj.
  destruct (parseJSON_builds nt fuel h Hfuel)
    as (h1 & ks & Hrun & Hb & Hlen & Hframe & Hrange & Hnd).
  split.
  - exists h1. split; [| split; [| done]].
    + unfold clone. by rewrite (bind_Ok _ _ _ _ _ Hobj).
    + by apply (built_holds h1 None (Sh (List.length h) ks) nt).
  - assert (Hvalid : valid_tree h1 (Sh (List.length h) ks)).
    { split; [by eapply built_tree_at |]. simpl. apply NoDup_cons.
      split; [| done]. intros Hin. apply Hrange in Hin. lia. }
    destruct (fixDistances_walks fuel h1 (Sh (List.length h) ks) Hvalid)
      as (h2 & Hfix & _ & _ & Hframe2).
    { by rewrite (built_levels _ _ _ _ Hb). }
    destruct (fixDistances_core _ _ _ _ _ Hfix) as [Hcore _].
    exists h2. split; [| split].
    + unfold copy. rewrite (bind_Ok _ _ _ _ _ Hobj), (bind_Ok _ _ _ _ _ Hrun).
      inversion Hb as [? ? ? rb nks l Hrb Hrp Hrc Hrks Hrl]; subst.
      rewrite (bind_modify _ _ _ _ _ Hrb).
      by rewrite (set_parent_same rb None Hrp), list_insert_id.
    + apply (built_holds h2 None (Sh (List.length h) ks) nt).
      by eapply built_same_core.
    + intros n Hn. rewrite Hframe2; [by apply Hframe |].
      simpl. intros [-> | Hin]%elem_of_cons; [lia |].
      apply Hrange in Hin. lia.
Qed.

Lemma clone_and_copy_rebuild_the_tree_witness :
  (∃ h', clone 5 0 two_leaves = Ok (List.length two_leaves) h'
         ∧ holds Qeq h' None (List.length two_leaves) two_leaves_tree
         ∧ ∀ n, n < List.length two_leaves → h' !! n = two_leaves !! n)
  ∧ (∃ h', copy 5 0 two_leaves = Ok (List.length two_leaves) h'
           ∧ holds Qeq h' None (List.length two_leaves) two_leaves_tree
           ∧ ∀ n, n < List.length two_leaves → h' !! n = two_leaves !! n).
Proof.
  apply (clone_and_copy_rebuild_the_tree 5 two_leaves None 0 two_leaves_tree).
  - exact two_leaves_holds.
  - simpl. lia.
Defined.

(** * excise *)

Lemma set_children_same (b : Br.t) cs :
  Br.children b = cs → Br.set_children cs b = b.
Proof. intros <-. by destruct b. Qed.

(** [excise()] on a Branch [b] with a parent [P] in a valid tree: every
    child of [b] takes the length of [b] on top of its own and [P] as its
    parent, and [P] lists them, in their order, after its other children,
    [b] being taken out.  What is left is a tree again, and no Branch other
    than [P] and the children of [b] is written. *)
Theorem excise_moves_the_children_up
        (h : heap) (p : option ref) (P : ref) (ts : list shape) (i : nat)
        (b : ref) (gs : list shape) (bb : Br.t) :
  tree_at h p (Sh P ts) →
  NoDup (refs (Sh P ts)) →
  ts !! i = Some (Sh b gs) →
  h !! b = Some bb →
  ∃ h', Branch.excise b h = Ok P h'
        ∧ tree_at h' p (Sh P (delete i ts ++ gs))
        ∧ (∀ g gb, g ∈ map root_of gs → h !! g = Some gb →
                   h' !! g
                   = Some (Br.set_parent (Some P)
                             (Br.set_length (Br.length gb + Br.length bb) gb)))
        ∧ (∀ n, n ≠ P → n ∉ map root_of gs → h' !! n = h !! n).
Proof.
  intros Ht Hnd Hi Hbb.
  inversion Ht as [? ? ? pb Hpb Hp Hc Hks]; subst.
  pose proof Hnd as Hnd'. simpl in Hnd'.
  apply NoDup_cons in Hnd' as [HP Hndk].
  assert (Hlt : i < List.length ts) by (by eapply lookup_lt_Some).
  pose proof (proj1 (Forall_lookup _ _) Hks i _ Hi) as Htb.
  inversion Htb as [? ? ? bb' Hbb' Hbp Hbc Hgs]; subst.
  assert (bb' = bb) by congruence. subst bb'.
  set (cs := map root_of gs) in *.
  assert (Hbin : b ∈ flat_map refs ts) by (eapply refs_of_kid; [done | left]).
  assert (HPb : P ≠ b) by (by intros ->).
  assert (Hndb : NoDup (refs (Sh b gs))) by (by eapply NoDup_kid).
  pose proof Hndb as Hndb'. simpl in Hndb'.
  apply NoDup_cons in Hndb' as [Hbout Hndg].
  assert (Hndcs : NoDup cs) by (by apply NoDup_roots).
  assert (Hcsin : ∀ g, g ∈ cs → g ∈ flat_map refs gs).
  { intros g Hg. unfold cs in Hg.
    change (map root_of gs) with (root_of <$> gs) in Hg.
    apply list_elem_of_fmap in Hg as (s & -> & Hs).
    apply elem_of_flat_map. exists s. split; [done |]. destruct s. left. }
  assert (Hcsb : ∀ g, g ∈ cs → g ≠ b).
  { intros g Hg ->. by apply Hbout, Hcsin. }
  assert (HcsP : ∀ g, g ∈ cs → g ≠ P).
  { intros g Hg ->. apply HP. eapply refs_of_kid; [done |].
    simpl. right. by apply Hcsin. }
  assert (Hmoved : moved_up bb = fun c =>
            Br.set_parent (Some P)
              (Br.set_length (Br.length c + Br.length bb) c)).
  { unfold moved_up. by rewrite Hbp. }
  unfold Branch.excise. rewrite (bind_get _ _ _ _ Hbb).
  unfold Branch.isRoot. rewrite Hbp. simpl.
  match goal with
  | |- context [bind (Branch.eachChild b ?f tt)] => set (cb := f)
  end.
  assert (Hstep : ∀ c gb pbj hj,
    hj !! b = Some bb → hj !! c = Some gb → hj !! P = Some pbj →
    c ≠ b → c ≠ P →
    cb c tt hj
    = Ok tt (<[P := Br.set_children (Br.children pbj ++ [c]) pbj]>
               (<[c := moved_up bb gb]> hj))).
  { intros c gb pbj hj Hb Hg HPj Hcb HcP. unfold cb.
    rewrite (bind_get _ _ _ _ Hb), (bind_modify _ _ _ _ _ Hg).
    set (g1 := Br.set_length (Br.length gb + Br.length bb) gb).
    assert (Hb1 : <[c := g1]> hj !! b = Some bb)
      by (by rewrite list_lookup_insert_ne).
    assert (Hg1 : <[c := g1]> hj !! c = Some g1)
      by (by eapply lookup_insert_same).
    rewrite (bind_get _ _ _ _ Hb1), (bind_modify _ _ _ _ _ Hg1).
    rewrite list_insert_insert_eq.
    assert (Hb2 : <[c := Br.set_parent (Br.parent bb) g1]> hj !! b = Some bb)
      by (by rewrite list_lookup_insert_ne).
    rewrite (bind_get _ _ _ _ Hb2), Hbp. unfold Branch.push.
    rewrite (modify_Ok _ _ _ pbj) by (by rewrite list_lookup_insert_ne).
    by rewrite Hmoved. }
  assert (Hloop : ∀ n j hj,
    n + j = List.length cs → excising h P b pb bb cs j hj →
    ∃ hN, Branch.forEach_live b cb n j tt hj = Ok tt hN
          ∧ excising h P b pb bb cs (List.length cs) hN).
  { induction n as [|n IHn]; intros j hj Hlen Hinv.
    - assert (j = List.length cs) as -> by lia. by exists hj.
    - destruct Hinv as (Hb & HPj & Hdone & Hrest).
      assert (Hj : j < List.length cs) by lia.
      destruct (lookup_lt_is_Some_2 cs j Hj) as [c Hcj].
      assert (Hcin : c ∈ cs) by (by eapply list_elem_of_lookup_2).
      assert (Hnotyet : c ∉ take j cs).
      { intros Hin. apply elem_of_take in Hin as (j' & Hj' & Hlt').
        pose proof (NoDup_lookup _ _ _ _ Hndcs Hcj Hj'). lia. }
      destruct (tree_at_closed h (Some P) (Sh b gs) c Htb) as (gb & Hgb & _).
      { simpl. right. by apply Hcsin. }
      assert (Hgj : hj !! c = Some gb).
      { rewrite Hrest; [done | by apply HcsP | done]. }
      destruct (IHn (S j)
                  (<[P := Br.set_children
                            ((Br.children pb ++ take j cs) ++ [c]) 
                            (Br.set_children (Br.children pb ++ take j cs) pb)]>
                     (<[c := moved_up bb gb]> hj)))
        as (hN & Hrun & HinvN); [lia | |].
      + unfold excising. rewrite (take_S_r _ _ _ Hcj).
        split; [| split; [| split]].
        * rewrite !list_lookup_insert_ne; [done | by apply Hcsb | done].
        * rewrite <- app_assoc.
          eapply lookup_insert_same. rewrite list_lookup_insert_ne; [done |].
          by apply HcsP.
        * intros g gb' Hg Hgb'.
          assert (Hgcs : g ∈ cs).
          { apply elem_of_app in Hg as [Hg | Hg].
            - apply elem_of_take in Hg as (j' & Hj' & _).
              by eapply list_elem_of_lookup_2.
            - by apply list_elem_of_singleton in Hg as ->. }
          rewrite list_lookup_insert_ne by (by apply not_eq_sym, HcsP).
          apply elem_of_app in Hg as [Hg | Hg].
          -- rewrite list_lookup_insert_ne by (by intros ->).
             by apply Hdone.
          -- apply list_elem_of_singleton in Hg as ->.
             assert (gb' = gb) by congruence. subst gb'.
             by eapply lookup_insert_same.
        * intros m HmP Hm. apply not_elem_of_app in Hm as [Hm1 Hm2].
          rewrite list_lookup_insert_ne by done.
          rewrite list_lookup_insert_ne; [by apply Hrest |].
          intros ->. apply Hm2. left.
      + exists hN. split; [| done]. simpl.
        rewrite (bind_get _ _ _ _ Hb), Hbc. fold cs. rewrite Hcj.
        by rewrite (bind_Ok _ _ _ _ _
                      (Hstep c gb _ hj Hb Hgj HPj (Hcsb c Hcin) (HcsP c Hcin))). }
  destruct (Hloop (List.length cs) 0 h) as (hN & Hrun & Hb & HPN & Hdone & Hrest);
    [lia | |].
  { split; [done |]. split; [| split].
    - simpl. rewrite app_nil_r. by rewrite set_children_same.
    - intros g gb Hg. by apply elem_of_nil in Hg.
    - done. }
  rewrite firstn_all in HPN, Hdone, Hrest.
  set (pbN := Br.set_children (Br.children pb ++ cs) pb) in *.
  set (pbF := Br.set_children (delete i (map root_of ts) ++ cs) pbN).
  exists (<[P := pbF]> hN).
  assert (HPF : <[P := pbF]> hN !! P = Some pbF)
    by (by eapply lookup_insert_same).
  assert (Hmoved' : ∀ g gb, g ∈ cs → h !! g = Some gb →
            <[P := pbF]> hN !! g = Some (moved_up bb gb)).
  { intros g gb Hg Hgb. rewrite list_lookup_insert_ne by (by apply not_eq_sym,
      HcsP). by apply Hdone. }
  assert (Hframe : ∀ n, n ≠ P → n ∉ cs → <[P := pbF]> hN !! n = h !! n).
  { intros n HnP Hn. rewrite list_lookup_insert_ne by done. by apply Hrest. }
  split; [| split; [| split]].
  - unfold Branch.eachChild. rewrite bind_assoc, (bind_get _ _ _ _ Hbb), Hbc.
    fold cs. rewrite (bind_Ok _ _ _ _ _ Hrun).
    rewrite (bind_get _ _ _ _ Hb), Hbp. simpl. rewrite bind_ret.
    rewrite (bind_get _ _ _ _ HPN), (bind_modify _ _ _ _ _ HPN).
    assert (Hsplice :
      splice1 (Br.children pbN) (indexOf (Br.children pbN) b)
      = delete i (map root_of ts) ++ cs).
    { unfold pbN. simpl. rewrite Hc.
      rewrite (indexOf_app (map root_of ts) cs b i).
      - rewrite splice1_delete by (rewrite length_app, length_map; lia).
        rewrite !delete_take_drop, take_app_le, drop_app_le
          by (rewrite length_map; lia).
        by rewrite <- app_assoc.
      - by apply NoDup_roots.
      - change (map root_of ts) with (root_of <$> ts).
        by rewrite list_lookup_fmap, Hi. }
    rewrite Hsplice. fold pbF.
    assert (Hb' : <[P := pbF]> hN !! b = Some bb)
      by (by rewrite list_lookup_insert_ne).
    by rewrite (bind_get _ _ _ _ Hb'), Hbp.
  - apply tree_at_node with pbF; [done | done | |].
    + simpl. by rewrite map_app, map_root_delete.
    + apply Forall_app. split.
      * apply Forall_forall. intros t Hin.
        apply elem_of_delete_lookup in Hin as (j & Hji & Hj).
        eapply tree_at_frame;
          [| by eapply (proj1 (Forall_lookup _ _) Hks j)].
        intros n Hn. apply Hframe.
        -- intros ->. by eapply HP, refs_of_kid.
        -- intros Hncs. eapply (refs_disjoint ts j i); eauto.
           simpl. right. by apply Hcsin.
      * apply Forall_forall. intros [g ggs] Hg.
        rewrite Forall_forall in Hgs. pose proof (Hgs _ Hg) as Htg.
        inversion Htg as [? ? ? gb Hgb Hgp Hgc Hggs]; subst.
        assert (Hgin : g ∈ cs).
        { unfold cs. change (map root_of gs) with (root_of <$> gs).
          apply list_elem_of_fmap. by exists (Sh g ggs). }
        apply tree_at_node with (moved_up bb gb); [by apply Hmoved' | | done |].
        { unfold moved_up. simpl. done. }
        apply Forall_forall. intros k Hk.
        rewrite Forall_forall in Hggs.
        eapply tree_at_frame; [| by apply Hggs].
        intros n Hn.
        assert (Hnin : n ∈ flat_map refs ggs).
        { apply elem_of_flat_map. by exists k. }
        assert (Hnb : n ∈ flat_map refs gs).
        { apply elem_of_flat_map. exists (Sh g ggs). split; [done |].
          simpl. by right. }
        apply Hframe.
        -- intros ->. apply HP. eapply refs_of_kid; [done |]. simpl. by right.
        -- intros Hncs. unfold cs in Hncs.
           change (map root_of gs) with (root_of <$> gs) in Hncs.
           apply list_elem_of_fmap in Hncs as (s & -> & Hs).
           apply list_elem_of_lookup in Hs as [j1 Hj1].
           apply list_elem_of_lookup in Hg as [j2 Hj2].
           destruct (decide (j1 = j2)) as [-> | Hne12].
           ++ assert (s = Sh g ggs) by congruence. subst s. simpl in Hnin.
              assert (Hndg' : NoDup (refs (Sh g ggs))).
              { eapply (NoDup_kid gs b j2); [exact Hndb | done]. }
              simpl in Hndg'. by apply NoDup_cons in Hndg' as [? _].
           ++ eapply (refs_disjoint gs j1 j2 s (Sh g ggs) (root_of s));
                eauto; [destruct s; left | simpl; by right].
  - intros g gb Hg Hgb. rewrite (Hmoved' g gb Hg Hgb). by rewrite Hmoved.
  - done.
Qed.

Lemma excise_moves_the_children_up_witness :
  ∃ h', Branch.excise 2 uneven = Ok 0 h'
        ∧ tree_at h' None (Sh 0 (delete 1 [Sh 1 []; Sh 2 [Sh 3 []; Sh 4 []]]
                                   ++ [Sh 3 []; Sh 4 []]))
        ∧ (∀ g gb, g ∈ map root_of [Sh 3 []; Sh 4 []] → uneven !! g = Some gb →
                   h' !! g
                   = Some (Br.set_parent (Some 0)
                             (Br.set_length
                                (Br.length gb
                                 + Br.length (Br.Mk "" 5 (Some 0) [3; 4] 0 0 1))
                                gb)))
        ∧ (∀ n, n ≠ 0 → n ∉ map root_of [Sh 3 []; Sh 4 []] →
                h' !! n = uneven !! n).
Proof.
  apply (excise_moves_the_children_up uneven None 0
           [Sh 1 []; Sh 2 [Sh 3 []; Sh 4 []]] 1 2 [Sh 3 []; Sh 4 []]
           (Br.Mk "" 5 (Some 0) [3; 4] 0 0 1)).
  - exact uneven_tree.
  - exact uneven_NoDup.
  - reflexivity.
  - reflexivity.
Defined.

(** * reroot *)

Lemma forEach_cons f x l h :
  Branch.forEach f (x :: l) h = bind (f x) (fun _ => Branch.forEach f l) h.
Proof. reflexivity. Qed.

Lemma along_below (path : list nat) : ∀ t l x,
  along t path = Some l → x ∈ l → x ∈ flat_map refs (kids_of t).
Proof.
  induction path as [|i path IH]; intros t l x Hl Hx; simpl in Hl.
  - injection Hl as <-. by apply elem_of_nil in Hx.
  - destruct (kids_of t !! i) as [k|] eqn:Hk; [| done].
    destruct (along k path) as [l'|] eqn:Hl'; [| done].
    injection Hl as <-. eapply refs_of_kid; [exact Hk |].
    apply elem_of_cons in Hx as [-> | Hx]; [destruct k; left |].
    destruct k as [c cks]. simpl. right. by apply (IH (Sh c cks) l').
Qed.

Lemma along_more_kids (path : list nat) c cks extra l :
  along (Sh c cks) path = Some l → along (Sh c (cks ++ extra)) path = Some l.
Proof.
  destruct path as [|i path]; [done |]. simpl.
  destruct (cks !! i) as [k|] eqn:Hk; [| done].
  by rewrite (lookup_app_l_Some _ _ _ _ Hk).
Qed.

(** [invert()] on a child of the root of a valid tree: the child is the
    root of a valid tree, its old parent its last child. *)
Lemma invert_child_of_root h r ks i c cks :
  valid_tree h (Sh r ks) → ks !! i = Some (Sh c cks) →
  ∃ h', Branch.invert c h = Ok c h'
        ∧ valid_tree h' (Sh c (cks ++ [Sh r (delete i ks)]))
        ∧ length_of h' c = length_of h r
        ∧ length_of h' r = length_of h c
        ∧ (∀ m, m ≠ c → m ≠ r → h' !! m = h !! m)
        ∧ (∀ m, (Br.id <$> h' !! m) = (Br.id <$> h !! m)).
Proof.
  intros [Ht Hnd] Hi.
  inversion Ht as [? ? ? rb Hrb Hrp Hrc Hks]; subst.
  pose proof Hnd as Hnd'. simpl in Hnd'.
  apply NoDup_cons in Hnd' as [Hr Hndk].
  pose proof (proj1 (Forall_lookup _ _) Hks i _ Hi) as Htc.
  inversion Htc as [? ? ? cb Hcb Hcp Hcc Hcks]; subst.
  assert (Hcin : c ∈ flat_map refs ks) by (eapply refs_of_kid; [done | left]).
  assert (Hrc' : r ≠ c) by (by intros ->).
  assert (Hndc : NoDup (refs (Sh c cks))) by (by eapply NoDup_kid).
  pose proof Hndc as Hndc'. simpl in Hndc'.
  apply NoDup_cons in Hndc' as [Hcout Hndcks].
  destruct (invert_at h c r i cb rb Hcb Hcp Hrb Hrc')
    as (h' & Hrun & Hc' & Hr' & Hframe).
  { rewrite Hrc. by apply NoDup_roots. }
  { rewrite Hrc. change (map root_of ks) with (root_of <$> ks).
    by rewrite list_lookup_fmap, Hi. }
  pose proof (flat_map_refs_middle ks i _ Hi) as Hmid.
  exists h'. split; [done |]. split; [split |].
  - eapply tree_at_node; [exact Hc' | done | |].
    + simpl. by rewrite Hcc, map_app.
    + apply Forall_app. split.
      * apply Forall_forall. intros k Hk. rewrite Forall_forall in Hcks.
        eapply tree_at_frame; [| by apply Hcks].
        intros m Hm.
        assert (Hmin : m ∈ flat_map refs cks).
        { apply elem_of_flat_map. by exists k. }
        apply Hframe; [by intros -> |].
        intros ->. apply Hr. eapply refs_of_kid; [done |]. simpl. by right.
      * constructor; [| constructor].
        eapply tree_at_node; [exact Hr' | done | |].
        -- simpl. by rewrite Hrc, map_root_delete.
        -- apply Forall_forall. intros k Hk.
           apply elem_of_delete_lookup in Hk as (j & Hji & Hj).
           eapply tree_at_frame;
             [| by eapply (proj1 (Forall_lookup _ _) Hks j)].
           intros m Hm. apply Hframe.
           ++ intros ->. eapply (refs_disjoint ks j i); eauto. left.
           ++ intros ->. by eapply Hr, refs_of_kid.
  - eapply (submseteq_NoDup _ (r :: flat_map refs ks)); [| exact Hnd].
    simpl. rewrite flat_map_app. simpl. rewrite app_nil_r.
    rewrite flat_map_refs_delete, Hmid. simpl.
    apply Permutation_submseteq.
    etransitivity; [| apply perm_skip, Permutation_middle].
    etransitivity; [apply perm_skip; symmetry; apply Permutation_middle |].
    etransitivity; [apply Permutation_swap |].
    do 2 apply perm_skip. apply Permutation_app_swap_app.
  - unfold length_of. rewrite Hc', Hr', Hrb, Hcb. simpl.
    split; [done |]. split; [done |]. split; [done |].
    intros m. destruct (decide (m = c)) as [-> | Hmc].
    { by rewrite Hc', Hcb. }
    destruct (decide (m = r)) as [-> | Hmr].
    { by rewrite Hr', Hrb. }
    by rewrite Hframe.
Qed.

Lemma last_cons_default {A} (l : list A) a d : List.last (a :: l) d = List.last l a.
Proof.
  revert a d. induction l as [|b l IH]; intros a d; [done |].
  change (List.last (a :: b :: l) d) with (List.last (b :: l) d).
  by rewrite !IH.
Qed.

(** The inversions of [reroot], from the child of the root down to the
    Branch asked for. *)
Lemma inversions_turn (path : list nat) : ∀ t h l,
  valid_tree h t → along t path = Some l →
  ∃ h', Branch.forEach (fun c => do Branch.invert c in ret tt) l h = Ok tt h'
        ∧ valid_tree h' (rerooted t path)
        ∧ root_of (rerooted t path) = List.last l (root_of t)
        ∧ map (length_of h') (root_of t :: l)
          = map (length_of h) (l ++ [root_of t])
        ∧ (∀ m, m ∉ root_of t :: l → h' !! m = h !! m)
        ∧ (∀ m, (Br.id <$> h' !! m) = (Br.id <$> h !! m)).
Proof.
  induction path as [|i path IH]; intros t h l Hv Hl; simpl in Hl.
  - injection Hl as <-. exists h. by simpl.
  - destruct t as [r ks]. simpl in Hl.
    destruct (ks !! i) as [[c cks]|] eqn:Hi; [| done].
    destruct (along (Sh c cks) path) as [l'|] eqn:Hl'; [| done].
    injection Hl as <-. simpl root_of.
    pose proof Hv as [Ht Hnd]. simpl in Hnd.
    apply NoDup_cons in Hnd as [Hr Hndk].
    assert (Hndc : NoDup (refs (Sh c cks))).
    { eapply (NoDup_kid ks r i); [| done]. by destruct Hv. }
    simpl in Hndc. apply NoDup_cons in Hndc as [Hcout _].
    assert (Hbelow : ∀ x, x ∈ l' → x ∈ flat_map refs cks).
    { intros x Hx. by apply (along_below path (Sh c cks) l'). }
    assert (Hxc : ∀ x, x ∈ l' → x ≠ c).
    { intros x Hx ->. by apply Hcout, Hbelow. }
    assert (Hxr : ∀ x, x ∈ l' → x ≠ r).
    { intros x Hx ->. apply Hr. eapply refs_of_kid; [done |].
      simpl. right. by apply Hbelow. }
    assert (Hrc : r ≠ c).
    { intros ->. apply Hr. eapply refs_of_kid; [done | left]. }
    destruct (invert_child_of_root h r ks i c cks Hv Hi)
      as (h1 & Hinv & Hv1 & Hlc & Hlr & Hframe1 & Hid1).
    destruct (IH (Sh c (cks ++ [Sh r (delete i ks)])) h1 l' Hv1
                (along_more_kids _ _ _ _ _ Hl'))
      as (h' & Hrun & Hv' & Hroot & Hlen & Hframe & Hid).
    simpl root_of in *.
    exists h'. split; [| split; [| split; [| split; [| split]]]].
    + rewrite forEach_cons, bind_assoc, (bind_Ok _ _ _ _ _ Hinv).
      by rewrite bind_ret.
    + simpl. by rewrite Hi.
    + rewrite last_cons_default. simpl. by rewrite Hi.
    + change (map (length_of h') (r :: c :: l'))
        with (length_of h' r :: map (length_of h') (c :: l')).
      rewrite Hlen, !map_app. simpl. f_equal.
      * unfold length_of at 1. rewrite Hframe; [exact Hlr |].
        rewrite not_elem_of_cons. split; [done |].
        intros Hin. by apply (Hxr r).
      * f_equal; [| by rewrite Hlc].
        apply map_ext_in. intros x Hx. apply list_elem_of_In in Hx.
        unfold length_of. by rewrite Hframe1; [| apply Hxc | apply Hxr].
    + intros m Hm. apply not_elem_of_cons in Hm as [Hmr Hm].
      rewrite Hframe by done. apply not_elem_of_cons in Hm as [Hmc _].
      by apply Hframe1.
    + intros m. by rewrite Hid.
Qed.

Lemma reroot_collect_climbs (path : list nat) : ∀ t h p l acc f,
  tree_at h p t → along t path = Some l →
  Branch.reroot_collect (List.length path + f) (List.last l (root_of t)) acc h
  = Branch.reroot_collect f (root_of t) (acc ++ rev l) h.
Proof.
  induction path as [|i path IH]; intros t h p l acc f Ht Hl; simpl in Hl.
  - injection Hl as <-. simpl. by rewrite app_nil_r.
  - destruct t as [r ks]. simpl in Hl.
    destruct (ks !! i) as [k|] eqn:Hi; [| done].
    destruct (along k path) as [l'|] eqn:Hl'; [| done].
    injection Hl as <-. simpl root_of.
    inversion Ht as [? ? ? rb Hrb Hrp Hrc Hks]; subst.
    pose proof (proj1 (Forall_lookup _ _) Hks i _ Hi) as Htk.
    destruct (tree_at_root _ _ _ Htk) as (kb & Hkb & Hkp & _).
    rewrite last_cons_default.
    replace (List.length (i :: path) + f) with (List.length path + S f)
      by (simpl; lia).
    rewrite (IH k h (Some r) l' acc (S f) Htk Hl'). simpl.
    by rewrite (bind_get _ _ _ _ Hkb), Hkp, <- app_assoc.
Qed.

Lemma length_of_same_core h h' n :
  same_core h h' → length_of h' n = length_of h n.
Proof.
  intros Hs. unfold length_of. pose proof (Hs n) as Hn.
  destruct (h' !! n) as [b'|], (h !! n) as [b|]; try done.
  simpl in Hn. by injection Hn as _ -> _ _.
Qed.

(** [reroot()] on the Branch reached from the root along [path]: the
    Branches met on the way are inverted from the top, so the Branch ends up
    as the root of a valid tree in which each of them has its old parent as
    its last child.  Along the path every length moves to the other end of
    its edge: each old parent takes the length of the child that was on the
    path, and the new root takes that of the old root.  Off the path no id,
    length or link is written, and no id anywhere. *)
Theorem reroot_turns_the_path_over
        (fuel : nat) (h : heap) (t : shape) (path : list nat) (l : list ref) :
  valid_tree h t →
  along t path = Some l →
  List.length path < fuel →
  levels (rerooted t path) ≤ fuel →
  ∃ h', Branch.reroot fuel (List.last l (root_of t)) h
        = Ok (List.last l (root_of t)) h'
        ∧ valid_tree h' (rerooted t path)
        ∧ root_of (rerooted t path) = List.last l (root_of t)
        ∧ map (length_of h') (root_of t :: l)
          = map (length_of h) (l ++ [root_of t])
        ∧ (∀ m, m ∉ root_of t :: l → (core <$> h' !! m) = (core <$> h !! m))
        ∧ (∀ m, (Br.id <$> h' !! m) = (Br.id <$> h !! m)).
Proof.
  intros Hv Hl Hpath Hfuel. pose proof Hv as [Ht _].
  destruct (inversions_turn path t h l Hv Hl)
    as (h1 & Hrun & Hv1 & Hroot & Hlen & Hframe & Hid).
  pose proof Hv1 as [_ Hnd1].
  destruct (fixDistances_walks fuel h1 (rerooted t path) Hv1 Hfuel)
    as (h2 & Hfix & Ht2 & _ & _).
  rewrite Hroot in Hfix.
  destruct (fixDistances_core _ _ _ _ _ Hfix) as [Hcore _].
  assert (Hcollect : Branch.reroot_collect fuel (List.last l (root_of t)) [] h
                     = Ok (rev l) h).
  { replace fuel with (List.length path + S (fuel - S (List.length path)))
      by lia.
    rewrite (reroot_collect_climbs path t h None l [] _ Ht Hl).
    destruct (tree_at_root _ _ _ Ht) as (rb & Hrb & Hrp & _). simpl.
    by rewrite (bind_get _ _ _ _ Hrb), Hrp. }
  exists h2. split; [| split; [done | split; [done | split; [| split]]]].
  - unfold Branch.reroot. rewrite (bind_Ok _ _ _ _ _ Hcollect), rev_involutive.
    by rewrite (bind_Ok _ _ _ _ _ Hrun).
  - rewrite <- Hlen. apply map_ext. intros n.
    by apply length_of_same_core.
  - intros m Hm. by rewrite Hcore, Hframe.
  - intros m. rewrite <- Hid. pose proof (Hcore m) as Hc.
    destruct (h2 !! m) as [b2|], (h1 !! m) as [b1|]; try done.
    simpl in *. by injection Hc as -> _ _ _.
Qed.

Lemma reroot_turns_the_path_over_witness :
  ∃ h', Branch.reroot 5 (List.last [2; 3] (root_of uneven_shape)) uneven
        = Ok (List.last [2; 3] (root_of uneven_shape)) h'
        ∧ valid_tree h' (rerooted uneven_shape [1; 0])
        ∧ root_of (rerooted uneven_shape [1; 0])
          = List.last [2; 3] (root_of uneven_shape)
        ∧ map (length_of h') (root_of uneven_shape :: [2; 3])
          = map (length_of uneven) ([2; 3] ++ [root_of uneven_shape])
        ∧ (∀ m, m ∉ root_of uneven_shape :: [2; 3] →
                (core <$> h' !! m) = (core <$> uneven !! m))
        ∧ (∀ m, (Br.id <$> h' !! m) = (Br.id <$> uneven !! m)).
Proof.
  apply (reroot_turns_the_path_over 5 uneven uneven_shape [1; 0] [2; 3]).
  - exact uneven_valid.
  - reflexivity.
  - simpl. lia.
  - simpl. lia.
Defined.

(** * Neighbor joining: the whole run *)

Lemma nth_insert_eq {A} (l : list A) i x d :
  i < List.length l → nth i (<[i := x]> l) d = x.
Proof. intros Hi. by rewrite nth_lookup, list_lookup_insert_eq. Qed.

Lemma nth_insert_ne {A} (l : list A) i j x d :
  i ≠ j → nth j (<[i := x]> l) d = nth j l d.
Proof. intros Hne. by rewrite !nth_lookup, list_lookup_insert_ne. Qed.

Lemma nth_Some {A} (l : list A) i x d :
  l !! i = Some x → nth i l d = x.
Proof. intros Hx. by rewrite nth_lookup, Hx. Qed.

Lemma recalculate_fields t a b :
  That.N (recalculateDistanceMatrix t a b) = That.N t
  ∧ That.labels (recalculateDistanceMatrix t a b) = That.labels t
  ∧ That.currIndexToLabel (recalculateDistanceMatrix t a b)
    = That.currIndexToLabel t
  ∧ That.labelToNode (recalculateDistanceMatrix t a b) = That.labelToNode t
  ∧ That.nextIndex (recalculateDistanceMatrix t a b) = That.nextIndex t
  ∧ That.I (recalculateDistanceMatrix t a b) = That.I t
  ∧ That.removedIndices (recalculateDistanceMatrix t a b)
    = That.removedIndices t ++ [a]
  ∧ That.indicesLeft (recalculateDistanceMatrix t a b)
    = filter (fun i => negb (Nat.eqb i a)) (That.indicesLeft t).
Proof.
  unfold recalculateDistanceMatrix.
  destruct (fold_left (recalc_first t a b) _ _) as [[newRow rowChange] sum].
  destruct (fold_left _ _ _) as [[D rowSums] newMax]. by conjuncts.
Qed.

Lemma recalculate_square t a b n :
  square n (That.D t) → List.length (That.newRow t) = n →
  a < n → b < n → a ≠ b →
  square n (That.D (recalculateDistanceMatrix t a b))
  ∧ List.length (That.newRow (recalculateDistanceMatrix t a b)) = n.
Proof.
  intros Hsq Hlen Ha Hb Hne.
  assert (HlenD : List.length (That.D t) = n) by (by destruct Hsq).
  destruct (recalc_first_row t a b n n) as (nr & rc & s & Hrun1 & Hnr & Hrow);
    [lia | done |].
  destruct (recalc_second_cells t a b n nr rc n)
    as (D & rs & nm & Hrun2 & HsqD & _); try done.
  unfold recalculateDistanceMatrix. rewrite HlenD, Hrun1, Hrun2. by simpl.
Qed.

Lemma sortWithIndices_elems toSort skip c :
  c ∈ snd (sortWithIndices toSort skip) →
  c ≠ skip ∧ c < List.length toSort.
Proof.
  unfold sortWithIndices. cbn [snd].
  rewrite sort_by_perm, list_elem_of_filter, elem_of_seq.
  rewrite andb_True, !negb_True. intros [[_ Hne] Hlt]. split; [| lia].
  intros ->. apply Hne. by rewrite Nat.eqb_refl.
Qed.

(** ** The Branches of the earlier joins *)

Lemma keeps_children_refl h : keeps_children h h.
Proof. by split. Qed.

Lemma keeps_children_trans h1 h2 h3 :
  keeps_children h1 h2 → keeps_children h2 h3 → keeps_children h1 h3.
Proof.
  intros [Hl12 H12] [Hl23 H23]. split; [lia |].
  intros m Hm. rewrite H23 by lia. by apply H12.
Qed.

Lemma keeps_children_alloc h b : keeps_children h (h ++ [b]).
Proof.
  split; [rewrite length_app; simpl; lia |].
  intros m Hm. by rewrite lookup_app_l.
Qed.

Lemma keeps_children_set_length h n b d :
  h !! n = Some b → keeps_children h (<[n := Br.set_length d b]> h).
Proof.
  intros Hb. split; [by rewrite length_insert |]. intros m Hm.
  destruct (decide (m = n)) as [-> | Hne].
  - by rewrite (lookup_insert_same _ _ _ _ Hb), Hb.
  - by rewrite list_lookup_insert_ne.
Qed.

Lemma lists_tree_keeps h h1 t :
  keeps_children h h1 → (∀ m, m ∈ refs t → m < List.length h) →
  lists_tree h t → lists_tree h1 t.
Proof.
  intros [Hlen Hkeep]. induction t as [r ks IH] using shape_ind'.
  intros Hin Ht. inversion Ht as [? ? b Hb Hc Hks]; subst.
  assert (Hr : r < List.length h) by (apply Hin; left).
  pose proof (Hkeep r Hr) as Heq. rewrite Hb in Heq.
  destruct (h1 !! r) as [b1|] eqn:Hb1; [| done].
  simpl in Heq. injection Heq as Heq.
  apply lists_tree_node with b1; [done | congruence |].
  rewrite Forall_forall in IH, Hks. apply Forall_forall. intros k Hk.
  apply IH; [done | | by apply Hks].
  intros m Hm. apply Hin. right. apply elem_of_flat_map. by exists k.
Qed.

Lemma grown_keeps that that1 h h1 forest :
  grown that h forest → keeps_children h h1 →
  That.N that1 = That.N that → That.cN that1 ≤ That.cN that →
  (∀ k, k < List.length forest →
        nth (That.N that + k) (That.labelToNode that1) None
        = nth (That.N that + k) (That.labelToNode that) None) →
  grown that1 h1 forest.
Proof.
  intros Hg Hkeep HN HcN Hnodes k t Hk.
  destruct (Hg k t Hk) as (Hn & Ht & Hnd & Hin & Hlv).
  rewrite HN. split; [| split; [| split; [| split]]].
  - rewrite Hnodes; [done |]. by eapply lookup_lt_Some.
  - by eapply lists_tree_keeps.
  - done.
  - intros m Hm. destruct Hkeep as [Hlen _]. apply Hin in Hm. lia.
  - lia.
Qed.

(** ** setUpNode *)

Lemma setUpNode_node that l d h n b :
  (Z.of_nat (That.N that) ≤ l)%Z →
  nth (Z.to_nat l) (That.labelToNode that) None = Some n →
  h !! n = Some b →
  setUpNode that l d h = Ok (n, that) (<[n := Br.set_length d b]> h).
Proof.
  intros Hl Hn Hb. unfold setUpNode.
  destruct (Z.ltb_spec l (Z.of_nat (That.N that))); [lia |].
  rewrite Hn. unfold Branch.setLength.
  by rewrite bind_assoc, (bind_modify _ _ _ _ _ Hb).
Qed.

Lemma with_node_nodes that l n k :
  (l < Z.of_nat (That.N that))%Z → That.N that ≤ k →
  nth k (That.labelToNode (with_node that l n)) None
  = nth k (That.labelToNode that) None.
Proof.
  intros Hl Hk. simpl. unfold set_node.
  destruct (Z.ltb_spec l 0); [done |]. apply nth_insert_ne. lia.
Qed.

(** The node of a label below [nextIndex]: a new leaf, or the Branch of an
    earlier join with the shape the forest has for it. *)
Lemma setUpNode_live that h forest l d :
  grown that h forest → That.cN that ≤ That.N that →
  (l < Z.of_nat (That.N that + List.length forest))%Z →
  ∃ n that1 h1 b t,
    setUpNode that l d h = Ok (n, that1) h1
    ∧ h1 !! n = Some b ∧ (Br.length b == d)%Q
    ∧ root_of t = n
    ∧ lists_tree h1 t ∧ NoDup (refs t)
    ∧ (∀ m, m ∈ refs t → m < List.length h1)
    ∧ levels t + That.cN that ≤ S (That.N that)
    ∧ keeps_children h h1
    ∧ (∀ m, m < List.length h → m ≠ n → h1 !! m = h !! m)
    ∧ grown that1 h1 forest
    ∧ same_but_nodes that that1
    ∧ node_of_label that h h1 l n
    ∧ (((l < Z.of_nat (That.N that))%Z
        ∧ t = Sh (List.length h) []
        ∧ List.length h1 = S (List.length h))
       ∨ ((∃ k, l = Z.of_nat (That.N that + k) ∧ forest !! k = Some t)
          ∧ List.length h1 = List.length h)).
Proof.
  intros Hg HcN Hl.
  destruct (Z.ltb_spec l (Z.of_nat (That.N that))) as [Hlt | Hge].
  - exists (List.length h), (with_node that l (List.length h)),
      (h ++ [leaf_for that l d]), (leaf_for that l d), (Sh (List.length h) []).
    assert (Hk : keeps_children h (h ++ [leaf_for that l d]))
      by apply keeps_children_alloc.
    assert (Hleaf : (h ++ [leaf_for that l d]) !! List.length h
                    = Some (leaf_for that l d))
      by (by apply list_lookup_middle).
    split; [by apply setUpNode_leaf |]. split; [done |].
    split; [apply or_zero_eq |]. split; [done |].
    split; [by apply lists_tree_node with (leaf_for that l d) |].
    split; [simpl; apply NoDup_singleton |].
    split.
    { intros m Hm. simpl in Hm. apply list_elem_of_singleton in Hm as ->.
      rewrite length_app. simpl. lia. }
    split; [simpl; lia |]. split; [done |].
    split; [intros m Hm _; by apply lookup_app_l |].
    split.
    { eapply grown_keeps; [exact Hg | done | done | done |].
      intros k _. apply with_node_nodes; [done | lia]. }
    split.
    { unfold same_but_nodes. do 11 (split; [done |]). split.
      - simpl. unfold set_node. destruct (l <? 0)%Z; [done |].
        by rewrite length_insert.
      - intros k' Hk'. by apply with_node_nodes. }
    split.
    + unfold node_of_label.
      destruct (Z.ltb_spec l (Z.of_nat (That.N that))); [| lia].
      by rewrite Hleaf.
    + left. split; [done |]. split; [done |].
      rewrite length_app. simpl. lia.
  - assert (Hk : ∃ k, l = Z.of_nat (That.N that + k) ∧ k < List.length forest).
    { exists (Z.to_nat l - That.N that). lia. }
    destruct Hk as (k & -> & Hk).
    destruct (lookup_lt_is_Some_2 forest k Hk) as [t Ht].
    destruct (Hg k t Ht) as (Hn & Hlt & Hnd & Hin & Hlv).
    assert (Hroot : root_of t < List.length h).
    { apply Hin. destruct t. left. }
    destruct (lookup_lt_is_Some_2 h _ Hroot) as [b Hb].
    assert (Hkeep : keeps_children h (<[root_of t := Br.set_length d b]> h))
      by (by apply keeps_children_set_length).
    exists (root_of t), that, (<[root_of t := Br.set_length d b]> h),
      (Br.set_length d b), t.
    split; [apply setUpNode_node; [lia | by rewrite Nat2Z.id | done] |].
    split; [by eapply lookup_insert_same |]. split; [reflexivity |].
    split; [done |]. split; [by eapply lists_tree_keeps |].
    split; [done |].
    split; [intros m Hm; rewrite length_insert; by apply Hin |].
    split; [done |]. split; [done |].
    split; [intros m _ Hm; by rewrite list_lookup_insert_ne |].
    split; [by eapply grown_keeps |].
    split; [unfold same_but_nodes; by conjuncts |]. split.
    + unfold node_of_label.
      destruct (Z.ltb_spec (Z.of_nat (That.N that + k)) (Z.of_nat (That.N that)));
        [lia |].
      by rewrite Nat2Z.id.
    + right. split; [by exists k |]. by rewrite length_insert.
Qed.

Lemma same_but_nodes_trans a b c :
  same_but_nodes a b → same_but_nodes b c → same_but_nodes a c.
Proof.
  unfold same_but_nodes.
  intros (H1 & H2 & H3 & H4 & H5 & H6 & H7 & H8 & H9 & H10 & H11 & H12 & H13)
         (G1 & G2 & G3 & G4 & G5 & G6 & G7 & G8 & G9 & G10 & G11 & G12 & G13).
  do 12 (split; [congruence |]).
  intros k Hk. rewrite G13 by lia. by apply H13.
Qed.

(** ** One turn of the loop *)

Lemma join_step_runs that h i j n1 that1 h1 n2 that2 h2 :
  search that = (Z.of_nat i, Z.of_nat j) →
  setUpNode that (nth i (That.currIndexToLabel that) 0%Z) (join_d1 that i j) h
  = Ok (n1, that1) h1 →
  setUpNode that1 (nth j (That.currIndexToLabel that) 0%Z) (join_d2 that i j) h1
  = Ok (n2, that2) h2 →
  join_step that h
  = Ok (joined that2 i j (List.length h2))
       (h2 ++ [Br.Mk "" 0 None [n1; n2] 0 0 1]).
Proof.
  intros Hs H1 H2. unfold join_step. rewrite Hs.
  destruct (Z.ltb_spec (Z.of_nat i) 0) as [Hneg | _]; [lia |].
  rewrite !Nat2Z.id.
  rewrite (bind_Ok _ _ _ _ _ H1). cbv beta. simpl snd. simpl fst.
  rewrite (bind_Ok _ _ _ _ _ H2). cbv beta. simpl snd. simpl fst.
  rewrite (bind_Ok _ _ _ _ _ (new_Ok _ h2)). reflexivity.
Qed.

Lemma join_step_fails that h :
  search that = ((-1)%Z, (-1)%Z) →
  join_step that h
  = Throw (TypeError "Cannot read properties of undefined (reading '-1')") h.
Proof. intros Hs. unfold join_step. by rewrite Hs. Qed.

Lemma joined_fields that i j n3 :
  That.N (joined that i j n3) = That.N that
  ∧ That.cN (joined that i j n3) = That.cN that - 1
  ∧ That.labels (joined that i j n3) = That.labels that
  ∧ That.currIndexToLabel (joined that i j n3)
    = <[j := Z.of_nat (That.nextIndex that)]>
        (<[i := (-1)%Z]> (That.currIndexToLabel that))
  ∧ That.labelToNode (joined that i j n3)
    = <[That.nextIndex that := Some n3]> (That.labelToNode that)
  ∧ That.nextIndex (joined that i j n3) = S (That.nextIndex that)
  ∧ That.I (joined that i j n3)
    = <[i := []]>
        (<[j := snd (sortWithIndices
                       (nth j (That.D (recalculateDistanceMatrix that i j)) [])
                       j)]> (That.I that))
  ∧ That.D (joined that i j n3) = That.D (recalculateDistanceMatrix that i j)
  ∧ That.newRow (joined that i j n3)
    = That.newRow (recalculateDistanceMatrix that i j)
  ∧ That.removedIndices (joined that i j n3) = That.removedIndices that ++ [i]
  ∧ That.indicesLeft (joined that i j n3)
    = filter (fun k => negb (Nat.eqb k i)) (That.indicesLeft that).
Proof.
  destruct (recalculate_fields that i j)
    as (HN & Hlab & Hcur & Hnodes & Hnext & HI & Hrem & Hleft).
  unfold joined. cbn [That.N That.cN That.labels That.currIndexToLabel
    That.labelToNode That.nextIndex That.I That.D That.newRow
    That.removedIndices That.indicesLeft].
  rewrite HN, Hlab, Hcur, Hnodes, Hnext, HI, Hrem, Hleft, recalculate_cN.
  by conjuncts.
Qed.

Lemma lookup_nth {A} (l : list A) i d :
  i < List.length l → l !! i = Some (nth i l d).
Proof.
  intros Hi. destruct (lookup_lt_is_Some_2 l i Hi) as [x Hx].
  by rewrite (nth_Some _ _ _ _ Hx).
Qed.

Lemma elem_nth_insert {A} (l : list (list A)) i x r c :
  c ∈ nth r (<[i := x]> l) [] → (r = i ∧ c ∈ x) ∨ c ∈ nth r l [].
Proof.
  destruct (decide (i = r)) as [-> | Hne].
  - destruct (decide (r < List.length l)) as [Hlt | Hge].
    + rewrite nth_insert_eq by done. by left.
    + rewrite list_insert_ge by lia. by right.
  - rewrite nth_insert_ne by done. by right.
Qed.

Lemma has_app s i k : has (s ++ [i]) k = has s k || Nat.eqb k i.
Proof. unfold has. rewrite existsb_app. simpl. by rewrite orb_false_r. Qed.

Lemma filter_out_absent (l : list nat) i :
  i ∉ l → filter (fun k => negb (Nat.eqb k i)) l = l.
Proof.
  induction l as [|x l IH]; intros Hi; [done |].
  apply not_elem_of_cons in Hi as [Hne Hi].
  rewrite filter_cons. destruct (decide _) as [_ | Hn].
  - by rewrite IH.
  - destruct Hn. apply negb_True. rewrite Is_true_true.
    intros Heq. apply Nat.eqb_eq in Heq. congruence.
Qed.

Lemma length_filter_out (l : list nat) i :
  NoDup l → i ∈ l →
  S (List.length (filter (fun k => negb (Nat.eqb k i)) l)) = List.length l.
Proof.
  induction 1 as [|x l Hx Hnd IH]; intros Hi; [by inversion Hi |].
  rewrite filter_cons. destruct (decide _) as [Hk | Hn].
  - apply negb_True in Hk. rewrite Is_true_true in Hk.
    apply elem_of_cons in Hi as [-> | Hi].
    + destruct Hk. apply Nat.eqb_refl.
    + simpl. by rewrite IH.
  - assert (x = i) as ->.
    { destruct (decide (x = i)) as [|Hne]; [done |]. destruct Hn.
      apply negb_True. rewrite Is_true_true. intros Heq.
      apply Nat.eqb_eq in Heq. congruence. }
    simpl. by rewrite filter_out_absent.
Qed.

Lemma root_in_refs t : root_of t ∈ refs t.
Proof. destruct t. left. Qed.

Lemma node_of_label_keeps that h ha hb l n :
  node_of_label that h ha l n →
  (Br.id <$> hb !! n) = (Br.id <$> ha !! n) →
  (Br.children <$> hb !! n) = (Br.children <$> ha !! n) →
  node_of_label that h hb l n.
Proof.
  unfold node_of_label. intros Hn Hid Hch.
  destruct (l <? Z.of_nat (That.N that))%Z; [| done]. by rewrite Hid, Hch.
Qed.

(** The two nodes of a join of the rows [i] and [j]: two Branches, each
    with the length asked for, over two shapes that share no Branch with
    each other or with the shape of any other row. *)
Lemma setUpNode_pair N that h forest i j d1 d2 :
  joining N that h forest → i < N → j < N → i ≠ j →
  ∃ n1 that1 h1 n2 that2 h2 b1 b2 t1 t2,
    setUpNode that (nth i (That.currIndexToLabel that) 0%Z) d1 h
    = Ok (n1, that1) h1
    ∧ setUpNode that1 (nth j (That.currIndexToLabel that) 0%Z) d2 h1
      = Ok (n2, that2) h2
    ∧ h2 !! n1 = Some b1 ∧ h2 !! n2 = Some b2
    ∧ (Br.length b1 == d1)%Q ∧ (Br.length b2 == d2)%Q
    ∧ n1 ≠ n2 ∧ root_of t1 = n1 ∧ root_of t2 = n2
    ∧ lists_tree h2 t1 ∧ lists_tree h2 t2
    ∧ NoDup (refs t1 ++ refs t2)
    ∧ (∀ m, m ∈ refs t1 ++ refs t2 → m < List.length h2)
    ∧ levels t1 + That.cN that ≤ S N
    ∧ levels t2 + That.cN that ≤ S N
    ∧ keeps_children h h2
    ∧ grown that2 h2 forest
    ∧ same_but_nodes that that2
    ∧ node_of_label that h h2 (nth i (That.currIndexToLabel that) 0%Z) n1
    ∧ node_of_label that h h2 (nth j (That.currIndexToLabel that) 0%Z) n2
    ∧ (∀ k a s m,
         k ≠ i → k ≠ j →
         That.currIndexToLabel that !! k = Some (Z.of_nat (N + a)) →
         forest !! a = Some s → m ∈ refs s → m ∉ refs t1 ++ refs t2).
Proof.
  intros Hjoining Hi Hj Hij.
  destruct Hjoining as [HN Hsq Hnew Hlab Hnext Hnodes Hflen Hbelow Hinj Hg
                         Hapart HI Hlnd Hllen Hleft].
  set (l1 := nth i (That.currIndexToLabel that) 0%Z).
  set (l2 := nth j (That.currIndexToLabel that) 0%Z).
  assert (Hl1 : That.currIndexToLabel that !! i = Some l1)
    by (apply lookup_nth; lia).
  assert (Hl2 : That.currIndexToLabel that !! j = Some l2)
    by (apply lookup_nth; lia).
  assert (HcNN : That.cN that ≤ That.N that) by lia.
  destruct (setUpNode_live that h forest l1 d1 Hg HcNN)
    as (n1 & that1 & h1 & b1 & t1 & Hrun1 & Hb1 & Hlen1 & Hroot1 & Hlt1 & Hnd1
        & Hin1 & Hlv1 & Hkeep1 & Hframe1 & Hg1 & Hsame1 & Hnode1 & Horigin1).
  { rewrite HN, Hflen. by eapply Hbelow. }
  pose proof Hsame1 as (HN1 & HcN1 & HD1 & Hlabels1 & Hcur1 & HnewRow1 & Hnext1
                        & HI1 & Hrem1 & Hleft1 & Hsums1 & Hlenn1 & Hnth1).
  destruct (setUpNode_live that1 h1 forest l2 d2 Hg1)
    as (n2 & that2 & h2 & b2 & t2 & Hrun2 & Hb2 & Hlen2 & Hroot2 & Hlt2 & Hnd2
        & Hin2 & Hlv2 & Hkeep2 & Hframe2 & Hg2 & Hsame2 & Hnode2 & Horigin2).
  { lia. }
  { rewrite HN1, HN, Hflen. by eapply Hbelow. }
  pose proof (same_but_nodes_trans _ _ _ Hsame1 Hsame2) as Hsame.
  destruct Hkeep1 as [Hgrow1 Hkids1]. destruct Hkeep2 as [Hgrow2 Hkids2].
  assert (Hkeep1 : keeps_children h h1) by done.
  assert (Hkeep2 : keeps_children h1 h2) by done.
  assert (Hold2 : ∀ k t, forest !! k = Some t → ∀ m, m ∈ refs t →
                         m < List.length h).
  { intros k t Hk. by destruct (Hg k t Hk) as (_ & _ & _ & Hin & _). }
  assert (Hdisj : ∀ m, m ∈ refs t1 → m ∉ refs t2).
  { intros m Hm1 Hm2.
    destruct Horigin1 as [(Hlow1 & Ht1 & Hlenh1) | ((k1 & Hk1 & Hf1) & Hlenh1)];
      destruct Horigin2 as [(Hlow2 & Ht2 & Hlenh2) | ((k2 & Hk2 & Hf2) & Hlenh2)].
    - rewrite Ht1 in Hm1. rewrite Ht2 in Hm2. simpl in Hm1, Hm2.
      apply list_elem_of_singleton in Hm1, Hm2. lia.
    - rewrite Ht1 in Hm1. simpl in Hm1. apply list_elem_of_singleton in Hm1.
      apply (Hold2 _ _ Hf2) in Hm2. lia.
    - rewrite Ht2 in Hm2. simpl in Hm2. apply list_elem_of_singleton in Hm2.
      apply (Hold2 _ _ Hf1) in Hm1. lia.
    - rewrite HN in Hk1. rewrite HN1, HN in Hk2.
      rewrite Hk1 in Hl1. rewrite Hk2 in Hl2.
      by apply (Hapart i j k1 k2 t1 t2 Hij Hl1 Hl2 Hf1 Hf2 m). }
  assert (Hne : n1 ≠ n2).
  { intros Heq. apply (Hdisj n1).
    - rewrite <- Hroot1. apply root_in_refs.
    - rewrite Heq, <- Hroot2. apply root_in_refs. }
  assert (Hn1lt : n1 < List.length h1) by (by eapply lookup_lt_Some).
  assert (Hn1_2 : h2 !! n1 = h1 !! n1) by (by apply Hframe2).
  exists n1, that1, h1, n2, that2, h2, b1, b2, t1, t2.
  split; [done |]. split; [done |]. split; [by rewrite Hn1_2 |].
  split; [done |]. split; [done |]. split; [done |]. split; [done |].
  split; [done |]. split; [done |].
  split; [by eapply lists_tree_keeps |]. split; [done |].
  split; [apply NoDup_app; by repeat split |].
  split.
  { intros m Hm. apply elem_of_app in Hm as [Hm | Hm].
    - apply Hin1 in Hm. lia.
    - by apply Hin2. }
  split; [by rewrite <- HN |].
  split; [by rewrite <- HN, <- HN1, <- HcN1 |].
  split; [by eapply keeps_children_trans |]. split; [done |].
  split; [done |]. split; [| split].
  - eapply node_of_label_keeps; [exact Hnode1 | |]; by rewrite Hn1_2.
  - unfold node_of_label in *. fold l2. fold l2 in Hnode2.
    rewrite HN1, Hlabels1 in Hnode2.
    destruct (Z.ltb_spec l2 (Z.of_nat (That.N that))) as [Hlow | Hhigh].
    + destruct Hnode2 as (Hge & Hid & Hch). split; [lia | done].
    + destruct Hnode2 as [Hn2 _]. rewrite Hnth1 in Hn2 by lia.
      split; [done |].
      destruct Horigin2 as [(Hlow & _) | ((k2 & Hk2 & Hf2) & _)]; [lia |].
      rewrite <- Hroot2. apply (Hold2 _ _ Hf2), root_in_refs.
  - intros k a s m Hki Hkj Hk Hs Hm Hm3.
    pose proof (Hold2 _ _ Hs _ Hm) as Hmlt.
    apply elem_of_app in Hm3 as [Hm3 | Hm3].
    + destruct Horigin1 as [(_ & Ht1 & _) | ((k1 & Hk1 & Hf1) & _)].
      * rewrite Ht1 in Hm3. simpl in Hm3.
        apply list_elem_of_singleton in Hm3. lia.
      * rewrite HN in Hk1. rewrite Hk1 in Hl1.
        by apply (Hapart k i a k1 s t1 Hki Hk Hl1 Hs Hf1 m).
    + destruct Horigin2 as [(_ & Ht2 & _) | ((k2 & Hk2 & Hf2) & _)].
      * rewrite Ht2 in Hm3. simpl in Hm3.
        apply list_elem_of_singleton in Hm3. lia.
      * rewrite HN1, HN in Hk2. rewrite Hk2 in Hl2.
        by apply (Hapart k j a k2 s t2 Hkj Hk Hl2 Hs Hf2 m).
Qed.

(** A turn of the loop on a pair of different rows below [N], the first not
    removed: it ends, it keeps what the loop keeps, and the two Branches it
    joins carry the two lengths. *)
Lemma join_step_keeps N that h forest i j :
  joining N that h forest → 2 < That.cN that →
  search that = (Z.of_nat i, Z.of_nat j) →
  i < N → j < N → i ≠ j →
  has (That.removedIndices that) i = false →
  ∃ that' h' t n1 n2 b1 b2,
    join_step that h = Ok that' h'
    ∧ joining N that' h' (forest ++ [t])
    ∧ node_of_label that h h' (nth i (That.currIndexToLabel that) 0%Z) n1
    ∧ node_of_label that h h' (nth j (That.currIndexToLabel that) 0%Z) n2
    ∧ n1 ≠ n2
    ∧ h' !! n1 = Some b1 ∧ h' !! n2 = Some b2
    ∧ (Br.length b1 == join_d1 that i j)%Q
    ∧ (Br.length b2 == join_d2 that i j)%Q
    ∧ h' !! root_of t = Some (Br.Mk "" 0 None [n1; n2] 0 0 1)
    ∧ List.length h ≤ root_of t
    ∧ nth (That.nextIndex that) (That.labelToNode that') None
      = Some (root_of t)
    ∧ nth j (That.currIndexToLabel that') 0%Z = Z.of_nat (That.nextIndex that)
    ∧ nth i (That.currIndexToLabel that') 0%Z = (-1)%Z
    ∧ That.cN that' = That.cN that - 1.
Proof.
  intros Hjoining HcN Hsearch Hi Hj Hij Hlive.
  destruct (setUpNode_pair N that h forest i j (join_d1 that i j)
              (join_d2 that i j) Hjoining Hi Hj Hij)
    as (n1 & that1 & h1 & n2 & that2 & h2 & b1 & b2 & t1 & t2 & Hrun1 & Hrun2
        & Hb1 & Hb2 & Hlen1 & Hlen2 & Hne & Hroot1 & Hroot2 & Hlt1 & Hlt2
        & Hnd12 & Hin12 & Hlv1 & Hlv2 & Hkeep & Hg2 & Hsame & Hnode1 & Hnode2
        & Hothers).
  destruct Hjoining as [HN Hsq Hnew Hlab Hnext Hnodes Hflen Hbelow Hinj Hg
                         Hapart HI Hlnd Hllen Hleft].
  pose proof Hsame as (HN2 & HcN2 & HD2 & Hlabels2 & Hcur2 & HnewRow2 & Hnext2
                       & HI2 & Hrem2 & Hleft2 & Hsums2 & Hlenn2 & Hnth2).
  set (n3 := List.length h2).
  set (b3 := Br.Mk "" 0 None [n1; n2] 0 0 1).
  set (h' := h2 ++ [b3]).
  set (t3 := Sh n3 [t1; t2]).
  set (that' := joined that2 i j n3).
  assert (Hkeep3 : keeps_children h2 h') by apply keeps_children_alloc.
  assert (Hn1lt : n1 < List.length h2) by (by eapply lookup_lt_Some).
  assert (Hn2lt : n2 < List.length h2) by (by eapply lookup_lt_Some).
  assert (Hn1' : h' !! n1 = h2 !! n1) by (by apply lookup_app_l).
  assert (Hn2' : h' !! n2 = h2 !! n2) by (by apply lookup_app_l).
  assert (Hn3' : h' !! n3 = Some b3) by (by apply list_lookup_middle).
  assert (Hlen' : List.length h' = S n3).
  { unfold h', n3. rewrite length_app. simpl. lia. }
  assert (Hrefs3 : refs t3 = n3 :: refs t1 ++ refs t2).
  { simpl. by rewrite app_nil_r. }
  assert (Ht3 : lists_tree h' t3).
  { apply lists_tree_node with b3; [done | by simpl; rewrite Hroot1, Hroot2 |].
    repeat constructor; eapply lists_tree_keeps; try done;
      intros m Hm; apply Hin12, elem_of_app; (by left) || (by right). }
  assert (Hnd3 : NoDup (refs t3)).
  { rewrite Hrefs3. apply NoDup_cons. split; [| done].
    intros Hin. apply Hin12 in Hin. unfold n3 in Hin. lia. }
  assert (Hin3 : ∀ m, m ∈ refs t3 → m < List.length h').
  { intros m Hm. rewrite Hrefs3 in Hm. rewrite Hlen'.
    apply elem_of_cons in Hm as [-> | Hm]; [lia |].
    apply Hin12 in Hm. unfold n3. lia. }
  destruct (joined_fields that2 i j n3)
    as (HN' & HcN' & Hlabels' & Hcur' & Hnodes' & Hnext' & HI' & HD' & HnewRow'
        & Hrem' & Hleft').
  fold that' in HN', HcN', Hlabels', Hcur', Hnodes', Hnext', HI', HD',
    HnewRow', Hrem', Hleft'.
  rewrite HN2 in HN'. rewrite HcN2 in HcN'. rewrite Hcur2 in Hcur'.
  rewrite Hnext2 in Hcur', Hnodes', Hnext'. rewrite HI2 in HI'.
  rewrite Hrem2 in Hrem'. rewrite Hleft2 in Hleft'.
  destruct (recalculate_square that2 i j N) as [Hsq' HnewRowLen'];
    [by rewrite HD2 | by rewrite HnewRow2 | done | done | done |].
  assert (Hnextlt : That.nextIndex that < List.length (That.labelToNode that2))
    by lia.
  exists that', h', t3, n1, n2, b1, b2.
  split; [by apply (join_step_runs that h i j n1 that1 h1 n2 that2 h2) |].
  conjuncts.
  - split.
    + by rewrite HN'.
    + by rewrite HD'.
    + by rewrite HnewRow'.
    + by rewrite Hcur', !length_insert.
    + rewrite Hnext', HcN'. lia.
    + by rewrite Hnodes', length_insert, Hlenn2.
    + rewrite Hnext', length_app. simpl. lia.
    + (* labels stay below nextIndex *)
      intros k l. rewrite Hcur', Hnext'.
      intros Hk. apply list_lookup_insert_Some in Hk
        as [(_ & <- & _) | (_ & Hk)]; [lia |].
      apply list_lookup_insert_Some in Hk as [(_ & <- & _) | (_ & Hk)]; [lia |].
      apply Hbelow in Hk. lia.
    + (* labels name one row each *)
      intros k1 k2 l. rewrite Hcur'. intros Hk1 Hk2 Hl.
      apply list_lookup_insert_Some in Hk1
        as [(<- & <- & _) | (Hk1j & Hk1)];
        apply list_lookup_insert_Some in Hk2
          as [(Hk2j & Hk2l & _) | (Hk2j & Hk2)]; try done.
      * apply list_lookup_insert_Some in Hk2
          as [(_ & Hk2l & _) | (_ & Hk2)]; [lia |].
        apply Hbelow in Hk2. lia.
      * subst l. apply list_lookup_insert_Some in Hk1
          as [(_ & Hk1l & _) | (_ & Hk1)]; [lia |].
        apply Hbelow in Hk1. lia.
      * apply list_lookup_insert_Some in Hk1
          as [(_ & <- & _) | (_ & Hk1)]; [lia |].
        apply list_lookup_insert_Some in Hk2
          as [(_ & Hk2l & _) | (_ & Hk2)]; [lia |].
        by eapply Hinj.
    + (* the forest *)
      assert (Hg' : grown that' h' forest).
      { eapply grown_keeps; [exact Hg2 | done | by rewrite HN', HN2
                             | rewrite HcN', HcN2; lia |].
        intros k Hk. rewrite Hnodes'. apply nth_insert_ne. lia. }
      intros k t Hk. apply lookup_app_Some in Hk as [Hk | [Hlen Hk]].
      { by apply Hg'. }
      apply list_lookup_singleton_Some in Hk as [Hk0 <-].
      assert (k = List.length forest) as -> by lia.
      rewrite HN', HcN', HN. split; [| split; [done | split; [done | split]]].
      * rewrite Hnodes', Hflen. by apply nth_insert_eq.
      * done.
      * simpl. lia.
    + (* the shapes of two rows share no Branch *)
      intros k1 k2 a1 a2 s1 s2 Hk12. rewrite Hcur'. intros Hk1 Hk2 Hs1 Hs2.
      assert (Hfresh : ∀ k a s,
                k ≠ j →
                <[j := Z.of_nat (That.nextIndex that)]>
                  (<[i := (-1)%Z]> (That.currIndexToLabel that)) !! k
                = Some (Z.of_nat (N + a)) →
                (forest ++ [t3]) !! a = Some s →
                k ≠ i ∧ That.currIndexToLabel that !! k = Some (Z.of_nat (N + a))
                ∧ forest !! a = Some s).
      { intros k a s Hkj Hk Hs.
        rewrite list_lookup_insert_ne in Hk by done.
        apply list_lookup_insert_Some in Hk as [(_ & Hk & _) | (Hki & Hk)];
          [lia |].
        split; [done |]. split; [done |].
        apply lookup_app_Some in Hs as [Hs | [Hlen Hs]]; [done |].
        apply Hbelow in Hk. lia. }
      assert (Hnew3 : ∀ a s,
                <[j := Z.of_nat (That.nextIndex that)]>
                  (<[i := (-1)%Z]> (That.currIndexToLabel that)) !! j
                = Some (Z.of_nat (N + a)) →
                (forest ++ [t3]) !! a = Some s → s = t3).
      { intros a s Hk Hs.
        rewrite list_lookup_insert_eq in Hk by (rewrite length_insert; lia).
        assert (a = List.length forest) as -> by (injection Hk; lia).
        rewrite list_lookup_middle in Hs by done. congruence. }
      assert (Hold3 : ∀ k a s m,
                k ≠ i → k ≠ j →
                That.currIndexToLabel that !! k = Some (Z.of_nat (N + a)) →
                forest !! a = Some s → m ∈ refs s → m ∉ refs t3).
      { intros k a s m Hki Hkj Hk Hs Hm Hm3. rewrite Hrefs3 in Hm3.
        apply elem_of_cons in Hm3 as [-> | Hm3].
        - destruct (Hg a s Hs) as (_ & _ & _ & Hin & _). apply Hin in Hm.
          destruct Hkeep as [Hgrow _]. unfold n3 in Hm. lia.
        - by apply (Hothers k a s m). }
      intros m Hm1 Hm2.
      destruct (decide (k1 = j)) as [-> | Hk1j];
        destruct (decide (k2 = j)) as [-> | Hk2j]; [done | | |].
      * rewrite (Hnew3 _ _ Hk1 Hs1) in Hm1.
        destruct (Hfresh _ _ _ Hk2j Hk2 Hs2) as (Hk2i & Hk2' & Hs2').
        by apply (Hold3 k2 a2 s2 m).
      * rewrite (Hnew3 _ _ Hk2 Hs2) in Hm2.
        destruct (Hfresh _ _ _ Hk1j Hk1 Hs1) as (Hk1i & Hk1' & Hs1').
        by apply (Hold3 k1 a1 s1 m).
      * destruct (Hfresh _ _ _ Hk1j Hk1 Hs1) as (Hk1i & Hk1' & Hs1').
        destruct (Hfresh _ _ _ Hk2j Hk2 Hs2) as (Hk2i & Hk2' & Hs2').
        by apply (Hapart k1 k2 a1 a2 s1 s2 Hk12 Hk1' Hk2' Hs1' Hs2' m).
    + (* sortIndices *)
      intros r c. rewrite HI'. intros Hc.
      apply elem_nth_insert in Hc as [[_ Hc] | Hc]; [by inversion Hc |].
      apply elem_nth_insert in Hc as [[-> Hc] | Hc]; [| by apply HI].
      apply sortWithIndices_elems in Hc as [Hcj Hc]. split; [done |].
      by rewrite (square_row N _ j Hsq' Hj) in Hc.
    + rewrite Hleft'. by apply NoDup_filter.
    + rewrite Hleft', HcN'.
      pose proof (length_filter_out (That.indicesLeft that) i Hlnd) as Hf.
      rewrite <- Hllen. rewrite <- Hf; [lia |]. by apply Hleft.
    + intros k. rewrite Hleft', Hrem', has_app, list_elem_of_filter, Hleft.
      rewrite negb_True, Is_true_true, orb_false_iff.
      split; [intros (Hki & Hk & Hr) | intros (Hk & Hr & Hki)].
      * repeat split; try done. by destruct (Nat.eqb k i).
      * repeat split; try done. by rewrite Hki.
  - eapply node_of_label_keeps; [exact Hnode1 | |]; by rewrite Hn1'.
  - eapply node_of_label_keeps; [exact Hnode2 | |]; by rewrite Hn2'.
  - done.
  - by rewrite Hn1'.
  - by rewrite Hn2'.
  - done.
  - done.
  - done.
  - simpl. destruct Hkeep as [Hgrow _]. unfold n3. lia.
  - rewrite Hnodes'. simpl. by apply nth_insert_eq.
  - rewrite Hcur'. apply nth_insert_eq. rewrite length_insert. lia.
  - rewrite Hcur'. rewrite nth_insert_ne by done. apply nth_insert_eq. lia.
  - done.
Qed.

(** ** What holds at the head of the loop *)

Lemma joining_init matrix labels h0 :
  square (List.length matrix) matrix →
  joining (List.length matrix) (parseMatrix_init matrix labels) h0 [].
Proof.
  intros Hsq. set (N := List.length matrix).
  assert (Hcur : ∀ k l,
            map Z.of_nat (seq 0 N) !! k = Some l → l = Z.of_nat k ∧ k < N).
  { intros k l. change (map Z.of_nat (seq 0 N)) with (Z.of_nat <$> seq 0 N).
    rewrite list_lookup_fmap. intros Hk.
    destruct (seq 0 N !! k) as [x|] eqn:Hx; [| done].
    apply lookup_seq in Hx as [-> Hlt]. simpl in Hk. by injection Hk as <-. }
  split; simpl; fold N.
  - done.
  - done.
  - apply repeat_length.
  - by rewrite length_map, length_seq.
  - lia.
  - rewrite repeat_length. lia.
  - lia.
  - intros k l Hk. apply Hcur in Hk. lia.
  - intros k1 k2 l Hk1 Hk2 _. apply Hcur in Hk1, Hk2. lia.
  - by intros k t Hk.
  - by intros k1 k2 l1 l2 t1 t2 _ _ _ Hk.
  - intros r c. rewrite nth_lookup.
    change (map snd (map (fun i => sortWithIndices (nth i matrix []) i)
                         (seq 0 N)))
      with (snd <$> ((fun i => sortWithIndices (nth i matrix []) i)
                       <$> seq 0 N)).
    rewrite !list_lookup_fmap.
    destruct (seq 0 N !! r) as [x|] eqn:Hx; simpl; [| by inversion 1].
    apply lookup_seq in Hx as [-> Hlt]. simpl. intros Hc.
    apply sortWithIndices_elems in Hc as [Hne Hc]. split; [done |].
    by rewrite (square_row N matrix r Hsq Hlt) in Hc.
  - apply NoDup_seq.
  - apply length_seq.
  - intros k. rewrite elem_of_seq. split; [intros [_ Hk] | intros [Hk _]];
      (split; [lia | done]) || lia.
Qed.

(** Every state at the head of the loop is as the loop keeps it. *)
Lemma joins_joining matrix labels h0 that h :
  square (List.length matrix) matrix →
  joins matrix labels h0 that h →
  ∃ forest, joining (List.length matrix) that h forest.
Proof.
  intros Hsq. induction 1 as [|that h that' h' Hreach IH HcN Hstep].
  - exists []. by apply joining_init.
  - destruct IH as [forest Hj].
    destruct (search_picks that) as [Hnone | (i & j & Hs & Hi & Hij & Hc & Hri & _)].
    { intros r Hr. by apply (j_I _ _ _ _ Hj) in Hr as [? _]. }
    { by rewrite (join_step_fails that h Hnone) in Hstep. }
    rewrite (j_N _ _ _ _ Hj) in Hi.
    assert (Hjlt : j < List.length matrix)
      by (by apply (j_I _ _ _ _ Hj) in Hc as [_ ?]).
    destruct (join_step_keeps _ that h forest i j Hj HcN Hs Hi Hjlt Hij Hri)
      as (that2 & h2 & t & n1 & n2 & b1 & b2 & Hrun & Hj2 & _).
    rewrite Hrun in Hstep. injection Hstep as <- <-. by exists (forest ++ [t]).
Qed.

(** ** The loop, and the last join *)

Lemma join_loop_unfold fuel that :
  join_loop fuel that
  = if Nat.ltb 2 (That.cN that) then
      match fuel with
      | O => stuck
      | S fuel' => let* that := join_step that in join_loop fuel' that
      end
    else ret that.
Proof. by destruct fuel. Qed.

(** With fuel for its turns the loop stops: at a turn on which [search]
    finds no pair, with a TypeError, or with two rows left. *)
Lemma join_loop_runs matrix labels h0 :
  square (List.length matrix) matrix →
  ∀ fuel that h,
    joins matrix labels h0 that h →
    That.cN that ≤ fuel + 2 → 2 ≤ That.cN that →
    (∃ that' h',
       joins matrix labels h0 that' h' ∧ 2 < That.cN that'
       ∧ search that' = ((-1)%Z, (-1)%Z)
       ∧ join_loop fuel that h
         = Throw (TypeError
                    "Cannot read properties of undefined (reading '-1')") h')
    ∨ (∃ that' h',
         joins matrix labels h0 that' h' ∧ That.cN that' = 2
         ∧ join_loop fuel that h = Ok that' h').
Proof.
  intros Hsq. induction fuel as [|fuel IH]; intros that h Hreach Hfuel HcN;
    rewrite join_loop_unfold.
  { right. exists that, h. split; [done |]. split; [lia |].
    destruct (Nat.ltb_spec 2 (That.cN that)); [lia | done]. }
  destruct (Nat.ltb_spec 2 (That.cN that)) as [Hmore | Hdone].
  2: { right. exists that, h. split; [done |]. split; [lia | done]. }
  destruct (joins_joining _ _ _ _ _ Hsq Hreach) as [forest Hj].
  destruct (search_picks that)
    as [Hnone | (i & j & Hs & Hi & Hij & Hc & Hri & _)].
  { intros r Hr. by apply (j_I _ _ _ _ Hj) in Hr as [? _]. }
  { left. exists that, h. split; [done |]. split; [done |]. split; [done |].
    unfold bind. by rewrite (join_step_fails that h Hnone). }
  rewrite (j_N _ _ _ _ Hj) in Hi.
  assert (Hjlt : j < List.length matrix)
    by (by apply (j_I _ _ _ _ Hj) in Hc as [_ ?]).
  destruct (join_step_keeps _ that h forest i j Hj Hmore Hs Hi Hjlt Hij Hri)
    as (that2 & h2 & t & n1 & n2 & b1 & b2 & Hrun & Hj2 & Hrest).
  assert (HcN2 : That.cN that2 = That.cN that - 1) by (by decompose [and] Hrest).
  rewrite (bind_Ok _ _ _ _ _ Hrun).
  apply IH; [by eapply joins_turn | lia | lia].
Qed.

Lemma same_but_parents_fields h h' n b :
  same_but_parents h h' → h !! n = Some b →
  ∃ b', h' !! n = Some b' ∧ Br.id b' = Br.id b
        ∧ Br.length b' = Br.length b ∧ Br.children b' = Br.children b.
Proof.
  intros Hs Hb. specialize (Hs n). rewrite Hb in Hs.
  destruct (h' !! n) as [b'|]; [| done].
  exists b'. split; [done |]. simpl in Hs.
  by injection Hs as ? ? ? _ _ _.
Qed.

(** The last join, of the two rows left, and what [parseMatrix] does to the
    tree after it. *)
Lemma join_last_rooted N that h forest fuel :
  joining N that h forest → That.cN that = 2 → N ≤ fuel →
  ∃ i j root hf n1 n2 broot b1 b2,
    That.indicesLeft that = [i; j]
    ∧ (let* tree := join_last that in
       do Branch.fixParenthood fuel tree false in
       Branch.fixDistances fuel tree) h = Ok root hf
    ∧ node_of_label that h hf (nth i (That.currIndexToLabel that) 0%Z) n1
    ∧ node_of_label that h hf (nth j (That.currIndexToLabel that) 0%Z) n2
    ∧ n1 ≠ n2
    ∧ hf !! root = Some broot ∧ Br.parent broot = None
    ∧ Br.children broot = [n1; n2]
    ∧ hf !! n1 = Some b1 ∧ hf !! n2 = Some b2
    ∧ Br.parent b1 = Some root ∧ Br.parent b2 = Some root
    ∧ (Br.length b1 == at2 (That.D that) i j / 2)%Q
    ∧ (Br.length b2 == at2 (That.D that) i j / 2)%Q.
Proof.
  intros Hj HcN Hfuel.
  pose proof (j_left_len _ _ _ _ Hj) as Hllen.
  pose proof (j_left_nodup _ _ _ _ Hj) as Hlnd.
  pose proof (j_left _ _ _ _ Hj) as Hleft.
  destruct (That.indicesLeft that) as [|i [|j [|x rest]]] eqn:Hl;
    simpl in Hllen; try lia.
  assert (Hij : i ≠ j).
  { apply NoDup_cons in Hlnd as [Hi _]. intros ->. apply Hi. left. }
  assert (Hi : i < N) by (apply Hleft; left).
  assert (Hjlt : j < N) by (apply Hleft; right; left).
  destruct (setUpNode_pair N that h forest i j (at2 (That.D that) i j / 2)%Q
              (at2 (That.D that) i j / 2)%Q Hj Hi Hjlt Hij)
    as (n1 & that1 & h1 & n2 & that2 & h2 & b1 & b2 & t1 & t2 & Hrun1 & Hrun2
        & Hb1 & Hb2 & Hlen1 & Hlen2 & Hne & Hroot1 & Hroot2 & Hlt1 & Hlt2
        & Hnd12 & Hin12 & Hlv1 & Hlv2 & Hkeep & Hg2 & Hsame & Hnode1 & Hnode2
        & _).
  set (n3 := List.length h2).
  set (b3 := Br.Mk "" 0 None [n1; n2] 0 0 1).
  set (h3 := h2 ++ [b3]).
  set (t := Sh n3 [t1; t2]).
  assert (Hlast : join_last that h = Ok n3 h3).
  { unfold join_last. rewrite Hl.
    rewrite (bind_Ok _ _ _ _ _ Hrun1). cbv beta. simpl snd. simpl fst.
    rewrite (bind_Ok _ _ _ _ _ Hrun2). cbv beta. simpl snd. simpl fst.
    apply new_Ok. }
  assert (Hkeep3 : keeps_children h2 h3) by apply keeps_children_alloc.
  assert (Hn1lt : n1 < List.length h2) by (by eapply lookup_lt_Some).
  assert (Hn2lt : n2 < List.length h2) by (by eapply lookup_lt_Some).
  assert (Hn1_3 : h3 !! n1 = Some b1) by (unfold h3; by rewrite lookup_app_l).
  assert (Hn2_3 : h3 !! n2 = Some b2) by (unfold h3; by rewrite lookup_app_l).
  assert (Hn3_3 : h3 !! n3 = Some b3) by (by apply list_lookup_middle).
  assert (Hrefs : refs t = n3 :: refs t1 ++ refs t2).
  { simpl. by rewrite app_nil_r. }
  assert (Ht : lists_tree h3 t).
  { apply lists_tree_node with b3; [done | by simpl; rewrite Hroot1, Hroot2 |].
    repeat constructor; eapply lists_tree_keeps; try done;
      intros m Hm; apply Hin12, elem_of_app; (by left) || (by right). }
  assert (Hn3out : n3 ∉ refs t1 ++ refs t2).
  { intros Hin. apply Hin12 in Hin. unfold n3 in Hin. lia. }
  assert (Hnd : NoDup (refs t)).
  { rewrite Hrefs. apply NoDup_cons. by split. }
  assert (Hlv : levels t ≤ fuel) by (simpl; lia).
  (* the parents, then the depths *)
  destruct (fixParenthood_walk fuel t h3 Ht Hnd Hlv)
    as (h4 & Hfix & Hsame34 & Hout & Hkids).
  simpl in Hfix, Hout, Hkids. rewrite app_nil_r in Hout.
  assert (Hn3_4 : h4 !! n3 = Some b3) by (by rewrite Hout).
  assert (Ht4 : tree_at h4 None t) by (by apply tree_at_node with b3;
    [| | simpl; rewrite Hroot1, Hroot2 |]).
  destruct (fixDistances_on_valid_tree fuel h4 t) as (h5 & Hdist & _);
    [done | done |].
  destruct (fixDistances_core _ _ _ _ _ Hdist) as [Hcore _].
  simpl in Hdist.
  (* the two Branches at the end *)
  assert (Hend : ∀ n b s,
            h3 !! n = Some b → tree_at h4 (Some n3) s → root_of s = n →
            ∃ b5, h5 !! n = Some b5 ∧ Br.id b5 = Br.id b
                  ∧ Br.length b5 = Br.length b
                  ∧ Br.children b5 = Br.children b
                  ∧ Br.parent b5 = Some n3).
  { intros n b s Hb Hs Hroot.
    destruct (same_but_parents_fields _ _ _ _ Hsame34 Hb)
      as (b4 & Hb4 & Hid4 & Hlen4 & Hch4).
    destruct (same_core_lookup _ _ _ _ Hcore Hb4) as (b5 & Hb5 & Hc5).
    unfold core in Hc5. injection Hc5 as Hid5 Hlen5 Hpar5 Hch5.
    exists b5. split; [done |]. split; [congruence |]. split; [congruence |].
    split; [congruence |]. rewrite Hpar5.
    inversion Hs as [? ? ? bs Hbs Hps _ _]; subst. simpl in Hb4. congruence. }
  apply Forall_cons in Hkids as [Hk1 Hk'].
  apply Forall_cons in Hk' as [Hk2 _].
  destruct (Hend n1 b1 t1 Hn1_3 Hk1 Hroot1)
    as (c1 & Hc1 & Hid1 & Hl1 & Hch1 & Hp1).
  destruct (Hend n2 b2 t2 Hn2_3 Hk2 Hroot2)
    as (c2 & Hc2 & Hid2 & Hl2 & Hch2 & Hp2).
  destruct (same_core_lookup _ _ _ _ Hcore Hn3_4) as (c3 & Hc3 & Hcore3).
  unfold core in Hcore3. injection Hcore3 as _ _ Hpar3 Hch3.
  exists i, j, n3, h5, n1, n2, c3, c1, c2.
  split; [done |]. split.
  { rewrite (bind_Ok _ _ _ _ _ Hlast). by rewrite (bind_Ok _ _ _ _ _ Hfix). }
  split.
  { eapply node_of_label_keeps; [exact Hnode1 | |]; rewrite Hc1, Hb1; simpl;
      congruence. }
  split.
  { eapply node_of_label_keeps; [exact Hnode2 | |]; rewrite Hc2, Hb2; simpl;
      congruence. }
  do 2 (split; [done |]). split; [done |]. split; [done |].
  do 4 (split; [done |]). split; [by rewrite Hl1 | by rewrite Hl2].
Qed.

(** ** The lengths of the joins *)



(** On the five taxa the loop comes, after two turns, to a turn that joins
    the rows 1 and 4, whose labels 5 and 6 name the Branches of these two
    turns: it gives them the lengths 3 and 2.  The last join then puts the
    new leaf [c] and the Branch of that turn, each of length 2, under the
    root. *)
Lemma five_taxa_run :
  ∃ that h that' h' b1 b2 hf broot c1 c2,
    joins five_taxa five_labels [] that h
    ∧ That.cN that = 3
    ∧ search that = (1%Z, 4%Z)
    ∧ nth 1 (That.currIndexToLabel that) 0%Z = 5%Z
    ∧ nth 4 (That.currIndexToLabel that) 0%Z = 6%Z
    ∧ join_step that h = Ok that' h'
    ∧ h' !! 2 = Some b1 ∧ h' !! 5 = Some b2
    ∧ (Br.length b1 == 3)%Q ∧ (Br.length b2 == 2)%Q
    ∧ parseMatrix 5 five_taxa five_labels [] = Ok 8 hf
    ∧ hf !! 8 = Some broot ∧ Br.children broot = [7; 6]
    ∧ hf !! 7 = Some c1 ∧ hf !! 6 = Some c2
    ∧ Br.id c1 = "c" ∧ (Br.length c1 == 2)%Q ∧ (Br.length c2 == 2)%Q.
Proof.
  do 10 eexists. split.
  { eapply joins_turn;
      [eapply joins_turn;
         [apply joins_start | vm_compute; lia | vm_compute; reflexivity]
      | vm_compute; lia | vm_compute; reflexivity]. }
  by_running.
Qed.
